(** * Kakoune display and highlighting core: a shallow embedding

    The definitions below follow [src/highlighters.cc], [src/word_db.cc],
    [src/display_buffer.hh] and [src/highlighter.hh].  Strongly typed integer
    units ([LineCount], [ByteCount], [CharCount], all wrapping an [int]) are
    modelled as [Z]; signed overflow is undefined behaviour in C++, so the
    development covers the executions in which no such overflow happens.
    Vector iterators are modelled as [nat] positions in a [list]. *)

From Stdlib Require Import ZArith Bool Ascii String List Lia.
From stdpp Require Import base option list gmap strings.

Local Open Scope Z_scope.

(** ** Byte coordinates *)

Module Coord.

(** Modelled from the spec: [coord.hh] is not part of the sources.  A
    [ByteCoord] is an ordered pair (line, column) compared lexicographically. *)
Record ByteCoord : Type := mkCoord { line : Z; column : Z }.

Definition ltb (a b : ByteCoord) : bool :=
  (line a <? line b) || ((line a =? line b) && (column a <? column b)).

Definition eqb (a b : ByteCoord) : bool :=
  (line a =? line b) && (column a =? column b).

(** [a <= b] is [not (b < a)], [a >= b] is [not (a < b)]. *)
Definition leb (a b : ByteCoord) : bool := negb (ltb b a).

Definition lt (a b : ByteCoord) : Prop :=
  line a < line b \/ (line a = line b /\ column a < column b).

Definition le (a b : ByteCoord) : Prop :=
  line a < line b \/ (line a = line b /\ column a <= column b).

(** [std::min(a, b)] returns [a] unless [b < a]; [std::max(a, b)] returns
    [a] unless [a < b]. *)
Definition min (a b : ByteCoord) : ByteCoord := if ltb b a then b else a.
Definition max (a b : ByteCoord) : ByteCoord := if ltb a b then b else a.

End Coord.

Export Coord(ByteCoord, mkCoord, line, column).

(** ** Faces *)

(** Modelled from the spec: [face.hh] and [color.hh] are not part of the
    sources.  A colour is the default colour, a named colour or an rgb
    triple; the attributes are a bit set, [Attribute::Normal] being the empty
    set. *)
Inductive Color : Type :=
| Default
| Black | Red | Green | Yellow | Blue | Magenta | Cyan | White
| RGB (r g b : Z).

#[global] Instance Color_eq_dec : EqDecision Color.
Proof. solve_decision. Defined.

Definition Normal : Z := 0.

Record Face : Type := mkFace { fg : Color; bg : Color; attributes : Z }.

(** ** Display atoms, lines and buffers ([display_buffer.hh]) *)

Module DisplayAtom.

Inductive Type_ : Type := BufferRange | ReplacedBufferRange | Text.

#[global] Instance Type_eq_dec : EqDecision Type_.
Proof. solve_decision. Defined.

(** The [m_buffer] pointer is left out: every atom of one display buffer
    refers to the buffer of the context. *)
Record t : Type := mk {
  m_type : Type_;
  m_begin : ByteCoord;
  m_end : ByteCoord;
  m_text : string;
  face : Face
}.

Definition has_buffer_range (a : t) : bool :=
  match m_type a with
  | BufferRange | ReplacedBufferRange => true
  | Text => false
  end.

Definition is_replaced (a : t) : bool :=
  match m_type a with ReplacedBufferRange => true | _ => false end.

(** [DisplayAtom(String str, Face face)] *)
Definition text (str : string) (f : Face) : t :=
  mk Text (mkCoord 0 0) (mkCoord 0 0) str f.

(** [DisplayAtom(buffer, begin, end)], with the default face. *)
Definition range (b e : ByteCoord) : t :=
  mk BufferRange b e EmptyString (mkFace Default Default Normal).

Definition set_face (f : Face) (a : t) : t :=
  mk (m_type a) (m_begin a) (m_end a) (m_text a) f.

Definition set_begin (p : ByteCoord) (a : t) : t :=
  mk (m_type a) p (m_end a) (m_text a) (face a).

Definition set_end (p : ByteCoord) (a : t) : t :=
  mk (m_type a) (m_begin a) p (m_text a) (face a).

End DisplayAtom.

Abbreviation DisplayAtom := DisplayAtom.t.
Abbreviation BufferRange := (ByteCoord * ByteCoord)%type.

Definition INT_MAX : Z := 2147483647.
Definition INT_MIN : Z := -2147483648.

Module DisplayLine.

(** A display line is its atom list.  The class also caches [m_range]; every
    member that changes the atom list recomputes it, and the callbacks that
    mutate an atom through an iterator ([apply_face], [replace]) keep its
    coordinates, so [range()] is modelled as a function of the atoms. *)
Abbreviation t := (list DisplayAtom.t).

(** Modelled from the spec: [DisplayLine::compute_range] lives in
    [display_buffer.cc], which is not part of the sources.  The range is
    (min begin, max end) over the atoms that have a buffer range, starting
    from the sentinel with which the header initialises [m_range]. *)
Definition range (l : t) : BufferRange :=
  fold_left
    (fun r a =>
       if DisplayAtom.has_buffer_range a
       then (Coord.min (fst r) (DisplayAtom.m_begin a),
             Coord.max (snd r) (DisplayAtom.m_end a))
       else r)
    l (mkCoord INT_MAX INT_MAX, mkCoord INT_MIN INT_MIN).

(** Modelled from the spec: [DisplayLine::split(it, pos)] lives in
    [display_buffer.cc].  [pos] must lie strictly inside the range of a
    [BufferRange] atom (the assertions of the original); the atom becomes the
    two adjacent atoms [begin,pos) and [pos,end) with the same face, and the
    returned iterator, the position [it], points to the first of them. *)
Definition split (l : t) (it : nat) (pos : ByteCoord) : option t :=
  match l !! it with
  | None => None
  | Some a =>
      if bool_decide (DisplayAtom.m_type a = DisplayAtom.BufferRange)
         && Coord.ltb (DisplayAtom.m_begin a) pos
         && Coord.ltb pos (DisplayAtom.m_end a)
      then Some (take it l
                 ++ DisplayAtom.set_end pos a :: DisplayAtom.set_begin pos a
                 :: drop (S it) l)
      else None
  end.

(** [insert(it, atom)] *)
Definition insert (l : t) (it : nat) (a : DisplayAtom) : t :=
  take it l ++ a :: drop it l.

(** A callback applied in place to the atom under an iterator. *)
Definition apply_at (f : DisplayAtom -> DisplayAtom) (it : nat) (l : t) : t :=
  alter f it l.

End DisplayLine.

Abbreviation DisplayLine := (list DisplayAtom.t).

Module DisplayBuffer.

(** [m_range] is the cached range, which [compute_range] fills in and
    [range()] returns. *)
Record t : Type := mk { m_lines : list DisplayLine; m_range : BufferRange }.

(** The header documents [range()] as the smallest range that contains every
    display atom.  This is the part of that invariant the highlighters rely
    on: the cached range contains the range of every atom. *)
Definition range_contains_atoms (d : t) : bool :=
  forallb
    (forallb
       (fun a =>
          negb (DisplayAtom.has_buffer_range a)
          || (Coord.leb (fst (m_range d)) (DisplayAtom.m_begin a)
              && Coord.leb (DisplayAtom.m_end a) (snd (m_range d)))))
    (m_lines d).

End DisplayBuffer.

Abbreviation DisplayBuffer := DisplayBuffer.t.

(** ** Range application: [highlight_range] ([highlighters.cc], l. 27-66) *)

Section HighlightRange.

Variables (begin end_ : ByteCoord) (skip_replaced : bool).
Variable func : DisplayAtom -> DisplayAtom.

(** The loop over the atoms of one line.  [atom_it] is the position of the
    iterator in the (growing) atom vector; the loop stops when it reaches
    [line.end()].  Every iteration moves the iterator one position closer to
    the end, whatever it splits, so the atom count of the line bounds the
    number of iterations: [fuel] is that bound, and [None] is returned when
    it runs out or when an assertion of [split] fails. *)
Fixpoint highlight_atoms (fuel : nat) (line : DisplayLine) (atom_it : nat)
  : option DisplayLine :=
  match line !! atom_it with
  | None => Some line
  | Some a =>
    match fuel with
    | O => None
    | S fuel =>
      let is_replaced := DisplayAtom.is_replaced a in
      if negb (DisplayAtom.has_buffer_range a) || (skip_replaced && is_replaced)
      then highlight_atoms fuel line (S atom_it)
      else if Coord.leb end_ (DisplayAtom.m_begin a)
              || Coord.leb (DisplayAtom.m_end a) begin
      then highlight_atoms fuel line (S atom_it)
      else
        (* atom_it = ++line.split(atom_it, begin) *)
        '(line, atom_it) ←
           (if negb is_replaced && Coord.ltb (DisplayAtom.m_begin a) begin
            then line' ← DisplayLine.split line atom_it begin;
                 Some (line', S atom_it)
            else Some (line, atom_it));
        a ← line !! atom_it;
        if negb is_replaced && Coord.ltb end_ (DisplayAtom.m_end a)
        then
          (* atom_it = line.split(atom_it, end); func; ++atom_it *)
          line ← DisplayLine.split line atom_it end_;
          highlight_atoms fuel (DisplayLine.apply_at func atom_it line)
                          (S (S atom_it))
        else
          highlight_atoms fuel (DisplayLine.apply_at func atom_it line)
                          (S atom_it)
    end
  end.

Definition highlight_line (line : DisplayLine) : option DisplayLine :=
  let range := DisplayLine.range line in
  if Coord.leb (snd range) begin || Coord.ltb end_ (fst range)
  then Some line
  else highlight_atoms (length line) line 0.

Definition highlight_range (display_buffer : DisplayBuffer)
  : option DisplayBuffer :=
  let range := DisplayBuffer.m_range display_buffer in
  if Coord.eqb begin end_
     || Coord.leb end_ (fst range)
     || Coord.leb (snd range) begin
  then Some display_buffer
  else
    lines ← mapM highlight_line (DisplayBuffer.m_lines display_buffer);
    Some (DisplayBuffer.mk lines range).

(** *** The effect of [highlight_range] on one atom *)

Definition overlaps (a : DisplayAtom) : bool :=
  Coord.ltb (DisplayAtom.m_begin a) end_ && Coord.ltb begin (DisplayAtom.m_end a).

(** What the loop makes of a [BufferRange] atom that overlaps [begin, end):
    the part before [begin] and the part from [end] on are cut off and kept
    as they are, [func] is applied to the part in between. *)
Definition highlight_split (a : DisplayAtom) : list DisplayAtom :=
  let left :=
    if Coord.ltb (DisplayAtom.m_begin a) begin
    then [DisplayAtom.set_end begin a] else [] in
  let a1 :=
    if Coord.ltb (DisplayAtom.m_begin a) begin
    then DisplayAtom.set_begin begin a else a in
  if Coord.ltb end_ (DisplayAtom.m_end a1)
  then left ++ [func (DisplayAtom.set_end end_ a1); DisplayAtom.set_begin end_ a1]
  else left ++ [func a1].

(** The atoms that replace [a] in its line: atoms without a buffer range,
    replaced atoms when [skip_replaced] is set and atoms that do not overlap
    [begin, end) stay; an overlapping replaced atom receives [func] whole,
    without any split; an overlapping [BufferRange] atom is split at [begin]
    and at [end] where it straddles them. *)
Definition highlight_atom (a : DisplayAtom) : list DisplayAtom :=
  if negb (DisplayAtom.has_buffer_range a) then [a]
  else if skip_replaced && DisplayAtom.is_replaced a then [a]
  else if negb (overlaps a) then [a]
  else if DisplayAtom.is_replaced a then [func a]
  else highlight_split a.

(** The reading of section 4.2 of the specification, steps 1 to 4 in order:
    after the [skip_replaced] test, an atom that straddles [begin] is split
    at [begin] and one that straddles [end] is split at [end], whatever its
    variant. *)
Definition highlight_atom_claimed (a : DisplayAtom) : list DisplayAtom :=
  if negb (DisplayAtom.has_buffer_range a) then [a]
  else if skip_replaced && DisplayAtom.is_replaced a then [a]
  else if negb (overlaps a) then [a]
  else highlight_split a.

(** What [highlight_range] makes of one line: nothing when the range of the
    line misses [begin, end), the atom by atom rewriting otherwise. *)
Definition highlight_line_result (line : DisplayLine) : DisplayLine :=
  let range := DisplayLine.range line in
  if Coord.leb (snd range) begin || Coord.ltb end_ (fst range)
  then line
  else flat_map highlight_atom line.

End HighlightRange.

(** ** The buffer and the context, as far as the highlighters read them *)

(** Modelled from the spec: [buffer.hh] is not part of the sources.  The
    highlighters read the lines of the buffer (each ends with a newline) and
    its timestamp. *)
Record Buffer : Type := mkBuffer { lines : list string; timestamp : Z }.

Definition line_count (buffer : Buffer) : Z := Z.of_nat (length (lines buffer)).

Record Selection : Type := mkSelection { anchor : ByteCoord; cursor : ByteCoord }.

(** [LineAndFlag] is [std::tuple<int, Color, String>]. *)
Definition LineAndFlag : Type := Z * Color * string.

(** Modelled from the spec: [context.hh] is not part of the sources.  The
    option manager is represented by the values of the options of type
    [std::vector<LineAndFlag>]. *)
Record Context : Type := mkContext {
  buffer : Buffer;
  selections : list Selection;
  main_index : nat;
  line_flags_option : string -> list LineAndFlag
}.

(** [highlighter.hh] *)
Inductive HighlightFlags : Type := Highlight | MoveOnly.

#[global] Instance HighlightFlags_eq_dec : EqDecision HighlightFlags.
Proof. solve_decision. Defined.

(** ** Simple highlighters ([highlighters.cc]) *)

(** [apply_face], l. 152-162 *)
Definition apply_face (face : Face) (atom : DisplayAtom) : DisplayAtom :=
  let old := DisplayAtom.face atom in
  DisplayAtom.set_face
    (mkFace (if bool_decide (fg face <> Default) then fg face else fg old)
            (if bool_decide (bg face <> Default) then bg face else bg old)
            (if bool_decide (attributes face <> Normal)
             then Z.lor (attributes old) (attributes face)
             else attributes old))
    atom.

(** *** Formatting of line numbers *)





Fixpoint spaces (n : nat) : string :=
  match n with O => EmptyString | S n => String " " (spaces n) end.




Section Highlighters.

(** The face registry ([face_registry.hh]) and [Buffer::char_next] are not
    part of the sources; the highlighters are parameterised by them. *)
Variable get_face : string -> Face.
Variable char_next : Buffer -> ByteCoord -> ByteCoord.
(** [String::char_length], the number of code points of a string
    ([utf8.hh] is not part of the sources). *)
Variable char_length : string -> Z.

(** [fill_factory], l. 166-182: the highlighter it returns. *)
Definition fill (facespec : string) (context : Context) (flags : HighlightFlags)
    (display_buffer : DisplayBuffer) : option DisplayBuffer :=
  let range := DisplayBuffer.m_range display_buffer in
  highlight_range (fst range) (snd range) true (apply_face (get_face facespec))
                  display_buffer.



(** [highlight_selections], l. 568-593.  The two loops run over the
    selections with their index. *)
Definition highlight_selection_ranges (context : Context)
    (sels : list (nat * Selection)) (display_buffer : DisplayBuffer)
  : option DisplayBuffer :=
  foldl
    (fun acc '(i, sel) =>
       d ← acc;
       let forward := Coord.leb (anchor sel) (cursor sel) in
       let begin := if forward then anchor sel
                    else char_next (buffer context) (cursor sel) in
       let end_ := if forward then cursor sel
                   else char_next (buffer context) (anchor sel) in
       let primary := bool_decide (i = main_index context) in
       let sel_face :=
         get_face (if primary then "PrimarySelection" else "SecondarySelection") in
       highlight_range begin end_ false (apply_face sel_face) d)
    (Some display_buffer) sels.

Definition highlight_selection_cursors (context : Context)
    (sels : list (nat * Selection)) (display_buffer : DisplayBuffer)
  : option DisplayBuffer :=
  foldl
    (fun acc '(i, sel) =>
       d ← acc;
       let primary := bool_decide (i = main_index context) in
       let cur_face :=
         get_face (if primary then "PrimaryCursor" else "SecondaryCursor") in
       highlight_range (cursor sel) (char_next (buffer context) (cursor sel))
                       false (apply_face cur_face) d)
    (Some display_buffer) sels.

Definition highlight_selections (context : Context) (flags : HighlightFlags)
    (display_buffer : DisplayBuffer) : option DisplayBuffer :=
  if bool_decide (flags <> Highlight) then Some display_buffer
  else
    let sels := imap (fun i sel => (i, sel)) (selections context) in
    d ← highlight_selection_ranges context sels display_buffer;
    highlight_selection_cursors context sels d.

(** [flag_lines_factory], l. 629-663: the highlighter it returns. *)
Definition flag_lines (bg : Color) (option_name : string) (context : Context)
    (flags : HighlightFlags) (display_buffer : DisplayBuffer) : DisplayBuffer :=
  let lines := line_flags_option context option_name in
  let width := foldl (fun width l => Z.max width (char_length (snd l))) 0 lines in
  let empty := spaces (Z.to_nat width) in
  DisplayBuffer.mk
    (map
       (fun line =>
          let line_num := Coord.line (fst (DisplayLine.range line)) + 1 in
          let it := List.find (fun l => fst (fst l) =? line_num) lines in
          let content := match it with Some l => snd l | None => empty end in
          let content :=
            (content ++ spaces (Z.to_nat (width - char_length content)))%string in
          let atom :=
            DisplayAtom.text content
              (mkFace (match it with Some l => snd (fst l) | None => Default end)
                      bg Normal) in
          DisplayLine.insert line 0 atom)
       (DisplayBuffer.m_lines display_buffer))
    (DisplayBuffer.m_range display_buffer).

End Highlighters.

(** *** Vocabulary for the statements about line numbers *)



Definition first_line (line : DisplayLine) : Z :=
  Coord.line (fst (DisplayLine.range line)).




(** ** Cached regex matches ([highlighters.cc], l. 710-794) *)

(** Modelled from the spec: [line_modification.hh] is not part of the
    sources.  A line modification says that the lines [old_line] to
    [old_line + num_removed] of the old buffer became the lines [new_line] to
    [new_line + num_added] of the new one, with
    [new_line = old_line + the sum of the differences of the modifications
    before it]; [diff] is the shift that the modification, together with
    those before it, applies to the lines that follow it. *)
Record LineModification : Type := mkModif {
  old_line : Z;
  new_line : Z;
  num_removed : Z;
  num_added : Z
}.

Definition diff (m : LineModification) : Z :=
  new_line m - old_line m + num_added m - num_removed m.

(** [boost::regex] is an external library.  A regex is the empty regex (the
    default constructed one, for which [empty()] holds) or a compiled
    pattern. *)
Inductive Regex : Type := EmptyRegex | Compiled (pattern : string).

Definition Regex_empty (r : Regex) : bool :=
  match r with EmptyRegex => true | Compiled _ => false end.

Module RegexMatch.

Record t : Type := mk { timestamp : Z; line : Z; begin : Z; end_ : Z }.

Definition begin_coord (m : t) : ByteCoord := mkCoord (line m) (begin m).
Definition end_coord (m : t) : ByteCoord := mkCoord (line m) (end_ m).

Definition set_line (l : Z) (m : t) : t := mk (timestamp m) l (begin m) (end_ m).
Definition set_timestamp (ts : Z) (m : t) : t := mk ts (line m) (begin m) (end_ m).

End RegexMatch.

Abbreviation RegexMatch := RegexMatch.t.
Abbreviation RegexMatchList := (list RegexMatch.t).

(** [std::lower_bound(first, last, value, comp)] on a range that is
    partitioned with respect to [comp(element, value)], as the standard
    requires: the position of the first element for which [comp] is false. *)
Fixpoint lower_bound {A : Type} (comp : A -> bool) (l : list A) : nat :=
  match l with
  | [] => O
  | x :: l => if comp x then S (lower_bound comp l) else O
  end.

(** [std::inplace_merge(first, middle, last, comp)] on two sorted ranges: the
    stable merge, which takes from the second range only an element that is
    smaller than the current element of the first. *)
Fixpoint merge {A : Type} (comp : A -> A -> bool) (l1 : list A) : list A -> list A :=
  fix merge_l1 (l2 : list A) : list A :=
    match l1, l2 with
    | [], _ => l2
    | _, [] => l1
    | x :: l1', y :: l2' =>
        if comp y x then y :: merge_l1 l2' else x :: merge comp l1' l2
    end.

(** [buffer[line]]; a line outside the buffer is outside the domain of
    [Buffer::operator[]]. *)
Definition buffer_line (buffer : Buffer) (line : Z) : option string :=
  if 0 <=? line then lines buffer !! Z.to_nat line else None.

Section Matches.

(** The successive matches of a regex in one line, as
    [boost::regex_iterator<String::const_iterator>] enumerates them, each
    given by the offsets in the line at which the whole match begins and
    ends. *)
Variable regex_iterator : Regex -> string -> list (Z * Z).

(** The inner loop shared by [find_matches] and [update_matches]: one match
    record for each match of the regex in line number [line]. *)
Definition line_matches (buf_timestamp : Z) (regex : Regex) (line : Z) (l : string)
  : RegexMatchList :=
  map (fun be => RegexMatch.mk buf_timestamp line (fst be) (snd be))
      (regex_iterator regex l).

(** The loop [for (line = first; line < end; ++line)] over consecutive lines
    of the buffer. *)
Fixpoint scan_lines (buf_timestamp : Z) (regex : Regex) (line : Z) (ls : list string)
  : RegexMatchList :=
  match ls with
  | [] => []
  | l :: ls =>
      line_matches buf_timestamp regex line l
      ++ scan_lines buf_timestamp regex (line + 1) ls
  end.

(** [find_matches], l. 722-735 *)
Definition find_matches (buffer : Buffer) (matches : RegexMatchList) (regex : Regex)
  : RegexMatchList :=
  matches ++ scan_lines (timestamp buffer) regex 0 (lines buffer).

(** The body of the first loop of [update_matches]: [None] when the match is
    erased, the updated match otherwise.  The two assertions on the
    coordinates of a match that is kept are checks of the debug build, which
    read the length of the line; they are left out. *)
Definition update_match (buffer : Buffer) (modifs : list LineModification)
    (it : RegexMatch) : option RegexMatch :=
  let modif_it := lower_bound (fun c => old_line c <? RegexMatch.line it) modifs in
  let erase :=
    match modifs !! modif_it with
    | Some c => old_line c =? RegexMatch.line it
    | None => false
    end in
  let '(erase, line) :=
    if negb erase && negb (modif_it =? 0)%nat
    then match modifs !! (modif_it - 1)%nat with
         | Some prev =>
             (RegexMatch.line it <=? old_line prev + num_removed prev,
              RegexMatch.line it + diff prev)
         | None => (erase, RegexMatch.line it)
         end
    else (erase, RegexMatch.line it) in
  let erase := erase || (line_count buffer <=? line) in
  if erase then None
  else Some (RegexMatch.set_timestamp (timestamp buffer) (RegexMatch.set_line line it)).

(** The loop over the lines of one modification: at most [count] lines from
    [line] on, as long as [line < buffer.line_count()]. *)
Fixpoint rescan_lines (buffer : Buffer) (regex : Regex) (count : nat) (line : Z)
  : option RegexMatchList :=
  match count with
  | O => Some []
  | S count =>
      if line <? line_count buffer
      then l ← buffer_line buffer line;
           rest ← rescan_lines buffer regex count (line + 1);
           Some (line_matches (timestamp buffer) regex line l ++ rest)
      else Some []
  end.

Fixpoint rescan_modifs (buffer : Buffer) (regex : Regex)
    (modifs : list LineModification) : option RegexMatchList :=
  match modifs with
  | [] => Some []
  | modif :: modifs =>
      found ← rescan_lines buffer regex (Z.to_nat (num_added modif + 1))
                           (new_line modif);
      rest ← rescan_modifs buffer regex modifs;
      Some (found ++ rest)
  end.

(** [update_matches], l. 737-794.  The first loop compacts the matches that
    are kept to the front of the vector and [erase] drops the rest, which
    amounts to [omap]; the matches found in the modified lines are pushed
    behind them and the two sorted parts are merged by [begin_coord]. *)
Definition update_matches (buffer : Buffer) (modifs : list LineModification)
    (matches : RegexMatchList) (regex : Regex) : option RegexMatchList :=
  let kept := omap (update_match buffer modifs) matches in
  found ← rescan_modifs buffer regex modifs;
  Some (merge (fun lhs rhs =>
                 Coord.ltb (RegexMatch.begin_coord lhs) (RegexMatch.begin_coord rhs))
              kept found).

End Matches.

(** Modelled from the spec: [compute_line_modifications] is not part of the
    sources.  This is the contract of its result: the list [modifs] describes
    how the lines [old] became the lines [new] when, modification after
    modification, the lines before [old_line] are the same in both, the
    [num_removed + 1] lines from [old_line] on are replaced by the
    [num_added + 1] lines from [new_line] on, and the lines after the last
    modification are the same.  [o] and [n] are the line numbers of the heads
    of [old] and [new]. *)
Fixpoint describes_from (o n : Z) (old new : list string)
    (modifs : list LineModification) : bool :=
  match modifs with
  | [] => bool_decide (old = new)
  | m :: modifs =>
      let u := old_line m - o in
      (0 <=? u) && (new_line m =? n + u)
      && (0 <=? num_removed m) && (0 <=? num_added m)
      && bool_decide (take (Z.to_nat u) old = take (Z.to_nat u) new)
      && (u + num_removed m <? Z.of_nat (length old))
      && (u + num_added m <? Z.of_nat (length new))
      && describes_from (old_line m + num_removed m + 1)
                        (new_line m + num_added m + 1)
                        (drop (Z.to_nat (u + num_removed m + 1)) old)
                        (drop (Z.to_nat (u + num_added m + 1)) new)
                        modifs
  end.

Definition describes (old new : Buffer) (modifs : list LineModification) : bool :=
  describes_from 0 0 (lines old) (lines new) modifs.

(** The shift that the modifications [pfx], all of which lie before some
    line, apply to that line: none when there is no modification, the [diff]
    of the last one otherwise. *)
Definition shift_after (pfx : list LineModification) (s : Z) : Prop :=
  match last pfx with
  | None => s = 0
  | Some p => diff p = s
  end.

(** The order in which [update_matches] merges. *)
Definition match_before (lhs rhs : RegexMatch) : bool :=
  Coord.ltb (RegexMatch.begin_coord lhs) (RegexMatch.begin_coord rhs).

(** ** Regions ([highlighters.cc], l. 796-1076) *)

Module RegionMatches.

Record t : Type := mk {
  begin_matches : RegexMatchList;
  end_matches : RegexMatchList;
  recurse_matches : RegexMatchList
}.

Definition compare_to_begin (rhs : ByteCoord) (lhs : RegexMatch) : bool :=
  Coord.ltb (RegexMatch.begin_coord lhs) rhs.

(** [find_next_begin], l. 807-811: the position of the iterator it returns. *)
Definition find_next_begin (m : t) (pos : ByteCoord) : nat :=
  lower_bound (compare_to_begin pos) (begin_matches m).

(** The loop [while (rec_it != end and rec_it->end_coord() < limit)], which
    counts the recurse matches it steps over. *)
Fixpoint count_recurse (limit : ByteCoord) (recs : RegexMatchList) : nat :=
  match recs with
  | [] => O
  | r :: recs =>
      if Coord.ltb (RegexMatch.end_coord r) limit
      then S (count_recurse limit recs)
      else O
  end.

(** One result of the [while (true)] loop of [find_matching_end]: the
    iterator returned, with, as ghost state, the recurse matches that raised
    the recursion level and the end matches that were consumed to lower it
    again, in the order in which the loop met them. *)
Record trace : Type := mkTrace {
  result : nat;
  counted : RegexMatchList;
  consumed : RegexMatchList
}.

(** [find_matching_end], l. 813-841.  [std::lower_bound(end_it, ...)] is the
    search from the current iterator on.  Every round that does not return
    lowers the recursion level by one, and the level is raised once for each
    recurse match at most, so one round more than there are recurse matches
    is enough fuel; [None] is returned when the fuel runs out. *)
Fixpoint find_matching_end_loop (fuel : nat) (m : t) (end_it rec_it : nat)
    (recurse_level : Z) (beg_pos : ByteCoord) (tr : trace) : option trace :=
  match fuel with
  | O => None
  | S fuel =>
      let end_it :=
        (end_it + lower_bound (compare_to_begin beg_pos)
                              (drop end_it (end_matches m)))%nat in
      let rec_it :=
        (rec_it + lower_bound (compare_to_begin beg_pos)
                              (drop rec_it (recurse_matches m)))%nat in
      match end_matches m !! end_it with
      | None => Some (mkTrace end_it (counted tr) (consumed tr))
      | Some e =>
          let k := count_recurse (RegexMatch.begin_coord e)
                                 (drop rec_it (recurse_matches m)) in
          let recurse_level := recurse_level + Z.of_nat k in
          let tr := mkTrace end_it
                      (counted tr ++ take k (drop rec_it (recurse_matches m)))
                      (consumed tr) in
          let rec_it := (rec_it + k)%nat in
          if recurse_level =? 0 then Some tr
          else find_matching_end_loop fuel m end_it rec_it (recurse_level - 1)
                 (RegexMatch.end_coord e)
                 (mkTrace end_it (counted tr) (consumed tr ++ [e]))
      end
  end.

Definition find_matching_end_trace (m : t) (beg_pos : ByteCoord) : option trace :=
  find_matching_end_loop (S (length (recurse_matches m))) m 0 0 0 beg_pos
                         (mkTrace 0 [] []).

Definition find_matching_end (m : t) (beg_pos : ByteCoord) : option nat :=
  result <$> find_matching_end_trace m beg_pos.

End RegionMatches.

Abbreviation RegionMatches := RegionMatches.t.

Record RegionDesc : Type := mkRegionDesc {
  m_begin : Regex;
  m_end : Regex;
  m_recurse : Regex
}.

Module Region.
Record t : Type := mk { begin : ByteCoord; end_ : ByteCoord; group : string }.
End Region.

Abbreviation RegionList := (list Region.t).
Abbreviation NamedRegionDescList := (list (string * RegionDesc)).

(** The outcome of a constructor or a factory: the value built, or the
    [runtime_error] thrown. *)
Inductive Result (A : Type) : Type :=
| Ok (a : A)
| runtime_error (what : string).
Arguments Ok {A} a.
Arguments runtime_error {A} what.

Definition is_error {A : Type} (r : Result A) : bool :=
  match r with Ok _ => false | runtime_error _ => true end.

Module RegionsHighlighter.

Record t : Type := mk {
  m_regions : NamedRegionDescList;
  m_default_group : string
}.

(** The constructor, l. 876-885 *)
Definition ctor (regions : NamedRegionDescList) (default_group : string) : Result t :=
  if bool_decide (regions = [])
  then runtime_error "at least one region must be defined"
  else if existsb (fun region => Regex_empty (m_begin (snd region))
                                 || Regex_empty (m_end (snd region))) regions
  then runtime_error "invalid regex for region highlighter"
  else Ok (mk regions default_group).

Record Cache : Type := mkCache {
  timestamp : Z;
  matches : list RegionMatches;
  regions : RegionList
}.

Abbreviation RegionAndMatch := (nat * nat)%type.

(** The loop of [find_next_begin], l. 955-968, over the regions from number
    [i] on. *)
Fixpoint find_next_begin_from (all : list RegionMatches) (pos : ByteCoord)
    (i : nat) (rest : list RegionMatches) (res : RegionAndMatch) : RegionAndMatch :=
  match rest with
  | [] => res
  | matches :: rest =>
      let it := RegionMatches.find_next_begin matches pos in
      let res :=
        match RegionMatches.begin_matches matches !! it with
        | None => res
        | Some b =>
            match all !! fst res ≫= fun m => RegionMatches.begin_matches m !! snd res with
            | None => (i, it)
            | Some cur =>
                if Coord.ltb (RegexMatch.begin_coord b) (RegexMatch.begin_coord cur)
                then (i, it) else res
            end
        end in
      find_next_begin_from all pos (S i) rest res
  end.

(** [find_next_begin]; [cache.matches[0]] needs a first region. *)
Definition find_next_begin (cache_matches : list RegionMatches) (pos : ByteCoord)
  : option RegionAndMatch :=
  m0 ← cache_matches !! 0%nat;
  Some (find_next_begin_from cache_matches pos 1 (drop 1 cache_matches)
          (0%nat, RegionMatches.find_next_begin m0 pos)).

(** The position from which the next begin is searched once a region is
    closed by the end match [end_it]: its end, moved one column further when
    it is where the region begins.  That case carries the assertion that
    both matches are empty; [None] when it fails. *)
Definition next_position (beg_it end_it : RegexMatch) : option ByteCoord :=
  let end_coord := RegexMatch.end_coord end_it in
  if Coord.eqb end_coord (RegexMatch.begin_coord beg_it)
  then
    if Coord.eqb (RegexMatch.begin_coord beg_it) (RegexMatch.end_coord beg_it)
       && Coord.eqb (RegexMatch.begin_coord end_it) (RegexMatch.end_coord end_it)
    then Some (mkCoord (Coord.line end_coord) (Coord.column end_coord + 1))
    else None
  else Some end_coord.

(** The loop of [update_cache_ifn] that resolves the regions, l. 992-1026.
    [buffer_end] is [buffer.end_coord()].  [None] is returned when the fuel
    runs out, an iterator that cannot be dereferenced is dereferenced, or
    the assertion fails. *)
Fixpoint resolve_loop (fuel : nat) (m_regions : NamedRegionDescList)
    (cache_matches : list RegionMatches) (buffer_end : ByteCoord)
    (begin : RegionAndMatch) (regions : RegionList) : option RegionList :=
  m0 ← cache_matches !! 0%nat;
  if (fst begin =? 0)%nat
     && (snd begin =? length (RegionMatches.begin_matches m0))%nat
  then Some regions
  else
    match fuel with
    | O => None
    | S fuel =>
        matches ← cache_matches !! fst begin;
        named_region ← m_regions !! fst begin;
        beg_it ← RegionMatches.begin_matches matches !! snd begin;
        end_it ← RegionMatches.find_matching_end matches (RegexMatch.end_coord beg_it);
        match RegionMatches.end_matches matches !! end_it with
        | None =>
            Some (regions ++ [Region.mk (RegexMatch.begin_coord beg_it) buffer_end
                                        (fst named_region)])
        | Some e =>
            let regions :=
              regions ++ [Region.mk (RegexMatch.begin_coord beg_it)
                                    (RegexMatch.end_coord e) (fst named_region)] in
            pos ← next_position beg_it e;
            begin ← find_next_begin cache_matches pos;
            resolve_loop fuel m_regions cache_matches buffer_end begin regions
        end
    end.

(** There is one iteration for each begin match at most. *)
Definition total_begin_matches (cache_matches : list RegionMatches) : nat :=
  foldr (fun m n => (length (RegionMatches.begin_matches m) + n)%nat) 0%nat
        cache_matches.

Definition resolve_regions (m_regions : NamedRegionDescList)
    (cache_matches : list RegionMatches) (buffer_end : ByteCoord)
  : option RegionList :=
  begin ← find_next_begin cache_matches (mkCoord (-1) 0);
  resolve_loop (S (total_begin_matches cache_matches)) m_regions cache_matches
               buffer_end begin [].

End RegionsHighlighter.

(** Every match ends where it begins or later. *)
Definition well_formed_matches (l : RegexMatchList) : bool :=
  forallb (fun m => RegexMatch.begin m <=? RegexMatch.end_ m) l.

(** The list is sorted by [begin_coord]. *)
Fixpoint sorted_by_begin (l : RegexMatchList) : bool :=
  match l with
  | [] => true
  | x :: l' =>
      match l' with
      | [] => true
      | y :: _ => Coord.leb (RegexMatch.begin_coord x) (RegexMatch.begin_coord y)
      end && sorted_by_begin l'
  end.



(** The match lists of a region as [find_matches] and [update_matches]
    leave them: sorted by [begin_coord], which the binary searches rely on,
    and every begin or end match ends where it begins or later. *)
Definition well_formed_region (m : RegionMatches) : bool :=
  well_formed_matches (RegionMatches.begin_matches m)
  && well_formed_matches (RegionMatches.end_matches m)
  && sorted_by_begin (RegionMatches.begin_matches m)
  && sorted_by_begin (RegionMatches.end_matches m)
  && sorted_by_begin (RegionMatches.recurse_matches m).

Definition well_formed_cache (cache_matches : list RegionMatches) : bool :=
  forallb well_formed_region cache_matches.

(** The number of begin matches at [pos] or behind it, over all regions:
    what is left to the resolution loop when it searches from [pos]. *)
Definition begins_from (pos : ByteCoord) (cache_matches : list RegionMatches) : nat :=
  foldr (fun m n =>
           (length (List.filter (fun x => Coord.leb pos (RegexMatch.begin_coord x))
                                (RegionMatches.begin_matches m)) + n)%nat)
        0%nat cache_matches.

(** What [find_next_begin(cache, pos)] returns: the end iterator of the
    first region, or a begin match at [pos] or behind it. *)
Definition begin_found (cache_matches : list RegionMatches) (pos : ByteCoord)
    (res : nat * nat) : Prop :=
  (exists m0, cache_matches !! 0%nat = Some m0 /\
              res = (0%nat, length (RegionMatches.begin_matches m0))) \/
  (exists m b, cache_matches !! fst res = Some m /\
               RegionMatches.begin_matches m !! snd res = Some b /\
               Coord.le pos (RegexMatch.begin_coord b)).

(** *** The factory of the regions highlighter, l. 1032-1076 *)

(** Modelled from the spec: [parameters_parser.hh] is not part of the
    sources.  What the factory reads from the parser: the positional
    parameters, and the value of the switch [-default] when it is given. *)
Record ParametersParser : Type := mkParser {
  positional : list string;
  default_option : option string
}.

(** What the factory returns: the id and the hierarchical highlighter, made
    of the regions highlighter and of one empty group for each name. *)
Record RegionsHighlighterAndId : Type := mkHighlighterAndId {
  id : string;
  highlighter : RegionsHighlighter.t;
  groups : list string
}.

Definition string_empty (s : string) : bool :=
  match s with EmptyString => true | _ => false end.

Section RegionsFactory.

(** [boost::regex] accepts a pattern or throws [regex_error], whose message
    is [what()]. *)
Variable regex_valid : string -> bool.
Variable regex_error_what : string -> string.

(** [Regex{pattern, flags}] inside the [try] block: a [regex_error] becomes
    the [runtime_error] of the [catch] clause. *)
Definition compile (pattern : string) : Result Regex :=
  if regex_valid pattern then Ok (Compiled pattern)
  else runtime_error ("regex error: " ++ regex_error_what pattern).

(** The loop [for (i = 1; i < parser.positional_count(); i += 4)] over the
    positional parameters behind the id, four at a time. *)
Fixpoint parse_regions (params : list string)
  : Result (NamedRegionDescList * list string) :=
  match params with
  | group :: begin :: end_ :: recurse :: rest =>
      if string_empty group || string_empty begin || string_empty end_
      then runtime_error "group id, begin and end must not be empty"
      else
        match compile begin with
        | runtime_error what => runtime_error what
        | Ok begin =>
            match compile end_ with
            | runtime_error what => runtime_error what
            | Ok end_ =>
                match (if negb (string_empty recurse) then compile recurse
                       else Ok EmptyRegex) with
                | runtime_error what => runtime_error what
                | Ok recurse =>
                    match parse_regions rest with
                    | runtime_error what => runtime_error what
                    | Ok (regions, groups) =>
                        Ok ((group, mkRegionDesc begin end_ recurse) :: regions,
                            group :: groups)
                    end
                end
            end
        end
  | _ => Ok ([], [])
  end.

(** [regions_factory], from the test of the parameter count on; [parser] is
    the parser that the constructor of [ParametersParser] built from the
    parameters (the constructor throws on an unknown switch and on fewer
    than five positional parameters). *)
Definition regions_factory (parser : ParametersParser)
  : Result RegionsHighlighterAndId :=
  if negb (length (positional parser) mod 4 =? 1)%nat
  then runtime_error
         "wrong parameter count, expect <id> (<group name> <begin> <end> <recurse>)+"
  else
    match parse_regions (drop 1 (positional parser)) with
    | runtime_error what => runtime_error what
    | Ok (regions, groups) =>
        let default_group := default EmptyString (default_option parser) in
        let groups :=
          match default_option parser with
          | Some name => groups ++ [name]
          | None => groups
          end in
        match RegionsHighlighter.ctor regions default_group with
        | runtime_error what => runtime_error what
        | Ok h => Ok (mkHighlighterAndId (default EmptyString (positional parser !! 0%nat))
                                         h groups)
        end
    end.

End RegionsFactory.

(** The region definitions among the positional parameters: the groups of
    four parameters (group id, begin, end, recurse) behind the id. *)
Fixpoint region_params (params : list string)
  : list (string * string * string * string) :=
  match params with
  | group :: begin :: end_ :: recurse :: rest =>
      (group, begin, end_, recurse) :: region_params rest
  | _ => []
  end.

(** A region definition that the factory refuses: its group id, begin or
    end is the empty string, or one of its patterns is not a valid regex
    (the recurse pattern may be empty). *)
Definition refused_region (regex_valid : string -> bool)
    (r : string * string * string * string) : Prop :=
  let '(group, begin, end_, recurse) := r in
  group = EmptyString \/ begin = EmptyString \/ end_ = EmptyString \/
  regex_valid begin = false \/ regex_valid end_ = false \/
  (recurse <> EmptyString /\ regex_valid recurse = false).

(** The failure condition as the specification words it: no region is
    defined, or the begin or end pattern of some region is the empty
    string. *)
Definition claimed_failure (parser : ParametersParser) : bool :=
  let regions := region_params (drop 1 (positional parser)) in
  bool_decide (regions = [])
  || existsb (fun r => let '(_, begin, end_, _) := r in
                       string_empty begin || string_empty end_) regions.

(** *** The cache of the regions highlighter, l. 850-868 and 970-1029 *)

Section RegionsCache.

Variable regex_iterator : Regex -> string -> list (Z * Z).

(** [RegionDesc::find_matches] *)
Definition RegionDesc_find_matches (d : RegionDesc) (buffer : Buffer) : RegionMatches :=
  RegionMatches.mk
    (find_matches regex_iterator buffer [] (m_begin d))
    (find_matches regex_iterator buffer [] (m_end d))
    (if negb (Regex_empty (m_recurse d))
     then find_matches regex_iterator buffer [] (m_recurse d)
     else []).

(** [RegionDesc::update_matches] *)
Definition RegionDesc_update_matches (d : RegionDesc) (buffer : Buffer)
    (modifs : list LineModification) (matches : RegionMatches)
  : option RegionMatches :=
  b ← update_matches regex_iterator buffer modifs
        (RegionMatches.begin_matches matches) (m_begin d);
  e ← update_matches regex_iterator buffer modifs
        (RegionMatches.end_matches matches) (m_end d);
  r ← (if negb (Regex_empty (m_recurse d))
       then update_matches regex_iterator buffer modifs
              (RegionMatches.recurse_matches matches) (m_recurse d)
       else Some (RegionMatches.recurse_matches matches));
  Some (RegionMatches.mk b e r).

(** The loop [for (i = 0; i < m_regions.size(); ++i)] that updates
    [cache.matches[i]]; a cache with fewer entries than there are regions is
    outside the domain of the subscript. *)
Fixpoint update_all_matches (regions : NamedRegionDescList) (buffer : Buffer)
    (modifs : list LineModification) (cache_matches : list RegionMatches)
  : option (list RegionMatches) :=
  match regions with
  | [] => Some cache_matches
  | region :: regions =>
      match cache_matches with
      | [] => None
      | matches :: cache_matches =>
          matches ← RegionDesc_update_matches (snd region) buffer modifs matches;
          rest ← update_all_matches regions buffer modifs cache_matches;
          Some (matches :: rest)
      end
  end.

(** [update_cache_ifn], l. 970-1029.  [modifs] is the result of
    [compute_line_modifications(buffer, cache.timestamp)] and [buffer_end]
    is [buffer.end_coord()]. *)
Definition update_cache_ifn (h : RegionsHighlighter.t) (buffer : Buffer)
    (buffer_end : ByteCoord) (modifs : list LineModification)
    (cache : RegionsHighlighter.Cache) : option RegionsHighlighter.Cache :=
  let buf_timestamp := timestamp buffer in
  if RegionsHighlighter.timestamp cache =? buf_timestamp then Some cache
  else
    matches ←
      (if RegionsHighlighter.timestamp cache =? 0
       then Some (map (fun region => RegionDesc_find_matches (snd region) buffer)
                      (RegionsHighlighter.m_regions h))
       else update_all_matches (RegionsHighlighter.m_regions h) buffer modifs
                               (RegionsHighlighter.matches cache));
    regions ← RegionsHighlighter.resolve_regions (RegionsHighlighter.m_regions h)
                matches buffer_end;
    Some (RegionsHighlighter.mkCache buf_timestamp matches regions).

End RegionsCache.

(** ** The word database ([word_db.cc]) *)

(** Modelled from the spec: [string.cc] is not part of the sources.
    [prefix_match(str, prefix)] holds when [str] begins with [prefix], and
    [subsequence_match(str, subseq)] when the characters of [subseq] occur in
    [str] in the same order, not necessarily side by side. *)
Definition prefix_match (str prefix : string) : bool := String.prefix prefix str.

Fixpoint subsequence_match (str subseq : string) : bool :=
  match subseq with
  | EmptyString => true
  | String c subseq' =>
      match str with
      | EmptyString => false
      | String d str' =>
          if Ascii.eqb c d then subsequence_match str' subseq'
          else subsequence_match str' subseq
      end
  end.

Module WordDB.

(** [WordList] is the ordered map from words to their number of
    occurrences, [LineToWords] the words of each line.  An interned string
    is represented by the string itself. *)
Abbreviation WordList := (gmap string Z).
Abbreviation LineToWords := (list (list string)).

(** The [m_buffer] pointer is left out: the buffer is passed to the members
    that read it. *)
Record t : Type := mk {
  m_timestamp : Z;
  m_line_to_words : LineToWords;
  m_words : WordList
}.

Section Words.

(** [is_word] and the UTF-8 iterator ([utf8_iterator.hh]) are not part of
    the sources; the lines are read one byte, one code point, at a time. *)
Variable is_word : ascii -> bool.

(** [get_words], l. 10-32.  [word] holds the characters from [word_start]
    to the iterator.  A word that runs to the end of the content is not
    pushed: the lines of a buffer end with a newline. *)
Fixpoint get_words_loop (content : string) (in_word : bool) (word : string)
    (res : list string) : list string :=
  match content with
  | EmptyString => res
  | String c content =>
      let is_w := is_word c in
      if negb in_word && is_w
      then get_words_loop content true (String c EmptyString) res
      else if in_word && negb is_w
      then get_words_loop content false EmptyString (res ++ [word])
      else get_words_loop content in_word
             (if in_word then (word ++ String c EmptyString)%string else word) res
  end.

Definition get_words (content : string) : list string :=
  get_words_loop content false EmptyString [].

(** [add_words], l. 34-38: [++wl[w]], where [operator[]] inserts a zero
    for a word that is not there. *)
Definition add_words (wl : WordList) (words : list string) : WordList :=
  foldl (fun wl w => <[w := default 0 (wl !! w) + 1]> wl) wl words.

(** [remove_words], l. 40-49; [None] when the assertion fails. *)
Definition remove_words (wl : WordList) (words : list string) : option WordList :=
  foldl (fun acc w =>
           wl ← acc;
           match wl !! w with
           | Some count =>
               if 0 <? count
               then Some (if count - 1 =? 0 then delete w wl
                          else <[w := count - 1]> wl)
               else None
           | None => None
           end)
        (Some wl) words.

(** The constructor, l. 51-60 *)
Definition ctor (buffer : Buffer) : t :=
  let '(line_to_words, words) :=
    foldl (fun '(line_to_words, words) line =>
             let ws := get_words line in
             (line_to_words ++ [ws], add_words words ws))
          ([], ∅) (lines buffer) in
  mk (timestamp buffer) line_to_words words.

(** [m_line_to_words[(int)old_line]] *)
Definition words_of_line (line_to_words : LineToWords) (old_pos : Z)
  : option (list string) :=
  if 0 <=? old_pos then line_to_words !! Z.to_nat old_pos else None.

(** [while (old_line < modif.old_line) new_lines.push_back(...)], for the
    [count] iterations it makes. *)
Fixpoint copy_lines (count : nat) (line_to_words : LineToWords) (old_pos : Z)
    (new_lines : LineToWords) : option (Z * LineToWords) :=
  match count with
  | O => Some (old_pos, new_lines)
  | S count =>
      ws ← words_of_line line_to_words old_pos;
      copy_lines count line_to_words (old_pos + 1) (new_lines ++ [ws])
  end.

(** [while (old_line <= modif.old_line + modif.num_removed)], with its
    assertion that [old_line] is a line of the database. *)
Fixpoint remove_lines (count : nat) (line_to_words : LineToWords) (old_pos : Z)
    (words : WordList) : option (Z * WordList) :=
  match count with
  | O => Some (old_pos, words)
  | S count =>
      ws ← words_of_line line_to_words old_pos;
      words ← remove_words words ws;
      remove_lines count line_to_words (old_pos + 1) words
  end.

(** [for (l = 0; l <= modif.num_added; ++l)], which stops at the end of the
    buffer. *)
Fixpoint add_lines (count : nat) (buffer : Buffer) (new_line l : Z)
    (new_lines : LineToWords) (words : WordList)
  : option (LineToWords * WordList) :=
  match count with
  | O => Some (new_lines, words)
  | S count =>
      if line_count buffer <=? new_line + l then Some (new_lines, words)
      else
        content ← buffer_line buffer (new_line + l);
        let ws := get_words content in
        add_lines count buffer new_line (l + 1) (new_lines ++ [ws])
                  (add_words words ws)
  end.

(** The loop over the modifications, l. 77-100; a failed assertion gives
    [None].  [old_pos] is the local variable [old_line] of the original. *)
Fixpoint update_lines (modifs : list LineModification) (buffer : Buffer)
    (line_to_words : LineToWords) (old_pos : Z) (new_lines : LineToWords)
    (words : WordList) : option (Z * LineToWords * WordList) :=
  match modifs with
  | [] => Some (old_pos, new_lines, words)
  | modif :: modifs =>
      if negb ((0 <=? new_line modif) && (new_line modif <? line_count buffer))
      then None
      else if negb (old_pos <=? old_line modif) then None
      else
        '(old_pos, new_lines) ←
          copy_lines (Z.to_nat (old_line modif - old_pos))
                     line_to_words old_pos new_lines;
        if negb (Z.of_nat (length new_lines) =? new_line modif) then None
        else
          '(old_pos, words) ←
            remove_lines
              (Z.to_nat (old_line modif + num_removed modif + 1 - old_pos))
              line_to_words old_pos words;
          '(new_lines, words) ←
            add_lines (Z.to_nat (num_added modif + 1)) buffer (new_line modif) 0
                      new_lines words;
          update_lines modifs buffer line_to_words old_pos new_lines words
  end.

(** [update_db], l. 62-105.  [modifs] is the result of
    [compute_line_modifications(buffer, m_timestamp)].  The last loop,
    [while (old_line != size)], copies the lines that are left; it would run
    past the end for a position behind the size. *)
Definition update_db (db : t) (buffer : Buffer) (modifs : list LineModification)
  : option t :=
  let m_timestamp := timestamp buffer in
  if bool_decide (modifs = [])
  then Some (mk m_timestamp (m_line_to_words db) (m_words db))
  else
    '(old_pos, new_lines, words) ←
      update_lines modifs buffer (m_line_to_words db) 0 [] (m_words db);
    if Z.of_nat (length (m_line_to_words db)) <? old_pos then None
    else
      '(_, new_lines) ←
        copy_lines (Z.to_nat (Z.of_nat (length (m_line_to_words db)) - old_pos))
                   (m_line_to_words db) old_pos new_lines;
      Some (mk m_timestamp new_lines words).

End Words.

(** Modelled from the spec: [word_db.hh] and the order of interned strings
    are not part of the sources.  The map is sorted; its keys are listed in
    the order of the strings. *)
Fixpoint insert_sorted (w : string) (l : list string) : list string :=
  match l with
  | [] => [w]
  | x :: l' => if String.ltb x w then x :: insert_sorted w l' else w :: l
  end.

Definition sorted_words (wl : WordList) : list string :=
  foldr insert_sorted [] (map fst (map_to_list wl)).

(** The loop of [find_prefix] from [lower_bound(prefix)] on. *)
Fixpoint scan_prefix (prefix : string) (ws : list string) : list string :=
  match ws with
  | [] => []
  | w :: ws => if prefix_match w prefix then w :: scan_prefix prefix ws else []
  end.

Section Queries.

Variable is_word : ascii -> bool.

(** [find_prefix], l. 107-119: the database updated and the words found. *)
Definition find_prefix (db : t) (buffer : Buffer) (modifs : list LineModification)
    (prefix : string) : option (t * list string) :=
  db ← update_db is_word db buffer modifs;
  let ws := sorted_words (m_words db) in
  Some (db, scan_prefix prefix
              (drop (lower_bound (fun w => String.ltb w prefix) ws) ws)).

(** [find_subsequence], l. 121-132 *)
Definition find_subsequence (db : t) (buffer : Buffer)
    (modifs : list LineModification) (subsequence : string)
  : option (t * list string) :=
  db ← update_db is_word db buffer modifs;
  Some (db, List.filter (fun w => subsequence_match w subsequence)
                        (sorted_words (m_words db))).

End Queries.

(** [get_word_occurences], l. 134-140: a [const] member, which reads the
    stored map. *)
Definition get_word_occurences (db : t) (word : string) : Z :=
  match m_words db !! word with
  | Some count => count
  | None => 0
  end.

End WordDB.

(** *** Vocabulary for the statements about the word database *)

(** The number of occurrences of [w] in the words of some lines. *)
Definition occurrences (w : string) (line_to_words : list (list string)) : nat :=
  count_occ String.string_dec (concat line_to_words) w.

(** What the map holds for a word that occurs [n] times: its count, and no
    entry at all for a word that does not occur. *)
Definition stored (n : nat) : option Z :=
  if (n =? 0)%nat then None else Some (Z.of_nat n).

(** The word map is the multiset union of the words of the lines. *)
Definition is_multiset_of_lines (db : WordDB.t) : Prop :=
  forall w, WordDB.m_words db !! w = stored (occurrences w (WordDB.m_line_to_words db)).

(** The sum over all keys of [m_words[w]]. *)
Definition sum_of_counts (wl : gmap string Z) : Z :=
  map_fold (fun _ count sum => count + sum) 0 wl.

(** The sum over all lines of the length of [m_line_to_words[l]]. *)
Definition number_of_words (line_to_words : list (list string)) : Z :=
  foldr (fun ws sum => Z.of_nat (length ws) + sum) 0 line_to_words.

(** * Further vocabulary *)


(** The count a word list holds for a word, zero when the word has no
    entry. *)
Definition count_of (wl : gmap string Z) (w : string) : Z := default 0 (wl !! w).

(** No entry of the word list holds a count of zero or less:
    [remove_words] erases the entry whose count reaches zero. *)
Definition positive_counts (wl : gmap string Z) : Prop :=
  forall w count, wl !! w = Some count -> 0 < count.

(** The order of the word list: [a] comes before [b] or is [b]. *)
Definition string_le (a b : string) : Prop := String.ltb b a = false.

(** The words of [l] are in ascending order. *)
Fixpoint ascending (l : list string) : Prop :=
  match l with
  | [] => True
  | x :: l => Forall (string_le x) l /\ ascending l
  end.

(** The face that results when [top] is applied over [under]: the colours
    of [top] where it sets them, and the attributes of both. *)
Definition face_over (top under : Face) : Face :=
  mkFace (if bool_decide (fg top <> Default) then fg top else fg under)
         (if bool_decide (bg top <> Default) then bg top else bg under)
         (Z.lor (attributes under) (attributes top)).

(** A callback of [highlight_range] that leaves the variant and the
    coordinates of the atom alone, as [apply_face] does. *)
Definition keeps_range (func : DisplayAtom -> DisplayAtom) : Prop :=
  forall a,
    DisplayAtom.m_type (func a) = DisplayAtom.m_type a /\
    DisplayAtom.m_begin (func a) = DisplayAtom.m_begin a /\
    DisplayAtom.m_end (func a) = DisplayAtom.m_end a.

(** The display buffer [d'] has the layout of [d]: the same cached range,
    line by line the same range, and its cached range contains its atoms if
    that of [d] does. *)
Definition same_layout (d d' : DisplayBuffer) : Prop :=
  DisplayBuffer.m_range d' = DisplayBuffer.m_range d /\
  map DisplayLine.range (DisplayBuffer.m_lines d')
  = map DisplayLine.range (DisplayBuffer.m_lines d) /\
  (DisplayBuffer.range_contains_atoms d = true ->
   DisplayBuffer.range_contains_atoms d' = true).

(** ** Strings and the content of a display atom ([string.hh],
    [display_buffer.hh]) *)

Module StringView.

(** [StringView::substr(ByteCount from, ByteCount length)], [string.hh],
    l. 174-179: a negative [length] stands for [INT_MAX], and the view is
    [m_data + from] with the length [min(m_length - from, length)].  A view
    that begins in front of the data or has a negative length is outside the
    domain. *)
Definition substr (s : string) (from length : Z) : option string :=
  let length := if length <? 0 then INT_MAX else length in
  let n := Z.min (Z.of_nat (String.length s) - from) length in
  if (0 <=? from) && (0 <=? n)
  then Some (String.substring (Z.to_nat from) (Z.to_nat n) s)
  else None.

End StringView.

(** [DisplayAtom::content], [display_buffer.hh], l. 28-47; [None] when the
    assertion at its end fails or a line or a view is outside the domain. *)
Definition content (buffer : Buffer) (a : DisplayAtom) : option string :=
  match DisplayAtom.m_type a with
  | DisplayAtom.BufferRange =>
      let m_begin := DisplayAtom.m_begin a in
      let m_end := DisplayAtom.m_end a in
      line ← buffer_line buffer (Coord.line m_begin);
      if Coord.line m_begin =? Coord.line m_end
      then StringView.substr line (Coord.column m_begin)
                             (Coord.column m_end - Coord.column m_begin)
      else if (Coord.line m_begin + 1 =? Coord.line m_end)
              && (Coord.column m_end =? 0)
      then StringView.substr line (Coord.column m_begin) INT_MAX
      else None
  | DisplayAtom.Text | DisplayAtom.ReplacedBufferRange =>
      Some (DisplayAtom.m_text a)
  end.

(** The text that a display line shows: the contents of its atoms, one
    behind the other. *)
Definition line_text (buffer : Buffer) (line : DisplayLine) : option string :=
  foldr (fun a rest => s ← content buffer a; t ← rest; Some (s ++ t)%string)
        (Some EmptyString) line.

(** The coordinate lies on its line: its column is not negative and not
    behind the end of the line. *)
Definition on_line (buffer : Buffer) (c : ByteCoord) : Prop :=
  0 <= Coord.column c /\
  forall l, buffer_line buffer (Coord.line c) = Some l ->
            Coord.column c <= Z.of_nat (String.length l).

(** The length of every line fits the [int] that holds it. *)
Definition lines_fit (buffer : Buffer) : Prop :=
  Forall (fun l => Z.of_nat (String.length l) <= INT_MAX) (lines buffer).

(** A callback of [highlight_range] that leaves the text of the atom
    alone. *)
Definition keeps_text (func : DisplayAtom -> DisplayAtom) : Prop :=
  forall a, DisplayAtom.m_text (func a) = DisplayAtom.m_text a.

(** Every atom of the display buffer has a content. *)
Definition has_text (buffer : Buffer) (d : DisplayBuffer) : Prop :=
  Forall (fun line => is_Some (line_text buffer line)) (DisplayBuffer.m_lines d).

(** The display buffer [d'] shows, line by line, the text that [d] shows. *)
Definition same_text (buffer : Buffer) (d d' : DisplayBuffer) : Prop :=
  map (line_text buffer) (DisplayBuffer.m_lines d')
  = map (line_text buffer) (DisplayBuffer.m_lines d).

(** The width of the column of flags: the largest number of characters of a
    flag, as the first loop of the [flag_lines] highlighter computes it. *)
Definition flags_width (char_length : string -> Z) (lines : list LineAndFlag) : Z :=
  foldl (fun width l => Z.max width (char_length (snd l))) 0 lines.

(** The matches of one line come from left to right: each ends where it
    begins or later, and begins where the one before it begins or later. *)
Fixpoint left_to_right (ms : list (Z * Z)) : bool :=
  match ms with
  | [] => true
  | x :: ms' =>
      (fst x <=? snd x)
      && match ms' with [] => true | y :: _ => fst x <=? fst y end
      && left_to_right ms'
  end.

(** The begin match under a result of [find_next_begin], if the result is
    not the end iterator. *)
Definition begin_at (cache_matches : list RegionMatches) (res : nat * nat)
  : option RegexMatch :=
  cache_matches !! fst res ≫= fun m => RegionMatches.begin_matches m !! snd res.

(** The result [res] is the begin match closest to [pos], among the regions
    in front of region number [n]: it lies at [pos] or behind it, no begin
    match of these regions lies between [pos] and it, and a begin match at
    the same place belongs to the same region or to a later one.  When [res]
    is the end iterator, these regions have no begin match at [pos] or
    behind it. *)
Definition closest_begin (cache_matches : list RegionMatches) (pos : ByteCoord)
    (n : nat) (res : nat * nat) : Prop :=
  match begin_at cache_matches res with
  | Some b =>
      Coord.le pos (RegexMatch.begin_coord b) /\
      forall j m x,
        (j < n)%nat -> cache_matches !! j = Some m ->
        In x (RegionMatches.begin_matches m) ->
        Coord.le pos (RegexMatch.begin_coord x) ->
        Coord.le (RegexMatch.begin_coord b) (RegexMatch.begin_coord x) /\
        (RegexMatch.begin_coord x = RegexMatch.begin_coord b -> (fst res <= j)%nat)
  | None =>
      forall j m x,
        (j < n)%nat -> cache_matches !! j = Some m ->
        In x (RegionMatches.begin_matches m) ->
        Coord.lt (RegexMatch.begin_coord x) pos
  end.

(** The regions follow one another without overlap: every region that has
    a successor ends where it begins or later, and its successor begins
    where it ends or later. *)
Definition regions_ordered (regions : RegionList) : Prop :=
  forall i r r',
    regions !! i = Some r -> regions !! S i = Some r' ->
    Coord.le (Region.begin r) (Region.end_ r) /\
    Coord.le (Region.end_ r) (Region.begin r').

(** What the loop that resolves the regions keeps: the regions found so far
    are in order and end at the search position or in front of it, and each
    is named after a region definition. *)
Definition found_so_far (m_regions : NamedRegionDescList) (regions : RegionList)
    (pos : ByteCoord) : Prop :=
  regions_ordered regions /\
  Forall (fun r => Coord.le (Region.begin r) (Region.end_ r) /\
                   Coord.le (Region.end_ r) pos) regions /\
  Forall (fun r => In (Region.group r) (map fst m_regions)) regions.

(** ** The regex highlighter ([highlighters.cc], l. 200-271) *)

Module RegexHighlighter.

(** The cache that [BufferSideCache] keeps in the buffer for one
    highlighter: the window of lines that was searched, the timestamp of
    the buffer at that time, and for every match the ranges of the whole
    match and of its captures. *)
Record Cache : Type := mkCache {
  m_range : Z * Z;
  m_timestamp : Z;
  m_matches : list (list (ByteCoord * ByteCoord))
}.

(** The cache that [BufferSideCache::get] creates, [Cache{}]. *)
Definition fresh : Cache := mkCache (0, 0) 0 [].

Record t : Type := mk { m_regex : Regex; m_faces : list string }.

Section Search.

(** [boost::regex_iterator] over buffer iterators is an external library:
    the matches of a regex between the begin of the line [first] and the
    begin of the line behind [last], each with the ranges of its
    sub-expressions. *)
Variable regex_search : Buffer -> Z -> Z -> Regex -> list (list (ByteCoord * ByteCoord)).
Variable get_face : string -> Face.

(** [update_cache_ifn], l. 242-270 *)
Definition update_cache_ifn (h : t) (buffer : Buffer) (range : BufferRange)
    (cache : Cache) : Cache :=
  let first_line := Coord.line (fst range) in
  let last_line := Z.min (line_count buffer - 1) (Coord.line (snd range)) in
  if (timestamp buffer =? m_timestamp cache)
     && (fst (m_range cache) <=? first_line)
     && (last_line <=? snd (m_range cache))
  then cache
  else
    let first := Z.max 0 (first_line - 10) in
    let last := Z.min (line_count buffer - 1) (last_line + 10) in
    mkCache (first, last) (timestamp buffer)
            (regex_search buffer first last (m_regex h)).

(** The loop over the sub-expressions of one match, with their index. *)
Definition highlight_match (h : t) (match_ : list (ByteCoord * ByteCoord))
    (display_buffer : DisplayBuffer) : option DisplayBuffer :=
  foldl
    (fun acc '(n, sub) =>
       d ← acc;
       match m_faces h !! n with
       | None => Some d
       | Some facespec =>
           if string_empty facespec then Some d
           else highlight_range (fst sub) (snd sub) true
                                (apply_face (get_face facespec)) d
       end)
    (Some display_buffer) (imap (fun n sub => (n, sub)) match_).

(** [operator()], l. 208-228: the display buffer and the cache it leaves.
    The vector [faces] only saves calls of [get_face]. *)
Definition highlight (h : t) (context : Context) (flags : HighlightFlags)
    (display_buffer : DisplayBuffer) (cache : Cache)
  : option (DisplayBuffer * Cache) :=
  if bool_decide (flags <> Highlight) then Some (display_buffer, cache)
  else
    let cache := update_cache_ifn h (buffer context)
                                  (DisplayBuffer.m_range display_buffer) cache in
    d ← foldl (fun acc match_ => d ← acc; highlight_match h match_ d)
              (Some display_buffer) (m_matches cache);
    Some (d, cache).

End Search.

End RegexHighlighter.

(** The ranges of the matches are well formed: each ends where it begins
    or later. *)
Definition forward_ranges (matches : list (list (ByteCoord * ByteCoord))) : Prop :=
  Forall (Forall (fun sub => Coord.le (fst sub) (snd sub))) matches.

#[global] Instance Regex_eq_dec : EqDecision Regex.
Proof. solve_decision. Defined.

(** ** The dynamic regex highlighter ([highlighters.cc], l. 308-373) *)

Module DynamicRegexHighlighter.

Record t : Type := mk {
  m_last_regex : Regex;
  m_last_face : list string;
  m_highlighter : RegexHighlighter.t
}.

(** The constructor, l. 312-315 *)
Definition ctor : t := mk EmptyRegex [] (RegexHighlighter.mk EmptyRegex []).

Definition faces_empty (faces : list string) : bool :=
  match faces with [] => true | _ => false end.

Section Highlight.

Variable regex_search : Buffer -> Z -> Z -> Regex -> list (list (ByteCoord * ByteCoord)).
Variable get_face : string -> Face.
Variable regex_getter : Context -> Regex.
Variable face_getter : Context -> list string.

(** [operator()], l. 317-333.  [cache] is the cache that the buffer of the
    context holds for [m_highlighter]; a regex highlighter that is built anew
    has a [BufferSideCache] of its own, for which the buffer holds nothing
    yet.  The result is the display buffer, the highlighter and the cache of
    its [m_highlighter]. *)
Definition highlight (s : t) (context : Context) (flags : HighlightFlags)
    (display_buffer : DisplayBuffer) (cache : RegexHighlighter.Cache)
  : option (DisplayBuffer * t * RegexHighlighter.Cache) :=
  if bool_decide (flags <> Highlight) then Some (display_buffer, s, cache)
  else
    let regex := regex_getter context in
    let face := face_getter context in
    let '(s, cache) :=
      if bool_decide (regex <> m_last_regex s) || bool_decide (face <> m_last_face s)
      then
        if negb (Regex_empty regex)
        then (mk regex face (RegexHighlighter.mk regex face), RegexHighlighter.fresh)
        else (mk regex face (m_highlighter s), cache)
      else (s, cache) in
    if negb (Regex_empty (m_last_regex s)) && negb (faces_empty (m_last_face s))
    then
      '(d, cache) ← RegexHighlighter.highlight regex_search get_face
                      (m_highlighter s) context flags display_buffer cache;
      Some (d, s, cache)
    else Some (display_buffer, s, cache).

End Highlight.

(** The getters of [highlight_search_factory], l. 354-373.  [register] is
    the value of the register [/]; a pattern that the regex library refuses
    gives the empty regex. *)
Definition search_regex (regex_valid : string -> bool) (register : string) : Regex :=
  if string_empty register then EmptyRegex
  else if regex_valid register then Compiled register
  else EmptyRegex.

Definition search_face : list string := ["Search"].

(** Whenever the regex in use is not empty, the regex highlighter inside is
    the one built from the regex and the faces in use. *)
Definition up_to_date (s : t) : Prop :=
  Regex_empty (m_last_regex s) = false ->
  m_highlighter s = RegexHighlighter.mk (m_last_regex s) (m_last_face s).

End DynamicRegexHighlighter.

(** ** The factory of the regex highlighter ([highlighters.cc], l. 273-306) *)

Section RegexFactory.

(** [boost::regex_match] of a parameter against the regex [face_spec_ex],
    digits, a colon and any text: the two captures, the capture number and
    the face, when the parameter matches.
    [str_to_int] ([string.cc], not part of the sources) reads the digits of
    the capture number; a number that overflows an [int] is outside the
    model.  [get_face] ([face_registry.hh], not part of the sources) throws
    on a face it does not know. *)
Variable face_spec_match : string -> option (string * string).
Variable str_to_int : string -> nat.
Variable face_valid : string -> bool.
Variable face_error_what : string -> string.
Variable regex_valid : string -> bool.
Variable regex_error_what : string -> string.

(** [if (capture >= faces.size()) faces.resize(capture+1);
    faces[capture] = spec] *)
Definition set_face_spec (faces : list string) (capture : nat) (spec : string)
  : list string :=
  let faces :=
    if (length faces <=? capture)%nat
    then faces ++ replicate (S capture - length faces) EmptyString
    else faces in
  <[capture := spec]> faces.

(** The loop over the parameters behind the regex. *)
Fixpoint parse_face_specs (params : list string) (faces : list string)
  : Result (list string) :=
  match params with
  | [] => Ok faces
  | it :: params =>
      match face_spec_match it with
      | None =>
          runtime_error ("wrong face spec: '" ++ it
                         ++ "' expected <capture>:<facespec>")
      | Some (capture, spec) =>
          if face_valid spec
          then parse_face_specs params (set_face_spec faces (str_to_int capture) spec)
          else runtime_error (face_error_what spec)
      end
  end.

(** [highlight_regex_factory]: the id and the regex highlighter. *)
Definition highlight_regex_factory (params : list string)
  : Result (string * RegexHighlighter.t) :=
  if (length params <? 2)%nat then runtime_error "wrong parameter count"
  else
    match parse_face_specs (drop 1 params) [] with
    | runtime_error what => runtime_error what
    | Ok faces =>
        let pattern := default EmptyString (params !! 0%nat) in
        let id := ("hlregex'" ++ pattern ++ "'")%string in
        if regex_valid pattern
        then Ok (id, RegexHighlighter.mk (Compiled pattern) faces)
        else runtime_error ("regex error: " ++ regex_error_what pattern)
    end.

(** The face that the parameters give to a capture: that of the last
    parameter that names the capture, none when no parameter does. *)
Definition face_of_capture (specs : list (string * string)) (n : nat) : string :=
  foldl (fun face '(capture, spec) =>
           if (str_to_int capture =? n)%nat then spec else face)
        EmptyString specs.

End RegexFactory.

(** A parameter that the factory of the regex highlighter refuses as a face
    spec: it is not a capture number, a colon and a face, or its face is
    not known. *)
Definition refused_face_spec (face_spec_match : string -> option (string * string))
    (face_valid : string -> bool) (param : string) : Prop :=
  match face_spec_match param with
  | None => True
  | Some (_, spec) => face_valid spec = false
  end.

(** ** The registry of interned strings ([interned_string.cc]) *)

Module StringRegistry.

(** [m_slot_map] maps a string to its slot, [m_free_slots] holds the slots
    that were given back, and [m_storage] holds for every slot the data and
    the reference count.  A string view that points into the storage is
    represented by the string it shows. *)
Record t : Type := mk {
  m_slot_map : gmap string nat;
  m_free_slots : list nat;
  m_storage : list (string * Z)
}.

Definition empty : t := mk ∅ [] [].

(** [acquire], l. 6-34; [None] when a subscript of [m_storage] is out of
    range. *)
Definition acquire (r : t) (str : string) : option t :=
  match m_slot_map r !! str with
  | None =>
      '(slot, free_slots, storage) ←
        match last (m_free_slots r) with
        | Some slot =>
            if (slot <? length (m_storage r))%nat
            then Some (slot, removelast (m_free_slots r),
                       <[slot := (str, 1)]> (m_storage r))
            else None
        | None =>
            Some (length (m_storage r), m_free_slots r, m_storage r ++ [(str, 1)])
        end;
      Some (mk (<[str := slot]> (m_slot_map r)) free_slots storage)
  | Some slot =>
      '(data, count) ← m_storage r !! slot;
      Some (mk (m_slot_map r) (m_free_slots r)
               (<[slot := (data, count + 1)]> (m_storage r)))
  end.

(** [release], l. 36-49; [None] when the assertion fails or a subscript is
    out of range. *)
Definition release (r : t) (str : string) : option t :=
  match m_slot_map r !! str with
  | None => None
  | Some slot =>
      '(data, count) ← m_storage r !! slot;
      if count - 1 =? 0
      then Some (mk (delete str (m_slot_map r)) (m_free_slots r ++ [slot])
                    (<[slot := (EmptyString, 0)]> (m_storage r)))
      else Some (mk (m_slot_map r) (m_free_slots r)
                    (<[slot := (data, count - 1)]> (m_storage r)))
  end.

(** The reference count of a string: that of its slot, zero for a string
    that is not interned. *)
Definition ref_count (r : t) (str : string) : Z :=
  match m_slot_map r !! str with
  | Some slot => default 0 (snd <$> m_storage r !! slot)
  | None => 0
  end.

(** The registry is consistent: the slot of a string holds the string with
    a positive count, a free slot holds no data and the count zero, and no
    slot is free twice. *)
Definition consistent (r : t) : Prop :=
  (forall str slot,
     m_slot_map r !! str = Some slot ->
     exists count, m_storage r !! slot = Some (str, count) /\ 0 < count) /\
  (forall slot, In slot (m_free_slots r) ->
                m_storage r !! slot = Some (EmptyString, 0)) /\
  List.NoDup (m_free_slots r).

End StringRegistry.

(** ** The keymap manager ([keymap_manager.cc]) *)

Module KeymapManager.

Section Keys.

(** [Key] and [KeymapMode] ([keys.hh], [keymap_manager.hh]) are not part of
    the sources: two types whose values can be compared and hashed. *)
Context {Key Mode : Type} `{Countable Key} `{Countable Mode}.

(** A manager holds its mappings and the pointer [m_parent], which is
    null or points to the manager it falls back to. *)
Inductive t : Type :=
| root (mapping : gmap (Key * Mode) (list Key))
| child (mapping : gmap (Key * Mode) (list Key)) (parent : t).

Definition m_mapping (m : t) : gmap (Key * Mode) (list Key) :=
  match m with root mapping | child mapping _ => mapping end.

Definition m_parent (m : t) : option t :=
  match m with root _ => None | child _ parent => Some parent end.

Definition set_mapping (mapping : gmap (Key * Mode) (list Key)) (m : t) : t :=
  match m with
  | root _ => root mapping
  | child _ parent => child mapping parent
  end.

(** [map_key], l. 21-24 *)
Definition map_key (m : t) (key : Key) (mode : Mode) (mapping : list Key) : t :=
  set_mapping (<[(key, mode) := mapping]> (m_mapping m)) m.

(** [unmap_key], l. 26-29 *)
Definition unmap_key (m : t) (key : Key) (mode : Mode) : t :=
  set_mapping (delete (key, mode) (m_mapping m)) m.

(** [is_mapped], l. 32-36 *)
Fixpoint is_mapped (m : t) (key : Key) (mode : Mode) : bool :=
  bool_decide (is_Some (m_mapping m !! (key, mode)))
  || match m with
     | child _ parent => is_mapped parent key mode
     | root _ => false
     end.

(** [get_mapping], l. 38-45; [None] when the assertion fails. *)
Fixpoint get_mapping (m : t) (key : Key) (mode : Mode) : option (list Key) :=
  match m_mapping m !! (key, mode) with
  | Some keys => Some keys
  | None =>
      match m with
      | child _ parent => get_mapping parent key mode
      | root _ => None
      end
  end.

End Keys.

Arguments t Key Mode {_ _ _ _}.

End KeymapManager.

(** ** Highlighting a part of the display buffer: [apply_highlighter]
    ([highlighters.cc], l. 68-150) *)

Module RegionDisplay.

(** The state of the first loop of [apply_highlighter]: the lines of the
    display buffer as the loop leaves them, the lines of [region_display],
    the iterators [insert_pos], each as the line it points into and its
    position in that line, and [first_line], which is not initialised before
    the first line is taken. *)
Record t : Type := mk {
  display_lines : list DisplayLine;
  region_lines : list DisplayLine;
  insert_pos : list (nat * nat);
  first_line : option nat
}.

Definition empty : t := mk [] [] [] None.

End RegionDisplay.

Section ApplyHighlighter.

(** [DisplayBuffer::compute_range] lives in [display_buffer.cc], which is not
    part of the sources: it fills in the cached range from the lines. *)
Variable compute_range : list DisplayLine -> BufferRange.

Variables (begin end_ : ByteCoord).

(** The loop over the atoms of a line that reaches outside [begin, end),
    l. 99-127.  [atom_it] is the position of the iterator in the (growing)
    atom vector, [beg_idx] and [end_idx] the bounds found so far.  Every
    iteration moves the iterator at least one position closer to the end,
    whatever it splits, so the atom count of the line bounds the number of
    iterations: [fuel] is that bound, and [None] is returned when it runs
    out or when an assertion of [split] fails. *)
Fixpoint carve_atoms (fuel : nat) (line : DisplayLine)
    (atom_it beg_idx end_idx : nat) : option (DisplayLine * nat * nat) :=
  match line !! atom_it with
  | None => Some (line, beg_idx, end_idx)
  | Some a =>
    match fuel with
    | O => None
    | S fuel =>
      if negb (DisplayAtom.has_buffer_range a)
         || Coord.leb end_ (DisplayAtom.m_begin a)
         || Coord.leb (DisplayAtom.m_end a) begin
      then carve_atoms fuel line (S atom_it) beg_idx end_idx
      else
        let is_replaced := DisplayAtom.is_replaced a in
        '(line, atom_it, beg_idx, end_idx) ←
           (if Coord.leb (DisplayAtom.m_begin a) begin
            then
              if is_replaced || Coord.eqb (DisplayAtom.m_begin a) begin
              then Some (line, atom_it, atom_it, end_idx)
              else
                (* atom_it = ++line.split(atom_it, begin) *)
                line' ← DisplayLine.split line atom_it begin;
                Some (line', S atom_it, S atom_it, S end_idx)
            else Some (line, atom_it, beg_idx, end_idx));
        a ← line !! atom_it;
        '(line, atom_it, end_idx) ←
           (if Coord.leb end_ (DisplayAtom.m_end a)
            then
              if is_replaced || Coord.eqb (DisplayAtom.m_end a) end_
              then Some (line, atom_it, S atom_it)
              else
                (* atom_it = ++line.split(atom_it, end) *)
                line' ← DisplayLine.split line atom_it end_;
                Some (line', S atom_it, S atom_it)
            else Some (line, atom_it, end_idx));
        carve_atoms fuel line (S atom_it) beg_idx end_idx
    end
  end.

(** The first loop, l. 82-137, from the line at position [line_it] on.  A
    line whose range misses [begin, end) stays.  A line that reaches outside
    [begin, end) gives the atoms from [beg_idx] to [end_idx] to the region
    display and keeps the others ([std::move] with [back_inserter], then
    [erase], whose result is the iterator at [beg_idx]); the bounds have to be
    a range of the line.  A line inside [begin, end) is moved whole, which
    leaves it without atoms, and its [begin()] is the insert position. *)
Fixpoint extract_lines (lines : list DisplayLine) (line_it : nat)
    (st : RegionDisplay.t) : option RegionDisplay.t :=
  match lines with
  | [] => Some st
  | line :: lines =>
      let range := DisplayLine.range line in
      if Coord.leb (snd range) begin || Coord.leb end_ (fst range)
      then extract_lines lines (S line_it)
             (RegionDisplay.mk (RegionDisplay.display_lines st ++ [line])
                               (RegionDisplay.region_lines st)
                               (RegionDisplay.insert_pos st)
                               (RegionDisplay.first_line st))
      else
        let first_line :=
          match RegionDisplay.region_lines st with
          | [] => Some line_it
          | _ => RegionDisplay.first_line st
          end in
        if Coord.ltb (fst range) begin || Coord.ltb end_ (snd range)
        then
          '(line, beg_idx, end_idx) ←
             carve_atoms (length line) line 0 0 (length line);
          if (beg_idx <=? end_idx)%nat && (end_idx <=? length line)%nat
          then extract_lines lines (S line_it)
                 (RegionDisplay.mk
                    (RegionDisplay.display_lines st
                     ++ [take beg_idx line ++ drop end_idx line])
                    (RegionDisplay.region_lines st
                     ++ [take (end_idx - beg_idx) (drop beg_idx line)])
                    (RegionDisplay.insert_pos st ++ [(line_it, beg_idx)])
                    first_line)
          else None
        else extract_lines lines (S line_it)
               (RegionDisplay.mk
                  (RegionDisplay.display_lines st ++ [[]])
                  (RegionDisplay.region_lines st ++ [line])
                  (RegionDisplay.insert_pos st ++ [(line_it, 0%nat)])
                  first_line)
  end.

(** [for (auto& atom : region_lines[i]) pos = ++line.insert(pos, atom)],
    l. 146-147 *)
Definition insert_atoms (line : DisplayLine) (pos : nat)
    (atoms : list DisplayAtom) : DisplayLine * nat :=
  fold_left (fun '(line, pos) atom => (DisplayLine.insert line pos atom, S pos))
            atoms (line, pos).

(** The second loop, l. 142-148, from the region line [i] on: the atoms of
    the region line [i] go into the line [first_line + i] of the display
    buffer at [insert_pos[i]].  [None] when [first_line] was never set, when
    there is no [insert_pos[i]] or no line [first_line + i], and when the
    iterator [insert_pos[i]] points into another line. *)
Fixpoint restore_lines (region_lines : list DisplayLine) (i : nat)
    (first_line : option nat) (insert_pos : list (nat * nat))
    (lines : list DisplayLine) : option (list DisplayLine) :=
  match region_lines with
  | [] => Some lines
  | region :: region_lines =>
      first ← first_line;
      '(owner, pos) ← insert_pos !! i;
      line ← lines !! (first + i)%nat;
      if bool_decide (owner = (first + i)%nat)
      then restore_lines region_lines (S i) first_line insert_pos
             (<[(first + i)%nat := fst (insert_atoms line pos region)]> lines)
      else None
  end.

(** [apply_highlighter], l. 68-150 *)
Definition apply_highlighter (context : Context) (flags : HighlightFlags)
    (display_buffer : DisplayBuffer)
    (highlighter : Context -> HighlightFlags -> DisplayBuffer -> option DisplayBuffer)
  : option DisplayBuffer :=
  st ← extract_lines (DisplayBuffer.m_lines display_buffer) 0 RegionDisplay.empty;
  region_display ←
    highlighter context flags
      (DisplayBuffer.mk (RegionDisplay.region_lines st)
                        (compute_range (RegionDisplay.region_lines st)));
  lines ← restore_lines (DisplayBuffer.m_lines region_display) 0
            (RegionDisplay.first_line st) (RegionDisplay.insert_pos st)
            (RegionDisplay.display_lines st);
  Some (DisplayBuffer.mk lines (compute_range lines)).

End ApplyHighlighter.

(** The atoms of a line that have a buffer range are in order when each of
    them begins no later than it ends and no earlier than the one before it
    ends; [last] is the end of the one before, if there is one. *)
Fixpoint atoms_in_order (last : option ByteCoord) (line : DisplayLine) : bool :=
  match line with
  | [] => true
  | a :: line =>
      if DisplayAtom.has_buffer_range a
      then match last with
           | Some p => Coord.leb p (DisplayAtom.m_begin a)
           | None => true
           end
           && Coord.leb (DisplayAtom.m_begin a) (DisplayAtom.m_end a)
           && atoms_in_order (Some (DisplayAtom.m_end a)) line
      else atoms_in_order last line
  end.

(** They are contiguous when, besides, each of them begins where the one
    before it ends. *)
Fixpoint atoms_contiguous (last : option ByteCoord) (line : DisplayLine) : bool :=
  match line with
  | [] => true
  | a :: line =>
      if DisplayAtom.has_buffer_range a
      then match last with
           | Some p => Coord.eqb p (DisplayAtom.m_begin a)
           | None => true
           end
           && Coord.leb (DisplayAtom.m_begin a) (DisplayAtom.m_end a)
           && atoms_contiguous (Some (DisplayAtom.m_end a)) line
      else atoms_contiguous last line
  end.

Section CarveBounds.

Variables (begin end_ : ByteCoord).

(** The bounds that the loop of [carve_atoms] finds, atom by atom and
    without the iterator: [pos] is the position that the atom has in the
    line when the loop comes to it.  An atom that straddles [begin] is cut
    there and its second piece is the first atom of the region; an atom that
    straddles [end] is cut there and its piece in front of [end] is the last
    atom of the region. *)
Fixpoint carve_bounds (rest : list DisplayAtom) (pos beg_idx end_idx : nat)
  : nat * nat :=
  match rest with
  | [] => (beg_idx, end_idx)
  | a :: rest =>
      if negb (DisplayAtom.has_buffer_range a)
         || Coord.leb end_ (DisplayAtom.m_begin a)
         || Coord.leb (DisplayAtom.m_end a) begin
      then carve_bounds rest (S pos) beg_idx end_idx
      else
        let cut_begin :=
          negb (DisplayAtom.is_replaced a)
          && Coord.ltb (DisplayAtom.m_begin a) begin in
        let cut_end :=
          negb (DisplayAtom.is_replaced a)
          && Coord.ltb end_ (DisplayAtom.m_end a) in
        let pos1 := if cut_begin then S pos else pos in
        let beg1 := if Coord.leb (DisplayAtom.m_begin a) begin then pos1 else beg_idx in
        let end1 := if cut_begin then S end_idx else end_idx in
        let end2 := if Coord.leb end_ (DisplayAtom.m_end a) then S pos1 else end1 in
        let pos2 := if cut_end then S pos1 else pos1 in
        carve_bounds rest (S pos2) beg1 end2
  end.

(** The atoms that [apply_highlighter] makes of an atom: the atom itself,
    or its pieces when it straddles [begin] or [end].  These are the atoms
    that [highlight_range] makes of it with a callback that changes
    nothing. *)
Definition cut (a : DisplayAtom) : list DisplayAtom :=
  highlight_atom begin end_ false (fun a => a) a.

(** The test of l. 86: the range of the line misses [begin, end). *)
Definition misses (line : DisplayLine) : bool :=
  let range := DisplayLine.range line in
  Coord.leb (snd range) begin || Coord.leb end_ (fst range).

(** The bounds, in the line after the cuts, of the atoms that go to the
    region display: those of the loop when the line reaches outside
    [begin, end), the whole line otherwise. *)
Definition region_bounds (line : DisplayLine) : nat * nat :=
  let range := DisplayLine.range line in
  if Coord.ltb (fst range) begin || Coord.ltb end_ (snd range)
  then carve_bounds line 0 0 (length line)
  else (0%nat, length line).

(** The atoms of the line that go to the region display, and those that
    stay. *)
Definition region_of (line : DisplayLine) : DisplayLine :=
  let '(beg_idx, end_idx) := region_bounds line in
  take (end_idx - beg_idx) (drop beg_idx (flat_map cut line)).

Definition remainder_of (line : DisplayLine) : DisplayLine :=
  let '(beg_idx, end_idx) := region_bounds line in
  take beg_idx (flat_map cut line) ++ drop end_idx (flat_map cut line).

(** The bounds of a line are a range of the line after the cuts. *)
Definition bounds_fit (line : DisplayLine) : Prop :=
  (fst (region_bounds line) <= snd (region_bounds line))%nat /\
  (snd (region_bounds line) <= length (flat_map cut line))%nat.

(** The line with a region line in the place of the atoms that went to the
    region display. *)
Definition splice (line region : DisplayLine) : DisplayLine :=
  let '(beg_idx, end_idx) := region_bounds line in
  take beg_idx (flat_map cut line) ++ region ++ drop end_idx (flat_map cut line).

End CarveBounds.

(** Where an atom lies: an atom without a buffer range lies nowhere, and
    ends before and begins after every position. *)
Definition ends_before (p : ByteCoord) (a : DisplayAtom) : Prop :=
  DisplayAtom.has_buffer_range a = true -> Coord.le (DisplayAtom.m_end a) p.

Definition begins_after (p : ByteCoord) (a : DisplayAtom) : Prop :=
  DisplayAtom.has_buffer_range a = true -> Coord.le p (DisplayAtom.m_begin a).

(** A [BufferRange] atom lies inside [begin, end] when it begins at
    [begin] or later and ends at [end] or earlier. *)
Definition lies_inside (begin end_ : ByteCoord) (a : DisplayAtom) : Prop :=
  DisplayAtom.m_type a = DisplayAtom.BufferRange ->
  Coord.le begin (DisplayAtom.m_begin a) /\ Coord.le (DisplayAtom.m_end a) end_.

(** Bounds that part the atoms of a line in three: the atoms in front of
    the first bound end before [begin], the [BufferRange] atoms between the
    bounds lie inside [begin, end], and the atoms from the second bound on
    begin after [end]. *)
Definition carved (begin end_ : ByteCoord) (atoms : list DisplayAtom)
    (bounds : nat * nat) : Prop :=
  exists front region back,
    atoms = front ++ region ++ back /\
    bounds = (length front, length (front ++ region)) /\
    Forall (ends_before begin) front /\
    Forall (lies_inside begin end_) region /\
    Forall (begins_after end_) back.

(** ** Highlighting by regions: [RegionsHighlighter::operator()]
    ([highlighters.cc], l. 887-931) *)

(** [HighlighterFunc], [highlighter.hh]: a highlighter changes a display
    buffer; [None] when it leaves its domain. *)
Definition HighlighterFunc : Type :=
  Context -> HighlightFlags -> DisplayBuffer -> option DisplayBuffer.

Section RegionsHighlight.

Variable regex_iterator : Regex -> string -> list (Z * Z).
Variable compute_range : list DisplayLine -> BufferRange.

(** [HierachicalHighlighter::GroupMap] ([highlighter_group.hh]) is not part
    of the sources: [groups.find(name)] finds the highlighter of a group or
    nothing. *)
Variable groups : string -> option HighlighterFunc.

Variable context : Context.
Variable flags : HighlightFlags.

(** The lambda [correct], l. 901-905: a coordinate at the end of its line
    is the begin of the next line.  The line has to be a line of the
    buffer. *)
Definition correct (c : ByteCoord) : option ByteCoord :=
  line ← buffer_line (buffer context) (Coord.line c);
  Some (if Z.of_nat (String.length line) =? Coord.column c
        then mkCoord (Coord.line c + 1) 0
        else c).

(** [if (apply_default and last_begin < end) apply_highlighter(...)], with
    the bounds already corrected as the call site corrects them. *)
Definition apply_default (default_group : option HighlighterFunc)
    (last_begin end_ : ByteCoord) (corrected_end : option ByteCoord)
    (display_buffer : DisplayBuffer) : option DisplayBuffer :=
  match default_group with
  | Some highlighter =>
      if Coord.ltb last_begin end_
      then b ← correct last_begin;
           e ← corrected_end;
           apply_highlighter compute_range b e context flags display_buffer
                             highlighter
      else Some display_buffer
  | None => Some display_buffer
  end.

(** The loop [for (; begin != end; ++begin)], l. 911-925, over the regions
    between the two iterators. *)
Fixpoint highlight_regions (default_group : option HighlighterFunc)
    (regions : list Region.t) (last_begin : ByteCoord)
    (display_buffer : DisplayBuffer) : option (DisplayBuffer * ByteCoord) :=
  match regions with
  | [] => Some (display_buffer, last_begin)
  | region :: regions =>
      display_buffer ←
        apply_default default_group last_begin (Region.begin region)
                      (correct (Region.begin region)) display_buffer;
      match groups (Region.group region) with
      | None => highlight_regions default_group regions last_begin display_buffer
      | Some highlighter =>
          b ← correct (Region.begin region);
          e ← correct (Region.end_ region);
          display_buffer ←
            apply_highlighter compute_range b e context flags display_buffer
                              highlighter;
          highlight_regions default_group regions (Region.end_ region)
                            display_buffer
      end
  end.

(** [operator()], l. 887-931, with the cache of the buffer in and out.
    [modifs] and [buffer_end] are what [update_cache_ifn] reads from the
    buffer. *)
Definition regions_highlight (h : RegionsHighlighter.t)
    (display_buffer : DisplayBuffer) (buffer_end : ByteCoord)
    (modifs : list LineModification) (cache : RegionsHighlighter.Cache)
  : option (DisplayBuffer * RegionsHighlighter.Cache) :=
  if negb (bool_decide (flags = Highlight))
  then Some (display_buffer, cache)
  else
    let range := DisplayBuffer.m_range display_buffer in
    cache ← update_cache_ifn regex_iterator h (buffer context) buffer_end
                             modifs cache;
    let regions := RegionsHighlighter.regions cache in
    let begin :=
      lower_bound (fun r => Coord.ltb (Region.end_ r) (fst range)) regions in
    let end_ :=
      lower_bound (fun r => Coord.ltb (Region.begin r) (snd range))
                  (drop begin regions) in
    let default_group := groups (RegionsHighlighter.m_default_group h) in
    '(display_buffer, last_begin) ←
       highlight_regions default_group (take end_ (drop begin regions))
                         (fst range) display_buffer;
    display_buffer ←
      apply_default default_group last_begin (snd range) (Some (snd range))
                    display_buffer;
    Some (display_buffer, cache).

End RegionsHighlight.

(** * Concrete inputs used by the witnesses and the counterexamples *)

Module Samples.

Definition default_face : Face := mkFace Default Default Normal.
Definition yellow : Face := mkFace Yellow Default Normal.

(** A face registry that knows one face for the line numbers. *)
Definition faces (name : string) : Face :=
  if String.eqb name "LineNumbers" then mkFace Cyan Default Normal
  else if String.eqb name "yellow" then yellow
  else default_face.

(** The atom that covers the whole of buffer line [l]. *)
Definition whole_line (l : Z) : DisplayAtom :=
  DisplayAtom.range (mkCoord l 0) (mkCoord (l + 1) 0).

(** One display line with one atom over columns 0 to 10 of buffer line 0. *)
Definition one_atom : DisplayBuffer :=
  DisplayBuffer.mk
    [[DisplayAtom.range (mkCoord 0 0) (mkCoord 0 10)]]
    (mkCoord 0 0, mkCoord 0 10).

(** One display line with one replaced atom over columns 0 to 5. *)
Definition replaced_atom : DisplayAtom :=
  DisplayAtom.mk DisplayAtom.ReplacedBufferRange (mkCoord 0 0) (mkCoord 0 5)
                 "    " default_face.

Definition one_replaced_atom : DisplayBuffer :=
  DisplayBuffer.mk [[replaced_atom]] (mkCoord 0 0, mkCoord 0 5).

(** A buffer of [n] lines. *)
Definition buffer_of_lines (n : nat) : Buffer :=
  mkBuffer (repeat (String "010" EmptyString) n) 1.

Definition context_of_lines (n : nat) : Context :=
  mkContext (buffer_of_lines n) [] 0 (fun _ => []).

(** The viewport shows the buffer lines 0, 5 and 11. *)
Definition viewport_0_5_11 : DisplayBuffer :=
  DisplayBuffer.mk [[whole_line 0]; [whole_line 5]; [whole_line 11]]
                   (mkCoord 0 0, mkCoord 12 0).


(** A regex engine for patterns made of one literal character: the matches
    are the occurrences of the character. *)
Fixpoint char_positions (c : ascii) (l : string) (i : Z) : list (Z * Z) :=
  match l with
  | EmptyString => []
  | String d l =>
      (if Ascii.eqb c d then [(i, i + 1)] else []) ++ char_positions c l (i + 1)
  end.

Definition literal_iterator (r : Regex) (l : string) : list (Z * Z) :=
  match r with
  | Compiled (String c EmptyString) => char_positions c l 0
  | _ => []
  end.

(** A buffer of twelve lines with an x on the lines 2, 5 and 9, and the
    buffer it becomes when the three lines 4 to 6 are replaced by four lines,
    of which the third has an x. *)
Definition old_buffer : Buffer :=
  mkBuffer ["a"; "b"; "x"; "c"; "d"; "x"; "e"; "f"; "g"; "x"; "h"; "i"] 1.

Definition new_buffer : Buffer :=
  mkBuffer ["a"; "b"; "x"; "c"; "p"; "q"; "x"; "r"; "f"; "g"; "x"; "h"; "i"] 2.

Definition modification : LineModification := mkModif 4 4 2 3.

(** The matches of the region that braces delimit, with the opening brace as
    recurse pattern, in the line [{ a { b } c }]. *)
Definition braces : RegionMatches :=
  RegionMatches.mk
    [RegexMatch.mk 1 0 0 1; RegexMatch.mk 1 0 4 5]
    [RegexMatch.mk 1 0 8 9; RegexMatch.mk 1 0 12 13]
    [RegexMatch.mk 1 0 0 1; RegexMatch.mk 1 0 4 5].

(** The matches of the region that begins behind a quote and ends in front
    of one, in a line made of two quotes: all the matches are empty. *)
Definition quotes : RegionMatches :=
  RegionMatches.mk
    [RegexMatch.mk 1 0 1 1; RegexMatch.mk 1 0 2 2]
    [RegexMatch.mk 1 0 0 0; RegexMatch.mk 1 0 1 1]
    [].

Definition quotes_regions : NamedRegionDescList :=
  [("string", mkRegionDesc (Compiled "x") (Compiled "y") EmptyRegex)].

(** A regex engine that refuses the pattern made of one opening
    parenthesis. *)
Definition valid_pattern (pattern : string) : bool :=
  negb (String.eqb pattern "(").

Definition regex_error_what (pattern : string) : string :=
  "Unmatched marking parenthesis".

(** Letters, digits and the underscore make up words. *)
Definition is_word (c : ascii) : bool :=
  let n := nat_of_ascii c in
  ((48 <=? n) && (n <=? 57) || (65 <=? n) && (n <=? 90)
   || (97 <=? n) && (n <=? 122) || (n =? 95))%nat.

Definition newline : string := String "010" EmptyString.

(** A buffer of two lines, and the buffer it becomes when its second line
    is replaced by two other lines. *)
Definition words_old : Buffer :=
  mkBuffer [("foo bar" ++ newline)%string; ("foobar foo" ++ newline)%string] 1.

Definition words_new : Buffer :=
  mkBuffer [("foo bar" ++ newline)%string; ("baz" ++ newline)%string;
            ("qux foo" ++ newline)%string] 2.

Definition words_modification : LineModification := mkModif 1 1 0 1.

End Samples.

(** * Further inputs *)

Module Scenes.

(** A buffer of one line of ten digits. *)
Definition digits : Buffer :=
  mkBuffer [("0123456789" ++ Samples.newline)%string] 1.

(** The coordinate of the next byte on the line. *)
Definition next_byte (buffer : Buffer) (c : ByteCoord) : ByteCoord :=
  mkCoord (Coord.line c) (Coord.column c + 1).

(** A context with one selection that runs backwards, from column 5 to
    column 2. *)
Definition backward_selection : Context :=
  mkContext digits [mkSelection (mkCoord 0 5) (mkCoord 0 2)] 0 (fun _ => []).

(** A context whose option [flags] marks the buffer lines 1 and 6. *)
Definition flagged : Context :=
  mkContext (Samples.buffer_of_lines 12) [] 0
            (fun name => if String.eqb name "flags"
                         then [(1, Red, "!!"); (6, Blue, "x")] else []).

(** The number of bytes of a string, the number of its characters when the
    string is made of ASCII characters. *)
Definition byte_length (s : string) : Z := Z.of_nat (String.length s).

(** A regions highlighter with one region, which begins and ends at an x. *)
Definition x_regions : RegionsHighlighter.t :=
  RegionsHighlighter.mk
    [("x", mkRegionDesc (Compiled "x") (Compiled "x") EmptyRegex)] "".

(** A regex search that finds one match, at the begin of line 5. *)
Definition one_match (buffer : Buffer) (first last : Z) (regex : Regex)
  : list (list (ByteCoord * ByteCoord)) :=
  [[(mkCoord 5 0, mkCoord 5 1)]].

(** A regex highlighter that gives the face [yellow] to the whole match. *)
Definition yellow_x : RegexHighlighter.t :=
  RegexHighlighter.mk (Compiled "x") ["yellow"].

(** A matcher of face specs that knows three parameters, and the reading
    of their capture numbers. *)
Definition three_specs (param : string) : option (string * string) :=
  if String.eqb param "0:yellow" then Some ("0", "yellow")
  else if String.eqb param "1:red" then Some ("1", "red")
  else if String.eqb param "0:blue" then Some ("0", "blue")
  else None.

Definition digit_value (digits : string) : nat :=
  if String.eqb digits "1" then 1%nat else 0%nat.

Definition any_face (spec : string) : bool := true.

Definition face_error_what (spec : string) : string := "invalid face".

(** A registry that holds the string [foo], referenced once. *)
Definition one_string : StringRegistry.t :=
  StringRegistry.mk {["foo" := 0%nat]} [] [("foo", 1)].

(** A keymap manager that maps the key 1 to the key 2, over a parent that
    maps the key 1 to the key 5 and the key 3 to the key 4, all in mode 0;
    keys and modes are numbers. *)
Definition parent_keymap : KeymapManager.t Z Z :=
  KeymapManager.root {[(1, 0) := [5]; (3, 0) := [4]]}.

Definition keymap : KeymapManager.t Z Z :=
  KeymapManager.child {[(1, 0) := [2]]} parent_keymap.

(** A range for the cached range of a display buffer: from the least
    begin to the greatest end of the ranges of the lines. *)
Definition lines_range (lines : list DisplayLine) : BufferRange :=
  fold_left
    (fun r line =>
       (Coord.min (fst r) (fst (DisplayLine.range line)),
        Coord.max (snd r) (snd (DisplayLine.range line))))
    lines (mkCoord INT_MAX INT_MAX, mkCoord INT_MIN INT_MIN).

(** A highlighter that gives the face [yellow] to every atom of the
    display buffer it is called on. *)
Definition paint_yellow (context : Context) (flags : HighlightFlags)
    (display_buffer : DisplayBuffer) : option DisplayBuffer :=
  Some (DisplayBuffer.mk
          (map (map (DisplayAtom.set_face Samples.yellow))
               (DisplayBuffer.m_lines display_buffer))
          (DisplayBuffer.m_range display_buffer)).

(** The groups of a regions highlighter of which only the default group,
    whose name is empty, is defined. *)
Definition default_only (name : string) : option HighlighterFunc :=
  if String.eqb name "" then Some paint_yellow else None.

(** The viewport shows the buffer lines 6, 7 and 8. *)
Definition viewport_6_7_8 : DisplayBuffer :=
  DisplayBuffer.mk
    [[Samples.whole_line 6]; [Samples.whole_line 7]; [Samples.whole_line 8]]
    (mkCoord 6 0, mkCoord 9 0).

End Scenes.

(** * Properties *)

(** ** Coordinates *)

Module CoordFacts.
Import Coord.

Lemma ltb_lt a b : ltb a b = true <-> lt a b.
Proof.
  unfold ltb, lt.
  rewrite orb_true_iff, andb_true_iff, !Z.ltb_lt, Z.eqb_eq. tauto.
Qed.

Lemma ltb_nlt a b : ltb a b = false <-> le b a.
Proof.
  unfold ltb, le.
  rewrite orb_false_iff, andb_false_iff, !Z.ltb_ge, Z.eqb_neq. lia.
Qed.

Lemma leb_le a b : leb a b = true <-> le a b.
Proof. unfold leb. rewrite negb_true_iff. apply ltb_nlt. Qed.

Lemma leb_nle a b : leb a b = false <-> lt b a.
Proof. unfold leb. rewrite negb_false_iff. apply ltb_lt. Qed.

Lemma eqb_eq a b : eqb a b = true <-> a = b.
Proof.
  unfold eqb. rewrite andb_true_iff, !Z.eqb_eq.
  destruct a, b; simpl. split; [intros [-> ->]; reflexivity | intros [= -> ->]; auto].
Qed.

Lemma eqb_neq a b : eqb a b = false <-> a <> b.
Proof.
  rewrite <- eqb_eq. destruct (eqb a b); split; congruence.
Qed.

End CoordFacts.

(** Turns every comparison of coordinates in the context and in the goal into
    linear arithmetic over the two components. *)
Ltac coord_prep :=
  repeat match goal with
  | H : Coord.ltb _ _ = true |- _ => apply CoordFacts.ltb_lt in H
  | H : Coord.ltb _ _ = false |- _ => apply CoordFacts.ltb_nlt in H
  | H : Coord.leb _ _ = true |- _ => apply CoordFacts.leb_le in H
  | H : Coord.leb _ _ = false |- _ => apply CoordFacts.leb_nle in H
  | H : Coord.eqb _ _ = true |- _ => apply CoordFacts.eqb_eq in H
  | H : Coord.eqb _ _ = false |- _ => apply CoordFacts.eqb_neq in H
  | |- Coord.ltb _ _ = true => apply CoordFacts.ltb_lt
  | |- Coord.ltb _ _ = false => apply CoordFacts.ltb_nlt
  | |- Coord.leb _ _ = true => apply CoordFacts.leb_le
  | |- Coord.leb _ _ = false => apply CoordFacts.leb_nle
  end.

Ltac coord_lia :=
  coord_prep; unfold Coord.lt, Coord.le in *; simpl in *; lia.


Module CoordOrder.

Lemma min_le_l a b : Coord.le (Coord.min a b) a.
Proof. unfold Coord.min. destruct (Coord.ltb b a) eqn:E; coord_lia. Qed.

Lemma min_le_r a b : Coord.le (Coord.min a b) b.
Proof. unfold Coord.min. destruct (Coord.ltb b a) eqn:E; coord_lia. Qed.

Lemma max_le_l a b : Coord.le a (Coord.max a b).
Proof. unfold Coord.max. destruct (Coord.ltb a b) eqn:E; coord_lia. Qed.

Lemma max_le_r a b : Coord.le b (Coord.max a b).
Proof. unfold Coord.max. destruct (Coord.ltb a b) eqn:E; coord_lia. Qed.

Lemma le_trans a b c : Coord.le a b -> Coord.le b c -> Coord.le a c.
Proof. coord_lia. Qed.

Lemma le_refl a : Coord.le a a.
Proof. coord_lia. Qed.

End CoordOrder.

(** ** Display lines *)

Section DisplayLineFacts.

Implicit Types (l pre rest : DisplayLine) (a : DisplayAtom).

Lemma split_middle pre a rest pos :
  DisplayAtom.m_type a = DisplayAtom.BufferRange ->
  Coord.lt (DisplayAtom.m_begin a) pos ->
  Coord.lt pos (DisplayAtom.m_end a) ->
  DisplayLine.split (pre ++ a :: rest) (length pre) pos
  = Some (pre ++ DisplayAtom.set_end pos a :: DisplayAtom.set_begin pos a :: rest).
Proof.
  intros Ht Hb He. unfold DisplayLine.split.
  rewrite list_lookup_middle by reflexivity.
  rewrite bool_decide_eq_true_2 by assumption.
  apply CoordFacts.ltb_lt in Hb, He. rewrite Hb, He. simpl.
  rewrite take_app_length.
  replace (S (length pre)) with (length (pre ++ [a])) by (rewrite length_app; simpl; lia).
  rewrite (cons_middle a pre rest), app_assoc, drop_app_length.
  reflexivity.
Qed.

Lemma apply_at_middle (f : DisplayAtom -> DisplayAtom) pre a rest :
  DisplayLine.apply_at f (length pre) (pre ++ a :: rest) = pre ++ f a :: rest.
Proof.
  unfold DisplayLine.apply_at.
  rewrite alter_app_r_alt by lia.
  replace (length pre - length pre)%nat with 0%nat by lia. reflexivity.
Qed.

(** The range of a line contains the range of each of its atoms. *)
Lemma range_fold_contains l r0 :
  let r := fold_left
    (fun r a =>
       if DisplayAtom.has_buffer_range a
       then (Coord.min (fst r) (DisplayAtom.m_begin a),
             Coord.max (snd r) (DisplayAtom.m_end a))
       else r) l r0 in
  (Coord.le (fst r) (fst r0) /\ Coord.le (snd r0) (snd r)) /\
  forall a, In a l -> DisplayAtom.has_buffer_range a = true ->
    Coord.le (fst r) (DisplayAtom.m_begin a) /\ Coord.le (DisplayAtom.m_end a) (snd r).
Proof.
  revert r0. induction l as [|x l IH]; intros r0; simpl.
  - split; [split; apply CoordOrder.le_refl | intros a []].
  - specialize (IH (if DisplayAtom.has_buffer_range x
                    then (Coord.min (fst r0) (DisplayAtom.m_begin x),
                          Coord.max (snd r0) (DisplayAtom.m_end x))
                    else r0)).
    simpl in IH. destruct IH as [[IH1 IH2] IH3].
    destruct (DisplayAtom.has_buffer_range x) eqn:Hx; simpl in *.
    + split; [split|].
      * eapply CoordOrder.le_trans; [exact IH1 | apply CoordOrder.min_le_l].
      * eapply CoordOrder.le_trans; [apply CoordOrder.max_le_l | exact IH2].
      * intros a [<- | Ha] Hr; [|auto]. split.
        -- eapply CoordOrder.le_trans; [exact IH1 | apply CoordOrder.min_le_r].
        -- eapply CoordOrder.le_trans; [apply CoordOrder.max_le_r | exact IH2].
    + split; [split; assumption|].
      intros a [<- | Ha] Hr; [congruence | auto].
Qed.

Lemma range_contains l a :
  In a l -> DisplayAtom.has_buffer_range a = true ->
  Coord.le (fst (DisplayLine.range l)) (DisplayAtom.m_begin a) /\
  Coord.le (DisplayAtom.m_end a) (snd (DisplayLine.range l)).
Proof. intros. apply range_fold_contains; assumption. Qed.

End DisplayLineFacts.

(** ** [highlight_range] *)

(** Closes a goal about the rest of the loop with the induction hypothesis
    [H], up to reassociating the line and recounting the iterator. *)
Ltac next_atom H :=
  etransitivity; [|exact H];
  f_equal; try (rewrite <- ?app_assoc; reflexivity);
  rewrite ?length_app; cbn; lia.

Section HighlightRangeFacts.

Variables (b e : ByteCoord) (skip : bool) (f : DisplayAtom -> DisplayAtom).
Hypothesis b_lt_e : Coord.lt b e.

Lemma type_of_unreplaced a :
  DisplayAtom.has_buffer_range a = true ->
  DisplayAtom.is_replaced a = false ->
  DisplayAtom.m_type a = DisplayAtom.BufferRange.
Proof.
  unfold DisplayAtom.has_buffer_range, DisplayAtom.is_replaced.
  destruct (DisplayAtom.m_type a); congruence.
Qed.

(** The iterator loop, started at any position of a line, rewrites the atoms
    from that position on one by one, each as [highlight_atom] says, and
    needs no more fuel than there are atoms left. *)
Lemma highlight_atoms_spec rest : forall pre fuel,
  (length rest <= fuel)%nat ->
  highlight_atoms b e skip f fuel (pre ++ rest) (length pre)
  = Some (pre ++ flat_map (highlight_atom b e skip f) rest).
Proof.
  induction rest as [|a rest IH]; intros pre fuel Hfuel.
  - destruct fuel; simpl; rewrite app_nil_r, lookup_ge_None_2 by lia; reflexivity.
  - destruct fuel as [|fuel]; [simpl in Hfuel; lia|].
    simpl in Hfuel. cbn [highlight_atoms].
    rewrite list_lookup_middle by reflexivity.
    assert (Hnext : forall x tl,
      highlight_atoms b e skip f fuel (pre ++ x :: tl ++ rest) (length (pre ++ x :: tl))
      = Some (pre ++ x :: tl ++ flat_map (highlight_atom b e skip f) rest)).
    { intros x tl. specialize (IH (pre ++ x :: tl) fuel ltac:(lia)).
      rewrite <- !app_assoc in IH. exact IH. }
    cbn [flat_map]. unfold highlight_atom at 1.
    destruct (DisplayAtom.has_buffer_range a) eqn:Hr; cbn [negb orb].
    2:{ next_atom (Hnext a []). }
    destruct (skip && DisplayAtom.is_replaced a) eqn:Hs.
    { next_atom (Hnext a []). }
    unfold overlaps.
    destruct (Coord.leb e (DisplayAtom.m_begin a)) eqn:H1; cbn [orb].
    { assert (Coord.ltb (DisplayAtom.m_begin a) e = false) as -> by coord_lia.
      cbn [andb negb]. next_atom (Hnext a []). }
    assert (Coord.ltb (DisplayAtom.m_begin a) e = true) as -> by coord_lia.
    destruct (Coord.leb (DisplayAtom.m_end a) b) eqn:H2; cbn [andb negb].
    { assert (Coord.ltb b (DisplayAtom.m_end a) = false) as -> by coord_lia.
      cbn [andb negb]. next_atom (Hnext a []). }
    assert (Coord.ltb b (DisplayAtom.m_end a) = true) as -> by coord_lia.
    cbn [negb].
    destruct (DisplayAtom.is_replaced a) eqn:Hrep; cbn [negb andb].
    { (* a replaced atom is never split *)
      cbn. rewrite list_lookup_middle by reflexivity. cbn.
      rewrite apply_at_middle. next_atom (Hnext (f a) []). }
    pose proof (type_of_unreplaced a Hr Hrep) as Hty.
    unfold highlight_split.
    destruct (Coord.ltb (DisplayAtom.m_begin a) b) eqn:Hb.
    + (* the atom straddles [begin] *)
      rewrite split_middle by (assumption || coord_lia). cbn.
      assert (Hlen : S (length pre) = length (pre ++ [DisplayAtom.set_end b a]))
        by (rewrite length_app; cbn; lia).
      assert (Hl : forall tl, pre ++ DisplayAtom.set_end b a :: tl
                              = (pre ++ [DisplayAtom.set_end b a]) ++ tl)
        by (intros; rewrite <- app_assoc; reflexivity).
      rewrite Hlen, (Hl (_ :: rest)).
      rewrite list_lookup_middle by reflexivity. cbn.
      destruct (Coord.ltb e (DisplayAtom.m_end a)) eqn:He.
      * rewrite split_middle by (cbn; assumption || coord_lia). cbn.
        rewrite apply_at_middle.
        next_atom (Hnext (DisplayAtom.set_end b a)
          [f (DisplayAtom.set_end e (DisplayAtom.set_begin b a));
           DisplayAtom.set_begin e (DisplayAtom.set_begin b a)]).
      * rewrite apply_at_middle.
        next_atom (Hnext (DisplayAtom.set_end b a) [f (DisplayAtom.set_begin b a)]).
    + cbn. rewrite list_lookup_middle by reflexivity. cbn.
      destruct (Coord.ltb e (DisplayAtom.m_end a)) eqn:He.
      * rewrite split_middle by (assumption || coord_lia). cbn.
        rewrite apply_at_middle.
        next_atom (Hnext (f (DisplayAtom.set_end e a)) [DisplayAtom.set_begin e a]).
      * rewrite apply_at_middle. next_atom (Hnext (f a) []).
Qed.

Lemma highlight_atom_outside a :
  (DisplayAtom.has_buffer_range a = true -> overlaps b e a = false) ->
  highlight_atom b e skip f a = [a].
Proof.
  intros H. unfold highlight_atom.
  destruct (DisplayAtom.has_buffer_range a); [|reflexivity].
  rewrite H by reflexivity. cbn.
  destruct (skip && DisplayAtom.is_replaced a); reflexivity.
Qed.

Lemma flat_map_singletons {A} (g : A -> list A) (l : list A) :
  (forall x, In x l -> g x = [x]) -> flat_map g l = l.
Proof.
  induction l as [|x l IH]; intros H; [reflexivity|]. cbn.
  rewrite (H x) by (left; reflexivity). cbn. f_equal.
  apply IH. intros y Hy. apply H. right. exact Hy.
Qed.

Lemma highlight_line_result_ok line :
  highlight_line b e skip f line = Some (highlight_line_result b e skip f line).
Proof.
  unfold highlight_line, highlight_line_result.
  destruct (_ || _); [reflexivity|].
  apply (highlight_atoms_spec line [] (length line)). lia.
Qed.

(** A line whose range misses [begin, end) has no atom to rewrite. *)
Lemma highlight_line_result_spec line :
  highlight_line_result b e skip f line = flat_map (highlight_atom b e skip f) line.
Proof.
  unfold highlight_line_result.
  destruct (_ || _) eqn:Hskip; [|reflexivity].
  symmetry. apply flat_map_singletons. intros a Ha.
  apply highlight_atom_outside. intros Hr.
  destruct (range_contains line a Ha Hr) as [H1 H2].
  unfold overlaps. apply orb_true_iff in Hskip.
  destruct Hskip as [Hs | Hs]; coord_prep.
  - assert (Coord.ltb b (DisplayAtom.m_end a) = false) as -> by coord_lia.
    apply andb_false_r.
  - assert (Coord.ltb (DisplayAtom.m_begin a) e = false) as -> by coord_lia.
    reflexivity.
Qed.

Lemma mapM_total {A B} (g : A -> option B) (h : A -> B) (l : list A) :
  (forall x, g x = Some (h x)) -> mapM g l = Some (map h l).
Proof.
  intros H. induction l as [|x l IH]; [reflexivity|].
  cbn. rewrite H. cbn. rewrite IH. reflexivity.
Qed.

(** [highlight_range] never fails when [begin < end], and leaves the cached
    range of the display buffer as it is. *)
Lemma highlight_range_result d :
  highlight_range b e skip f d
  = Some (if Coord.leb e (fst (DisplayBuffer.m_range d))
             || Coord.leb (snd (DisplayBuffer.m_range d)) b
          then d
          else DisplayBuffer.mk (map (highlight_line_result b e skip f) (DisplayBuffer.m_lines d))
                                (DisplayBuffer.m_range d)).
Proof.
  unfold highlight_range.
  assert (Coord.eqb b e = false) as ->.
  { apply CoordFacts.eqb_neq. intros ->. coord_lia. }
  cbn [orb]. destruct (_ || _); [reflexivity|].
  rewrite (mapM_total _ (highlight_line_result b e skip f)) by apply highlight_line_result_ok.
  reflexivity.
Qed.

End HighlightRangeFacts.

Lemma range_contains_atoms_In d line a :
  DisplayBuffer.range_contains_atoms d = true ->
  In line (DisplayBuffer.m_lines d) -> In a line ->
  DisplayAtom.has_buffer_range a = true ->
  Coord.le (fst (DisplayBuffer.m_range d)) (DisplayAtom.m_begin a) /\
  Coord.le (DisplayAtom.m_end a) (snd (DisplayBuffer.m_range d)).
Proof.
  unfold DisplayBuffer.range_contains_atoms. intros H Hl Ha Hr.
  rewrite forallb_forall in H. specialize (H line Hl).
  rewrite forallb_forall in H. specialize (H a Ha).
  rewrite Hr in H. cbn in H. apply andb_true_iff in H. destruct H.
  split; coord_prep; assumption.
Qed.

(** C3 (amended).  For [begin < end] and a display buffer whose cached range
    contains its atoms, [highlight_range] succeeds and rewrites every line
    atom by atom as [highlight_atom] says: atoms without a buffer range,
    replaced atoms under [skip_replaced] and atoms that do not overlap
    [begin, end) are kept; an overlapping [BufferRange] atom is split at
    [begin] and at [end] where it straddles them and [func] is applied to the
    part inside; an overlapping replaced atom that is not skipped receives
    [func] whole and is never split. *)
Theorem highlight_range_spec b e skip f d :
  Coord.lt b e ->
  DisplayBuffer.range_contains_atoms d = true ->
  highlight_range b e skip f d
  = Some (DisplayBuffer.mk
            (map (flat_map (highlight_atom b e skip f)) (DisplayBuffer.m_lines d))
            (DisplayBuffer.m_range d)).
Proof.
  intros Hlt Hrange. rewrite highlight_range_result by assumption. f_equal.
  destruct (_ || _) eqn:Hskip.
  - destruct d as [lines range]. cbn in *. f_equal.
    rewrite <- (map_id lines) at 1. apply map_ext_in. intros line Hline.
    symmetry. apply flat_map_singletons. intros a Ha.
    apply highlight_atom_outside. intros Hr.
    destruct (range_contains_atoms_In (DisplayBuffer.mk lines range) line a
                Hrange Hline Ha Hr) as [H1 H2].
    cbn in H1, H2. unfold overlaps. apply orb_true_iff in Hskip.
    destruct Hskip as [Hs | Hs]; coord_prep.
    + assert (Coord.ltb (DisplayAtom.m_begin a) e = false) as -> by coord_lia.
      reflexivity.
    + assert (Coord.ltb b (DisplayAtom.m_end a) = false) as -> by coord_lia.
      apply andb_false_r.
  - assert (H : map (highlight_line_result b e skip f) (DisplayBuffer.m_lines d)
               = map (flat_map (highlight_atom b e skip f)) (DisplayBuffer.m_lines d)).
    { apply map_ext. intros line. apply highlight_line_result_spec; assumption. }
    rewrite H. reflexivity.
Qed.

(** ** Line numbers *)

Section LineNumberFacts.

Local Open Scope Z_scope.






Lemma spaces_length n : String.length (spaces n) = n.
Proof. induction n; cbn; congruence. Qed.

Lemma string_app_length (s t : string) :
  String.length (s ++ t) = (String.length s + String.length t)%nat.
Proof.
  induction s as [|c s IH]; [reflexivity|].
  change (S (String.length (s ++ t)) = S (String.length s + String.length t)).
  congruence.
Qed.




End LineNumberFacts.




(** The theorem on the display buffer [Samples.one_atom]: the atom over
    columns 0 to 10 is cut at columns 2 and 5 and the part in between turns
    yellow. *)
Lemma highlight_range_spec_witness :
  highlight_range (mkCoord 0 2) (mkCoord 0 5) true (apply_face Samples.yellow)
                  Samples.one_atom
  = Some (DisplayBuffer.mk
            [[DisplayAtom.range (mkCoord 0 0) (mkCoord 0 2);
              DisplayAtom.mk DisplayAtom.BufferRange (mkCoord 0 2) (mkCoord 0 5)
                             EmptyString Samples.yellow;
              DisplayAtom.range (mkCoord 0 5) (mkCoord 0 10)]]
            (mkCoord 0 0, mkCoord 0 10)).
Proof.
  apply (highlight_range_spec (mkCoord 0 2) (mkCoord 0 5) true
           (apply_face Samples.yellow) Samples.one_atom).
  - unfold Coord.lt. simpl. lia.
  - reflexivity.
Defined.

(** C3, as stated, fails on a replaced atom that straddles [begin] when
    [skip_replaced] is false: the loop applies the callback to the whole atom
    and does not split it, since a replaced atom has no inner coordinates. *)
Lemma highlight_range_replaced_not_split :
  highlight_range (mkCoord 0 2) (mkCoord 0 4) false (apply_face Samples.yellow)
                  Samples.one_replaced_atom
  = Some (DisplayBuffer.mk [[apply_face Samples.yellow Samples.replaced_atom]]
                           (mkCoord 0 0, mkCoord 0 5))
  /\ highlight_range (mkCoord 0 2) (mkCoord 0 4) false (apply_face Samples.yellow)
                     Samples.one_replaced_atom
     <> Some (DisplayBuffer.mk
                (map (flat_map (highlight_atom_claimed (mkCoord 0 2) (mkCoord 0 4)
                                  false (apply_face Samples.yellow)))
                     (DisplayBuffer.m_lines Samples.one_replaced_atom))
                (DisplayBuffer.m_range Samples.one_replaced_atom)).
Proof. split; [reflexivity | vm_compute; discriminate]. Qed.



(** ** Idempotence of face overlays *)

Section Idempotence.

Variables (b e : ByteCoord) (skip : bool) (f : DisplayAtom -> DisplayAtom).
Hypothesis b_lt_e : Coord.lt b e.
Hypothesis f_type : forall a, DisplayAtom.m_type (f a) = DisplayAtom.m_type a.
Hypothesis f_begin : forall a, DisplayAtom.m_begin (f a) = DisplayAtom.m_begin a.
Hypothesis f_end : forall a, DisplayAtom.m_end (f a) = DisplayAtom.m_end a.
Hypothesis f_idem : forall a, f (f a) = f a.






End Idempotence.






(** ** Incremental update of the match cache *)

Section ListAlgorithms.

Context {A : Type}.

Lemma lower_bound_app (comp : A -> bool) (l1 l2 : list A) :
  Forall (fun x => comp x = true) l1 ->
  lower_bound comp (l1 ++ l2) = (length l1 + lower_bound comp l2)%nat.
Proof.
  induction 1 as [|x l1 Hx _ IH]; [reflexivity|].
  cbn. rewrite Hx, IH. reflexivity.
Qed.

Lemma merge_nil_l (comp : A -> A -> bool) l : merge comp [] l = l.
Proof. destruct l; reflexivity. Qed.

Lemma merge_nil_r (comp : A -> A -> bool) l : merge comp l [] = l.
Proof. destruct l; reflexivity. Qed.

Lemma merge_cons (comp : A -> A -> bool) x l1 y l2 :
  merge comp (x :: l1) (y :: l2)
  = if comp y x then y :: merge comp (x :: l1) l2 else x :: merge comp l1 (y :: l2).
Proof. reflexivity. Qed.

(** Elements of the first range that no element of the second range precedes
    come first. *)
Lemma merge_app_l (comp : A -> A -> bool) X K Y :
  Forall (fun x => Forall (fun y => comp y x = false) Y) X ->
  merge comp (X ++ K) Y = X ++ merge comp K Y.
Proof.
  induction 1 as [|x X Hx _ IH]; [reflexivity|].
  destruct Y as [|y Y].
  - rewrite !merge_nil_r. reflexivity.
  - cbn [app]. rewrite merge_cons.
    inversion Hx as [|? ? Hy _]; subst. rewrite Hy. f_equal. exact IH.
Qed.

(** Elements of the second range that precede every element of the first
    range come first. *)
Lemma merge_app_r (comp : A -> A -> bool) K Y F :
  Forall (fun y => Forall (fun k => comp y k = true) K) Y ->
  merge comp K (Y ++ F) = Y ++ merge comp K F.
Proof.
  induction 1 as [|y Y Hy _ IH]; [reflexivity|].
  destruct K as [|k K].
  - rewrite !merge_nil_l. reflexivity.
  - cbn [app]. rewrite merge_cons.
    inversion Hy as [|? ? Hk _]; subst. rewrite Hk. f_equal. exact IH.
Qed.

Lemma omap_all_Some {B} (g : A -> option B) (h : A -> B) l :
  Forall (fun x => g x = Some (h x)) l -> omap g l = map h l.
Proof.
  induction 1 as [|x l Hx _ IH]; [reflexivity|].
  cbn. rewrite Hx, IH. reflexivity.
Qed.

Lemma omap_all_None {B} (g : A -> option B) l :
  Forall (fun x => g x = None) l -> omap g l = [].
Proof.
  induction 1 as [|x l Hx _ IH]; [reflexivity|].
  cbn. rewrite Hx, IH. reflexivity.
Qed.

End ListAlgorithms.

Section MatchFacts.

Variable regex_iterator : Regex -> string -> list (Z * Z).
Variable regex : Regex.

Local Abbreviation scan := (scan_lines regex_iterator).

Lemma scan_lines_app ts o l1 l2 :
  scan ts regex o (l1 ++ l2)
  = scan ts regex o l1 ++ scan ts regex (o + Z.of_nat (length l1)) l2.
Proof.
  revert o. induction l1 as [|l l1 IH]; intros o.
  - cbn. rewrite Z.add_0_r. reflexivity.
  - cbn [app scan_lines length]. rewrite IH, <- app_assoc.
    do 3 f_equal. lia.
Qed.

Lemma scan_lines_bounds ts o ls :
  Forall (fun x => o <= RegexMatch.line x < o + Z.of_nat (length ls))
         (scan ts regex o ls).
Proof.
  revert o. induction ls as [|l ls IH]; intros o; [constructor|].
  cbn [scan_lines]. apply Forall_app. split.
  - unfold line_matches. apply List.Forall_map, Forall_forall.
    intros be _. cbn. lia.
  - eapply Forall_impl; [apply IH|]. cbn. intros x Hx. lia.
Qed.

(** Shifting the matches of some lines is scanning the same lines at their
    new place. *)
Lemma scan_lines_shift ts0 ts1 o s ls :
  map (fun x => RegexMatch.set_timestamp ts1
                  (RegexMatch.set_line (RegexMatch.line x + s) x))
      (scan ts0 regex o ls)
  = scan ts1 regex (o + s) ls.
Proof.
  revert o. induction ls as [|l ls IH]; intros o; [reflexivity|].
  cbn [scan_lines]. rewrite map_app, IH. f_equal.
  - unfold line_matches. rewrite map_map. reflexivity.
  - f_equal. lia.
Qed.

End MatchFacts.

Section UpdateMatchFacts.

Variable buffer : Buffer.

Local Abbreviation L := RegexMatch.line.

(** A match on a line between two modifications is kept and moves with the
    lines before it. *)
Lemma update_match_kept pfx sfx it s :
  Forall (fun p => 0 <= num_removed p /\ old_line p + num_removed p < L it) pfx ->
  match sfx with [] => True | m :: _ => L it < old_line m end ->
  shift_after pfx s ->
  L it + s < line_count buffer ->
  update_match buffer (pfx ++ sfx) it
  = Some (RegexMatch.set_timestamp (timestamp buffer)
            (RegexMatch.set_line (L it + s) it)).
Proof.
  intros Hpfx Hsfx Hs Hcnt. unfold update_match.
  rewrite lower_bound_app.
  2:{ eapply Forall_impl; [exact Hpfx|]. cbn. intros p Hp. apply Z.ltb_lt. lia. }
  assert (Hlb : lower_bound (fun c => old_line c <? L it) sfx = 0%nat).
  { destruct sfx as [|m sfx]; [reflexivity|]. cbn.
    destruct (Z.ltb_spec (old_line m) (L it)); [lia | reflexivity]. }
  rewrite Hlb, Nat.add_0_r.
  assert (Herase : match (pfx ++ sfx) !! length pfx with
                   | Some c => old_line c =? L it
                   | None => false
                   end = false).
  { rewrite lookup_app_r, Nat.sub_diag by lia.
    destruct sfx as [|m sfx]; [reflexivity|]. cbn. apply Z.eqb_neq. lia. }
  rewrite Herase. cbn [negb andb].
  unfold shift_after in Hs. rewrite last_lookup in Hs.
  destruct pfx as [|p0 pfx'] eqn:Epfx.
  - cbn in *. subst s. rewrite Z.add_0_r in *.
    destruct (Z.leb_spec (line_count buffer) (L it)); [lia|]. reflexivity.
  - rewrite <- Epfx in *.
    assert (Hlen : (length pfx =? 0)%nat = false).
    { apply Nat.eqb_neq. rewrite Epfx. cbn. lia. }
    rewrite Hlen. cbn [negb].
    replace (length pfx - 1)%nat with (pred (length pfx)) by lia.
    rewrite lookup_app_l by (rewrite Epfx; cbn; lia).
    destruct (pfx !! pred (length pfx)) as [p|] eqn:Hp.
    2:{ apply lookup_ge_None in Hp. rewrite Epfx in Hp. cbn in Hp. lia. }
    rewrite Forall_forall in Hpfx.
    destruct (Hpfx p) as [Hp1 Hp2].
    { apply list_elem_of_lookup. eauto. }
    destruct (Z.leb_spec (L it) (old_line p + num_removed p)); [lia|].
    cbn [orb]. rewrite Hs.
    destruct (Z.leb_spec (line_count buffer) (L it + s)); [lia|]. reflexivity.
Qed.

(** A match on a line that a modification removes or rewrites is erased. *)
Lemma update_match_erased pfx m sfx it :
  Forall (fun p => old_line p < L it) pfx ->
  old_line m <= L it <= old_line m + num_removed m ->
  match sfx with [] => True | m' :: _ => L it < old_line m' end ->
  update_match buffer (pfx ++ m :: sfx) it = None.
Proof.
  intros Hpfx Hm Hsfx. unfold update_match.
  rewrite lower_bound_app.
  2:{ eapply Forall_impl; [exact Hpfx|]. cbn. intros p Hp. apply Z.ltb_lt. lia. }
  cbn [lower_bound].
  destruct (Z.ltb_spec (old_line m) (L it)) as [Hlt | Hge].
  - assert (Hlb : lower_bound (fun c => old_line c <? L it) sfx = 0%nat).
    { destruct sfx as [|m' sfx]; [reflexivity|]. cbn.
      destruct (Z.ltb_spec (old_line m') (L it)); [lia | reflexivity]. }
    rewrite Hlb.
    replace (length pfx + 1)%nat with (length (pfx ++ [m]))
      by (rewrite length_app; reflexivity).
    rewrite (cons_middle m pfx sfx), app_assoc.
    rewrite lookup_app_r, Nat.sub_diag by lia.
    assert (Herase : match sfx !! 0%nat with
                     | Some c => old_line c =? L it
                     | None => false
                     end = false).
    { destruct sfx as [|m' sfx]; [reflexivity|]. cbn. apply Z.eqb_neq. lia. }
    rewrite Herase. cbn [negb andb].
    assert (Hlen : (length (pfx ++ [m]) =? 0)%nat = false).
    { apply Nat.eqb_neq. rewrite length_app. cbn. lia. }
    rewrite Hlen. cbn [negb].
    rewrite lookup_app_l by (rewrite length_app; cbn; lia).
    replace (length (pfx ++ [m]) - 1)%nat with (length pfx)
      by (rewrite length_app; cbn; lia).
    rewrite list_lookup_middle by reflexivity.
    destruct (Z.leb_spec (L it) (old_line m + num_removed m)); [|lia].
    reflexivity.
  - rewrite Nat.add_0_r, list_lookup_middle by reflexivity.
    assert ((old_line m =? L it) = true) as -> by (apply Z.eqb_eq; lia).
    reflexivity.
Qed.

End UpdateMatchFacts.

Section UpdateMatchesFacts.

Variable regex_iterator : Regex -> string -> list (Z * Z).
Variable regex : Regex.
Variable buffer : Buffer.
Variable ts0 : Z.

Local Abbreviation scan := (scan_lines regex_iterator).
Local Abbreviation L := RegexMatch.line.

(** Scanning again [count] lines that the buffer has is scanning that slice
    of the buffer. *)
Lemma rescan_lines_slice count : forall line,
  0 <= line ->
  Z.of_nat count + line <= line_count buffer ->
  rescan_lines regex_iterator buffer regex count line
  = Some (scan (timestamp buffer) regex line
            (take count (drop (Z.to_nat line) (lines buffer)))).
Proof.
  induction count as [|count IH]; intros line Hline Hcount; [reflexivity|].
  cbn [rescan_lines].
  destruct (Z.ltb_spec line (line_count buffer)); [|lia].
  unfold buffer_line. destruct (Z.leb_spec 0 line); [|lia].
  unfold line_count in *.
  destruct (lines buffer !! Z.to_nat line) as [l|] eqn:Hl.
  2:{ apply lookup_ge_None in Hl. lia. }
  cbn [mbind option_bind]. rewrite IH by lia. cbn [mbind option_bind].
  rewrite (drop_S _ _ _ Hl). cbn [take scan_lines].
  replace (Z.to_nat (line + 1)) with (S (Z.to_nat line)) by lia.
  reflexivity.
Qed.

(** The heart of the refinement: from line [o] of the old buffer and line
    [n] of the new one on, the matches kept and shifted by the first loop,
    merged with the matches found in the modified lines, are the matches of a
    scan of the new lines. *)
Lemma update_matches_from modifs : forall pfx o n old new,
  describes_from o n old new modifs = true ->
  0 <= o -> 0 <= n ->
  new = drop (Z.to_nat n) (lines buffer) ->
  line_count buffer = n + Z.of_nat (length new) ->
  Forall (fun p => 0 <= num_removed p /\ old_line p + num_removed p < o) pfx ->
  shift_after pfx (n - o) ->
  exists found,
    rescan_modifs regex_iterator buffer regex modifs = Some found /\
    merge match_before
          (omap (update_match buffer (pfx ++ modifs)) (scan ts0 regex o old))
          found
    = scan (timestamp buffer) regex n new /\
    Forall (fun x => n <= L x)
           (omap (update_match buffer (pfx ++ modifs)) (scan ts0 regex o old)) /\
    Forall (fun x => n <= L x) found.
Proof.
  induction modifs as [|m modifs IH]; intros pfx o n old new Hd Ho Hn Hnew Hcnt Hpfx Hs.
  - (* after the last modification the lines are the same *)
    cbn in Hd. apply bool_decide_eq_true in Hd. subst old.
    exists []. rewrite app_nil_r.
    assert (Hkept : omap (update_match buffer pfx) (scan ts0 regex o new)
                    = scan (timestamp buffer) regex n new).
    { rewrite (omap_all_Some _
        (fun x => RegexMatch.set_timestamp (timestamp buffer)
                    (RegexMatch.set_line (L x + (n - o)) x))).
      - rewrite scan_lines_shift. f_equal. lia.
      - eapply Forall_impl; [apply scan_lines_bounds|]. cbn beta.
        intros x Hx. rewrite <- (app_nil_r pfx).
        apply update_match_kept; [|exact I|exact Hs|lia].
        eapply Forall_impl; [exact Hpfx|]. cbn beta. intros p Hp. lia. }
    rewrite Hkept, merge_nil_r.
    repeat split; [|constructor].
    eapply Forall_impl; [apply scan_lines_bounds|]. cbn beta. intros x Hx. lia.
  - cbn [describes_from] in Hd.
    repeat (apply andb_true_iff in Hd; destruct Hd as [Hd ?]).
    repeat match goal with
           | H : (_ <=? _) = true |- _ => apply Z.leb_le in H
           | H : (_ <? _) = true |- _ => apply Z.ltb_lt in H
           | H : (_ =? _) = true |- _ => apply Z.eqb_eq in H
           | H : bool_decide _ = true |- _ => apply bool_decide_eq_true in H
           end.
    rename H into Hrest, H0 into Hanew, H1 into Hrold, H2 into Htake,
           H3 into Hna, H4 into Hnr, H5 into Hnl, Hd into Hu.
    set (u := old_line m - o) in *.
    set (U := take (Z.to_nat u) old) in *.
    set (R := take (Z.to_nat (num_removed m + 1)) (drop (Z.to_nat u) old)).
    set (A := take (Z.to_nat (num_added m + 1)) (drop (Z.to_nat u) new)).
    set (old' := drop (Z.to_nat (u + num_removed m + 1)) old) in *.
    set (new' := drop (Z.to_nat (u + num_added m + 1)) new) in *.
    assert (Hold : old = U ++ R ++ old').
    { subst U R old'. rewrite <- (take_drop (Z.to_nat u) old) at 1. f_equal.
      rewrite <- (take_drop (Z.to_nat (num_removed m + 1)) (drop (Z.to_nat u) old)) at 1.
      f_equal. rewrite drop_drop. f_equal. lia. }
    assert (Hnew' : new = U ++ A ++ new').
    { subst U A new'. rewrite Htake.
      rewrite <- (take_drop (Z.to_nat u) new) at 1. f_equal.
      rewrite <- (take_drop (Z.to_nat (num_added m + 1)) (drop (Z.to_nat u) new)) at 1.
      f_equal. rewrite drop_drop. f_equal. lia. }
    assert (HlenU : Z.of_nat (length U) = u).
    { subst U. rewrite length_take. lia. }
    assert (HlenR : Z.of_nat (length R) = num_removed m + 1).
    { subst R. rewrite length_take, length_drop. lia. }
    assert (HlenA : Z.of_nat (length A) = num_added m + 1).
    { subst A. rewrite length_take, length_drop. lia. }
    assert (Hhead : match modifs with [] => True
                    | m' :: _ => old_line m + num_removed m < old_line m' end).
    { destruct modifs as [|m' modifs']; [exact I|].
      cbn [describes_from] in Hrest.
      repeat (apply andb_true_iff in Hrest; destruct Hrest as [Hrest _]).
      apply Z.leb_le in Hrest. lia. }
    (* the matches that are kept: those of the unchanged lines [U] *)
    destruct (IH (pfx ++ [m]) (old_line m + num_removed m + 1)
                 (new_line m + num_added m + 1) old' new' Hrest)
      as (found' & Hfound' & Hmerge' & Hkept' & Hfresh').
    { lia. } { lia. }
    { subst new'. rewrite Hnew, drop_drop. f_equal. lia. }
    { rewrite Hcnt, Hnew'. rewrite !length_app. lia. }
    { apply Forall_app. split.
      - eapply Forall_impl; [exact Hpfx|]. cbn beta. intros p Hp. lia.
      - repeat constructor; lia. }
    { unfold shift_after. rewrite last_snoc. unfold diff. lia. }
    rewrite <- app_assoc in Hmerge', Hkept'. cbn [app] in Hmerge', Hkept'.
    assert (HkU : omap (update_match buffer (pfx ++ m :: modifs)) (scan ts0 regex o U)
                  = scan (timestamp buffer) regex n U).
    { rewrite (omap_all_Some _
        (fun x => RegexMatch.set_timestamp (timestamp buffer)
                    (RegexMatch.set_line (L x + (n - o)) x))).
      - rewrite scan_lines_shift. f_equal. lia.
      - eapply Forall_impl; [apply scan_lines_bounds|]. cbn beta.
        intros x Hx. apply update_match_kept; [|lia|exact Hs|].
        + eapply Forall_impl; [exact Hpfx|]. cbn beta. intros p Hp. lia.
        + rewrite Hcnt, Hnew', !length_app. lia. }
    assert (HkR : omap (update_match buffer (pfx ++ m :: modifs))
                       (scan ts0 regex (o + Z.of_nat (length U)) R) = []).
    { apply omap_all_None.
      eapply Forall_impl; [apply scan_lines_bounds|]. cbn beta.
      intros x Hx. apply update_match_erased.
      - eapply Forall_impl; [exact Hpfx|]. cbn beta. intros p Hp. lia.
      - lia.
      - destruct modifs; [exact I | lia]. }
    assert (Hrescan : rescan_lines regex_iterator buffer regex
                        (Z.to_nat (num_added m + 1)) (new_line m)
                      = Some (scan (timestamp buffer) regex (new_line m) A)).
    { rewrite rescan_lines_slice.
      - do 2 f_equal. subst A. rewrite Hnew, drop_drop. do 2 f_equal. lia.
      - lia.
      - rewrite Hcnt, Hnew', !length_app. lia. }
    exists (scan (timestamp buffer) regex (new_line m) A ++ found').
    split; [|split; [|split]].
    + cbn [rescan_modifs]. rewrite Hrescan, Hfound'. reflexivity.
    + rewrite Hold at 1. rewrite !scan_lines_app, !omap_app, HkU, HkR.
      cbn [app].
      replace (o + Z.of_nat (length U) + Z.of_nat (length R))
        with (old_line m + num_removed m + 1) by lia.
      rewrite merge_app_l, merge_app_r, Hmerge'.
      * rewrite Hnew' at 1. rewrite !scan_lines_app.
        do 2 f_equal; [f_equal; lia|]. f_equal. lia.
      * (* a match found in the modified lines precedes the matches kept
           after them *)
        eapply Forall_impl; [apply scan_lines_bounds|]. cbn beta.
        intros y Hy. eapply Forall_impl; [exact Hkept'|]. cbn beta.
        intros k Hk. unfold match_before, RegexMatch.begin_coord.
        apply CoordFacts.ltb_lt. unfold Coord.lt. cbn. lia.
      * (* no match found in the modified lines or after them precedes a
           match of the unchanged lines before them *)
        eapply Forall_impl; [apply scan_lines_bounds|]. cbn beta.
        intros x Hx. apply Forall_app. split.
        -- eapply Forall_impl; [apply scan_lines_bounds|]. cbn beta.
           intros y Hy. unfold match_before, RegexMatch.begin_coord.
           apply CoordFacts.ltb_nlt. unfold Coord.le. cbn. lia.
        -- eapply Forall_impl; [exact Hfresh'|]. cbn beta.
           intros y Hy. unfold match_before, RegexMatch.begin_coord.
           apply CoordFacts.ltb_nlt. unfold Coord.le. cbn. lia.
    + rewrite Hold at 1. rewrite !scan_lines_app, !omap_app, HkU, HkR.
      cbn [app]. apply Forall_app. split.
      * eapply Forall_impl; [apply scan_lines_bounds|]. cbn beta. intros x Hx. lia.
      * replace (o + Z.of_nat (length U) + Z.of_nat (length R))
          with (old_line m + num_removed m + 1) by lia.
        eapply Forall_impl; [exact Hkept'|]. cbn beta. intros x Hx. lia.
    + apply Forall_app. split.
      * eapply Forall_impl; [apply scan_lines_bounds|]. cbn beta. intros x Hx. lia.
      * eapply Forall_impl; [exact Hfresh'|]. cbn beta. intros x Hx. lia.
Qed.

End UpdateMatchesFacts.

(** C1.  When the line modifications describe how the old buffer became the
    new one, [update_matches], applied to the matches of a full scan of the
    old buffer, succeeds and yields exactly the list that a full scan of the
    new buffer yields, in the same order. *)
Theorem update_matches_refines_find_matches regex_iterator regex old new modifs :
  describes old new modifs = true ->
  update_matches regex_iterator new modifs
                 (find_matches regex_iterator old [] regex) regex
  = Some (find_matches regex_iterator new [] regex).
Proof.
  intros Hd. unfold describes in Hd.
  destruct (update_matches_from regex_iterator regex new (timestamp old)
              modifs [] 0 0 (lines old) (lines new) Hd)
    as (found & Hfound & Hmerge & _ & _).
  - lia.
  - lia.
  - reflexivity.
  - unfold line_count. lia.
  - constructor.
  - reflexivity.
  - unfold update_matches, find_matches. cbn [app].
    rewrite Hfound. cbn [mbind option_bind]. f_equal. exact Hmerge.
Qed.

(** The theorem on the scenario of the specification: matches on the lines
    2, 5 and 9, the lines 4 to 6 replaced by four lines of which the third
    has a match.  The match on line 5 goes, line 6 brings a new one and the
    match on line 9 moves to line 10. *)
Lemma update_matches_refines_find_matches_witness :
  update_matches Samples.literal_iterator Samples.new_buffer
    [Samples.modification]
    [RegexMatch.mk 1 2 0 1; RegexMatch.mk 1 5 0 1; RegexMatch.mk 1 9 0 1]
    (Compiled "x")
  = Some [RegexMatch.mk 2 2 0 1; RegexMatch.mk 2 6 0 1; RegexMatch.mk 2 10 0 1].
Proof.
  exact (update_matches_refines_find_matches Samples.literal_iterator
           (Compiled "x") Samples.old_buffer Samples.new_buffer
           [Samples.modification] eq_refl).
Defined.

(** ** Regions: [find_matching_end] *)

Section SearchFacts.

Context {A : Type}.

Lemma lower_bound_le (comp : A -> bool) l : (lower_bound comp l <= length l)%nat.
Proof. induction l as [|x l IH]; cbn; [lia|]. destruct (comp x); lia. Qed.

(** The element the search stops at does not satisfy the comparison. *)
Lemma lower_bound_lookup (comp : A -> bool) l x :
  l !! lower_bound comp l = Some x -> comp x = false.
Proof.
  induction l as [|y l IH]; cbn; [discriminate|].
  destruct (comp y) eqn:Hy; cbn; [exact IH|]. intros [= <-]. exact Hy.
Qed.

End SearchFacts.

Lemma count_recurse_le limit recs :
  (RegionMatches.count_recurse limit recs <= length recs)%nat.
Proof.
  induction recs as [|r recs IH]; cbn; [lia|].
  destruct (Coord.ltb _ _); lia.
Qed.


Lemma sorted_by_begin_tail x l :
  sorted_by_begin (x :: l) = true -> sorted_by_begin l = true.
Proof. cbn. intros H. apply andb_true_iff in H. tauto. Qed.

Lemma sorted_by_begin_head x l :
  sorted_by_begin (x :: l) = true ->
  Forall (fun y => Coord.le (RegexMatch.begin_coord x) (RegexMatch.begin_coord y)) l.
Proof.
  revert x. induction l as [|y l IH]; intros x H; [constructor|].
  cbn in H. apply andb_true_iff in H. destruct H as [Hxy Hl].
  constructor; [coord_lia|].
  eapply Forall_impl; [apply IH; exact Hl|]. cbn beta.
  intros z Hz. coord_lia.
Qed.

Lemma sorted_by_begin_lookup l : forall i j x y,
  sorted_by_begin l = true -> (i <= j)%nat ->
  l !! i = Some x -> l !! j = Some y ->
  Coord.le (RegexMatch.begin_coord x) (RegexMatch.begin_coord y).
Proof.
  induction l as [|z l IH]; intros i j x y Hs Hij Hi Hj; [discriminate|].
  destruct i as [|i].
  - cbn in Hi. injection Hi as <-. destruct j as [|j].
    + cbn in Hj. injection Hj as <-. coord_lia.
    + cbn in Hj. pose proof (sorted_by_begin_head _ _ Hs) as Hh.
      rewrite Forall_forall in Hh. apply Hh.
      apply list_elem_of_lookup. eauto.
  - destruct j as [|j]; [lia|]. cbn in Hi, Hj.
    eapply (IH i j); eauto using sorted_by_begin_tail. lia.
Qed.

Lemma well_formed_matches_lookup l i x :
  well_formed_matches l = true -> l !! i = Some x ->
  Coord.le (RegexMatch.begin_coord x) (RegexMatch.end_coord x).
Proof.
  intros Hwf Hx. unfold well_formed_matches in Hwf.
  rewrite forallb_forall in Hwf.
  assert (In x l) as Hin.
  { apply list_elem_of_In, list_elem_of_lookup. eauto. }
  specialize (Hwf x Hin). apply Z.leb_le in Hwf.
  unfold Coord.le, RegexMatch.begin_coord, RegexMatch.end_coord. cbn. lia.
Qed.

Section FindMatchingEndFacts.

Import RegionMatches.

Variable m : RegionMatches.

(** The loop returns: the recursion level and the recurse matches that are
    left bound the number of rounds. *)
Lemma find_matching_end_loop_total fuel : forall end_it rec_it level beg_pos tr,
  0 <= level ->
  (rec_it <= length (recurse_matches m))%nat ->
  level + Z.of_nat (length (recurse_matches m)) - Z.of_nat rec_it < Z.of_nat fuel ->
  exists tr', find_matching_end_loop fuel m end_it rec_it level beg_pos tr = Some tr'.
Proof.
  induction fuel as [|fuel IH]; intros end_it rec_it level beg_pos tr Hl Hr Hf; [lia|].
  cbn [find_matching_end_loop].
  set (end_it1 := (end_it + lower_bound _ _)%nat).
  pose proof (lower_bound_le (compare_to_begin beg_pos) (drop rec_it (recurse_matches m)))
    as Hlb.
  rewrite length_drop in Hlb.
  set (rec_it1 := (rec_it + lower_bound _ _)%nat) in *.
  destruct (end_matches m !! end_it1) as [e|]; [|eauto].
  pose proof (count_recurse_le (RegexMatch.begin_coord e) (drop rec_it1 (recurse_matches m)))
    as Hk.
  rewrite length_drop in Hk.
  set (k := count_recurse _ _) in *.
  destruct (level + Z.of_nat k =? 0) eqn:Hz; [eauto|].
  apply Z.eqb_neq in Hz. apply IH; lia.
Qed.

Variable b : ByteCoord.
Hypothesis sorted_ends : sorted_by_begin (end_matches m) = true.
Hypothesis sorted_recs : sorted_by_begin (recurse_matches m) = true.
Hypothesis wf_ends : well_formed_matches (end_matches m) = true.


End FindMatchingEndFacts.



Example find_matching_end_braces :
  RegionMatches.find_matching_end_trace Samples.braces (mkCoord 0 1)
  = Some (RegionMatches.mkTrace 1 [RegexMatch.mk 1 0 4 5] [RegexMatch.mk 1 0 8 9]).
Proof. reflexivity. Qed.

(** ** Regions: the resolution loop *)

Section ResolveFacts.

Import RegionMatches.

(** The end match returned begins at the search position or behind it. *)
Lemma find_matching_end_loop_after m b fuel :
  well_formed_matches (end_matches m) = true ->
  forall end_it rec_it level beg_pos tr tr' e,
  Coord.le b beg_pos ->
  find_matching_end_loop fuel m end_it rec_it level beg_pos tr = Some tr' ->
  end_matches m !! result tr' = Some e ->
  Coord.le b (RegexMatch.begin_coord e).
Proof.
  intros Hwf. induction fuel as [|fuel IH];
    intros end_it rec_it level beg_pos tr tr' e Hb Hloop He; [discriminate|].
  cbn [find_matching_end_loop] in Hloop.
  pose proof (lower_bound_lookup (compare_to_begin beg_pos)
                (drop end_it (end_matches m))) as Hstop.
  rewrite lookup_drop in Hstop.
  set (end_it1 := (end_it + lower_bound _ _)%nat) in *.
  destruct (end_matches m !! end_it1) as [e1|] eqn:He1.
  2:{ injection Hloop as <-. cbn in He. congruence. }
  specialize (Hstop e1 eq_refl). unfold compare_to_begin in Hstop.
  destruct (_ =? 0).
  - injection Hloop as <-. cbn in He. assert (e = e1) as -> by congruence.
    coord_lia.
  - eapply IH; [|exact Hloop|exact He].
    pose proof (well_formed_matches_lookup _ _ _ Hwf He1). coord_lia.
Qed.

Lemma find_matching_end_after m b end_it e :
  well_formed_matches (end_matches m) = true ->
  find_matching_end m b = Some end_it ->
  end_matches m !! end_it = Some e ->
  Coord.le b (RegexMatch.begin_coord e).
Proof.
  intros Hwf Hfind He. unfold find_matching_end, find_matching_end_trace in Hfind.
  destruct (find_matching_end_loop _ _ _ _ _ _ _) as [tr|] eqn:Hloop; [|discriminate].
  cbn in Hfind. injection Hfind as <-.
  eapply (find_matching_end_loop_after m b); eauto. apply CoordOrder.le_refl.
Qed.

Lemma find_matching_end_total m b : exists end_it, find_matching_end m b = Some end_it.
Proof.
  destruct (find_matching_end_loop_total m (S (length (recurse_matches m))) 0 0 0 b
              (mkTrace 0 [] [])) as [tr Htr]; [lia..|].
  exists (result tr). unfold find_matching_end, find_matching_end_trace.
  rewrite Htr. reflexivity.
Qed.

(** The search position moves behind the begin of the region just closed,
    and the assertion holds. *)
Lemma next_position_after beg_it e :
  Coord.le (RegexMatch.begin_coord beg_it) (RegexMatch.end_coord beg_it) ->
  Coord.le (RegexMatch.end_coord beg_it) (RegexMatch.begin_coord e) ->
  Coord.le (RegexMatch.begin_coord e) (RegexMatch.end_coord e) ->
  exists next,
    RegionsHighlighter.next_position beg_it e = Some next /\
    Coord.lt (RegexMatch.begin_coord beg_it) next /\
    (RegexMatch.end_coord e = RegexMatch.begin_coord beg_it ->
     next = mkCoord (Coord.line (RegexMatch.end_coord e))
                    (Coord.column (RegexMatch.end_coord e) + 1)).
Proof.
  intros Hb Hbe He. unfold RegionsHighlighter.next_position.
  destruct (Coord.eqb (RegexMatch.end_coord e) (RegexMatch.begin_coord beg_it)) eqn:E.
  - assert (Hall : RegexMatch.line e = RegexMatch.line beg_it /\
                   RegexMatch.end_ e = RegexMatch.begin beg_it).
    { unfold Coord.eqb in E. apply andb_true_iff in E.
      rewrite !Z.eqb_eq in E. exact E. }
    assert (Coord.eqb (RegexMatch.begin_coord beg_it) (RegexMatch.end_coord beg_it)
            = true) as ->.
    { unfold Coord.eqb, Coord.le in *. cbn in *.
      apply andb_true_iff. rewrite !Z.eqb_eq. lia. }
    assert (Coord.eqb (RegexMatch.begin_coord e) (RegexMatch.end_coord e) = true) as ->.
    { unfold Coord.eqb, Coord.le in *. cbn in *.
      apply andb_true_iff. rewrite !Z.eqb_eq. lia. }
    cbn [andb]. eexists. split; [reflexivity|]. split; [|reflexivity].
    unfold Coord.lt. cbn. lia.
  - eexists. split; [reflexivity|]. split.
    + unfold Coord.eqb in E. apply andb_false_iff in E.
      rewrite !Z.eqb_neq in E. unfold Coord.lt, Coord.le in *. cbn in *. lia.
    + intros Heq. apply CoordFacts.eqb_eq in Heq. congruence.
Qed.

(** Fewer begin matches are left behind a later position, and one fewer at
    least when a begin match lies between the two positions. *)
Lemma filter_from_mono pos pos' (l : RegexMatchList) :
  Coord.le pos pos' ->
  (length (List.filter (fun x => Coord.leb pos' (RegexMatch.begin_coord x)) l)
   <= length (List.filter (fun x => Coord.leb pos (RegexMatch.begin_coord x)) l))%nat.
Proof.
  intros Hle. induction l as [|x l IH]; cbn; [lia|].
  destruct (Coord.leb pos' _) eqn:E'; destruct (Coord.leb pos _) eqn:E; cbn; try lia.
  exfalso. coord_lia.
Qed.

Lemma filter_from_less pos pos' (l : RegexMatchList) it b :
  Coord.le pos pos' ->
  l !! it = Some b ->
  Coord.le pos (RegexMatch.begin_coord b) ->
  Coord.lt (RegexMatch.begin_coord b) pos' ->
  (length (List.filter (fun x => Coord.leb pos' (RegexMatch.begin_coord x)) l)
   < length (List.filter (fun x => Coord.leb pos (RegexMatch.begin_coord x)) l))%nat.
Proof.
  intros Hle. revert it. induction l as [|x l IH]; intros it Hb H1 H2; [discriminate|].
  destruct it as [|it]; cbn in Hb.
  - injection Hb as ->. cbn.
    assert (Coord.leb pos' (RegexMatch.begin_coord b) = false) as -> by coord_lia.
    assert (Coord.leb pos (RegexMatch.begin_coord b) = true) as -> by coord_lia.
    pose proof (filter_from_mono pos pos' l Hle). cbn. lia.
  - specialize (IH it Hb H1 H2). cbn.
    destruct (Coord.leb pos' _) eqn:E'; destruct (Coord.leb pos _) eqn:E; cbn; try lia.
    exfalso. coord_lia.
Qed.

Lemma begins_from_mono pos pos' (c : list RegionMatches) :
  Coord.le pos pos' -> (begins_from pos' c <= begins_from pos c)%nat.
Proof.
  intros Hle. unfold begins_from.
  induction c as [|m c IH]; cbn [foldr]; [lia|].
  pose proof (filter_from_mono pos pos' (begin_matches m) Hle). lia.
Qed.

Lemma begins_from_less pos pos' (c : list RegionMatches) i m it b :
  Coord.le pos pos' ->
  c !! i = Some m -> begin_matches m !! it = Some b ->
  Coord.le pos (RegexMatch.begin_coord b) ->
  Coord.lt (RegexMatch.begin_coord b) pos' ->
  (begins_from pos' c < begins_from pos c)%nat.
Proof.
  intros Hle. revert i. induction c as [|m' c IH]; intros i Hm Hb H1 H2; [discriminate|].
  destruct i as [|i]; cbn in Hm.
  - injection Hm as ->.
    pose proof (filter_from_less pos pos' (begin_matches m) it b Hle Hb H1 H2).
    pose proof (begins_from_mono pos pos' c Hle).
    unfold begins_from in *. cbn [foldr]. lia.
  - specialize (IH i Hm Hb H1 H2). unfold begins_from in *. cbn [foldr].
    pose proof (filter_from_mono pos pos' (begin_matches m') Hle). lia.
Qed.

Lemma begins_from_le_total pos (c : list RegionMatches) :
  (begins_from pos c <= RegionsHighlighter.total_begin_matches c)%nat.
Proof.
  unfold begins_from, RegionsHighlighter.total_begin_matches.
  induction c as [|m c IH]; cbn [foldr]; [lia|].
  pose proof (List.filter_length_le
                (fun x => Coord.leb pos (RegexMatch.begin_coord x)) (begin_matches m)).
  lia.
Qed.

End ResolveFacts.

Section ResolveLoopFacts.

Import RegionMatches.

Variable m_regions : NamedRegionDescList.
Variable cache : list RegionMatches.
Variable buffer_end : ByteCoord.

Hypothesis some_region : (0 < length cache)%nat.
Hypothesis same_length : length m_regions = length cache.
Hypothesis wf_cache : well_formed_cache cache = true.

Lemma well_formed_cache_lookup i m :
  cache !! i = Some m ->
  well_formed_matches (begin_matches m) = true /\
  well_formed_matches (end_matches m) = true.
Proof.
  clear same_length some_region.
  intros Hm. unfold well_formed_cache in wf_cache.
  rewrite forallb_forall in wf_cache.
  assert (In m cache) as Hin.
  { apply list_elem_of_In, list_elem_of_lookup. eauto. }
  specialize (wf_cache m Hin). unfold well_formed_region in wf_cache.
  repeat (apply andb_true_iff in wf_cache; destruct wf_cache as [wf_cache ?]).
  split; assumption.
Qed.

Lemma find_next_begin_from_found pos rest : forall i res,
  rest = drop i cache ->
  begin_found cache pos res ->
  begin_found cache pos
    (RegionsHighlighter.find_next_begin_from cache pos i rest res).
Proof.
  clear same_length some_region wf_cache.
  induction rest as [|matches rest IH]; intros i res Hrest Hres; [exact Hres|].
  cbn [RegionsHighlighter.find_next_begin_from].
  assert (Hi : cache !! i = Some matches).
  { rewrite <- (Nat.add_0_r i), <- lookup_drop, <- Hrest. reflexivity. }
  apply IH.
  { apply (f_equal (drop 1)) in Hrest. cbn in Hrest. rewrite drop_0 in Hrest.
    rewrite Hrest, drop_drop. f_equal. lia. }
  destruct (begin_matches matches !! find_next_begin matches pos) as [b0|] eqn:Hb0;
    [|exact Hres].
  assert (Hcand : begin_found cache pos (i, find_next_begin matches pos)).
  { right. exists matches, b0. cbn. repeat split; auto.
    apply lower_bound_lookup in Hb0. unfold compare_to_begin in Hb0. coord_lia. }
  destruct (cache !! fst res ≫= _) as [cur|]; [|exact Hcand].
  destruct (Coord.ltb _ _); assumption.
Qed.

Lemma find_next_begin_found pos :
  exists res, RegionsHighlighter.find_next_begin cache pos = Some res /\
              begin_found cache pos res.
Proof.
  clear same_length wf_cache.
  unfold RegionsHighlighter.find_next_begin.
  destruct (cache !! 0%nat) as [m0|] eqn:Hm0.
  2:{ apply lookup_ge_None in Hm0. lia. }
  cbn [mbind option_bind]. eexists. split; [reflexivity|].
  apply find_next_begin_from_found; [reflexivity|].
  destruct (begin_matches m0 !! find_next_begin m0 pos) as [b0|] eqn:Hb0.
  - right. exists m0, b0. cbn. repeat split; auto.
    apply lower_bound_lookup in Hb0. unfold compare_to_begin in Hb0. coord_lia.
  - left. exists m0. split; [exact Hm0|]. f_equal.
    apply lookup_ge_None in Hb0.
    pose proof (lower_bound_le (compare_to_begin pos) (begin_matches m0)).
    unfold find_next_begin in *. lia.
Qed.

(** The cursor moves forward: the position from which the next begin is
    searched lies behind the position from which this one was found. *)
Lemma cursor_increases pos i it matches beg_it end_it e :
  begin_found cache pos (i, it) ->
  cache !! i = Some matches ->
  begin_matches matches !! it = Some beg_it ->
  find_matching_end matches (RegexMatch.end_coord beg_it) = Some end_it ->
  end_matches matches !! end_it = Some e ->
  exists next,
    RegionsHighlighter.next_position beg_it e = Some next /\
    Coord.le pos (RegexMatch.begin_coord beg_it) /\
    Coord.lt (RegexMatch.begin_coord beg_it) next /\
    (RegexMatch.end_coord e = RegexMatch.begin_coord beg_it ->
     next = mkCoord (Coord.line (RegexMatch.end_coord e))
                    (Coord.column (RegexMatch.end_coord e) + 1)).
Proof.
  clear same_length some_region.
  intros Hfound Hm Hbeg Hfind He.
  destruct (well_formed_cache_lookup i matches Hm) as [Hwfb Hwfe].
  assert (Hpos : Coord.le pos (RegexMatch.begin_coord beg_it)).
  { destruct Hfound as [(m0 & Hm0 & [= -> ->]) | (m & b & Hm' & Hb & Hle)].
    - assert (matches = m0) as -> by congruence.
      apply lookup_lt_Some in Hbeg. lia.
    - cbn in Hm', Hb. assert (m = matches) as -> by congruence.
      assert (b = beg_it) as -> by congruence. exact Hle. }
  pose proof (find_matching_end_after _ _ _ _ Hwfe Hfind He) as Hafter.
  pose proof (well_formed_matches_lookup _ _ _ Hwfb Hbeg) as Hb.
  pose proof (well_formed_matches_lookup _ _ _ Hwfe He) as He'.
  destruct (next_position_after beg_it e) as (next & Hnext & Hlt & Hbump).
  - exact Hb.
  - exact Hafter.
  - exact He'.
  - exists next. auto.
Qed.

Lemma resolve_loop_total fuel : forall pos begin regions,
  begin_found cache pos begin ->
  (begins_from pos cache < fuel)%nat ->
  exists rs, RegionsHighlighter.resolve_loop fuel m_regions cache buffer_end
               begin regions = Some rs.
Proof.
  induction fuel as [|fuel IH]; intros pos [i it] regions Hfound Hfuel; [lia|].
  cbn [RegionsHighlighter.resolve_loop].
  destruct (cache !! 0%nat) as [m0|] eqn:Hm0.
  2:{ apply lookup_ge_None in Hm0. lia. }
  cbn [mbind option_bind fst snd].
  destruct ((i =? 0)%nat && (it =? length (begin_matches m0))%nat) eqn:Hend; [eauto|].
  assert (Hvalid : exists matches beg_it,
            cache !! i = Some matches /\ begin_matches matches !! it = Some beg_it).
  { destruct Hfound as [(m0' & Hm0' & [= -> ->]) | (m & b & Hm & Hb & _)].
    - assert (m0' = m0) as -> by congruence.
      rewrite !Nat.eqb_refl in Hend. discriminate.
    - eauto. }
  destruct Hvalid as (matches & beg_it & Hm & Hbeg).
  rewrite Hm. cbn [mbind option_bind].
  destruct (m_regions !! i) as [named_region|] eqn:Hname.
  2:{ apply lookup_ge_None in Hname. apply lookup_lt_Some in Hm. lia. }
  cbn [mbind option_bind]. rewrite Hbeg. cbn [mbind option_bind].
  destruct (find_matching_end_total matches (RegexMatch.end_coord beg_it))
    as [end_it Hfind].
  rewrite Hfind. cbn [mbind option_bind].
  destruct (end_matches matches !! end_it) as [e|] eqn:He; [|eauto].
  destruct (cursor_increases pos i it matches beg_it end_it e Hfound Hm Hbeg Hfind He)
    as (next & Hpos & Hle & Hlt & _).
  rewrite Hpos. cbn [mbind option_bind].
  destruct (find_next_begin_found next) as (begin' & Hnext & Hfound').
  rewrite Hnext. cbn [mbind option_bind].
  apply (IH next); [exact Hfound'|].
  assert (begins_from next cache < begins_from pos cache)%nat; [|lia].
  apply (begins_from_less _ _ _ i matches it beg_it); auto. coord_lia.
Qed.

End ResolveLoopFacts.

Lemma resolve_regions_total m_regions cache buffer_end :
  (0 < length cache)%nat ->
  length m_regions = length cache ->
  well_formed_cache cache = true ->
  exists regions,
    RegionsHighlighter.resolve_regions m_regions cache buffer_end = Some regions.
Proof.
  intros Hsome Hlen Hwf.
  unfold RegionsHighlighter.resolve_regions.
  destruct (find_next_begin_found cache Hsome (mkCoord (-1) 0))
    as (begin & Hbegin & Hfound).
  rewrite Hbegin. cbn [mbind option_bind].
  apply (resolve_loop_total m_regions cache buffer_end Hsome Hlen Hwf _
           (mkCoord (-1) 0)); [exact Hfound|].
  pose proof (begins_from_le_total (mkCoord (-1) 0) cache). lia.
Qed.

(** C4.  With at least one region and match lists as the scans leave them
    (sorted, every match ending where it begins or later), the loop that
    resolves the regions terminates and returns the region list, without a
    failed assertion; in every iteration the position from which the next
    begin is searched is defined and lies strictly behind the position from
    which the current begin was found, because it is moved one column
    further whenever the end of the closing match is where the region
    begins. *)
Theorem resolve_regions_terminates m_regions cache buffer_end :
  (0 < length cache)%nat ->
  length m_regions = length cache ->
  well_formed_cache cache = true ->
  (exists regions,
     RegionsHighlighter.resolve_regions m_regions cache buffer_end = Some regions) /\
  (forall pos i it matches beg_it end_it e,
     RegionsHighlighter.find_next_begin cache pos = Some (i, it) ->
     cache !! i = Some matches ->
     RegionMatches.begin_matches matches !! it = Some beg_it ->
     RegionMatches.find_matching_end matches (RegexMatch.end_coord beg_it)
     = Some end_it ->
     RegionMatches.end_matches matches !! end_it = Some e ->
     exists next,
       RegionsHighlighter.next_position beg_it e = Some next /\
       Coord.lt pos next /\
       (RegexMatch.end_coord e = RegexMatch.begin_coord beg_it ->
        next = mkCoord (Coord.line (RegexMatch.end_coord e))
                       (Coord.column (RegexMatch.end_coord e) + 1))).
Proof.
  intros Hsome Hlen Hwf. split.
  - apply resolve_regions_total; assumption.
  - intros pos i it matches beg_it end_it e Hnext Hm Hbeg Hfind He.
    destruct (find_next_begin_found cache Hsome pos) as (res & Hres & Hfound).
    assert (res = (i, it)) as -> by congruence.
    destruct (cursor_increases cache Hwf pos i it matches beg_it end_it e
                Hfound Hm Hbeg Hfind He) as (next & Hpos & Hle & Hlt & Hbump).
    exists next. split; [exact Hpos|]. split; [coord_lia|exact Hbump].
Qed.

(** ** Regions: validation at construction *)

Lemma string_empty_true s : string_empty s = true <-> s = EmptyString.
Proof. destruct s; cbn; split; congruence. Qed.

Lemma string_empty_false s : string_empty s = false <-> s <> EmptyString.
Proof. destruct s; cbn; split; congruence. Qed.

(** Induction over a parameter list four parameters at a time. *)
Lemma by_fours (P : list string -> Prop) :
  (forall l, (length l < 4)%nat -> P l) ->
  (forall g b e r rest, P rest -> P (g :: b :: e :: r :: rest)) ->
  forall l, P l.
Proof.
  intros Hshort Hstep l.
  assert (H : forall n l, (length l <= n)%nat -> P l).
  { clear l. induction n as [|n IH]; intros l Hl.
    - apply Hshort. lia.
    - destruct l as [|g [|b [|e [|r rest]]]]; try (apply Hshort; cbn; lia).
      apply Hstep. apply IH. cbn in Hl. lia. }
  apply (H (length l)). lia.
Qed.

Lemma region_params_short l : (length l < 4)%nat -> region_params l = [].
Proof. destruct l as [|g [|b [|e [|r rest]]]]; cbn; intros; try reflexivity. lia. Qed.

Lemma ctor_fails_iff regions default_group :
  is_error (RegionsHighlighter.ctor regions default_group) = true <->
  regions = [] \/
  Exists (fun region => Regex_empty (m_begin (snd region)) = true \/
                        Regex_empty (m_end (snd region)) = true) regions.
Proof.
  unfold RegionsHighlighter.ctor.
  destruct (bool_decide (regions = [])) eqn:Hnil.
  - apply bool_decide_eq_true in Hnil. cbn. tauto.
  - apply bool_decide_eq_false in Hnil.
    destruct (existsb _ regions) eqn:Hex; cbn.
    + split; [intros _|reflexivity]. right.
      apply existsb_exists in Hex. destruct Hex as (x & Hin & Hx).
      apply Exists_exists. exists x. split; [apply list_elem_of_In; exact Hin|].
      apply orb_true_iff in Hx. exact Hx.
    + split; [discriminate|]. intros [H | H]; [contradiction|].
      apply Exists_exists in H. destruct H as (x & Hin & Hx).
      assert (existsb (fun region => Regex_empty (m_begin (snd region))
                                     || Regex_empty (m_end (snd region))) regions
              = true); [|congruence].
      apply existsb_exists. exists x. split; [apply list_elem_of_In; exact Hin|].
      apply orb_true_iff. exact Hx.
Qed.

Section RegionsFactoryFacts.

Variable regex_valid : string -> bool.
Variable regex_error_what : string -> string.

Local Abbreviation parse := (parse_regions regex_valid regex_error_what).

Lemma parse_regions_short l : (length l < 4)%nat -> parse l = Ok ([], []).
Proof. destruct l as [|g [|b [|e [|r rest]]]]; cbn; intros; try reflexivity. lia. Qed.

(** The loop fails exactly on a region definition that is refused, and
    otherwise builds one region for each definition, with compiled begin and
    end regexes. *)
Lemma parse_regions_spec l :
  match parse l with
  | runtime_error _ => Exists (refused_region regex_valid) (region_params l)
  | Ok (regions, groups) =>
      ~ Exists (refused_region regex_valid) (region_params l) /\
      length regions = length (region_params l) /\
      Forall (fun region => Regex_empty (m_begin (snd region)) = false /\
                            Regex_empty (m_end (snd region)) = false) regions
  end.
Proof.
  induction l as [l Hl | g b e r rest IH] using by_fours.
  - rewrite parse_regions_short, region_params_short by assumption.
    split; [|split]; [|reflexivity|constructor].
    intros H. inversion H.
  - cbn [parse_regions region_params].
    destruct (string_empty g) eqn:Hg; cbn [orb].
    { apply string_empty_true in Hg. left. cbn. auto. }
    destruct (string_empty b) eqn:Hb; cbn [orb].
    { apply string_empty_true in Hb. left. cbn. auto. }
    destruct (string_empty e) eqn:He; cbn [orb].
    { apply string_empty_true in He. left. cbn. auto. }
    apply string_empty_false in Hg, Hb, He.
    unfold compile.
    destruct (regex_valid b) eqn:Hvb; [|left; cbn; auto].
    destruct (regex_valid e) eqn:Hve; [|left; cbn; auto 6].
    destruct (string_empty r) eqn:Hr; cbn [negb].
    + apply string_empty_true in Hr.
      destruct (parse rest) as [[regions groups]|what].
      * destruct IH as (IH1 & IH2 & IH3). split; [|split].
        -- intros H. inversion H as [? ? Hbad|? ? Hbad]; subst; [|auto].
           cbn in Hbad. intuition congruence.
        -- cbn. congruence.
        -- constructor; [cbn; auto | exact IH3].
      * right. exact IH.
    + apply string_empty_false in Hr.
      destruct (regex_valid r) eqn:Hvr; [|left; cbn; auto 8].
      destruct (parse rest) as [[regions groups]|what].
      * destruct IH as (IH1 & IH2 & IH3). split; [|split].
        -- intros H. inversion H as [? ? Hbad|? ? Hbad]; subst; [|auto].
           cbn in Hbad. intuition congruence.
        -- cbn. congruence.
        -- constructor; [cbn; auto | exact IH3].
      * right. exact IH.
Qed.

Lemma regions_factory_fails_iff parser :
  is_error (regions_factory regex_valid regex_error_what parser) = true <->
  (length (positional parser) mod 4 <> 1)%nat \/
  region_params (drop 1 (positional parser)) = [] \/
  Exists (refused_region regex_valid) (region_params (drop 1 (positional parser))).
Proof.
  unfold regions_factory.
  destruct (Nat.eqb_spec (length (positional parser) mod 4) 1) as [Hcount | Hcount];
    cbn [negb].
  2:{ cbn. tauto. }
  pose proof (parse_regions_spec (drop 1 (positional parser))) as Hparse.
  destruct (parse (drop 1 (positional parser))) as [[regions groups]|what].
  - destruct Hparse as (Hok & Hlen & Hcompiled).
    pose proof (ctor_fails_iff regions (default EmptyString (default_option parser)))
      as Hctor.
    destruct (RegionsHighlighter.ctor regions _) as [h|what]; cbn in *.
    + split; [discriminate|]. intros [H | [H | H]]; try contradiction.
      assert (regions = []) as Hnil.
      { rewrite H in Hlen. destruct regions; [reflexivity | discriminate]. }
      apply Hctor. left. exact Hnil.
    + split; [intros _|reflexivity].
      destruct (proj1 Hctor eq_refl) as [Hnil | Hempty].
      * right. left. rewrite Hnil in Hlen.
        destruct (region_params _); [reflexivity | discriminate].
      * exfalso. apply Exists_exists in Hempty.
        destruct Hempty as (x & Hin & Hx). rewrite Forall_forall in Hcompiled.
        destruct (Hcompiled x Hin). intuition congruence.
  - cbn. tauto.
Qed.

End RegionsFactoryFacts.

(** C6 (amended).  The constructor of the regions highlighter throws exactly
    when no region is defined or the begin or end regex of some region is
    empty.  The factory throws a configuration error, and returns no
    highlighter, exactly when the number of positional parameters is not 1
    modulo 4, no region is defined, or some region definition is refused:
    its group id, begin or end is the empty string, or one of its patterns
    is not a valid regex.  An empty recurse pattern is accepted and gives the
    empty regex. *)
Theorem regions_highlighter_validation regex_valid regex_error_what :
  (forall regions default_group,
     is_error (RegionsHighlighter.ctor regions default_group) = true <->
     regions = [] \/
     Exists (fun region => Regex_empty (m_begin (snd region)) = true \/
                           Regex_empty (m_end (snd region)) = true) regions) /\
  (forall parser,
     is_error (regions_factory regex_valid regex_error_what parser) = true <->
     (length (positional parser) mod 4 <> 1)%nat \/
     region_params (drop 1 (positional parser)) = [] \/
     Exists (refused_region regex_valid)
            (region_params (drop 1 (positional parser)))) /\
  (forall id group begin end_,
     group <> EmptyString -> begin <> EmptyString -> end_ <> EmptyString ->
     regex_valid begin = true -> regex_valid end_ = true ->
     regions_factory regex_valid regex_error_what
       (mkParser [id; group; begin; end_; EmptyString] None)
     = Ok (mkHighlighterAndId id
             (RegionsHighlighter.mk
                [(group, mkRegionDesc (Compiled begin) (Compiled end_) EmptyRegex)]
                EmptyString)
             [group])).
Proof.
  split; [|split].
  - apply ctor_fails_iff.
  - apply regions_factory_fails_iff.
  - intros id group begin end_ Hg Hb He Hvb Hve.
    apply string_empty_false in Hg, Hb, He.
    unfold regions_factory. cbn. unfold compile.
    rewrite Hg, Hb, He, Hvb, Hve. reflexivity.
Qed.

(** The theorem on the region with empty begin and end matches: the region
    closed at column 1, where it begins, the search goes on from column 2. *)
Lemma resolve_regions_terminates_witness :
  (exists regions,
     RegionsHighlighter.resolve_regions Samples.quotes_regions [Samples.quotes]
       (mkCoord 0 2) = Some regions) /\
  (forall pos i it matches beg_it end_it e,
     RegionsHighlighter.find_next_begin [Samples.quotes] pos = Some (i, it) ->
     [Samples.quotes] !! i = Some matches ->
     RegionMatches.begin_matches matches !! it = Some beg_it ->
     RegionMatches.find_matching_end matches (RegexMatch.end_coord beg_it)
     = Some end_it ->
     RegionMatches.end_matches matches !! end_it = Some e ->
     exists next,
       RegionsHighlighter.next_position beg_it e = Some next /\
       Coord.lt pos next /\
       (RegexMatch.end_coord e = RegexMatch.begin_coord beg_it ->
        next = mkCoord (Coord.line (RegexMatch.end_coord e))
                       (Coord.column (RegexMatch.end_coord e) + 1))).
Proof.
  apply (resolve_regions_terminates Samples.quotes_regions [Samples.quotes]
           (mkCoord 0 2)).
  - simpl. lia.
  - reflexivity.
  - reflexivity.
Defined.

Example resolve_regions_quotes :
  RegionsHighlighter.resolve_regions Samples.quotes_regions [Samples.quotes]
    (mkCoord 0 2)
  = Some [Region.mk (mkCoord 0 1) (mkCoord 0 1) "string";
          Region.mk (mkCoord 0 2) (mkCoord 0 2) "string"].
Proof. reflexivity. Qed.

(** The theorem on a factory call with one region whose recurse pattern is
    empty. *)
Lemma regions_highlighter_validation_witness :
  regions_factory Samples.valid_pattern Samples.regex_error_what
    (mkParser ["id"; "string"; "x"; "y"; ""] None)
  = Ok (mkHighlighterAndId "id"
          (RegionsHighlighter.mk
             [("string", mkRegionDesc (Compiled "x") (Compiled "y") EmptyRegex)]
             "")
          ["string"]).
Proof.
  destruct (regions_highlighter_validation Samples.valid_pattern
              Samples.regex_error_what) as (_ & _ & H).
  apply H; [discriminate | discriminate | discriminate | reflexivity | reflexivity].
Defined.

(** C6, as stated, fails on a region definition whose group id is empty:
    begin and end are not empty and a region is defined, yet the factory
    throws. *)
Lemma regions_factory_empty_group_id :
  regions_factory Samples.valid_pattern Samples.regex_error_what
    (mkParser ["id"; ""; "x"; "y"; ""] None)
  = runtime_error "group id, begin and end must not be empty"
  /\ claimed_failure (mkParser ["id"; ""; "x"; "y"; ""] None) = false.
Proof. split; reflexivity. Qed.

(** ** Regions: the first fill of the cache *)

Lemma sorted_by_begin_app l1 l2 :
  sorted_by_begin l1 = true -> sorted_by_begin l2 = true ->
  Forall (fun x => Forall (fun y => Coord.le (RegexMatch.begin_coord x)
                                             (RegexMatch.begin_coord y)) l2) l1 ->
  sorted_by_begin (l1 ++ l2) = true.
Proof.
  induction l1 as [|x l1 IH]; intros H1 H2 H12; [exact H2|].
  inversion H12 as [|? ? Hx Hrest]; subst.
  cbn [app sorted_by_begin]. apply andb_true_iff. split.
  - destruct l1 as [|y l1]; cbn [app].
    + destruct l2 as [|y l2]; [reflexivity|].
      inversion Hx; subst. coord_lia.
    + cbn in H1. apply andb_true_iff in H1. tauto.
  - apply IH; [eapply sorted_by_begin_tail; exact H1 | exact H2 | exact Hrest].
Qed.

Section RegionsCacheFacts.

Variable regex_iterator : Regex -> string -> list (Z * Z).

(** The matches of a regex in a line end where they begin or later, and
    come in the order of their begin. *)
Hypothesis matches_well_formed :
  forall regex l, Forall (fun be => fst be <= snd be) (regex_iterator regex l).
Hypothesis matches_sorted :
  forall ts regex line l,
    sorted_by_begin (line_matches regex_iterator ts regex line l) = true.

Lemma scan_lines_well_formed ts regex o ls :
  well_formed_matches (scan_lines regex_iterator ts regex o ls) = true.
Proof.
  clear matches_sorted.
  revert o. induction ls as [|l ls IH]; intros o; [reflexivity|].
  cbn [scan_lines]. unfold well_formed_matches in *. rewrite forallb_app.
  rewrite IH, andb_true_r. unfold line_matches. rewrite forallb_forall.
  intros x Hx. apply in_map_iff in Hx. destruct Hx as (be & <- & Hbe).
  cbn. apply Z.leb_le.
  pose proof (matches_well_formed regex l) as Hwf.
  rewrite Forall_forall in Hwf. apply Hwf. apply list_elem_of_In. exact Hbe.
Qed.

Lemma scan_lines_sorted ts regex o ls :
  sorted_by_begin (scan_lines regex_iterator ts regex o ls) = true.
Proof.
  clear matches_well_formed.
  revert o. induction ls as [|l ls IH]; intros o; [reflexivity|].
  cbn [scan_lines]. apply sorted_by_begin_app; [apply matches_sorted | apply IH |].
  unfold line_matches. apply List.Forall_map, Forall_forall. intros be _.
  eapply Forall_impl; [apply scan_lines_bounds|]. cbn beta. intros y Hy.
  unfold Coord.le, RegexMatch.begin_coord. cbn. lia.
Qed.

(** On a cache that was never filled, for a highlighter with a region,
    [update_cache_ifn] scans the buffer, resolves the regions and returns. *)
Lemma update_cache_ifn_first_scan h buffer buffer_end modifs :
  RegionsHighlighter.m_regions h <> [] ->
  exists cache,
    update_cache_ifn regex_iterator h buffer buffer_end modifs
      (RegionsHighlighter.mkCache 0 [] [])
    = Some cache.
Proof.
  intros Hne.
  destruct (resolve_regions_total (RegionsHighlighter.m_regions h)
              (map (fun region => RegionDesc_find_matches regex_iterator (snd region) buffer)
                   (RegionsHighlighter.m_regions h)) buffer_end)
    as [regions Hregions].
  - rewrite length_map. destruct (RegionsHighlighter.m_regions h); [congruence|cbn; lia].
  - rewrite length_map. reflexivity.
  - unfold well_formed_cache. rewrite forallb_forall. intros m Hm.
    apply in_map_iff in Hm. destruct Hm as (region & <- & _).
    unfold well_formed_region, RegionDesc_find_matches, find_matches.
    cbn [app RegionMatches.begin_matches RegionMatches.end_matches
         RegionMatches.recurse_matches].
    rewrite !scan_lines_well_formed, !scan_lines_sorted. cbn [andb].
    destruct (negb _); [apply scan_lines_sorted | reflexivity].
  - unfold update_cache_ifn.
    cbn [RegionsHighlighter.timestamp RegionsHighlighter.matches].
    destruct (0 =? timestamp buffer); [eexists; reflexivity|].
    change (0 =? 0) with true. cbn [mbind option_bind].
    rewrite Hregions. cbn [mbind option_bind]. eexists; reflexivity.
Qed.

End RegionsCacheFacts.

(** ** The word database *)

Section WordCounts.

Lemma occurrences_app w l1 l2 :
  occurrences w (l1 ++ l2) = (occurrences w l1 + occurrences w l2)%nat.
Proof. unfold occurrences. rewrite concat_app, count_occ_app. reflexivity. Qed.

Lemma occurrences_one w ws : occurrences w [ws] = count_occ String.string_dec ws w.
Proof. unfold occurrences. cbn. rewrite app_nil_r. reflexivity. Qed.

Lemma occurrences_nil w : occurrences w [] = 0%nat.
Proof. reflexivity. Qed.

Lemma occurrences_cons w ws l :
  occurrences w (ws :: l) = (count_occ String.string_dec ws w + occurrences w l)%nat.
Proof. unfold occurrences. cbn [concat]. apply count_occ_app. Qed.

(** [++wl[w]] *)
Lemma add_word_stored (wl : gmap string Z) (N : string -> nat) x :
  (forall w, wl !! w = stored (N w)) ->
  forall w, <[x := default 0 (wl !! x) + 1]> wl !! w
            = stored (N w + (if String.string_dec x w then 1 else 0)).
Proof.
  intros H w. destruct (String.string_dec x w) as [<- | Hne].
  - rewrite lookup_insert_eq, H. unfold stored.
    destruct (Nat.eqb_spec (N x) 0) as [E|E]; cbn.
    + rewrite E. reflexivity.
    + destruct (Nat.eqb_spec (N x + 1) 0); [lia|]. f_equal. lia.
  - rewrite lookup_insert_ne by exact Hne. rewrite H, Nat.add_0_r. reflexivity.
Qed.

Lemma add_words_stored ws : forall (wl : gmap string Z) (N : string -> nat),
  (forall w, wl !! w = stored (N w)) ->
  forall w, WordDB.add_words wl ws !! w
            = stored (N w + count_occ String.string_dec ws w).
Proof.
  induction ws as [|x ws IH]; intros wl N H w.
  - cbn. rewrite Nat.add_0_r. apply H.
  - unfold WordDB.add_words. cbn [foldl].
    fold (WordDB.add_words (<[x := default 0 (wl !! x) + 1]> wl) ws).
    rewrite (IH _ (fun w => (N w + (if String.string_dec x w then 1 else 0))%nat)).
    + f_equal. cbn [count_occ]. destruct (String.string_dec x w); lia.
    + apply add_word_stored. exact H.
Qed.

Lemma remove_words_stored ws : forall (wl : gmap string Z) (N : string -> nat),
  (forall w, wl !! w = stored (N w + count_occ String.string_dec ws w)) ->
  exists wl', WordDB.remove_words wl ws = Some wl' /\
              forall w, wl' !! w = stored (N w).
Proof.
  induction ws as [|x ws IH]; intros wl N H.
  - exists wl. split; [reflexivity|]. intros w. rewrite H. cbn.
    rewrite Nat.add_0_r. reflexivity.
  - unfold WordDB.remove_words. cbn [foldl mbind option_bind].
    pose proof (H x) as Hx. cbn [count_occ] in Hx.
    destruct (String.string_dec x x) as [_|]; [|congruence].
    unfold stored in Hx.
    destruct (Nat.eqb_spec (N x + S (count_occ String.string_dec ws x)) 0); [lia|].
    rewrite Hx.
    destruct (Z.ltb_spec 0 (Z.of_nat (N x + S (count_occ String.string_dec ws x))));
      [|lia].
    match goal with
    | |- exists wl', foldl ?f (Some ?wl1) ws = _ /\ _ =>
        fold (WordDB.remove_words wl1 ws); apply (IH wl1 N)
    end.
    intros w. destruct (String.string_dec x w) as [<- | Hne].
    + destruct (Z.eqb_spec
                  (Z.of_nat (N x + S (count_occ String.string_dec ws x)) - 1) 0).
      * rewrite lookup_delete_eq. unfold stored.
        destruct (Nat.eqb_spec (N x + count_occ String.string_dec ws x) 0);
          [reflexivity | lia].
      * rewrite lookup_insert_eq. unfold stored.
        destruct (Nat.eqb_spec (N x + count_occ String.string_dec ws x) 0); [lia|].
        f_equal. lia.
    + specialize (H w). cbn [count_occ] in H.
      destruct (String.string_dec x w); [contradiction|].
      destruct (Z.eqb_spec
                  (Z.of_nat (N x + S (count_occ String.string_dec ws x)) - 1) 0).
      * rewrite lookup_delete_ne by exact Hne. exact H.
      * rewrite lookup_insert_ne by exact Hne. exact H.
Qed.

End WordCounts.

Section WordDBFacts.

Variable is_word : ascii -> bool.

Local Abbreviation get_words := (WordDB.get_words is_word).

Implicit Types (ltw : list (list string)) (wl : gmap string Z).

Lemma words_of_line_lookup ltw pos :
  0 <= pos -> WordDB.words_of_line ltw pos = ltw !! Z.to_nat pos.
Proof.
  intros H. unfold WordDB.words_of_line.
  destruct (Z.leb_spec 0 pos); [reflexivity | lia].
Qed.

Lemma copy_lines_spec count : forall ltw pos new_lines,
  0 <= pos -> pos + Z.of_nat count <= Z.of_nat (length ltw) ->
  WordDB.copy_lines count ltw pos new_lines
  = Some (pos + Z.of_nat count,
          new_lines ++ take count (drop (Z.to_nat pos) ltw)).
Proof.
  induction count as [|count IH]; intros ltw pos new_lines Hpos Hlen.
  - cbn. rewrite Z.add_0_r, take_0, app_nil_r. reflexivity.
  - cbn [WordDB.copy_lines]. rewrite words_of_line_lookup by lia.
    destruct (ltw !! Z.to_nat pos) as [ws|] eqn:Hws.
    2:{ apply lookup_ge_None in Hws. lia. }
    cbn [mbind option_bind]. rewrite IH by lia.
    rewrite (drop_S _ _ _ Hws). cbn [take].
    replace (Z.to_nat (pos + 1)) with (S (Z.to_nat pos)) by lia.
    rewrite <- app_assoc. do 2 f_equal. lia.
Qed.

Lemma remove_lines_spec count : forall ltw pos wl (N : string -> nat),
  0 <= pos -> pos + Z.of_nat count <= Z.of_nat (length ltw) ->
  (forall w, wl !! w
             = stored (N w + occurrences w (take count (drop (Z.to_nat pos) ltw)))) ->
  exists wl', WordDB.remove_lines count ltw pos wl
              = Some (pos + Z.of_nat count, wl') /\
              forall w, wl' !! w = stored (N w).
Proof.
  induction count as [|count IH]; intros ltw pos wl N Hpos Hlen H.
  - exists wl. cbn. rewrite Z.add_0_r. split; [reflexivity|].
    intros w. rewrite H, take_0, occurrences_nil, Nat.add_0_r. reflexivity.
  - cbn [WordDB.remove_lines]. rewrite words_of_line_lookup by lia.
    destruct (ltw !! Z.to_nat pos) as [ws|] eqn:Hws.
    2:{ apply lookup_ge_None in Hws. lia. }
    cbn [mbind option_bind].
    rewrite (drop_S _ _ _ Hws) in H. cbn [take] in H.
    destruct (remove_words_stored ws wl
                (fun w => (N w + occurrences w (take count (drop (S (Z.to_nat pos)) ltw)))%nat))
      as (wl1 & Hrem & Hwl1).
    { intros w. rewrite H. f_equal. rewrite occurrences_cons. lia. }
    rewrite Hrem. cbn [mbind option_bind].
    destruct (IH ltw (pos + 1) wl1 N) as (wl' & Hrec & Hwl'); [lia | lia | |].
    { intros w. rewrite Hwl1.
      replace (Z.to_nat (pos + 1)) with (S (Z.to_nat pos)) by lia. reflexivity. }
    exists wl'. rewrite Hrec. split; [|exact Hwl']. do 2 f_equal. lia.
Qed.

Lemma add_lines_spec buffer new_line count : forall l new_lines wl (N : string -> nat),
  0 <= new_line + l ->
  new_line + l + Z.of_nat count <= line_count buffer ->
  (forall w, wl !! w = stored (N w)) ->
  let added := map get_words (take count (drop (Z.to_nat (new_line + l)) (lines buffer))) in
  exists wl', WordDB.add_lines is_word count buffer new_line l new_lines wl
              = Some (new_lines ++ added, wl') /\
              forall w, wl' !! w = stored (N w + occurrences w added).
Proof.
  induction count as [|count IH]; intros l new_lines wl N Hpos Hlen H; cbn zeta.
  - exists wl. cbn. rewrite app_nil_r. split; [reflexivity|].
    intros w. rewrite H, Nat.add_0_r. reflexivity.
  - cbn [WordDB.add_lines]. unfold line_count in *.
    destruct (Z.leb_spec (Z.of_nat (length (lines buffer))) (new_line + l)); [lia|].
    unfold buffer_line. destruct (Z.leb_spec 0 (new_line + l)); [|lia].
    destruct (lines buffer !! Z.to_nat (new_line + l)) as [content|] eqn:Hc.
    2:{ apply lookup_ge_None in Hc. lia. }
    cbn [mbind option_bind].
    destruct (IH (l + 1) (new_lines ++ [get_words content])
                 (WordDB.add_words wl (get_words content))
                 (fun w => (N w + count_occ String.string_dec (get_words content) w)%nat))
      as (wl' & Hrec & Hwl'); [lia | lia | |].
    { apply add_words_stored. exact H. }
    cbn zeta in Hrec, Hwl'.
    replace (Z.to_nat (new_line + (l + 1))) with (S (Z.to_nat (new_line + l)))
      in Hrec, Hwl' by lia.
    exists wl'. rewrite Hrec, (drop_S _ _ _ Hc). cbn [take map].
    rewrite <- app_assoc. split; [reflexivity|].
    intros w. rewrite Hwl'. f_equal. rewrite occurrences_cons. lia.
Qed.

Lemma occurrences_map_app w (l1 l2 : list string) :
  occurrences w (map get_words (l1 ++ l2))
  = (occurrences w (map get_words l1) + occurrences w (map get_words l2))%nat.
Proof. rewrite map_app. apply occurrences_app. Qed.

(** The loop over the modifications, from line [o] of the old buffer and
    line [n] of the new one on: it leaves in [new_lines] the words of the
    new lines up to the last modification, and in the map the words of those
    lines and of the old lines that are left. *)
Lemma update_lines_spec buffer old_full modifs : forall o n old new new_lines wl,
  describes_from o n old new modifs = true ->
  0 <= o -> 0 <= n ->
  old = drop (Z.to_nat o) old_full ->
  new = drop (Z.to_nat n) (lines buffer) ->
  Z.of_nat (length old_full) = o + Z.of_nat (length old) ->
  line_count buffer = n + Z.of_nat (length new) ->
  Z.of_nat (length new_lines) = n ->
  (forall w, wl !! w
             = stored (occurrences w new_lines + occurrences w (map get_words old))) ->
  exists o' new_lines' wl',
    WordDB.update_lines is_word modifs buffer (map get_words old_full) o new_lines wl
    = Some (o', new_lines', wl') /\
    0 <= o' <= Z.of_nat (length old_full) /\
    new_lines' ++ map get_words (drop (Z.to_nat o') old_full)
    = new_lines ++ map get_words new /\
    (forall w, wl' !! w
               = stored (occurrences w new_lines'
                         + occurrences w (map get_words (drop (Z.to_nat o') old_full)))).
Proof.
  induction modifs as [|m modifs IH];
    intros o n old new new_lines wl Hd Ho Hn Hold Hnew Holdlen Hcnt Hlen Hwl.
  - cbn in Hd. apply bool_decide_eq_true in Hd. subst new.
    exists o, new_lines, wl. cbn. rewrite <- Hold.
    repeat split; auto; lia.
  - cbn [describes_from] in Hd.
    repeat (apply andb_true_iff in Hd; destruct Hd as [Hd ?]).
    repeat match goal with
           | H : (_ <=? _) = true |- _ => apply Z.leb_le in H
           | H : (_ <? _) = true |- _ => apply Z.ltb_lt in H
           | H : (_ =? _) = true |- _ => apply Z.eqb_eq in H
           | H : bool_decide _ = true |- _ => apply bool_decide_eq_true in H
           end.
    rename H into Hrest, H0 into Hanew, H1 into Hrold, H2 into Htake,
           H3 into Hna, H4 into Hnr, H5 into Hnl, Hd into Hu.
    set (u := old_line m - o) in *.
    set (U := take (Z.to_nat u) old) in *.
    set (R := take (Z.to_nat (num_removed m + 1)) (drop (Z.to_nat u) old)).
    set (A := take (Z.to_nat (num_added m + 1)) (drop (Z.to_nat u) new)).
    set (old' := drop (Z.to_nat (u + num_removed m + 1)) old) in *.
    set (new' := drop (Z.to_nat (u + num_added m + 1)) new) in *.
    assert (HoldU : old = U ++ R ++ old').
    { subst U R old'. rewrite <- (take_drop (Z.to_nat u) old) at 1. f_equal.
      rewrite <- (take_drop (Z.to_nat (num_removed m + 1)) (drop (Z.to_nat u) old)) at 1.
      f_equal. rewrite drop_drop. f_equal. lia. }
    assert (HnewU : new = U ++ A ++ new').
    { subst U A new'. rewrite Htake.
      rewrite <- (take_drop (Z.to_nat u) new) at 1. f_equal.
      rewrite <- (take_drop (Z.to_nat (num_added m + 1)) (drop (Z.to_nat u) new)) at 1.
      f_equal. rewrite drop_drop. f_equal. lia. }
    assert (HlenU : Z.of_nat (length U) = u).
    { subst U. rewrite length_take. lia. }
    cbn [WordDB.update_lines].
    (* the assertions on the modification hold *)
    destruct (Z.leb_spec 0 (new_line m)); [|lia].
    destruct (Z.ltb_spec (new_line m) (line_count buffer)); [|lia].
    destruct (Z.leb_spec o (old_line m)); [|lia].
    cbn [andb negb].
    (* the unchanged lines are copied *)
    rewrite copy_lines_spec by (rewrite ?length_map; lia).
    cbn [mbind option_bind].
    assert (HcopyU : take (Z.to_nat (old_line m - o))
                          (drop (Z.to_nat o) (map get_words old_full))
                     = map get_words U).
    { rewrite skipn_map, <- Hold, firstn_map. reflexivity. }
    rewrite HcopyU.
    assert (Hlen1 : Z.of_nat (length (new_lines ++ map get_words U)) = new_line m).
    { rewrite length_app, length_map. lia. }
    rewrite Hlen1, Z.eqb_refl. cbn [negb].
    assert (HR : take (Z.to_nat (num_removed m + 1))
                      (drop (Z.to_nat (old_line m)) (map get_words old_full))
                 = map get_words R).
    { rewrite skipn_map, firstn_map. f_equal. subst R. f_equal.
      rewrite Hold, drop_drop. f_equal. lia. }
    (* the words of the removed lines leave the map *)
    destruct (remove_lines_spec (Z.to_nat (num_removed m + 1)) (map get_words old_full)
                (old_line m) wl
                (fun w => (occurrences w new_lines + occurrences w (map get_words U)
                           + occurrences w (map get_words old'))%nat))
      as (wl1 & Hrem & Hwl1).
    { lia. }
    { rewrite length_map. lia. }
    { intros w. rewrite Hwl, HR. f_equal.
      rewrite HoldU at 1. rewrite !occurrences_map_app. lia. }
    replace (o + Z.of_nat (Z.to_nat (old_line m - o))) with (old_line m) by lia.
    replace (old_line m + num_removed m + 1 - old_line m) with (num_removed m + 1) by lia.
    rewrite Hrem. cbn [mbind option_bind].
    (* the words of the added lines enter it *)
    destruct (add_lines_spec buffer (new_line m) (Z.to_nat (num_added m + 1)) 0
                (new_lines ++ map get_words U) wl1 _ ltac:(lia)
                ltac:(rewrite Hcnt, HnewU, !length_app; subst A;
                      rewrite length_take, length_drop; lia) Hwl1)
      as (wl2 & Hadd & Hwl2).
    cbn zeta in Hadd, Hwl2.
    assert (HA : take (Z.to_nat (num_added m + 1))
                      (drop (Z.to_nat (new_line m + 0)) (lines buffer)) = A).
    { subst A. rewrite Hnew, drop_drop. do 2 f_equal. lia. }
    rewrite HA in Hadd, Hwl2. rewrite Hadd. cbn [mbind option_bind].
    replace (old_line m + Z.of_nat (Z.to_nat (num_removed m + 1)))
      with (old_line m + num_removed m + 1) by lia.
    assert (HlenR : Z.of_nat (length R) = num_removed m + 1).
    { subst R. rewrite length_take, length_drop. lia. }
    assert (HlenA : Z.of_nat (length A) = num_added m + 1).
    { subst A. rewrite length_take, length_drop. lia. }
    destruct (IH (old_line m + num_removed m + 1) (new_line m + num_added m + 1)
                 old' new' ((new_lines ++ map get_words U) ++ map get_words A) wl2 Hrest)
      as (o' & new_lines' & wl' & Hrec & Ho' & Hlines & Hwl').
    { lia. } { lia. }
    { subst old'. rewrite Hold, drop_drop. f_equal. lia. }
    { subst new'. rewrite Hnew, drop_drop. f_equal. lia. }
    { rewrite Holdlen, HoldU, !length_app. lia. }
    { rewrite Hcnt, HnewU, !length_app. lia. }
    { rewrite !length_app, !length_map. lia. }
    { intros w. rewrite Hwl2. f_equal. rewrite !occurrences_app. lia. }
    exists o', new_lines', wl'. rewrite Hrec.
    split; [reflexivity|]. split; [exact Ho'|]. split; [|exact Hwl'].
    rewrite Hlines, HnewU, !map_app, <- !app_assoc. reflexivity.
Qed.

(** Under the contract of [compute_line_modifications], [update_db] turns a
    database that holds the words of the old buffer into one that holds the
    words of the new buffer. *)
Lemma update_db_spec db old new modifs :
  WordDB.m_line_to_words db = map get_words (lines old) ->
  is_multiset_of_lines db ->
  describes old new modifs = true ->
  exists db',
    WordDB.update_db is_word db new modifs = Some db' /\
    WordDB.m_timestamp db' = timestamp new /\
    WordDB.m_line_to_words db' = map get_words (lines new) /\
    is_multiset_of_lines db'.
Proof.
  intros Hltw Hinv Hd. unfold WordDB.update_db, describes in *.
  destruct (bool_decide (modifs = [])) eqn:Hnil.
  - apply bool_decide_eq_true in Hnil. subst modifs. cbn in Hd.
    apply bool_decide_eq_true in Hd.
    eexists. split; [reflexivity|]. cbn. rewrite Hltw, Hd.
    repeat split. unfold is_multiset_of_lines in *. cbn.
    intros w. rewrite Hinv, Hltw, Hd. reflexivity.
  - destruct (update_lines_spec new (lines old) modifs 0 0 (lines old) (lines new)
                [] (WordDB.m_words db) Hd)
      as (o' & new_lines' & wl' & Hrec & Ho' & Hlines & Hwl');
      try reflexivity; try (unfold line_count; lia).
    { intros w. rewrite Hinv, Hltw. reflexivity. }
    cbn [app] in Hlines.
    rewrite Hltw, Hrec. cbn [mbind option_bind]. rewrite length_map.
    destruct (Z.ltb_spec (Z.of_nat (length (lines old))) o'); [lia|].
    rewrite copy_lines_spec by (rewrite ?length_map; lia).
    cbn [mbind option_bind].
    assert (Hrest : take (Z.to_nat (Z.of_nat (length (lines old)) - o'))
                         (drop (Z.to_nat o') (map get_words (lines old)))
                    = map get_words (drop (Z.to_nat o') (lines old))).
    { rewrite take_ge, skipn_map; [reflexivity|].
      rewrite length_drop, length_map. lia. }
    rewrite Hrest, Hlines.
    eexists. split; [reflexivity|]. cbn. repeat split.
    unfold is_multiset_of_lines. cbn. intros w.
    rewrite Hwl', <- occurrences_app, Hlines. reflexivity.
Qed.

(** The constructor holds the words of the buffer. *)
Lemma ctor_spec buffer :
  WordDB.m_timestamp (WordDB.ctor is_word buffer) = timestamp buffer /\
  WordDB.m_line_to_words (WordDB.ctor is_word buffer) = map get_words (lines buffer) /\
  is_multiset_of_lines (WordDB.ctor is_word buffer).
Proof.
  unfold WordDB.ctor.
  assert (H : forall ls ltw0 (wl0 : gmap string Z),
    (forall w, wl0 !! w = stored (occurrences w ltw0)) ->
    exists wl,
      foldl (fun '(line_to_words, words) line =>
               (line_to_words ++ [get_words line],
                WordDB.add_words words (get_words line)))
            (ltw0, wl0) ls
      = (ltw0 ++ map get_words ls, wl) /\
      forall w, wl !! w = stored (occurrences w (ltw0 ++ map get_words ls))).
  { induction ls as [|l ls IH]; intros ltw0 wl0 H0.
    - exists wl0. cbn. rewrite app_nil_r. auto.
    - cbn [foldl map].
      destruct (IH (ltw0 ++ [get_words l]) (WordDB.add_words wl0 (get_words l)))
        as (wl & Hfold & Hwl).
      { intros w. rewrite (add_words_stored _ _ _ H0), occurrences_app, occurrences_one.
        reflexivity. }
      exists wl. rewrite Hfold, <- app_assoc. split; [reflexivity|].
      intros w. rewrite Hwl, <- app_assoc. reflexivity. }
  destruct (H (lines buffer) [] ∅) as (wl & Hfold & Hwl).
  { intros w. rewrite lookup_empty. reflexivity. }
  rewrite Hfold. cbn. repeat split. exact Hwl.
Qed.

End WordDBFacts.

Section WordSums.

Lemma sum_of_counts_delete (wl : gmap string Z) x c :
  wl !! x = Some c -> sum_of_counts wl = c + sum_of_counts (delete x wl).
Proof.
  intros H. unfold sum_of_counts.
  apply (map_fold_delete_L (fun _ count sum => count + sum)); [|exact H].
  intros. lia.
Qed.

Lemma sum_of_counts_insert (wl : gmap string Z) x c :
  wl !! x = None -> sum_of_counts (<[x := c]> wl) = c + sum_of_counts wl.
Proof.
  intros H. unfold sum_of_counts.
  apply (map_fold_insert_L (fun _ count sum => count + sum)); [|exact H].
  intros. lia.
Qed.

(** A map that holds the count of every word of a list sums up to the
    length of the list. *)
Lemma sum_of_counts_words ws : forall wl : gmap string Z,
  (forall w, wl !! w = stored (count_occ String.string_dec ws w)) ->
  sum_of_counts wl = Z.of_nat (length ws).
Proof.
  induction ws as [|x ws IH]; intros wl H.
  - assert (wl = ∅) as ->.
    { apply map_eq. intros w. rewrite H, lookup_empty. reflexivity. }
    reflexivity.
  - pose proof (H x) as Hx. cbn [count_occ] in Hx.
    destruct (String.string_dec x x) as [_|]; [|congruence].
    unfold stored in Hx. cbn [Nat.eqb] in Hx.
    rewrite (sum_of_counts_delete wl x _ Hx).
    assert (Hothers : forall w, w <> x ->
              delete x wl !! w = stored (count_occ String.string_dec ws w)).
    { intros w Hw. rewrite lookup_delete_ne by congruence. rewrite H.
      cbn [count_occ]. destruct (String.string_dec x w); [congruence | reflexivity]. }
    destruct (Nat.eqb_spec (count_occ String.string_dec ws x) 0) as [Hz | Hnz].
    + rewrite (IH (delete x wl)).
      * rewrite Hz. cbn [length]. lia.
      * intros w. destruct (String.string_dec w x) as [-> | Hw]; [|auto].
        rewrite lookup_delete_eq, Hz. reflexivity.
    + pose proof (IH (<[x := Z.of_nat (count_occ String.string_dec ws x)]> (delete x wl)))
        as Hins.
      rewrite sum_of_counts_insert in Hins by apply lookup_delete_eq.
      cbn [length]. rewrite Nat2Z.inj_succ.
      assert (Z.of_nat (count_occ String.string_dec ws x)
              + sum_of_counts (delete x wl) = Z.of_nat (length ws)); [|lia].
      apply Hins. intros w. destruct (String.string_dec w x) as [-> | Hw].
      * rewrite lookup_insert_eq. unfold stored.
        destruct (Nat.eqb_spec (count_occ String.string_dec ws x) 0); [lia|].
        reflexivity.
      * rewrite lookup_insert_ne by congruence. auto.
Qed.

Lemma number_of_words_concat (ltw : list (list string)) :
  number_of_words ltw = Z.of_nat (length (concat ltw)).
Proof.
  unfold number_of_words. induction ltw as [|ws ltw IH]; [reflexivity|].
  cbn [foldr concat]. rewrite IH, length_app. lia.
Qed.

(** The sum over the keys of the map is the sum over the lines of their
    numbers of words. *)
Lemma multiset_sum db :
  is_multiset_of_lines db ->
  sum_of_counts (WordDB.m_words db) = number_of_words (WordDB.m_line_to_words db).
Proof.
  intros H. rewrite number_of_words_concat.
  apply sum_of_counts_words. exact H.
Qed.

End WordSums.

(** C7.  The database built by the constructor, and the database that
    [update_db] leaves when the line modifications describe how the buffer
    changed, hold in [m_words] the multiset union of the words of the lines
    in [m_line_to_words]; so the sum of the counts over the keys is the sum
    of the numbers of words over the lines.  [update_db] does not fail
    there. *)
Theorem word_db_invariant is_word :
  (forall buffer,
     is_multiset_of_lines (WordDB.ctor is_word buffer) /\
     sum_of_counts (WordDB.m_words (WordDB.ctor is_word buffer))
     = number_of_words (WordDB.m_line_to_words (WordDB.ctor is_word buffer))) /\
  (forall db old new modifs,
     WordDB.m_line_to_words db = map (WordDB.get_words is_word) (lines old) ->
     is_multiset_of_lines db ->
     describes old new modifs = true ->
     exists db',
       WordDB.update_db is_word db new modifs = Some db' /\
       WordDB.m_line_to_words db' = map (WordDB.get_words is_word) (lines new) /\
       is_multiset_of_lines db' /\
       sum_of_counts (WordDB.m_words db')
       = number_of_words (WordDB.m_line_to_words db')).
Proof.
  split.
  - intros buffer. destruct (ctor_spec is_word buffer) as (_ & _ & Hinv).
    split; [exact Hinv | apply multiset_sum; exact Hinv].
  - intros db old new modifs Hltw Hinv Hd.
    destruct (update_db_spec is_word db old new modifs Hltw Hinv Hd)
      as (db' & Hup & _ & Hltw' & Hinv').
    exists db'. repeat split; auto. apply multiset_sum. exact Hinv'.
Qed.

(** The theorem on a database built from a buffer of two lines, after the
    second line was replaced by two other lines. *)
Lemma word_db_invariant_witness :
  exists db',
    WordDB.update_db Samples.is_word (WordDB.ctor Samples.is_word Samples.words_old)
      Samples.words_new [Samples.words_modification] = Some db' /\
    WordDB.m_line_to_words db' = [["foo"; "bar"]; ["baz"]; ["qux"; "foo"]] /\
    is_multiset_of_lines db' /\
    sum_of_counts (WordDB.m_words db') = number_of_words (WordDB.m_line_to_words db').
Proof.
  destruct (word_db_invariant Samples.is_word) as [Hctor Hupdate].
  apply (Hupdate (WordDB.ctor Samples.is_word Samples.words_old)
                 Samples.words_old Samples.words_new [Samples.words_modification]).
  - reflexivity.
  - apply Hctor.
  - reflexivity.
Defined.

(** ** The queries of the word database *)

(** The database that [update_db] leaves is the database that the
    constructor builds from the new buffer. *)
Lemma update_db_fresh is_word db old new modifs :
  WordDB.m_line_to_words db = map (WordDB.get_words is_word) (lines old) ->
  is_multiset_of_lines db ->
  describes old new modifs = true ->
  WordDB.update_db is_word db new modifs = Some (WordDB.ctor is_word new).
Proof.
  intros Hltw Hinv Hd.
  destruct (update_db_spec is_word db old new modifs Hltw Hinv Hd)
    as (db' & Hup & Hts & Hltw' & Hinv').
  destruct (ctor_spec is_word new) as (Hts0 & Hltw0 & Hinv0).
  rewrite Hup. f_equal.
  destruct db' as [ts ltw wl], (WordDB.ctor is_word new) as [ts0 ltw0 wl0].
  unfold is_multiset_of_lines in *. cbn in *. subst. f_equal.
  apply map_eq. intros w. rewrite Hinv', Hinv0. reflexivity.
Qed.

Lemma get_word_occurences_stored db w :
  is_multiset_of_lines db ->
  WordDB.get_word_occurences db w
  = Z.of_nat (occurrences w (WordDB.m_line_to_words db)).
Proof.
  intros H. unfold WordDB.get_word_occurences. rewrite H. unfold stored.
  destruct (Nat.eqb_spec (occurrences w (WordDB.m_line_to_words db)) 0) as [E|E];
    [rewrite E|]; reflexivity.
Qed.

(** C8 (amended).  [find_prefix] and [find_subsequence] first call
    [update_db], which applies the line modifications since the stored
    timestamp, and answer from the words of the buffer as it is now: the
    database they leave and search is the one the constructor would build
    from the new buffer.  [get_word_occurences] is a direct lookup in the
    stored map and updates nothing: it answers for the buffer as it was at
    the last update. *)
Theorem queries_up_to_date is_word db old new modifs :
  WordDB.m_line_to_words db = map (WordDB.get_words is_word) (lines old) ->
  is_multiset_of_lines db ->
  describes old new modifs = true ->
  (forall prefix,
     WordDB.find_prefix is_word db new modifs prefix
     = Some (WordDB.ctor is_word new,
             WordDB.scan_prefix prefix
               (drop (lower_bound (fun w => String.ltb w prefix)
                        (WordDB.sorted_words (WordDB.m_words (WordDB.ctor is_word new))))
                     (WordDB.sorted_words (WordDB.m_words (WordDB.ctor is_word new)))))) /\
  (forall subsequence,
     WordDB.find_subsequence is_word db new modifs subsequence
     = Some (WordDB.ctor is_word new,
             List.filter (fun w => subsequence_match w subsequence)
               (WordDB.sorted_words (WordDB.m_words (WordDB.ctor is_word new))))) /\
  (forall word,
     WordDB.get_word_occurences db word
     = Z.of_nat (occurrences word (map (WordDB.get_words is_word) (lines old)))).
Proof.
  intros Hltw Hinv Hd.
  pose proof (update_db_fresh is_word db old new modifs Hltw Hinv Hd) as Hup.
  split; [|split].
  - intros prefix. unfold WordDB.find_prefix. rewrite Hup. reflexivity.
  - intros subsequence. unfold WordDB.find_subsequence. rewrite Hup. reflexivity.
  - intros word. rewrite get_word_occurences_stored, Hltw by exact Hinv. reflexivity.
Qed.

(** The theorem on the same database and buffers: the prefix [foo] finds
    [foo] alone once [foobar] is gone from the buffer, while the count of
    [foobar] that is stored is still the one of the old buffer. *)
Lemma queries_up_to_date_witness :
  (snd <$> WordDB.find_prefix Samples.is_word
             (WordDB.ctor Samples.is_word Samples.words_old)
             Samples.words_new [Samples.words_modification] "foo") = Some ["foo"] /\
  (snd <$> WordDB.find_subsequence Samples.is_word
             (WordDB.ctor Samples.is_word Samples.words_old)
             Samples.words_new [Samples.words_modification] "bz") = Some ["baz"] /\
  WordDB.get_word_occurences (WordDB.ctor Samples.is_word Samples.words_old) "foobar"
  = 1.
Proof.
  destruct (queries_up_to_date Samples.is_word
              (WordDB.ctor Samples.is_word Samples.words_old)
              Samples.words_old Samples.words_new [Samples.words_modification])
    as (Hprefix & Hsubseq & Hcount).
  - reflexivity.
  - apply ctor_spec.
  - reflexivity.
  - rewrite Hprefix, Hsubseq, Hcount. repeat split.
Defined.

(** C8, as stated, fails for [get_word_occurences]: asked after the buffer
    changed, it still counts one [foobar], a word that the buffer, and a
    database built from it, no longer has. *)
Lemma get_word_occurences_stale :
  describes Samples.words_old Samples.words_new [Samples.words_modification] = true /\
  WordDB.get_word_occurences (WordDB.ctor Samples.is_word Samples.words_old) "foobar"
  = 1 /\
  WordDB.get_word_occurences (WordDB.ctor Samples.is_word Samples.words_new) "foobar"
  = 0.
Proof. repeat split. Qed.

(** ** The scenarios of the specification *)

(** [fill yellow] on the two lines of a buffer: one atom for each line,
    with a yellow foreground. *)
Example fill_yellow :
  fill Samples.faces "yellow" (Samples.context_of_lines 2) Highlight
    (DisplayBuffer.mk [[Samples.whole_line 0]; [Samples.whole_line 1]]
                      (mkCoord 0 0, mkCoord 2 0))
  = Some (DisplayBuffer.mk
            [[DisplayAtom.set_face Samples.yellow (Samples.whole_line 0)];
             [DisplayAtom.set_face Samples.yellow (Samples.whole_line 1)]]
            (mkCoord 0 0, mkCoord 2 0)).
Proof. reflexivity. Qed.

(** The words of the lines [foo bar] and [foobar foo]: the prefix [foo]
    finds [foo] and [foobar], in this order, and [foo] occurs twice. *)
Example word_db_prefix :
  (snd <$> WordDB.find_prefix Samples.is_word
             (WordDB.ctor Samples.is_word Samples.words_old)
             Samples.words_old [] "foo") = Some ["foo"; "foobar"] /\
  WordDB.get_word_occurences (WordDB.ctor Samples.is_word Samples.words_old) "foo" = 2.
Proof. split; reflexivity. Qed.

(** * Further properties of the word database *)

Section GetWordsFacts.

Variable is_word : ascii -> bool.

Local Abbreviation loop := (WordDB.get_words_loop is_word).

Lemma string_app_nil_r (s : string) : (s ++ "")%string = s.
Proof. induction s as [|c s IH]; [reflexivity|]. change ((String c s ++ "")%string) with (String c (s ++ "")%string). rewrite IH. reflexivity. Qed.

Lemma string_app_assoc (s t u : string) : ((s ++ t) ++ u)%string = (s ++ (t ++ u))%string.
Proof.
  induction s as [|c s IH]; [reflexivity|].
  change (String c ((s ++ t) ++ u)%string = String c (s ++ (t ++ u))%string).
  rewrite IH. reflexivity.
Qed.







End GetWordsFacts.



Section WordListFacts.

Lemma positive_counts_stored (wl : gmap string Z) :
  positive_counts wl ->
  forall w, wl !! w = stored (Z.to_nat (count_of wl w)).
Proof.
  intros Hpos w. unfold count_of, stored.
  destruct (wl !! w) as [count|] eqn:Hw; cbn; [|reflexivity].
  specialize (Hpos w count Hw).
  destruct (Nat.eqb_spec (Z.to_nat count) 0); [lia|]. f_equal. lia.
Qed.

Lemma remove_words_failed ws :
  foldl (fun acc w =>
           wl ← acc;
           match wl !! w with
           | Some count =>
               if 0 <? count
               then Some (if count - 1 =? 0 then delete w wl
                          else <[w := count - 1]> wl)
               else None
           | None => None
           end) (None : option (gmap string Z)) ws = None.
Proof. induction ws as [|x ws IH]; [reflexivity | exact IH]. Qed.

(** One step of [remove_words] on a word that has an entry. *)
Lemma remove_word_counts (wl : gmap string Z) x count :
  positive_counts wl -> wl !! x = Some count ->
  let wl1 := if count - 1 =? 0 then delete x wl else <[x := count - 1]> wl in
  positive_counts wl1 /\
  forall w, count_of wl1 w = count_of wl w - (if String.string_dec x w then 1 else 0).
Proof.
  intros Hpos Hx. pose proof (Hpos x count Hx) as Hc. cbn zeta. split.
  - intros w c. destruct (Z.eqb_spec (count - 1) 0).
    + destruct (String.string_dec x w) as [<- | Hne].
      * rewrite lookup_delete_eq. discriminate.
      * rewrite lookup_delete_ne by exact Hne. apply Hpos.
    + destruct (String.string_dec x w) as [<- | Hne].
      * rewrite lookup_insert_eq. intros [= <-]. lia.
      * rewrite lookup_insert_ne by exact Hne. apply Hpos.
  - intros w. unfold count_of. destruct (Z.eqb_spec (count - 1) 0).
    + destruct (String.string_dec x w) as [<- | Hne].
      * rewrite lookup_delete_eq, Hx. cbn. lia.
      * rewrite lookup_delete_ne by exact Hne. lia.
    + destruct (String.string_dec x w) as [<- | Hne].
      * rewrite lookup_insert_eq, Hx. cbn. lia.
      * rewrite lookup_insert_ne by exact Hne. lia.
Qed.

Lemma remove_words_counts ws : forall wl : gmap string Z,
  positive_counts wl ->
  match WordDB.remove_words wl ws with
  | Some wl' =>
      positive_counts wl' /\
      forall w, count_of wl' w
                = count_of wl w - Z.of_nat (count_occ String.string_dec ws w)
  | None =>
      exists w, count_of wl w < Z.of_nat (count_occ String.string_dec ws w)
  end.
Proof.
  induction ws as [|x ws IH]; intros wl Hpos.
  - cbn. split; [exact Hpos|]. intros w. lia.
  - unfold WordDB.remove_words. cbn [foldl mbind option_bind].
    destruct (wl !! x) as [count|] eqn:Hx.
    + pose proof (Hpos x count Hx) as Hc.
      destruct (Z.ltb_spec 0 count); [|lia].
      destruct (remove_word_counts wl x count Hpos Hx) as [Hpos1 Hcount1].
      cbn zeta in Hpos1, Hcount1.
      match goal with
      | |- match foldl ?f (Some ?wl1) ws with _ => _ end =>
          fold (WordDB.remove_words wl1 ws);
          specialize (IH wl1 Hpos1);
          destruct (WordDB.remove_words wl1 ws) as [wl'|]
      end.
      * destruct IH as [Hpos' Hcount']. split; [exact Hpos'|].
        intros w. rewrite Hcount', Hcount1. cbn [count_occ].
        destruct (String.string_dec x w); lia.
      * destruct IH as [w Hw]. exists w. rewrite Hcount1 in Hw. cbn [count_occ].
        destruct (String.string_dec x w); lia.
    + rewrite remove_words_failed. exists x. unfold count_of. rewrite Hx.
      cbn [count_occ default]. destruct (String.string_dec x x); [lia | congruence].
Qed.

End WordListFacts.

(** X3.  On a word list without zero counts, removing the words that were
    just added gives the word list back: [remove_words] undoes
    [add_words]. *)
Theorem add_remove_words wl ws :
  positive_counts wl ->
  WordDB.remove_words (WordDB.add_words wl ws) ws = Some wl.
Proof.
  intros Hpos.
  pose proof (add_words_stored ws wl (fun w => Z.to_nat (count_of wl w))
                (positive_counts_stored wl Hpos)) as Hadd.
  destruct (remove_words_stored ws (WordDB.add_words wl ws)
              (fun w => Z.to_nat (count_of wl w)) Hadd) as (wl' & Hrem & Hwl').
  rewrite Hrem. f_equal. apply map_eq. intros w.
  rewrite Hwl'. symmetry. apply positive_counts_stored. exact Hpos.
Qed.

(** X4.  On a word list without zero counts, [remove_words] fails on its
    assertion exactly when some word is to be removed more often than the
    list counts it, a word without entry counting zero times; when it
    succeeds, every count went down by the number of removals and no zero
    count is left. *)
Theorem remove_words_fails_iff wl ws :
  positive_counts wl ->
  (WordDB.remove_words wl ws = None <->
   exists w, count_of wl w < Z.of_nat (count_occ String.string_dec ws w)) /\
  (forall wl',
     WordDB.remove_words wl ws = Some wl' ->
     positive_counts wl' /\
     forall w, count_of wl' w
               = count_of wl w - Z.of_nat (count_occ String.string_dec ws w)).
Proof.
  intros Hpos. pose proof (remove_words_counts ws wl Hpos) as H.
  destruct (WordDB.remove_words wl ws) as [wl1|].
  - destruct H as [Hpos1 Hcount1]. split.
    + split; [discriminate|]. intros [w Hw]. exfalso.
      specialize (Hcount1 w).
      assert (0 <= count_of wl1 w); [|lia].
      unfold count_of. destruct (wl1 !! w) as [c|] eqn:Hc; cbn; [|lia].
      specialize (Hpos1 w c Hc). lia.
    + intros wl' [= <-]. split; assumption.
  - split; [split; [intros _; exact H | reflexivity]|]. discriminate.
Qed.

Section StringOrder.

Lemma ascii_compare_refl c : Ascii.compare c c = Eq.
Proof. unfold Ascii.compare. apply N.compare_refl. Qed.

Lemma string_le_compare a b : string_le a b <-> String.compare a b <> Gt.
Proof.
  unfold string_le, String.ltb. rewrite (String.compare_antisym a b).
  destruct (String.compare b a); cbn; split; congruence.
Qed.

Lemma ltb_string_le a b : String.ltb a b = true -> string_le a b.
Proof.
  intros H. apply string_le_compare. unfold String.ltb in H.
  destruct (String.compare a b); congruence.
Qed.

Lemma compare_le_trans a : forall b c,
  String.compare a b <> Gt -> String.compare b c <> Gt -> String.compare a c <> Gt.
Proof.
  induction a as [|x a IH]; intros [|y b] [|z c]; cbn; try congruence.
  unfold Ascii.compare.
  destruct (N.compare_spec (N_of_ascii x) (N_of_ascii y)) as [Exy|Lxy|Gxy];
    destruct (N.compare_spec (N_of_ascii y) (N_of_ascii z)) as [Eyz|Lyz|Gyz];
    destruct (N.compare_spec (N_of_ascii x) (N_of_ascii z)) as [Exz|Lxz|Gxz];
    try congruence; try lia.
  apply IH.
Qed.

Lemma string_le_trans a b c : string_le a b -> string_le b c -> string_le a c.
Proof. rewrite !string_le_compare. apply compare_le_trans. Qed.

(** A string comes behind its prefixes. *)
Lemma prefix_string_le p : forall w, String.prefix p w = true -> string_le p w.
Proof.
  intros w H. apply string_le_compare. revert w H.
  induction p as [|a p IH]; intros [|b w] H; cbn in *; try congruence.
  destruct (ascii_dec a b) as [<- | _]; [|discriminate].
  rewrite ascii_compare_refl. apply IH. exact H.
Qed.

(** The strings that begin with [p] are not parted by another string. *)
Lemma prefix_between p : forall x y,
  string_le p x -> string_le x y -> String.prefix p y = true ->
  String.prefix p x = true.
Proof.
  intros x y. rewrite !string_le_compare. revert x y.
  induction p as [|a p IH]; intros [|c x] [|b y] Hpx Hxy Hpy; cbn in *;
    try congruence; try reflexivity.
  destruct (ascii_dec a b) as [<- | _]; [|discriminate].
  unfold Ascii.compare in *.
  destruct (N.compare_spec (N_of_ascii a) (N_of_ascii c)) as [Eac|Lac|Gac];
    destruct (N.compare_spec (N_of_ascii c) (N_of_ascii a)) as [Eca|Lca|Gca];
    try congruence; try lia.
  assert (a = c) as <-.
  { rewrite <- (ascii_N_embedding a), <- (ascii_N_embedding c), Eac. reflexivity. }
  destruct (ascii_dec a a); [|congruence]. eapply IH; eauto.
Qed.

End StringOrder.

Section SortedWords.

Lemma insert_sorted_In w x l : In w (WordDB.insert_sorted x l) <-> w = x \/ In w l.
Proof.
  induction l as [|y l IH]; cbn; [intuition congruence|].
  destruct (String.ltb y x); cbn; [rewrite IH|]; intuition congruence.
Qed.

Lemma insert_sorted_sorted x l :
  ascending l -> ascending (WordDB.insert_sorted x l).
Proof.
  induction l as [|y l IH]; intros Hl; cbn; [split; [constructor | exact I]|].
  destruct Hl as [Hy Hl]. destruct (String.ltb y x) eqn:E.
  - split; [|apply IH; exact Hl]. apply Forall_forall. intros w Hw.
    apply list_elem_of_In, insert_sorted_In in Hw. destruct Hw as [-> | Hw].
    + apply ltb_string_le. exact E.
    + rewrite Forall_forall in Hy. apply Hy, list_elem_of_In. exact Hw.
  - split; [|split; assumption].
    constructor; [exact E|].
    eapply Forall_impl; [exact Hy|]. cbn beta. intros w Hw.
    eapply string_le_trans; [exact E | exact Hw].
Qed.

Lemma insert_sorted_NoDup x l :
  ~ In x l -> List.NoDup l -> List.NoDup (WordDB.insert_sorted x l).
Proof.
  induction l as [|y l IH]; intros Hx Hl; cbn.
  - constructor; [exact Hx | constructor].
  - destruct (String.ltb y x).
    + inversion Hl as [|? ? Hy Hl']; subst. constructor.
      * rewrite insert_sorted_In. cbn in Hx. intuition congruence.
      * apply IH; [cbn in Hx; tauto | exact Hl'].
    + constructor; assumption.
Qed.

Lemma sorted_words_In (wl : gmap string Z) w :
  In w (WordDB.sorted_words wl) <-> is_Some (wl !! w).
Proof.
  unfold WordDB.sorted_words.
  assert (H : forall l : list string, In w (foldr WordDB.insert_sorted [] l) <-> In w l).
  { induction l as [|x l IH]; cbn; [tauto|].
    rewrite insert_sorted_In, IH. intuition congruence. }
  rewrite H, in_map_iff. split.
  - intros ([k v] & <- & Hin). exists v.
    apply elem_of_map_to_list, list_elem_of_In. exact Hin.
  - intros [v Hv]. exists (w, v). split; [reflexivity|].
    apply list_elem_of_In, elem_of_map_to_list. exact Hv.
Qed.

Lemma sorted_words_sorted (wl : gmap string Z) :
  ascending (WordDB.sorted_words wl).
Proof.
  unfold WordDB.sorted_words.
  induction (map fst (map_to_list wl)) as [|x l IH]; cbn; [exact I|].
  apply insert_sorted_sorted. exact IH.
Qed.

Lemma sorted_words_NoDup (wl : gmap string Z) : List.NoDup (WordDB.sorted_words wl).
Proof.
  unfold WordDB.sorted_words.
  assert (Hnd : List.NoDup (map fst (map_to_list wl))).
  { apply NoDup_ListNoDup. change (map fst (map_to_list wl)) with ((map_to_list wl).*1).
    apply NoDup_fst_map_to_list. }
  induction (map fst (map_to_list wl)) as [|x l IH]; cbn; [constructor|].
  inversion Hnd as [|? ? Hx Hl]; subst.
  apply insert_sorted_NoDup; [|apply IH; exact Hl].
  intros Hin. apply Hx.
  clear -Hin. induction l as [|y l IH]; cbn in *; [tauto|].
  apply insert_sorted_In in Hin. destruct Hin as [-> | Hin]; [left; reflexivity|].
  right. apply IH. exact Hin.
Qed.

(** In a sorted list the search of [find_prefix], the scan from the lower
    bound of the prefix to the first word that does not begin with it, finds
    all the words that begin with the prefix. *)
Lemma scan_prefix_In prefix ws :
  ascending ws ->
  forall w,
    In w (WordDB.scan_prefix prefix
            (drop (lower_bound (fun w => String.ltb w prefix) ws) ws))
    <-> In w ws /\ prefix_match w prefix = true.
Proof.
  assert (Hscan : forall rest,
            ascending rest -> Forall (string_le prefix) rest ->
            forall w, In w (WordDB.scan_prefix prefix rest)
                      <-> In w rest /\ prefix_match w prefix = true).
  { induction rest as [|x rest IH]; intros Hrest Hge w; cbn; [tauto|].
    destruct Hrest as [Hx Hrest].
    inversion Hge as [|? ? Hpx Hge']; subst.
    destruct (prefix_match x prefix) eqn:Hpre; cbn.
    - rewrite (IH Hrest Hge'). intuition congruence.
    - split; [tauto|]. intros [[<- | Hin] Hw]; [congruence|].
      rewrite Forall_forall in Hx. specialize (Hx w (proj2 (list_elem_of_In _ _) Hin)).
      unfold prefix_match in *.
      rewrite (prefix_between prefix x w Hpx Hx Hw) in Hpre. discriminate. }
  induction ws as [|x ws IH]; intros Hsorted w; [cbn; tauto|].
  pose proof Hsorted as [Hx Hws].
  cbn [lower_bound]. destruct (String.ltb x prefix) eqn:E.
  - cbn [drop]. rewrite (IH Hws). cbn [In]. split; [tauto|].
    intros [[<- | Hin] Hw]; [|tauto]. exfalso.
    apply prefix_string_le in Hw. unfold string_le in Hw. congruence.
  - cbn [drop]. apply Hscan.
    + exact Hsorted.
    + constructor; [exact E|]. eapply Forall_impl; [exact Hx|].
      cbn beta. intros y Hy. eapply string_le_trans; [exact E | exact Hy].
Qed.

Lemma ascending_sublist l1 l2 : sublist l1 l2 -> ascending l2 -> ascending l1.
Proof.
  induction 1 as [|x l1 l2 Hsub IH|x l1 l2 Hsub IH]; intros Hs.
  - exact I.
  - destruct Hs as [Hx Hs]. split; [|apply IH; exact Hs].
    rewrite Forall_forall in *. intros y Hy. apply Hx.
    eapply elem_of_sublist; eauto.
  - destruct Hs as [_ Hs]. apply IH. exact Hs.
Qed.

Lemma scan_prefix_sublist prefix ws : sublist (WordDB.scan_prefix prefix ws) ws.
Proof.
  induction ws as [|w ws IH]; cbn; [constructor|].
  destruct (prefix_match w prefix); [apply sublist_skip; exact IH | apply sublist_nil_l].
Qed.

End SortedWords.

(** X5.  When the line modifications describe how the buffer changed,
    [find_prefix] returns exactly the words of the buffer as it is now that
    begin with the prefix, each of them once and in the order of the word
    list. *)
Theorem find_prefix_exact is_word db old new modifs prefix :
  WordDB.m_line_to_words db = map (WordDB.get_words is_word) (lines old) ->
  is_multiset_of_lines db ->
  describes old new modifs = true ->
  exists found,
    snd <$> WordDB.find_prefix is_word db new modifs prefix = Some found /\
    (forall w,
       In w found <->
       (0 < occurrences w (map (WordDB.get_words is_word) (lines new)))%nat /\
       prefix_match w prefix = true) /\
    List.NoDup found /\
    ascending found.
Proof.
  intros Hltw Hinv Hd.
  pose proof (update_db_fresh is_word db old new modifs Hltw Hinv Hd) as Hup.
  destruct (ctor_spec is_word new) as (_ & Hlines & Hmulti).
  unfold WordDB.find_prefix. rewrite Hup. cbn [mbind option_bind fmap option_fmap option_map snd].
  set (ws := WordDB.sorted_words (WordDB.m_words (WordDB.ctor is_word new))).
  eexists. split; [reflexivity|].
  assert (Hsub : sublist (WordDB.scan_prefix prefix
                            (drop (lower_bound (fun w => String.ltb w prefix) ws) ws)) ws).
  { etransitivity; [apply scan_prefix_sublist | apply sublist_drop]. }
  split; [|split].
  - intros w. rewrite (scan_prefix_In prefix ws (sorted_words_sorted _)).
    unfold ws. rewrite sorted_words_In, (Hmulti w), Hlines. unfold stored.
    destruct (Nat.eqb_spec (occurrences w (map (WordDB.get_words is_word) (lines new))) 0)
      as [E|E].
    + rewrite E. split; [intros [[? [=]] _] | lia].
    + split; [intros [_ H]; split; [lia | exact H] | intros [_ H]; split; [eauto | exact H]].
  - apply NoDup_ListNoDup. eapply sublist_NoDup; [|exact Hsub].
    apply NoDup_ListNoDup, sorted_words_NoDup.
  - eapply ascending_sublist; [exact Hsub | apply sorted_words_sorted].
Qed.


(** The theorem on a word list that counts [foo] twice. *)
Lemma add_remove_words_witness :
  WordDB.remove_words (WordDB.add_words {["foo" := 2]} ["foo"; "bar"; "foo"])
                      ["foo"; "bar"; "foo"]
  = Some {["foo" := 2]}.
Proof.
  apply (add_remove_words {["foo" := 2]} ["foo"; "bar"; "foo"]).
  intros w count H. apply lookup_singleton_Some in H. lia.
Defined.

(** The theorem on the same word list: [foo] can be removed twice, not
    three times, and [bar] not at all. *)
Lemma remove_words_fails_iff_witness :
  WordDB.remove_words {["foo" := 2]} ["foo"; "foo"; "foo"] = None /\
  WordDB.remove_words {["foo" := 2]} ["bar"] = None /\
  forall wl',
    WordDB.remove_words {["foo" := 2]} ["foo"] = Some wl' ->
    count_of wl' "foo" = 1.
Proof.
  assert (Hpos : positive_counts ({["foo" := 2]} : gmap string Z)).
  { intros w count H. apply lookup_singleton_Some in H. lia. }
  split; [|split].
  - apply (remove_words_fails_iff {["foo" := 2]} ["foo"; "foo"; "foo"] Hpos).
    exists "foo". vm_compute. reflexivity.
  - apply (remove_words_fails_iff {["foo" := 2]} ["bar"] Hpos).
    exists "bar". vm_compute. reflexivity.
  - intros wl' H.
    destruct (remove_words_fails_iff {["foo" := 2]} ["foo"] Hpos) as [_ Hsome].
    destruct (Hsome wl' H) as [_ Hcount]. rewrite Hcount. reflexivity.
Defined.

(** The theorem on the database of the two-line buffer, after its second
    line was replaced by two other lines: of [foo], [foobar] and [foo], the
    word [foo] is left. *)
Lemma find_prefix_exact_witness :
  exists found,
    snd <$> WordDB.find_prefix Samples.is_word
              (WordDB.ctor Samples.is_word Samples.words_old)
              Samples.words_new [Samples.words_modification] "foo" = Some found /\
    (forall w,
       In w found <->
       (0 < occurrences w (map (WordDB.get_words Samples.is_word)
                               (lines Samples.words_new)))%nat /\
       prefix_match w "foo" = true) /\
    List.NoDup found /\
    ascending found.
Proof.
  apply (find_prefix_exact Samples.is_word
           (WordDB.ctor Samples.is_word Samples.words_old)
           Samples.words_old Samples.words_new [Samples.words_modification] "foo").
  - reflexivity.
  - apply ctor_spec.
  - reflexivity.
Defined.

(** * Further properties of the highlighters *)

Lemma lor_unless_normal (attrs x : Z) :
  (if bool_decide (x <> Normal) then Z.lor attrs x else attrs) = Z.lor attrs x.
Proof.
  case_bool_decide as H; [reflexivity|].
  assert (x = 0) as -> by (unfold Normal in H; destruct (Z.eq_dec x 0); tauto).
  rewrite Z.lor_0_r. reflexivity.
Qed.

(** X6.  Faces compose: applying [g] and then [f] to an atom is applying
    the one face [face_over f g], and the face that sets nothing changes
    nothing. *)
Theorem apply_face_compose f g a :
  apply_face f (apply_face g a) = apply_face (face_over f g) a /\
  apply_face (mkFace Default Default Normal) a = a.
Proof.
  split.
  - destruct a as [ty b e text [afg abg aattr]], f as [ffg fbg fattr],
      g as [gfg gbg gattr].
    unfold apply_face, face_over, DisplayAtom.set_face. cbn.
    rewrite !lor_unless_normal, Z.lor_assoc.
    f_equal. f_equal; repeat case_bool_decide; congruence.
  - destruct a as [ty b e text [afg abg aattr]]. reflexivity.
Qed.

Section LayoutFacts.

Lemma coord_le_antisym (x y : ByteCoord) : Coord.le x y -> Coord.le y x -> x = y.
Proof.
  destruct x, y. unfold Coord.le. cbn. intros H1 H2. f_equal; lia.
Qed.

Lemma min_absorb r x y : Coord.le x y -> Coord.min (Coord.min r x) y = Coord.min r x.
Proof.
  intros Hxy. unfold Coord.min at 1.
  assert (Coord.ltb y (Coord.min r x) = false) as ->; [|reflexivity].
  apply CoordFacts.ltb_nlt.
  eapply CoordOrder.le_trans; [apply CoordOrder.min_le_r | exact Hxy].
Qed.

Lemma max_absorb r x y : Coord.le x y -> Coord.max (Coord.max r x) y = Coord.max r y.
Proof.
  intros Hxy. unfold Coord.max.
  destruct (Coord.ltb r x) eqn:E1, (Coord.ltb r y) eqn:E2.
  - destruct (Coord.ltb x y) eqn:E3; [reflexivity|].
    apply coord_le_antisym; [exact Hxy | coord_lia].
  - exfalso. coord_lia.
  - reflexivity.
  - reflexivity.
Qed.

(** The step of the fold that computes the range of a line. *)
Local Abbreviation range_step :=
  (fun (r : BufferRange) (a : DisplayAtom) =>
     if DisplayAtom.has_buffer_range a
     then (Coord.min (fst r) (DisplayAtom.m_begin a),
           Coord.max (snd r) (DisplayAtom.m_end a))
     else r).

Lemma range_fold_flat_map (h : DisplayAtom -> list DisplayAtom) l : forall r,
  (forall a r, fold_left range_step (h a) r = range_step r a) ->
  fold_left range_step (flat_map h l) r = fold_left range_step l r.
Proof.
  induction l as [|a l IH]; intros r Hh; [reflexivity|].
  cbn [flat_map]. rewrite fold_left_app, Hh. cbn [fold_left]. apply IH. exact Hh.
Qed.

Variables (b e : ByteCoord) (skip : bool) (f : DisplayAtom -> DisplayAtom).
Hypothesis b_lt_e : Coord.lt b e.
Hypothesis f_keeps : keeps_range f.

Lemma keeps_has_buffer_range a :
  DisplayAtom.has_buffer_range (f a) = DisplayAtom.has_buffer_range a.
Proof.
  unfold DisplayAtom.has_buffer_range. destruct (f_keeps a) as (-> & _). reflexivity.
Qed.

(** The pieces that replace an atom: the atom, restyled or not, or its
    parts at one or two positions between its begin and its end. *)
Lemma highlight_atom_pieces a :
  (exists a', highlight_atom b e skip f a = [a'] /\ (a' = a \/ a' = f a)) \/
  (DisplayAtom.m_type a = DisplayAtom.BufferRange /\
   exists p a1 a2,
     Coord.lt (DisplayAtom.m_begin a) p /\ Coord.lt p (DisplayAtom.m_end a) /\
     (p = b \/ p = e) /\
     highlight_atom b e skip f a = [a1; a2] /\
     (a1 = DisplayAtom.set_end p a \/ a1 = f (DisplayAtom.set_end p a)) /\
     (a2 = DisplayAtom.set_begin p a \/ a2 = f (DisplayAtom.set_begin p a))) \/
  (DisplayAtom.m_type a = DisplayAtom.BufferRange /\
   Coord.lt (DisplayAtom.m_begin a) b /\ Coord.lt e (DisplayAtom.m_end a) /\
   highlight_atom b e skip f a
   = [DisplayAtom.set_end b a;
      f (DisplayAtom.set_end e (DisplayAtom.set_begin b a));
      DisplayAtom.set_begin e (DisplayAtom.set_begin b a)]).
Proof.
  unfold highlight_atom.
  destruct (DisplayAtom.has_buffer_range a) eqn:Hr; cbn [negb]; [|left; eauto].
  destruct (skip && DisplayAtom.is_replaced a); [left; eauto|].
  destruct (overlaps b e a) eqn:Hov; cbn [negb]; [|left; eauto].
  destruct (DisplayAtom.is_replaced a) eqn:Hrep; [left; eauto|].
  pose proof (type_of_unreplaced a Hr Hrep) as Hty.
  unfold overlaps in Hov. apply andb_true_iff in Hov. destruct Hov as [Hbe Heb].
  unfold highlight_split.
  destruct (Coord.ltb (DisplayAtom.m_begin a) b) eqn:E1.
  - cbn [DisplayAtom.set_begin DisplayAtom.m_end].
    destruct (Coord.ltb e (DisplayAtom.m_end a)) eqn:E2.
    + right. right. repeat split; try reflexivity; coord_prep; assumption.
    + right. left. split; [exact Hty|].
      exists b, (DisplayAtom.set_end b a), (f (DisplayAtom.set_begin b a)).
      coord_prep. repeat split; auto.
  - destruct (Coord.ltb e (DisplayAtom.m_end a)) eqn:E2.
    + right. left. split; [exact Hty|].
      exists e, (f (DisplayAtom.set_end e a)), (DisplayAtom.set_begin e a).
      coord_prep. repeat split; auto.
    + left. eauto.
Qed.

Lemma range_step_keeps r a : range_step r (f a) = range_step r a.
Proof.
  cbv beta. rewrite keeps_has_buffer_range.
  destruct (f_keeps a) as (_ & -> & ->). reflexivity.
Qed.

Lemma highlight_atom_range_step a r :
  fold_left range_step (highlight_atom b e skip f a) r = range_step r a.
Proof.
  destruct (highlight_atom_pieces a)
    as [(a' & -> & [-> | ->])
       | [(Hr & p & a1 & a2 & Hbp & Hpe & _ & -> & H1 & H2)
         | (Hr & Hb & He & ->)]].
  - reflexivity.
  - cbn [fold_left]. apply range_step_keeps.
  - cbn [fold_left].
    assert (range_step r a1 = range_step r (DisplayAtom.set_end p a)) as ->.
    { destruct H1 as [-> | ->]; [reflexivity | apply range_step_keeps]. }
    assert (forall r', range_step r' a2 = range_step r' (DisplayAtom.set_begin p a))
      as ->.
    { intros r'. destruct H2 as [-> | ->]; [reflexivity | apply range_step_keeps]. }
    unfold DisplayAtom.has_buffer_range.
    cbn [DisplayAtom.set_end DisplayAtom.set_begin DisplayAtom.m_type
         DisplayAtom.m_begin DisplayAtom.m_end fst snd].
    rewrite Hr. cbn [fst snd].
    rewrite min_absorb, max_absorb by coord_lia. reflexivity.
  - cbn [fold_left]. rewrite range_step_keeps.
    unfold DisplayAtom.has_buffer_range.
    cbn [DisplayAtom.set_end DisplayAtom.set_begin DisplayAtom.m_type
         DisplayAtom.m_begin DisplayAtom.m_end fst snd].
    rewrite Hr. cbn [fst snd].
    rewrite !min_absorb, !max_absorb by coord_lia. reflexivity.
Qed.

Lemma highlight_line_range line :
  DisplayLine.range (flat_map (highlight_atom b e skip f) line) = DisplayLine.range line.
Proof.
  unfold DisplayLine.range. apply range_fold_flat_map.
  intros a r. apply highlight_atom_range_step.
Qed.

(** The pieces of an atom lie within the atom. *)
Lemma highlight_atom_within a a' :
  In a' (highlight_atom b e skip f a) ->
  DisplayAtom.has_buffer_range a' = DisplayAtom.has_buffer_range a /\
  (DisplayAtom.has_buffer_range a = true ->
   Coord.le (DisplayAtom.m_begin a) (DisplayAtom.m_begin a') /\
   Coord.le (DisplayAtom.m_end a') (DisplayAtom.m_end a)).
Proof.
  assert (Hf : forall x, DisplayAtom.has_buffer_range x = DisplayAtom.has_buffer_range a ->
                 Coord.le (DisplayAtom.m_begin a) (DisplayAtom.m_begin x) ->
                 Coord.le (DisplayAtom.m_end x) (DisplayAtom.m_end a) ->
                 forall y, (y = x \/ y = f x) ->
                 DisplayAtom.has_buffer_range y = DisplayAtom.has_buffer_range a /\
                 (DisplayAtom.has_buffer_range a = true ->
                  Coord.le (DisplayAtom.m_begin a) (DisplayAtom.m_begin y) /\
                  Coord.le (DisplayAtom.m_end y) (DisplayAtom.m_end a))).
  { intros x Hx H1 H2 y [-> | ->]; [auto|].
    rewrite keeps_has_buffer_range. destruct (f_keeps x) as (_ & -> & ->). auto. }
  intros Hin.
  destruct (highlight_atom_pieces a)
    as [(a0 & Heq & Ha0)
       | [(Hr & p & a1 & a2 & Hbp & Hpe & _ & Heq & H1 & H2)
         | (Hr & Hb & He & Heq)]];
    rewrite Heq in Hin; cbn [In] in Hin.
  - destruct Hin as [<- | []].
    apply (Hf a); auto using CoordOrder.le_refl.
  - destruct Hin as [<- | [<- | []]].
    + apply (Hf (DisplayAtom.set_end p a)); auto; cbn;
        [apply CoordOrder.le_refl | coord_lia].
    + apply (Hf (DisplayAtom.set_begin p a)); auto; cbn;
        [coord_lia | apply CoordOrder.le_refl].
  - destruct Hin as [<- | [<- | [<- | []]]].
    + apply (Hf (DisplayAtom.set_end b a) eq_refl); cbn; auto;
        [apply CoordOrder.le_refl | coord_lia].
    + apply (Hf (DisplayAtom.set_end e (DisplayAtom.set_begin b a)) eq_refl); cbn; auto;
        coord_lia.
    + apply (Hf (DisplayAtom.set_begin e (DisplayAtom.set_begin b a)) eq_refl); cbn; auto;
        [coord_lia | apply CoordOrder.le_refl].
Qed.

Lemma highlight_line_contains (r : BufferRange) line :
  forallb (fun a => negb (DisplayAtom.has_buffer_range a)
                    || (Coord.leb (fst r) (DisplayAtom.m_begin a)
                        && Coord.leb (DisplayAtom.m_end a) (snd r))) line = true ->
  forallb (fun a => negb (DisplayAtom.has_buffer_range a)
                    || (Coord.leb (fst r) (DisplayAtom.m_begin a)
                        && Coord.leb (DisplayAtom.m_end a) (snd r)))
          (flat_map (highlight_atom b e skip f) line) = true.
Proof.
  rewrite !forallb_forall. intros H a' Ha'.
  apply in_flat_map in Ha'. destruct Ha' as (a & Ha & Hin).
  specialize (H a Ha). destruct (highlight_atom_within a a' Hin) as [Hr Hwithin].
  rewrite Hr. destruct (DisplayAtom.has_buffer_range a); [|reflexivity].
  cbn [negb orb] in *. apply andb_true_iff in H. destruct H as [H1 H2].
  destruct (Hwithin eq_refl) as [H3 H4].
  apply andb_true_iff. split; coord_prep.
  - eapply CoordOrder.le_trans; eassumption.
  - eapply CoordOrder.le_trans; eassumption.
Qed.

(** [highlight_range] returns the display buffer as it is or rewrites each
    line atom by atom. *)
Lemma highlight_range_lines d :
  exists lines',
    highlight_range b e skip f d
    = Some (DisplayBuffer.mk lines' (DisplayBuffer.m_range d)) /\
    (lines' = DisplayBuffer.m_lines d \/
     lines' = map (flat_map (highlight_atom b e skip f)) (DisplayBuffer.m_lines d)).
Proof.
  rewrite (highlight_range_result b e skip f b_lt_e d).
  destruct (_ || _).
  - exists (DisplayBuffer.m_lines d). destruct d. auto.
  - eexists. split; [reflexivity|]. right.
    apply map_ext. intros line. apply highlight_line_result_spec.
Qed.

End LayoutFacts.

Lemma highlight_range_layout b e skip f d :
  Coord.le b e -> keeps_range f ->
  exists d',
    highlight_range b e skip f d = Some d' /\
    DisplayBuffer.m_range d' = DisplayBuffer.m_range d /\
    map DisplayLine.range (DisplayBuffer.m_lines d')
    = map DisplayLine.range (DisplayBuffer.m_lines d) /\
    (DisplayBuffer.range_contains_atoms d = true ->
     DisplayBuffer.range_contains_atoms d' = true).
Proof.
  intros Hle Hf.
  destruct (Coord.eqb b e) eqn:Heq.
  { exists d. unfold highlight_range. rewrite Heq. auto. }
  assert (Hlt : Coord.lt b e).
  { apply CoordFacts.eqb_neq in Heq. destruct b, e. unfold Coord.le, Coord.lt in *.
    cbn in *. destruct (Z.eq_dec line0 line1), (Z.eq_dec column0 column1);
      subst; try lia; congruence. }
  destruct (highlight_range_lines b e skip f Hlt d) as (lines' & -> & [-> | ->]).
  - eexists. split; [reflexivity|]. destruct d. auto.
  - eexists. split; [reflexivity|]. cbn [DisplayBuffer.m_range DisplayBuffer.m_lines].
    split; [reflexivity|]. split.
    + rewrite map_map. apply map_ext. intros line.
      apply highlight_line_range; assumption.
    + unfold DisplayBuffer.range_contains_atoms.
      cbn [DisplayBuffer.m_range DisplayBuffer.m_lines].
      rewrite !forallb_forall. intros H line' Hline'.
      apply in_map_iff in Hline'. destruct Hline' as (line & <- & Hline).
      apply highlight_line_contains; auto.
Qed.

(** X7.  For [begin <= end] and a callback that leaves the variant and the
    coordinates of an atom alone, [highlight_range] returns, and it keeps
    the layout: the cached range, the number of lines and the range of every
    line are what they were, and a cached range that contains every atom
    still does. *)
Theorem highlight_range_keeps_layout b e skip f d :
  Coord.le b e -> keeps_range f ->
  exists d',
    highlight_range b e skip f d = Some d' /\
    DisplayBuffer.m_range d' = DisplayBuffer.m_range d /\
    length (DisplayBuffer.m_lines d') = length (DisplayBuffer.m_lines d) /\
    Forall2 (fun line line' => DisplayLine.range line' = DisplayLine.range line)
            (DisplayBuffer.m_lines d) (DisplayBuffer.m_lines d') /\
    (DisplayBuffer.range_contains_atoms d = true ->
     DisplayBuffer.range_contains_atoms d' = true).
Proof.
  intros Hle Hf.
  destruct (highlight_range_layout b e skip f d Hle Hf)
    as (d' & Hd' & Hrange & Hlines & Hcontains).
  exists d'. split; [exact Hd'|]. split; [exact Hrange|].
  assert (Hlen : length (DisplayBuffer.m_lines d') = length (DisplayBuffer.m_lines d)).
  { rewrite <- (length_map DisplayLine.range), Hlines, length_map. reflexivity. }
  split; [exact Hlen|]. split; [|exact Hcontains].
  apply Forall2_same_length_lookup. split; [symmetry; exact Hlen|].
  intros i line line' Hline Hline'.
  assert (H : map DisplayLine.range (DisplayBuffer.m_lines d') !! i
              = map DisplayLine.range (DisplayBuffer.m_lines d) !! i)
    by (rewrite Hlines; reflexivity).
  change (@map) with (@fmap list _) in H.
  rewrite !list_lookup_fmap, Hline, Hline' in H. cbn in H. congruence.
Qed.

Lemma apply_face_keeps_range face : keeps_range (apply_face face).
Proof. intros a. repeat split. Qed.

(** The theorem on the atom over the columns 0 to 10, of which the columns
    2 to 5 receive a face. *)
Lemma highlight_range_keeps_layout_witness :
  exists d',
    highlight_range (mkCoord 0 2) (mkCoord 0 5) true (apply_face Samples.yellow)
                    Samples.one_atom = Some d' /\
    DisplayBuffer.m_range d' = DisplayBuffer.m_range Samples.one_atom /\
    length (DisplayBuffer.m_lines d') = length (DisplayBuffer.m_lines Samples.one_atom) /\
    Forall2 (fun line line' => DisplayLine.range line' = DisplayLine.range line)
            (DisplayBuffer.m_lines Samples.one_atom) (DisplayBuffer.m_lines d') /\
    (DisplayBuffer.range_contains_atoms Samples.one_atom = true ->
     DisplayBuffer.range_contains_atoms d' = true).
Proof.
  apply (highlight_range_keeps_layout (mkCoord 0 2) (mkCoord 0 5) true
           (apply_face Samples.yellow) Samples.one_atom).
  - unfold Coord.le. simpl. lia.
  - apply apply_face_keeps_range.
Defined.

Section SelectionsFacts.

Lemma same_layout_refl d : same_layout d d.
Proof. repeat split; auto. Qed.

Lemma same_layout_trans d1 d2 d3 :
  same_layout d1 d2 -> same_layout d2 d3 -> same_layout d1 d3.
Proof.
  intros (H1 & H2 & H3) (H4 & H5 & H6). repeat split; [congruence.. | auto].
Qed.

Lemma highlight_range_same_layout b e skip f d :
  Coord.le b e -> keeps_range f ->
  exists d', highlight_range b e skip f d = Some d' /\ same_layout d d'.
Proof. apply highlight_range_layout. Qed.

(** A loop that calls [highlight_range] once for each element. *)
Lemma foldl_same_layout {A}
    (g : option DisplayBuffer -> A -> option DisplayBuffer) l :
  (forall x d, exists d', g (Some d) x = Some d' /\ same_layout d d') ->
  forall d, exists d', foldl g (Some d) l = Some d' /\ same_layout d d'.
Proof.
  intros Hstep. induction l as [|x l IH]; intros d.
  - exists d. split; [reflexivity | apply same_layout_refl].
  - cbn [foldl]. destruct (Hstep x d) as (d1 & -> & H1).
    destruct (IH d1) as (d' & Hd' & H2). exists d'. split; [exact Hd'|].
    eapply same_layout_trans; eassumption.
Qed.

Variable get_face : string -> Face.
Variable char_next : Buffer -> ByteCoord -> ByteCoord.
Variable context : Context.

Hypothesis char_next_after : forall c, Coord.le c (char_next (buffer context) c).
Hypothesis char_next_mono :
  forall c1 c2, Coord.le c1 c2 ->
                Coord.le (char_next (buffer context) c1) (char_next (buffer context) c2).

(** X9.  When [char_next] moves forward and keeps the order of the
    coordinates, [highlight_selections] returns, in both passes, and keeps
    the layout of the display buffer: it restyles and splits atoms, and no
    line changes its range. *)
Theorem highlight_selections_keeps_layout flags d :
  exists d',
    highlight_selections get_face char_next context flags d = Some d' /\
    same_layout d d'.
Proof.
  unfold highlight_selections. case_bool_decide.
  { exists d. split; [reflexivity | apply same_layout_refl]. }
  unfold highlight_selection_ranges, highlight_selection_cursors.
  set (sels := imap _ _).
  match goal with
  | |- exists _, (_ ← foldl ?g _ _; _) = _ /\ _ =>
      assert (Hstep : forall x d, exists d', g (Some d) x = Some d' /\ same_layout d d')
  end.
  { intros [i sel] d0. cbn [mbind option_bind]. cbv zeta.
    apply highlight_range_same_layout; [|apply apply_face_keeps_range].
    destruct (Coord.leb (anchor sel) (cursor sel)) eqn:E; coord_prep; [exact E|].
    apply char_next_mono. coord_lia. }
  destruct (foldl_same_layout _ sels Hstep d) as (d1 & Hd1 & H1).
  rewrite Hd1. cbn [mbind option_bind]. clear Hstep.
  match goal with
  | |- exists _, foldl ?g _ _ = _ /\ _ =>
      assert (Hstep : forall x d, exists d', g (Some d) x = Some d' /\ same_layout d d')
  end.
  { intros [i sel] d0. cbn [mbind option_bind]. cbv zeta.
    apply highlight_range_same_layout;
      [apply char_next_after | apply apply_face_keeps_range]. }
  destruct (foldl_same_layout _ sels Hstep d1) as (d2 & Hd2 & H2).
  exists d2. split; [exact Hd2 | eapply same_layout_trans; eassumption].
Qed.

End SelectionsFacts.

(** * The content of atoms *)

Section ContentFacts.

Lemma substring_split (s : string) : forall n m1 m2,
  String.substring n (m1 + m2) s
  = (String.substring n m1 s ++ String.substring (n + m1) m2 s)%string.
Proof.
  induction s as [|c s IH]; intros n m1 m2.
  - destruct n, m1, m2; reflexivity.
  - destruct n as [|n].
    + destruct m1 as [|m1].
      * reflexivity.
      * cbn [Nat.add String.substring].
        change ((String c (String.substring 0 m1 s) ++ String.substring (S m1) m2 s)%string)
          with (String c (String.substring 0 m1 s ++ String.substring m1 m2 s)%string).
        rewrite (IH 0%nat m1 m2). reflexivity.
    + cbn [Nat.add String.substring]. apply IH.
Qed.

Variable buffer : Buffer.
Hypothesis fit : lines_fit buffer.

Lemma buffer_line_fits n l :
  buffer_line buffer n = Some l -> Z.of_nat (String.length l) <= INT_MAX.
Proof.
  unfold buffer_line. destruct (0 <=? n); [|discriminate]. intros H.
  unfold lines_fit in fit. rewrite Forall_forall in fit. apply fit.
  eapply list_elem_of_lookup_2. exact H.
Qed.

(** Splitting an atom at a position on its line parts its content in
    two. *)
Lemma content_split a pos s :
  DisplayAtom.m_type a = DisplayAtom.BufferRange ->
  Coord.lt (DisplayAtom.m_begin a) pos -> Coord.lt pos (DisplayAtom.m_end a) ->
  on_line buffer pos ->
  content buffer a = Some s ->
  exists s1 s2,
    content buffer (DisplayAtom.set_end pos a) = Some s1 /\
    content buffer (DisplayAtom.set_begin pos a) = Some s2 /\
    s = (s1 ++ s2)%string.
Proof.
  intros Hty Hb He [Hcol Hlen] Hs. unfold content in *.
  cbn [DisplayAtom.set_end DisplayAtom.set_begin DisplayAtom.m_type
       DisplayAtom.m_begin DisplayAtom.m_end].
  rewrite Hty in *. cbv zeta in *.
  destruct (DisplayAtom.m_begin a) as [bl bc], (DisplayAtom.m_end a) as [el ec],
    pos as [pl pc].
  unfold Coord.lt in Hb, He. cbn [Coord.line Coord.column] in *.
  destruct (buffer_line buffer bl) as [l|] eqn:Hl; [|discriminate].
  cbn [mbind option_bind] in *.
  pose proof (buffer_line_fits bl l Hl) as Hfit.
  assert (Hpl : pl = bl).
  { destruct (Z.eqb_spec bl el); [lia|].
    destruct ((bl + 1 =? el) && (ec =? 0)) eqn:E; [|discriminate].
    apply andb_true_iff in E. lia. }
  subst pl. rewrite Z.eqb_refl, Hl. cbn [mbind option_bind].
  specialize (Hlen l Hl). unfold INT_MAX in *.
  unfold StringView.substr in *. unfold INT_MAX in *.
  assert (Hbc : bc < pc) by lia.
  destruct (Z.eqb_spec bl el) as [<- | Hne].
  - assert (Hec : pc < ec) by lia.
    destruct (Z.ltb_spec (ec - bc) 0); [lia|].
    destruct (Z.ltb_spec (pc - bc) 0); [lia|].
    destruct (Z.ltb_spec (ec - pc) 0); [lia|].
    destruct (Z.leb_spec 0 bc); cbn [andb] in *; [|discriminate].
    destruct (Z.leb_spec 0 (Z.min (Z.of_nat (String.length l) - bc) (ec - bc)));
      [|discriminate].
    injection Hs as <-.
    destruct (Z.leb_spec 0 (Z.min (Z.of_nat (String.length l) - bc) (pc - bc))); [|lia].
    destruct (Z.leb_spec 0 pc); [|lia].
    destruct (Z.leb_spec 0 (Z.min (Z.of_nat (String.length l) - pc) (ec - pc))); [|lia].
    cbn [andb]. do 2 eexists. split; [reflexivity|]. split; [reflexivity|].
    replace (Z.to_nat (Z.min (Z.of_nat (String.length l) - bc) (ec - bc)))
      with (Z.to_nat (Z.min (Z.of_nat (String.length l) - bc) (pc - bc))
            + Z.to_nat (Z.min (Z.of_nat (String.length l) - pc) (ec - pc)))%nat by lia.
    rewrite substring_split. f_equal. f_equal. lia.
  - destruct ((bl + 1 =? el) && (ec =? 0)) eqn:E; [|discriminate].
    change (2147483647 <? 0) with false in *. cbv iota in *.
    destruct (Z.ltb_spec (pc - bc) 0); [lia|].
    destruct (Z.leb_spec 0 bc); cbn [andb] in *; [|discriminate].
    destruct (Z.leb_spec 0 (Z.min (Z.of_nat (String.length l) - bc) 2147483647));
      [|discriminate].
    injection Hs as <-.
    destruct (Z.leb_spec 0 (Z.min (Z.of_nat (String.length l) - bc) (pc - bc))); [|lia].
    destruct (Z.leb_spec 0 pc); [|lia].
    destruct (Z.leb_spec 0 (Z.min (Z.of_nat (String.length l) - pc) 2147483647)); [|lia].
    cbn [andb]. do 2 eexists. split; [reflexivity|]. split; [reflexivity|].
    replace (Z.to_nat (Z.min (Z.of_nat (String.length l) - bc) 2147483647))
      with (Z.to_nat (Z.min (Z.of_nat (String.length l) - bc) (pc - bc))
            + Z.to_nat (Z.min (Z.of_nat (String.length l) - pc) 2147483647))%nat by lia.
    rewrite substring_split. f_equal. f_equal. lia.
Qed.

End ContentFacts.

Section TextFacts.

Variable buffer : Buffer.
Hypothesis fit : lines_fit buffer.

Variables (b e : ByteCoord) (skip : bool) (f : DisplayAtom -> DisplayAtom).
Hypothesis b_lt_e : Coord.lt b e.
Hypothesis b_on_line : on_line buffer b.
Hypothesis e_on_line : on_line buffer e.
Hypothesis f_keeps : keeps_range f.
Hypothesis f_keeps_text : keeps_text f.

Lemma content_keeps a : content buffer (f a) = content buffer a.
Proof.
  unfold content. destruct (f_keeps a) as (-> & -> & ->).
  rewrite (f_keeps_text a). reflexivity.
Qed.

Lemma line_text_app l1 l2 :
  line_text buffer (l1 ++ l2)
  = s1 ← line_text buffer l1; s2 ← line_text buffer l2; Some (s1 ++ s2)%string.
Proof.
  induction l1 as [|a l1 IH].
  - cbn [app]. change (line_text buffer []) with (Some EmptyString).
    cbn [mbind option_bind]. destruct (line_text buffer l2); reflexivity.
  - cbn [app line_text foldr]. fold (line_text buffer (l1 ++ l2)).
    fold (line_text buffer l1). rewrite IH.
    destruct (content buffer a) as [s|]; [|reflexivity]. cbn [mbind option_bind].
    destruct (line_text buffer l1) as [s1|]; [|reflexivity]. cbn [mbind option_bind].
    destruct (line_text buffer l2) as [s2|]; [|reflexivity]. cbn [mbind option_bind].
    rewrite string_app_assoc. reflexivity.
Qed.

Lemma line_text_one a : line_text buffer [a] = content buffer a.
Proof.
  cbn. destruct (content buffer a) as [s|]; [|reflexivity].
  cbn. rewrite string_app_nil_r. reflexivity.
Qed.

Lemma line_text_cons a l :
  line_text buffer (a :: l)
  = s ← content buffer a; t ← line_text buffer l; Some (s ++ t)%string.
Proof. reflexivity. Qed.

Lemma content_either a x :
  x = a \/ x = f a -> content buffer x = content buffer a.
Proof. intros [-> | ->]; [reflexivity | apply content_keeps]. Qed.

(** The pieces of an atom show what the atom shows. *)
Lemma highlight_atom_text a s :
  content buffer a = Some s ->
  line_text buffer (highlight_atom b e skip f a) = Some s.
Proof.
  intros Hs.
  destruct (highlight_atom_pieces b e skip f a)
    as [(a' & -> & Ha')
       | [(Hty & p & a1 & a2 & Hbp & Hpe & Hp & -> & H1 & H2)
         | (Hty & Hb & He & ->)]].
  - rewrite line_text_one, (content_either a a' Ha'). exact Hs.
  - assert (Hon : on_line buffer p) by (destruct Hp as [-> | ->]; assumption).
    destruct (content_split buffer fit a p s Hty Hbp Hpe Hon Hs)
      as (s1 & s2 & Hs1 & Hs2 & ->).
    rewrite line_text_cons, line_text_one.
    rewrite (content_either _ a1 H1), (content_either _ a2 H2), Hs1, Hs2.
    reflexivity.
  - destruct (content_split buffer fit a b s Hty Hb
                ltac:(coord_lia) b_on_line Hs)
      as (s1 & s23 & Hs1 & Hs23 & ->).
    destruct (content_split buffer fit (DisplayAtom.set_begin b a) e s23 Hty
                b_lt_e He e_on_line Hs23)
      as (s2 & s3 & Hs2 & Hs3 & ->).
    rewrite (line_text_cons (DisplayAtom.set_end b a)), (line_text_cons (f _)),
      line_text_one, content_keeps, Hs1, Hs2, Hs3.
    reflexivity.
Qed.

Lemma highlight_line_text line :
  is_Some (line_text buffer line) ->
  line_text buffer (flat_map (highlight_atom b e skip f) line)
  = line_text buffer line.
Proof.
  induction line as [|a line IH]; intros [t Ht]; [reflexivity|].
  cbn [flat_map]. rewrite line_text_app. rewrite line_text_cons in Ht |- *.
  destruct (content buffer a) as [s|] eqn:Hs; [|discriminate].
  rewrite (highlight_atom_text a s Hs). cbn [mbind option_bind] in *.
  destruct (line_text buffer line) as [t'|] eqn:Ht'; [|discriminate].
  rewrite IH by eauto. reflexivity.
Qed.

End TextFacts.

Lemma coord_le_cases (b e : ByteCoord) : Coord.le b e -> b = e \/ Coord.lt b e.
Proof.
  destruct b as [bl bc], e as [el ec]. unfold Coord.le, Coord.lt. cbn.
  intros H. destruct (Z.eq_dec bl el), (Z.eq_dec bc ec); subst; auto; right; lia.
Qed.

Lemma highlight_range_same_text buffer b e skip f d :
  lines_fit buffer -> Coord.le b e -> on_line buffer b -> on_line buffer e ->
  keeps_range f -> keeps_text f -> has_text buffer d ->
  exists d',
    highlight_range b e skip f d = Some d' /\
    same_layout d d' /\ same_text buffer d d' /\ has_text buffer d'.
Proof.
  intros Hfit Hle Hb He Hf Hft Htext.
  destruct (highlight_range_layout b e skip f d Hle Hf) as (d' & Hd' & Hlayout).
  exists d'. split; [exact Hd'|]. split; [exact Hlayout|].
  assert (Hsame : same_text buffer d d').
  { destruct (coord_le_cases b e Hle) as [-> | Hlt].
    - unfold highlight_range in Hd'.
      assert (Coord.eqb e e = true) as E by (apply CoordFacts.eqb_eq; reflexivity).
      rewrite E in Hd'. cbn in Hd'. injection Hd' as <-. reflexivity.
    - destruct (highlight_range_lines b e skip f Hlt d) as (lines' & Heq & [-> | ->]);
        rewrite Heq in Hd'; injection Hd' as <-; [reflexivity|].
      unfold same_text. cbn [DisplayBuffer.m_lines]. rewrite map_map.
      apply map_ext_in. intros line Hline.
      apply highlight_line_text; auto.
      unfold has_text in Htext. rewrite Forall_forall in Htext.
      apply Htext, list_elem_of_In. exact Hline. }
  split; [exact Hsame|].
  unfold has_text, same_text in *.
  apply Forall_forall. intros line' Hline'.
  apply list_elem_of_In in Hline'.
  assert (Hin : In (line_text buffer line')
                   (map (line_text buffer) (DisplayBuffer.m_lines d')))
    by (apply in_map; exact Hline').
  rewrite Hsame in Hin. apply in_map_iff in Hin. destruct Hin as (line & Heq & Hline).
  rewrite <- Heq. rewrite Forall_forall in Htext.
  apply Htext, list_elem_of_In. exact Hline.
Qed.

(** X8.  Highlighting does not change the text: for [begin <= end] on
    their lines and a callback that leaves variant, coordinates and text of
    an atom alone, every line of the display buffer that [highlight_range]
    returns shows the text it showed before, whatever atoms were split. *)
Theorem highlight_range_keeps_text buffer b e skip f d :
  lines_fit buffer -> Coord.le b e -> on_line buffer b -> on_line buffer e ->
  keeps_range f -> keeps_text f -> has_text buffer d ->
  exists d',
    highlight_range b e skip f d = Some d' /\
    Forall2 (fun line line' =>
               is_Some (line_text buffer line) /\
               line_text buffer line' = line_text buffer line)
            (DisplayBuffer.m_lines d) (DisplayBuffer.m_lines d').
Proof.
  intros Hfit Hle Hb He Hf Hft Htext.
  destruct (highlight_range_same_text buffer b e skip f d Hfit Hle Hb He Hf Hft Htext)
    as (d' & Hd' & _ & Hsame & _).
  exists d'. split; [exact Hd'|].
  unfold same_text, has_text in *.
  assert (Hlen : length (DisplayBuffer.m_lines d) = length (DisplayBuffer.m_lines d')).
  { rewrite <- (length_map (line_text buffer)), <- Hsame, length_map. reflexivity. }
  apply Forall2_same_length_lookup. split; [exact Hlen|].
  intros i line line' Hline Hline'. split.
  - rewrite Forall_forall in Htext. apply Htext.
    eapply list_elem_of_lookup_2. exact Hline.
  - assert (H : map (line_text buffer) (DisplayBuffer.m_lines d') !! i
                = map (line_text buffer) (DisplayBuffer.m_lines d) !! i)
      by (rewrite Hsame; reflexivity).
    change (@map) with (@fmap list _) in H.
    rewrite !list_lookup_fmap, Hline, Hline' in H. cbn in H. congruence.
Qed.

Lemma apply_face_keeps_text face : keeps_text (apply_face face).
Proof. intros a. reflexivity. Qed.

(** The theorem on the line of ten digits, of which the columns 2 to 5
    receive a face: the three atoms show the ten digits. *)
Lemma highlight_range_keeps_text_witness :
  exists d',
    highlight_range (mkCoord 0 2) (mkCoord 0 5) true (apply_face Samples.yellow)
                    Samples.one_atom = Some d' /\
    Forall2 (fun line line' =>
               is_Some (line_text Scenes.digits line) /\
               line_text Scenes.digits line' = line_text Scenes.digits line)
            (DisplayBuffer.m_lines Samples.one_atom) (DisplayBuffer.m_lines d').
Proof.
  apply (highlight_range_keeps_text Scenes.digits (mkCoord 0 2) (mkCoord 0 5) true
           (apply_face Samples.yellow) Samples.one_atom).
  - repeat constructor. vm_compute. discriminate.
  - unfold Coord.le. simpl. lia.
  - split; [simpl; lia|]. intros l [= <-]. vm_compute. discriminate.
  - split; [simpl; lia|]. intros l [= <-]. vm_compute. discriminate.
  - apply apply_face_keeps_range.
  - apply apply_face_keeps_text.
  - repeat constructor. vm_compute. eauto.
Defined.

(** The theorem on a selection that runs backwards, with the next byte as
    next character. *)
Lemma highlight_selections_keeps_layout_witness :
  exists d',
    highlight_selections Samples.faces Scenes.next_byte Scenes.backward_selection
                         Highlight Samples.one_atom = Some d' /\
    same_layout Samples.one_atom d'.
Proof.
  apply (highlight_selections_keeps_layout Samples.faces Scenes.next_byte
           Scenes.backward_selection).
  - intros c. unfold Coord.le, Scenes.next_byte. simpl. lia.
  - intros c1 c2. unfold Coord.le, Scenes.next_byte. simpl. lia.
Defined.

Section FlagLinesFacts.

Variable char_length : string -> Z.

Lemma flags_width_from (lines : list LineAndFlag) : forall width0,
  let width := foldl (fun width l => Z.max width (char_length (snd l))) width0 lines in
  width0 <= width /\ Forall (fun l => char_length (snd l) <= width) lines.
Proof.
  induction lines as [|l lines IH]; intros width0; cbn [foldl].
  - split; [lia | constructor].
  - destruct (IH (Z.max width0 (char_length (snd l)))) as [H1 H2]. cbv zeta in *.
    split; [lia|]. constructor; [lia | exact H2].
Qed.

Hypothesis char_length_empty : char_length EmptyString = 0.
Hypothesis char_length_spaces :
  forall s n, char_length (s ++ spaces n)%string = char_length s + Z.of_nat n.

(** X10.  The [flag_lines] highlighter puts one text atom in front of every
    display line and leaves the rest of the line alone; all these atoms have
    the same number of characters, the width of the widest flag, and the
    background colour of the highlighter, so the text behind them stays
    aligned. *)
Theorem flag_lines_gutter background option_name context flags d :
  let width := flags_width char_length (line_flags_option context option_name) in
  let d' := flag_lines char_length background option_name context flags d in
  DisplayBuffer.m_range d' = DisplayBuffer.m_range d /\
  Forall2 (fun line line' =>
             exists text face,
               line' = DisplayAtom.text text face :: line /\
               char_length text = width /\
               bg face = background)
          (DisplayBuffer.m_lines d) (DisplayBuffer.m_lines d').
Proof.
  cbv zeta. split; [reflexivity|].
  unfold flag_lines. cbn [DisplayBuffer.m_lines].
  destruct (flags_width_from (line_flags_option context option_name) 0) as [Hpos Hle].
  cbv zeta in Hpos, Hle. fold (flags_width char_length (line_flags_option context option_name))
    in Hpos, Hle |- *.
  set (width := flags_width char_length (line_flags_option context option_name)) in *.
  induction (DisplayBuffer.m_lines d) as [|line lines IH]; cbn [map]; constructor;
    [|exact IH].
  do 2 eexists. split; [reflexivity|]. split; [|reflexivity].
  destruct (List.find _ _) as [l|] eqn:Hfind.
  - apply find_some in Hfind. destruct Hfind as [Hin _].
    rewrite Forall_forall in Hle. specialize (Hle l (proj2 (list_elem_of_In _ _) Hin)).
    rewrite char_length_spaces. lia.
  - assert (Hempty : char_length (spaces (Z.to_nat width)) = width).
    { change (spaces (Z.to_nat width)) with ("" ++ spaces (Z.to_nat width))%string.
      rewrite char_length_spaces, char_length_empty. lia. }
    rewrite char_length_spaces, Hempty. lia.
Qed.

End FlagLinesFacts.

(** The theorem on the lines 0, 5 and 11 of a buffer whose lines 1 and 6
    are flagged: the three atoms are two characters wide. *)
Lemma flag_lines_gutter_witness :
  let d' := flag_lines Scenes.byte_length Black "flags" Scenes.flagged Highlight
                       Samples.viewport_0_5_11 in
  DisplayBuffer.m_range d' = DisplayBuffer.m_range Samples.viewport_0_5_11 /\
  Forall2 (fun line line' =>
             exists text face,
               line' = DisplayAtom.text text face :: line /\
               Scenes.byte_length text = 2 /\
               bg face = Black)
          (DisplayBuffer.m_lines Samples.viewport_0_5_11) (DisplayBuffer.m_lines d').
Proof.
  apply (flag_lines_gutter Scenes.byte_length).
  - reflexivity.
  - intros s n. unfold Scenes.byte_length.
    rewrite string_app_length, spaces_length. lia.
Defined.

(** * Further properties of the match lists and of the regions *)

Section ScanFacts.

Variable regex_iterator : Regex -> string -> list (Z * Z).
Hypothesis in_order : forall regex l, left_to_right (regex_iterator regex l) = true.

Lemma left_to_right_well_formed regex l :
  Forall (fun be => fst be <= snd be) (regex_iterator regex l).
Proof.
  pose proof (in_order regex l) as H.
  induction (regex_iterator regex l) as [|x ms IH]; [constructor|].
  cbn [left_to_right] in H. apply andb_true_iff in H. destruct H as [H H3].
  apply andb_true_iff in H. destruct H as [H1 H2].
  constructor; [lia | apply IH; exact H3].
Qed.

Lemma left_to_right_sorted ts regex line l :
  sorted_by_begin (line_matches regex_iterator ts regex line l) = true.
Proof.
  unfold line_matches. pose proof (in_order regex l) as H.
  induction (regex_iterator regex l) as [|x ms IH]; [reflexivity|].
  cbn [left_to_right] in H. apply andb_true_iff in H. destruct H as [H H3].
  apply andb_true_iff in H. destruct H as [H1 H2].
  cbn [map sorted_by_begin]. rewrite (IH H3), andb_true_r.
  destruct ms as [|y ms]; [reflexivity|]. cbn [map].
  apply CoordFacts.leb_le. unfold Coord.le. cbn. lia.
Qed.

Lemma scan_lines_timestamp ts regex o ls :
  Forall (fun m => RegexMatch.timestamp m = ts)
         (scan_lines regex_iterator ts regex o ls).
Proof.
  clear in_order.
  revert o. induction ls as [|l ls IH]; intros o; [constructor|].
  cbn [scan_lines]. apply Forall_app. split; [|apply IH].
  unfold line_matches. apply List.Forall_map, Forall_forall. reflexivity.
Qed.

(** X11.  When the regex engine enumerates the matches of a line from left
    to right, the list that [find_matches] builds is sorted by line and
    begin, every match ends where it begins or later, carries the timestamp
    of the buffer and lies on a line of the buffer. *)
Theorem find_matches_sorted buffer regex :
  let ms := find_matches regex_iterator buffer [] regex in
  sorted_by_begin ms = true /\
  well_formed_matches ms = true /\
  Forall (fun m => RegexMatch.timestamp m = timestamp buffer /\
                   0 <= RegexMatch.line m < line_count buffer) ms.
Proof.
  cbv zeta. unfold find_matches. cbn [app]. split; [|split].
  - apply scan_lines_sorted. apply left_to_right_sorted.
  - apply scan_lines_well_formed. apply left_to_right_well_formed.
  - pose proof (scan_lines_timestamp (timestamp buffer) regex 0 (lines buffer)) as Hts.
    pose proof (scan_lines_bounds regex_iterator regex (timestamp buffer) 0
                  (lines buffer)) as Hb.
    rewrite Forall_forall in *. intros m Hm.
    specialize (Hts m Hm). specialize (Hb m Hm). unfold line_count.
    split; [exact Hts | lia].
Qed.

End ScanFacts.

Lemma char_positions_in_order c l : forall i,
  left_to_right (Samples.char_positions c l i) = true /\
  Forall (fun be => i <= fst be) (Samples.char_positions c l i).
Proof.
  induction l as [|d l IH]; intros i; [split; [reflexivity | constructor]|].
  cbn [Samples.char_positions]. destruct (IH (i + 1)) as [IH1 IH2].
  destruct (Ascii.eqb c d); cbn [app].
  - split.
    + cbn [left_to_right fst snd]. rewrite IH1, andb_true_r.
      apply andb_true_iff. split; [lia|].
      destruct (Samples.char_positions c l (i + 1)) as [|y ms]; [reflexivity|].
      inversion IH2; subst. lia.
    + constructor; [cbn; lia|]. eapply Forall_impl; [exact IH2|].
      cbn beta. intros; lia.
  - split; [exact IH1|]. eapply Forall_impl; [exact IH2|]. cbn beta. intros; lia.
Qed.

Lemma literal_iterator_in_order regex l :
  left_to_right (Samples.literal_iterator regex l) = true.
Proof.
  unfold Samples.literal_iterator.
  destruct regex as [|[|c [|? ?]]]; try reflexivity.
  apply char_positions_in_order.
Qed.

(** The theorem on the buffer of twelve lines with an x on the lines 2, 5
    and 9. *)
Lemma find_matches_sorted_witness :
  let ms := find_matches Samples.literal_iterator Samples.old_buffer [] (Compiled "x") in
  sorted_by_begin ms = true /\
  well_formed_matches ms = true /\
  Forall (fun m => RegexMatch.timestamp m = timestamp Samples.old_buffer /\
                   0 <= RegexMatch.line m < line_count Samples.old_buffer) ms.
Proof.
  apply (find_matches_sorted Samples.literal_iterator).
  apply literal_iterator_in_order.
Defined.

Section IncrementalCache.

Variable regex_iterator : Regex -> string -> list (Z * Z).

(** The incremental update of one match list gives the list of a full
    scan. *)
Lemma update_matches_full_scan regex old new modifs :
  describes old new modifs = true ->
  update_matches regex_iterator new modifs
                 (find_matches regex_iterator old [] regex) regex
  = Some (find_matches regex_iterator new [] regex).
Proof.
  intros Hd. unfold describes in Hd.
  destruct (update_matches_from regex_iterator regex new (timestamp old)
              modifs [] 0 0 (lines old) (lines new) Hd)
    as (found & Hfound & Hmerge & _ & _);
    [lia | lia | reflexivity | unfold line_count; lia | constructor | reflexivity |].
  unfold update_matches, find_matches. cbn [app].
  rewrite Hfound. cbn [mbind option_bind]. f_equal. exact Hmerge.
Qed.

Lemma RegionDesc_update_full_scan desc old new modifs :
  describes old new modifs = true ->
  RegionDesc_update_matches regex_iterator desc new modifs
    (RegionDesc_find_matches regex_iterator desc old)
  = Some (RegionDesc_find_matches regex_iterator desc new).
Proof.
  intros Hd. unfold RegionDesc_update_matches, RegionDesc_find_matches.
  cbn [RegionMatches.begin_matches RegionMatches.end_matches
       RegionMatches.recurse_matches].
  rewrite !update_matches_full_scan by exact Hd. cbn [mbind option_bind].
  destruct (negb (Regex_empty (m_recurse desc))).
  - rewrite update_matches_full_scan by exact Hd. reflexivity.
  - reflexivity.
Qed.

Lemma update_all_full_scan regions old new modifs :
  describes old new modifs = true ->
  update_all_matches regex_iterator regions new modifs
    (map (fun region => RegionDesc_find_matches regex_iterator (snd region) old) regions)
  = Some (map (fun region => RegionDesc_find_matches regex_iterator (snd region) new)
              regions).
Proof.
  intros Hd. induction regions as [|region regions IH]; [reflexivity|].
  cbn [map update_all_matches].
  rewrite RegionDesc_update_full_scan by exact Hd. cbn [mbind option_bind].
  rewrite IH. reflexivity.
Qed.

Lemma update_cache_ifn_same h old new old_end new_end modifs cache :
  describes old new modifs = true ->
  timestamp new <> 0 ->
  timestamp new <> timestamp old ->
  update_cache_ifn regex_iterator h old old_end []
                   (RegionsHighlighter.mkCache 0 [] []) = Some cache ->
  update_cache_ifn regex_iterator h new new_end modifs cache
  = update_cache_ifn regex_iterator h new new_end []
                     (RegionsHighlighter.mkCache 0 [] []).
Proof.
  intros Hd Hnew Hmoved Hfirst.
  unfold update_cache_ifn in Hfirst |- *.
  cbn [RegionsHighlighter.timestamp RegionsHighlighter.matches] in *.
  destruct (Z.eqb_spec 0 (timestamp new)) as [E|_]; [congruence|].
  change (0 =? 0) with true in *. cbv iota in *.
  destruct (Z.eqb_spec 0 (timestamp old)) as [Hold|Hold].
  - injection Hfirst as <-.
    cbn [RegionsHighlighter.timestamp RegionsHighlighter.matches].
    destruct (Z.eqb_spec 0 (timestamp new)); [congruence|].
    change (0 =? 0) with true. reflexivity.
  - cbn [mbind option_bind] in Hfirst.
    destruct (RegionsHighlighter.resolve_regions _ _ old_end) as [regions|];
      [|discriminate].
    cbn [mbind option_bind] in Hfirst. injection Hfirst as <-.
    cbn [RegionsHighlighter.timestamp RegionsHighlighter.matches].
    destruct (Z.eqb_spec (timestamp old) (timestamp new)); [congruence|].
    destruct (Z.eqb_spec (timestamp old) 0); [congruence|].
    rewrite update_all_full_scan by exact Hd. reflexivity.
Qed.


Hypothesis in_order : forall regex l, left_to_right (regex_iterator regex l) = true.

(** X12.  The cache of the regions highlighter that is updated
    incrementally is the cache that a first scan builds.  For a highlighter
    with a region and a regex engine that enumerates matches from left to
    right: when the line modifications describe how the buffer changed and
    the timestamp moved on, [update_cache_ifn] returns on the cache it built
    for the old buffer, and what it returns is what it returns on an empty
    cache, the matches of every region in the new buffer and the regions
    resolved from them, under the new timestamp. *)
Theorem update_cache_ifn_incremental h old new old_end new_end modifs :
  RegionsHighlighter.m_regions h <> [] ->
  describes old new modifs = true ->
  timestamp new <> 0 ->
  timestamp new <> timestamp old ->
  exists cache cache',
    update_cache_ifn regex_iterator h old old_end []
                     (RegionsHighlighter.mkCache 0 [] []) = Some cache /\
    update_cache_ifn regex_iterator h new new_end modifs cache = Some cache' /\
    update_cache_ifn regex_iterator h new new_end []
                     (RegionsHighlighter.mkCache 0 [] []) = Some cache' /\
    RegionsHighlighter.timestamp cache' = timestamp new /\
    RegionsHighlighter.matches cache'
    = map (fun region => RegionDesc_find_matches regex_iterator (snd region) new)
          (RegionsHighlighter.m_regions h).
Proof.
  intros Hne Hd Hnew Hmoved.
  destruct (update_cache_ifn_first_scan regex_iterator
              (left_to_right_well_formed regex_iterator in_order)
              (left_to_right_sorted regex_iterator in_order)
              h old old_end [] Hne) as [cache Hcache].
  destruct (update_cache_ifn_first_scan regex_iterator
              (left_to_right_well_formed regex_iterator in_order)
              (left_to_right_sorted regex_iterator in_order)
              h new new_end [] Hne) as [cache' Hcache'].
  exists cache, cache'. split; [exact Hcache|]. split; [|split; [exact Hcache'|]].
  - rewrite (update_cache_ifn_same h old new old_end new_end modifs cache Hd Hnew
               Hmoved Hcache). exact Hcache'.
  - unfold update_cache_ifn in Hcache'.
    cbn [RegionsHighlighter.timestamp RegionsHighlighter.matches] in Hcache'.
    destruct (Z.eqb_spec 0 (timestamp new)); [congruence|].
    change (0 =? 0) with true in Hcache'. cbv iota in Hcache'.
    cbn [mbind option_bind] in Hcache'.
    destruct (RegionsHighlighter.resolve_regions _ _ new_end) as [regions|];
      [|discriminate].
    cbn [mbind option_bind] in Hcache'. injection Hcache' as <-. split; reflexivity.
Qed.

End IncrementalCache.

Section ClosestBegin.

Import RegionMatches.

Lemma lower_bound_before {A} (comp : A -> bool) (l : list A) : forall i x,
  (i < lower_bound comp l)%nat -> l !! i = Some x -> comp x = true.
Proof.
  induction l as [|y l IH]; intros i x Hi Hx; [cbn in Hi; lia|].
  cbn [lower_bound] in Hi. destruct (comp y) eqn:Hy; [|lia].
  destruct i as [|i]; [cbn in Hx; congruence|].
  apply (IH i); [lia | exact Hx].
Qed.

(** What the binary search of one region finds. *)
Lemma find_next_begin_region m pos :
  sorted_by_begin (begin_matches m) = true ->
  match begin_matches m !! find_next_begin m pos with
  | Some b =>
      Coord.le pos (RegexMatch.begin_coord b) /\
      forall x, In x (begin_matches m) ->
                Coord.le pos (RegexMatch.begin_coord x) ->
                Coord.le (RegexMatch.begin_coord b) (RegexMatch.begin_coord x)
  | None =>
      forall x, In x (begin_matches m) -> Coord.lt (RegexMatch.begin_coord x) pos
  end.
Proof.
  intros Hsorted. unfold find_next_begin.
  set (k := lower_bound (compare_to_begin pos) (begin_matches m)).
  assert (Hbefore : forall i x, (i < k)%nat -> begin_matches m !! i = Some x ->
                                Coord.lt (RegexMatch.begin_coord x) pos).
  { intros i x Hi Hx.
    pose proof (lower_bound_before _ _ i x Hi Hx) as H.
    unfold compare_to_begin in H. coord_lia. }
  destruct (begin_matches m !! k) as [b|] eqn:Hb.
  - pose proof (lower_bound_lookup _ _ _ Hb) as Hge. unfold compare_to_begin in Hge.
    split; [coord_lia|]. intros x Hx Hpos.
    apply list_elem_of_In, list_elem_of_lookup in Hx. destruct Hx as [i Hi].
    destruct (Nat.lt_ge_cases i k) as [Hlt | Hge'].
    + specialize (Hbefore i x Hlt Hi). coord_lia.
    + eapply sorted_by_begin_lookup; eauto.
  - intros x Hx. apply list_elem_of_In, list_elem_of_lookup in Hx. destruct Hx as [i Hi].
    apply (Hbefore i x); [|exact Hi].
    apply lookup_ge_None in Hb. apply lookup_lt_Some in Hi. lia.
Qed.

Variable cache : list RegionMatches.
Hypothesis sorted_begins :
  Forall (fun m => sorted_by_begin (begin_matches m) = true) cache.

Lemma find_next_begin_from_closest pos rest : forall i res,
  rest = drop i cache ->
  (fst res < i)%nat ->
  closest_begin cache pos i res ->
  closest_begin cache pos (i + length rest)
    (RegionsHighlighter.find_next_begin_from cache pos i rest res) /\
  (fst (RegionsHighlighter.find_next_begin_from cache pos i rest res)
   < i + length rest)%nat.
Proof.
  induction rest as [|matches rest IH]; intros i res Hrest Hi Hres.
  { cbn. rewrite Nat.add_0_r. auto. }
  cbn [RegionsHighlighter.find_next_begin_from length].
  assert (Hm : cache !! i = Some matches).
  { rewrite <- (Nat.add_0_r i), <- lookup_drop, <- Hrest. reflexivity. }
  replace (i + S (length rest))%nat with (S i + length rest)%nat by lia.
  assert (Hsorted : sorted_by_begin (begin_matches matches) = true).
  { rewrite Forall_forall in sorted_begins. apply sorted_begins.
    eapply list_elem_of_lookup_2. exact Hm. }
  pose proof (find_next_begin_region matches pos Hsorted) as Hregion.
  assert (Hstep : forall res',
            (fst res' < S i)%nat -> closest_begin cache pos (S i) res' ->
            closest_begin cache pos (S i + length rest)
              (RegionsHighlighter.find_next_begin_from cache pos (S i) rest res') /\
            (fst (RegionsHighlighter.find_next_begin_from cache pos (S i) rest res')
             < S i + length rest)%nat).
  { intros res' Hlt' Hres'. apply IH; [|exact Hlt'|exact Hres'].
    apply (f_equal (drop 1)) in Hrest. cbn in Hrest. rewrite drop_0 in Hrest.
    rewrite Hrest, drop_drop. f_equal. lia. }
  destruct (begin_matches matches !! find_next_begin matches pos) as [b0|] eqn:Hb0.
  - destruct Hregion as [Hpos0 Hmin0].
    assert (Hcand_at : begin_at cache (i, find_next_begin matches pos) = Some b0).
    { unfold begin_at. cbn [fst snd]. rewrite Hm. exact Hb0. }
    unfold closest_begin in Hres.
    fold (begin_at cache res). destruct (begin_at cache res) as [cur|] eqn:Hcur.
    + destruct Hres as [Hposc Hminc].
      destruct (Coord.ltb (RegexMatch.begin_coord b0) (RegexMatch.begin_coord cur)) eqn:E.
      * apply Hstep; [cbn; lia|]. unfold closest_begin. rewrite Hcand_at.
        split; [exact Hpos0|]. intros j m x Hj Hjm Hx Hposx.
        destruct (Nat.eq_dec j i) as [-> | Hne].
        -- assert (m = matches) as -> by congruence.
           split; [apply Hmin0; assumption | intros _; cbn; lia].
        -- destruct (Hminc j m x ltac:(lia) Hjm Hx Hposx) as [Hle _].
           split; [coord_lia|]. intros Heq. exfalso. rewrite Heq in Hle. coord_lia.
      * apply Hstep; [lia|]. unfold closest_begin. rewrite Hcur.
        split; [exact Hposc|]. intros j m x Hj Hjm Hx Hposx.
        destruct (Nat.eq_dec j i) as [-> | Hne].
        -- assert (m = matches) as -> by congruence.
           specialize (Hmin0 x Hx Hposx). split; [coord_lia | intros _; lia].
        -- apply (Hminc j m x); auto. lia.
    + apply Hstep; [cbn; lia|]. unfold closest_begin. rewrite Hcand_at.
      split; [exact Hpos0|]. intros j m x Hj Hjm Hx Hposx.
      destruct (Nat.eq_dec j i) as [-> | Hne].
      * assert (m = matches) as -> by congruence.
        split; [apply Hmin0; assumption | intros _; cbn; lia].
      * specialize (Hres j m x ltac:(lia) Hjm Hx). exfalso. coord_lia.
  - apply Hstep; [lia|]. unfold closest_begin in *.
    destruct (begin_at cache res) as [cur|] eqn:Hcur.
    + destruct Hres as [Hposc Hminc]. split; [exact Hposc|].
      intros j m x Hj Hjm Hx Hposx.
      destruct (Nat.eq_dec j i) as [-> | Hne].
      * assert (m = matches) as -> by congruence.
        specialize (Hregion x Hx). exfalso. coord_lia.
      * apply (Hminc j m x); auto. lia.
    + intros j m x Hj Hjm Hx.
      destruct (Nat.eq_dec j i) as [-> | Hne].
      * assert (m = matches) as -> by congruence. apply Hregion. exact Hx.
      * apply (Hres j m x); auto. lia.
Qed.

(** X13.  For begin lists sorted by position, [find_next_begin] returns the
    begin match closest to the search position among all regions: it lies at
    the position or behind it, no begin match of any region lies between the
    position and it, and of begin matches at the same place the one of the
    region defined first wins.  It returns the end iterator of the first
    region when no region has a begin match at the position or behind it. *)
Theorem find_next_begin_closest pos :
  (0 < length cache)%nat ->
  exists res,
    RegionsHighlighter.find_next_begin cache pos = Some res /\
    closest_begin cache pos (length cache) res /\
    (begin_at cache res = None ->
     exists m0, cache !! 0%nat = Some m0 /\ res = (0%nat, length (begin_matches m0))).
Proof.
  intros Hsome. unfold RegionsHighlighter.find_next_begin.
  destruct (cache !! 0%nat) as [m0|] eqn:Hm0.
  2:{ apply lookup_ge_None in Hm0. lia. }
  cbn [mbind option_bind]. eexists. split; [reflexivity|].
  assert (Hsorted : sorted_by_begin (begin_matches m0) = true).
  { rewrite Forall_forall in sorted_begins. apply sorted_begins.
    eapply list_elem_of_lookup_2. exact Hm0. }
  pose proof (find_next_begin_region m0 pos Hsorted) as Hregion.
  assert (Hinit : closest_begin cache pos 1 (0%nat, find_next_begin m0 pos)).
  { unfold closest_begin, begin_at. cbn [fst snd]. rewrite Hm0. cbn [mbind option_bind].
    destruct (begin_matches m0 !! find_next_begin m0 pos) as [b|].
    - destruct Hregion as [Hpos Hmin]. split; [exact Hpos|].
      intros j m x Hj Hjm Hx Hposx. assert (j = 0%nat) as -> by lia.
      assert (m = m0) as -> by congruence. split; [auto | lia].
    - intros j m x Hj Hjm Hx. assert (j = 0%nat) as -> by lia.
      assert (m = m0) as -> by congruence. auto. }
  destruct (find_next_begin_from_closest pos (drop 1 cache) 1
              (0%nat, find_next_begin m0 pos) eq_refl ltac:(cbn; lia) Hinit)
    as [Hclosest _].
  replace (1 + length (drop 1 cache))%nat with (length cache) in Hclosest
    by (rewrite length_drop; lia).
  split; [exact Hclosest|].
  intros Hnone.
  destruct (find_next_begin_found cache Hsome pos) as (res & Hres & Hfound).
  unfold RegionsHighlighter.find_next_begin in Hres. rewrite Hm0 in Hres.
  cbn [mbind option_bind] in Hres. injection Hres as Hres. rewrite Hres in Hnone |- *.
  destruct Hfound as [(m1 & Hm1 & ->) | (m & b & Hm & Hb & _)].
  { exists m0. split; [reflexivity|]. congruence. }
  unfold begin_at in Hnone. rewrite Hm in Hnone. cbn [mbind option_bind] in Hnone.
  congruence.
Qed.

End ClosestBegin.

Section OrderedRegions.

Import RegionMatches.

Variable m_regions : NamedRegionDescList.
Variable cache : list RegionMatches.
Variable buffer_end : ByteCoord.

Hypothesis some_region : (0 < length cache)%nat.
Hypothesis same_length : length m_regions = length cache.
Hypothesis wf_cache : well_formed_cache cache = true.

Lemma next_position_end beg_it e next :
  RegionsHighlighter.next_position beg_it e = Some next ->
  Coord.le (RegexMatch.end_coord e) next.
Proof.
  unfold RegionsHighlighter.next_position.
  destruct (Coord.eqb _ _); [destruct (_ && _); [|discriminate]|];
    intros [= <-]; unfold Coord.le; cbn; lia.
Qed.

Lemma regions_ordered_snoc regions pos r :
  regions_ordered regions ->
  Forall (fun r => Coord.le (Region.begin r) (Region.end_ r) /\
                   Coord.le (Region.end_ r) pos) regions ->
  Coord.le pos (Region.begin r) ->
  regions_ordered (regions ++ [r]).
Proof.
  intros Hord Hall Hpos i r1 r2 H1 H2.
  destruct (Nat.lt_ge_cases (S i) (length regions)) as [Hlt | Hge].
  - rewrite lookup_app_l in H1 by lia. rewrite lookup_app_l in H2 by lia.
    eapply Hord; eauto.
  - assert (Hi : S i = length regions).
    { apply lookup_lt_Some in H2. rewrite length_app in H2. cbn in H2. lia. }
    rewrite lookup_app_l in H1 by lia.
    rewrite lookup_app_r, Hi, Nat.sub_diag in H2 by lia. cbn in H2.
    injection H2 as <-.
    rewrite Forall_forall in Hall.
    destruct (Hall r1 (list_elem_of_lookup_2 _ _ _ H1)) as [Hbe Hend].
    split; [exact Hbe|]. eapply CoordOrder.le_trans; eassumption.
Qed.

Lemma resolve_loop_ordered fuel : forall pos begin regions,
  begin_found cache pos begin ->
  (begins_from pos cache < fuel)%nat ->
  found_so_far m_regions regions pos ->
  exists rs,
    RegionsHighlighter.resolve_loop fuel m_regions cache buffer_end begin regions
    = Some rs /\
    regions_ordered rs /\
    Forall (fun r => In (Region.group r) (map fst m_regions)) rs.
Proof.
  induction fuel as [|fuel IH]; intros pos [i it] regions Hfound Hfuel Hinv; [lia|].
  destruct Hinv as (Hord & Hall & Hnamed).
  cbn [RegionsHighlighter.resolve_loop].
  destruct (cache !! 0%nat) as [m0|] eqn:Hm0.
  2:{ apply lookup_ge_None in Hm0. lia. }
  cbn [mbind option_bind fst snd].
  destruct ((i =? 0)%nat && (it =? length (begin_matches m0))%nat) eqn:Hend; [eauto|].
  assert (Hvalid : exists matches beg_it,
            cache !! i = Some matches /\ begin_matches matches !! it = Some beg_it).
  { destruct Hfound as [(m0' & Hm0' & [= -> ->]) | (m & b & Hm & Hb & _)].
    - assert (m0' = m0) as -> by congruence.
      rewrite !Nat.eqb_refl in Hend. discriminate.
    - eauto. }
  destruct Hvalid as (matches & beg_it & Hm & Hbeg).
  rewrite Hm. cbn [mbind option_bind].
  destruct (m_regions !! i) as [named_region|] eqn:Hname.
  2:{ apply lookup_ge_None in Hname. apply lookup_lt_Some in Hm. lia. }
  cbn [mbind option_bind]. rewrite Hbeg. cbn [mbind option_bind].
  destruct (find_matching_end_total matches (RegexMatch.end_coord beg_it))
    as [end_it Hfind].
  rewrite Hfind. cbn [mbind option_bind].
  assert (Hgroup : In (fst named_region) (map fst m_regions)).
  { apply in_map, list_elem_of_In. eapply list_elem_of_lookup_2. exact Hname. }
  assert (Hpos : Coord.le pos (RegexMatch.begin_coord beg_it)).
  { destruct Hfound as [(m0' & Hm0' & [= -> ->]) | (m & b & Hm' & Hb & Hle)].
    - assert (m0' = m0) as -> by congruence.
      rewrite !Nat.eqb_refl in Hend. discriminate.
    - cbn in Hm', Hb. assert (m = matches) as -> by congruence.
      assert (b = beg_it) as -> by congruence. exact Hle. }
  destruct (end_matches matches !! end_it) as [e|] eqn:He.
  - destruct (cursor_increases cache wf_cache pos i it matches beg_it end_it e
                Hfound Hm Hbeg Hfind He) as (next & Hnext & _ & Hlt & _).
    rewrite Hnext. cbn [mbind option_bind].
    destruct (find_next_begin_found cache some_region next) as (begin' & Hbegin' & Hfound').
    rewrite Hbegin'. cbn [mbind option_bind].
    destruct (well_formed_cache_lookup cache wf_cache i matches Hm) as [Hwfb Hwfe].
    pose proof (find_matching_end_after _ _ _ _ Hwfe Hfind He) as Hafter.
    pose proof (well_formed_matches_lookup _ _ _ Hwfb Hbeg) as Hb.
    pose proof (well_formed_matches_lookup _ _ _ Hwfe He) as He'.
    pose proof (next_position_end beg_it e next Hnext) as Hnext_end.
    apply (IH next); [exact Hfound'| |].
    + assert (begins_from next cache < begins_from pos cache)%nat; [|lia].
      apply (begins_from_less _ _ _ i matches it beg_it); auto. coord_lia.
    + split; [|split].
      * eapply regions_ordered_snoc; eauto.
      * apply Forall_app. split.
        -- eapply Forall_impl; [exact Hall|]. cbn beta. intros r [H1 H2].
           split; [exact H1|]. coord_lia.
        -- constructor; [|constructor]. cbn. split; [coord_lia | exact Hnext_end].
      * apply Forall_app. split; [exact Hnamed|]. constructor; [exact Hgroup | constructor].
  - eexists. split; [reflexivity|]. split.
    + eapply regions_ordered_snoc; eauto.
    + apply Forall_app. split; [exact Hnamed|]. constructor; [exact Hgroup | constructor].
Qed.

(** X14.  With at least one region and match lists as the scans leave
    them, the regions that [resolve_regions] returns follow one another
    without overlap: every region but the last ends where it begins or
    later, the next region begins where it ends or later, and every region
    carries the name of one of the region definitions. *)
Theorem resolve_regions_ordered :
  exists regions,
    RegionsHighlighter.resolve_regions m_regions cache buffer_end = Some regions /\
    regions_ordered regions /\
    Forall (fun r => In (Region.group r) (map fst m_regions)) regions.
Proof.
  unfold RegionsHighlighter.resolve_regions.
  destruct (find_next_begin_found cache some_region (mkCoord (-1) 0))
    as (begin & Hbegin & Hfound).
  rewrite Hbegin. cbn [mbind option_bind].
  apply (resolve_loop_ordered _ (mkCoord (-1) 0)); [exact Hfound| |].
  - pose proof (begins_from_le_total (mkCoord (-1) 0) cache). lia.
  - split; [|split]; [|constructor..].
    intros i r r' H. rewrite lookup_nil in H. discriminate.
Qed.

End OrderedRegions.

(** The theorem on the buffer of twelve lines with an x on the lines 2, 5
    and 9, of which the lines 4 to 6 are replaced by four lines. *)
Lemma update_cache_ifn_incremental_witness :
  exists cache cache',
    update_cache_ifn Samples.literal_iterator Scenes.x_regions Samples.old_buffer
                     (mkCoord 12 0) [] (RegionsHighlighter.mkCache 0 [] [])
    = Some cache /\
    update_cache_ifn Samples.literal_iterator Scenes.x_regions Samples.new_buffer
                     (mkCoord 13 0) [Samples.modification] cache = Some cache' /\
    update_cache_ifn Samples.literal_iterator Scenes.x_regions Samples.new_buffer
                     (mkCoord 13 0) [] (RegionsHighlighter.mkCache 0 [] [])
    = Some cache' /\
    RegionsHighlighter.timestamp cache' = timestamp Samples.new_buffer /\
    RegionsHighlighter.matches cache'
    = map (fun region =>
             RegionDesc_find_matches Samples.literal_iterator (snd region)
                                     Samples.new_buffer)
          (RegionsHighlighter.m_regions Scenes.x_regions).
Proof.
  apply (update_cache_ifn_incremental Samples.literal_iterator
           literal_iterator_in_order Scenes.x_regions Samples.old_buffer
           Samples.new_buffer (mkCoord 12 0) (mkCoord 13 0) [Samples.modification]).
  - discriminate.
  - reflexivity.
  - simpl. lia.
  - simpl. lia.
Defined.

(** The theorem on the matches of the braces and of the quotes, searched
    from column 1 of line 0. *)
Lemma find_next_begin_closest_witness :
  exists res,
    RegionsHighlighter.find_next_begin [Samples.braces; Samples.quotes] (mkCoord 0 1)
    = Some res /\
    closest_begin [Samples.braces; Samples.quotes] (mkCoord 0 1) 2 res /\
    (begin_at [Samples.braces; Samples.quotes] res = None ->
     exists m0, [Samples.braces; Samples.quotes] !! 0%nat = Some m0 /\
                res = (0%nat, length (RegionMatches.begin_matches m0))).
Proof.
  apply (find_next_begin_closest [Samples.braces; Samples.quotes]).
  - repeat constructor.
  - simpl. lia.
Defined.

(** The theorem on the region with empty begin and end matches. *)
Lemma resolve_regions_ordered_witness :
  exists regions,
    RegionsHighlighter.resolve_regions Samples.quotes_regions [Samples.quotes]
      (mkCoord 0 2) = Some regions /\
    regions_ordered regions /\
    Forall (fun r => In (Region.group r) (map fst Samples.quotes_regions)) regions.
Proof.
  apply (resolve_regions_ordered Samples.quotes_regions [Samples.quotes] (mkCoord 0 2)).
  - simpl. lia.
  - reflexivity.
  - reflexivity.
Defined.

Section FactoryBuilds.

Variable regex_valid : string -> bool.
Variable regex_error_what : string -> string.

Lemma parse_regions_builds l : forall regions groups,
  parse_regions regex_valid regex_error_what l = Ok (regions, groups) ->
  groups = map fst regions /\
  Forall2 (fun region '(group, begin, end_, recurse) =>
             region = (group, mkRegionDesc (Compiled begin) (Compiled end_)
                                (if string_empty recurse then EmptyRegex
                                 else Compiled recurse)))
          regions (region_params l).
Proof.
  induction l as [l Hl | g b e r rest IH] using by_fours; intros regions groups H.
  - rewrite parse_regions_short in H by assumption.
    rewrite region_params_short by assumption.
    injection H as <- <-. split; [reflexivity | constructor].
  - cbn [parse_regions region_params] in *.
    destruct (string_empty g || string_empty b || string_empty e); [discriminate|].
    unfold compile in H.
    destruct (regex_valid b); [|discriminate].
    destruct (regex_valid e); [|discriminate].
    destruct (string_empty r) eqn:Hr; cbn [negb] in H.
    + destruct (parse_regions regex_valid regex_error_what rest)
        as [[regions' groups']|]; [|discriminate].
      injection H as <- <-. destruct (IH regions' groups' eq_refl) as [-> IH2].
      split; [reflexivity|]. constructor; [rewrite Hr; reflexivity | exact IH2].
    + destruct (regex_valid r); [|discriminate].
      destruct (parse_regions regex_valid regex_error_what rest)
        as [[regions' groups']|]; [|discriminate].
      injection H as <- <-. destruct (IH regions' groups' eq_refl) as [-> IH2].
      split; [reflexivity|]. constructor; [rewrite Hr; reflexivity | exact IH2].
Qed.

(** X15.  What the factory of the regions highlighter builds when it does
    not throw: the id is the first parameter; there is one region for every
    four parameters behind it, in their order, named by the first of the
    four, with the second and the third compiled as begin and end and the
    fourth as recurse, the empty regex when the fourth is empty; the default
    group is the value of the switch; and there is one group for every
    region, under its name, followed by the default group when the switch is
    given. *)
Theorem regions_factory_builds parser r :
  regions_factory regex_valid regex_error_what parser = Ok r ->
  id r = default EmptyString (positional parser !! 0%nat) /\
  RegionsHighlighter.m_default_group (highlighter r)
  = default EmptyString (default_option parser) /\
  Forall2 (fun region '(group, begin, end_, recurse) =>
             region = (group, mkRegionDesc (Compiled begin) (Compiled end_)
                                (if string_empty recurse then EmptyRegex
                                 else Compiled recurse)))
          (RegionsHighlighter.m_regions (highlighter r))
          (region_params (drop 1 (positional parser))) /\
  groups r
  = map fst (RegionsHighlighter.m_regions (highlighter r))
    ++ match default_option parser with Some name => [name] | None => [] end.
Proof.
  unfold regions_factory. intros H.
  destruct (negb _); [discriminate|].
  destruct (parse_regions regex_valid regex_error_what (drop 1 (positional parser)))
    as [[regions groups0]|] eqn:Hparse; [|discriminate].
  destruct (parse_regions_builds _ _ _ Hparse) as [-> Hregions].
  unfold RegionsHighlighter.ctor in H.
  destruct (bool_decide (regions = [])); [discriminate|].
  destruct (existsb _ regions); [discriminate|].
  injection H as <-. cbn. repeat split; [exact Hregions|].
  destruct (default_option parser); [reflexivity|].
  rewrite app_nil_r. reflexivity.
Qed.

End FactoryBuilds.

(** The theorem on a call with one region and a default group. *)
Lemma regions_factory_builds_witness :
  let r := mkHighlighterAndId "id"
             (RegionsHighlighter.mk
                [("string", mkRegionDesc (Compiled "x") (Compiled "y") EmptyRegex)]
                "code")
             ["string"; "code"] in
  id r = "id" /\
  RegionsHighlighter.m_default_group (highlighter r) = "code" /\
  Forall2 (fun region '(group, begin, end_, recurse) =>
             region = (group, mkRegionDesc (Compiled begin) (Compiled end_)
                                (if string_empty recurse then EmptyRegex
                                 else Compiled recurse)))
          (RegionsHighlighter.m_regions (highlighter r))
          [("string", "x", "y", "")] /\
  groups r = map fst (RegionsHighlighter.m_regions (highlighter r)) ++ ["code"].
Proof.
  intros r.
  apply (regions_factory_builds Samples.valid_pattern Samples.regex_error_what
           (mkParser ["id"; "string"; "x"; "y"; ""] (Some "code")) r).
  reflexivity.
Defined.

(** * The regex highlighter *)

Section RegexHighlighterFacts.

Import RegexHighlighter.

Variable regex_search : Buffer -> Z -> Z -> Regex -> list (list (ByteCoord * ByteCoord)).
Variable get_face : string -> Face.

(** X16.  The cache of the regex highlighter: [update_cache_ifn] leaves a
    cache with the timestamp of the buffer; asked again for the same range,
    whose first line is not negative, it returns that cache as it is; and
    when it had to search, having found another timestamp, the window it
    searched reaches ten lines further on both sides, so that any range
    within these margins is served from the cache as well. *)
Theorem regex_cache_window h buffer range cache :
  let cache' := update_cache_ifn regex_search h buffer range cache in
  let first_line := Coord.line (fst range) in
  let last_line := Z.min (line_count buffer - 1) (Coord.line (snd range)) in
  m_timestamp cache' = timestamp buffer /\
  (0 <= first_line ->
   update_cache_ifn regex_search h buffer range cache' = cache') /\
  (timestamp buffer <> m_timestamp cache ->
   m_matches cache'
   = regex_search buffer (Z.max 0 (first_line - 10))
                  (Z.min (line_count buffer - 1) (last_line + 10)) (m_regex h) /\
   forall range',
     Z.max 0 (first_line - 10) <= Coord.line (fst range') ->
     Coord.line (snd range') <= last_line + 10 ->
     update_cache_ifn regex_search h buffer range' cache' = cache').
Proof.
  cbv zeta. unfold update_cache_ifn.
  destruct ((timestamp buffer =? m_timestamp cache)
            && (fst (m_range cache) <=? Coord.line (fst range))
            && (Z.min (line_count buffer - 1) (Coord.line (snd range))
                <=? snd (m_range cache))) eqn:Hhit.
  - apply andb_true_iff in Hhit. destruct Hhit as [Hhit H3].
    apply andb_true_iff in Hhit. destruct Hhit as [H1 H2].
    split; [lia|]. split.
    + intros _. rewrite H1, H2, H3. reflexivity.
    + intros Hne. lia.
  - cbn [m_timestamp m_range m_matches fst snd]. split; [reflexivity|]. split.
    + intros Hpos. rewrite Z.eqb_refl.
      destruct (Z.leb_spec (Z.max 0 (Coord.line (fst range) - 10))
                           (Coord.line (fst range))); [|lia].
      destruct (Z.leb_spec (Z.min (line_count buffer - 1) (Coord.line (snd range)))
                  (Z.min (line_count buffer - 1)
                     (Z.min (line_count buffer - 1) (Coord.line (snd range)) + 10)));
        [|lia].
      reflexivity.
    + intros _. split; [reflexivity|]. intros range' Hfirst Hlast.
      rewrite Z.eqb_refl.
      destruct (Z.leb_spec (Z.max 0 (Coord.line (fst range) - 10))
                           (Coord.line (fst range'))); [|lia].
      destruct (Z.leb_spec (Z.min (line_count buffer - 1) (Coord.line (snd range')))
                  (Z.min (line_count buffer - 1)
                     (Z.min (line_count buffer - 1) (Coord.line (snd range)) + 10)));
        [|lia].
      reflexivity.
Qed.

Lemma foldl_same_layout_Forall {A} (P : A -> Prop)
    (g : option DisplayBuffer -> A -> option DisplayBuffer) l :
  (forall x d, P x -> exists d', g (Some d) x = Some d' /\ same_layout d d') ->
  Forall P l ->
  forall d, exists d', foldl g (Some d) l = Some d' /\ same_layout d d'.
Proof.
  intros Hstep Hl. induction Hl as [|x l Hx Hl IH]; intros d.
  - exists d. split; [reflexivity | apply same_layout_refl].
  - cbn [foldl]. destruct (Hstep x d Hx) as (d1 & -> & H1).
    destruct (IH d1) as (d' & Hd' & H2). exists d'. split; [exact Hd'|].
    eapply same_layout_trans; eassumption.
Qed.

Lemma highlight_match_layout h match_ d :
  Forall (fun sub => Coord.le (fst sub) (snd sub)) match_ ->
  exists d', highlight_match get_face h match_ d = Some d' /\ same_layout d d'.
Proof.
  intros Hm. unfold highlight_match.
  apply (foldl_same_layout_Forall (fun ns => Coord.le (fst (snd ns)) (snd (snd ns)))).
  - intros [n sub] d0 Hsub. cbn [mbind option_bind].
    destruct (m_faces h !! n) as [facespec|];
      [|exists d0; split; [reflexivity | apply same_layout_refl]].
    destruct (string_empty facespec);
      [exists d0; split; [reflexivity | apply same_layout_refl]|].
    apply highlight_range_same_layout; [exact Hsub | apply apply_face_keeps_range].
  - apply Forall_forall. intros [n sub] Hin.
    apply list_elem_of_lookup in Hin. destruct Hin as [i Hi].
    rewrite list_lookup_imap in Hi.
    destruct (match_ !! i) as [sub'|] eqn:Hsub'; [|discriminate].
    cbn in Hi. injection Hi as <- <-.
    rewrite Forall_forall in Hm. apply Hm.
    eapply list_elem_of_lookup_2. exact Hsub'.
Qed.

(** X17.  When every match and every capture ends where it begins or
    later, the regex highlighter returns in both passes and keeps the layout
    of the display buffer; in the [MoveOnly] pass it changes neither the
    display buffer nor the cache, in the [Highlight] pass the cache it
    leaves is the one [update_cache_ifn] returns for the range of the
    display buffer. *)
Theorem regex_highlight_keeps_layout h context flags d cache :
  forward_ranges (m_matches cache) ->
  (forall first last,
     forward_ranges (regex_search (buffer context) first last (m_regex h))) ->
  exists d',
    highlight regex_search get_face h context flags d cache
    = Some (d', if bool_decide (flags <> Highlight) then cache
                else update_cache_ifn regex_search h (buffer context)
                                      (DisplayBuffer.m_range d) cache) /\
    same_layout d d' /\
    (flags <> Highlight -> d' = d).
Proof.
  intros Hcache Hsearch. unfold highlight. case_bool_decide as Hflags.
  { exists d. split; [reflexivity|]. split; [apply same_layout_refl | reflexivity]. }
  set (cache' := update_cache_ifn regex_search h (buffer context)
                                  (DisplayBuffer.m_range d) cache).
  assert (Hforward : forward_ranges (m_matches cache')).
  { unfold cache', update_cache_ifn. destruct (_ && _); [exact Hcache|].
    cbn [m_matches]. apply Hsearch. }
  destruct (foldl_same_layout_Forall
              (Forall (fun sub => Coord.le (fst sub) (snd sub)))
              (fun acc match_ => d ← acc; highlight_match get_face h match_ d)
              (m_matches cache')) with (d := d) as (d' & Hd' & Hlayout).
  - intros match_ d0 Hm. cbn [mbind option_bind]. apply highlight_match_layout. exact Hm.
  - exact Hforward.
  - exists d'. rewrite Hd'. cbn [mbind option_bind].
    split; [reflexivity|]. split; [exact Hlayout | contradiction].
Qed.

End RegexHighlighterFacts.

(** The theorem on a buffer of twelve lines of which the lines 3 to 6 are
    displayed: a second call, and a call for the lines 0 to 11, are served
    from the cache. *)
Lemma regex_cache_window_witness :
  let cache' := RegexHighlighter.update_cache_ifn Scenes.one_match Scenes.yellow_x
                  Samples.old_buffer (mkCoord 3 0, mkCoord 6 0)
                  RegexHighlighter.fresh in
  RegexHighlighter.update_cache_ifn Scenes.one_match Scenes.yellow_x
    Samples.old_buffer (mkCoord 3 0, mkCoord 6 0) cache' = cache' /\
  RegexHighlighter.update_cache_ifn Scenes.one_match Scenes.yellow_x
    Samples.old_buffer (mkCoord 0 0, mkCoord 11 0) cache' = cache'.
Proof.
  destruct (regex_cache_window Scenes.one_match Scenes.yellow_x Samples.old_buffer
              (mkCoord 3 0, mkCoord 6 0) RegexHighlighter.fresh)
    as (_ & Hagain & Hmargin).
  split.
  - apply Hagain. simpl. lia.
  - destruct Hmargin as [_ Hmargin]; [discriminate|].
    apply Hmargin; vm_compute; discriminate.
Defined.

(** The theorem on the lines 0, 5 and 11 of a buffer of twelve lines, with
    one match at the begin of line 5. *)
Lemma regex_highlight_keeps_layout_witness :
  exists d',
    RegexHighlighter.highlight Scenes.one_match Samples.faces Scenes.yellow_x
      (Samples.context_of_lines 12) Highlight Samples.viewport_0_5_11
      RegexHighlighter.fresh
    = Some (d', RegexHighlighter.update_cache_ifn Scenes.one_match Scenes.yellow_x
                  (buffer (Samples.context_of_lines 12))
                  (DisplayBuffer.m_range Samples.viewport_0_5_11)
                  RegexHighlighter.fresh) /\
    same_layout Samples.viewport_0_5_11 d' /\
    (Highlight <> Highlight -> d' = Samples.viewport_0_5_11).
Proof.
  apply (regex_highlight_keeps_layout Scenes.one_match Samples.faces Scenes.yellow_x
           (Samples.context_of_lines 12) Highlight Samples.viewport_0_5_11
           RegexHighlighter.fresh).
  - constructor.
  - intros first last. unfold Scenes.one_match.
    constructor; [|constructor]. constructor; [|constructor].
    unfold Coord.le. simpl. lia.
Defined.

(** * The dynamic regex highlighter *)

Section DynamicRegexHighlighterFacts.

Import DynamicRegexHighlighter.

Variable regex_search : Buffer -> Z -> Z -> Regex -> list (list (ByteCoord * ByteCoord)).
Variable get_face : string -> Face.
Variable regex_getter : Context -> Regex.
Variable face_getter : Context -> list string.

(** X18.  The dynamic regex highlighter highlights with the regex and the
    faces of the moment.  The highlighter as constructed is up to date; and a
    call on an up to date highlighter, in the [Highlight] pass, leaves it up
    to date, with the regex and the faces that the getters return, and shows
    what the regex highlighter built from these shows, on an empty cache
    when the regex or the faces have changed, or leaves the display buffer
    as it is when the regex or the list of faces is empty. *)
Theorem dynamic_highlight_current s context d cache :
  up_to_date ctor /\
  (up_to_date s ->
   let regex := regex_getter context in
   let face := face_getter context in
   let changed :=
     bool_decide (regex <> m_last_regex s) || bool_decide (face <> m_last_face s) in
   let cache1 :=
     if changed && negb (Regex_empty regex) then RegexHighlighter.fresh else cache in
   exists s',
     up_to_date s' /\ m_last_regex s' = regex /\ m_last_face s' = face /\
     highlight regex_search get_face regex_getter face_getter s context Highlight
               d cache
     = if negb (Regex_empty regex) && negb (faces_empty face)
       then '(d', cache') ← RegexHighlighter.highlight regex_search get_face
                              (RegexHighlighter.mk regex face) context Highlight
                              d cache1;
            Some (d', s', cache')
       else Some (d, s', cache1)).
Proof.
  split; [intros H; discriminate|].
  intros Hs. cbv zeta. unfold highlight.
  rewrite bool_decide_eq_false_2 by (intros H; apply H; reflexivity).
  destruct (bool_decide (regex_getter context <> m_last_regex s)
            || bool_decide (face_getter context <> m_last_face s)) eqn:Hchanged.
  - destruct (Regex_empty (regex_getter context)) eqn:Hempty; cbn [negb andb].
    + exists (mk (regex_getter context) (face_getter context) (m_highlighter s)).
      split; [|split; [reflexivity|split; [reflexivity|]]].
      * intros H. cbn in H. congruence.
      * cbn [m_last_regex m_last_face]. rewrite Hempty. reflexivity.
    + exists (mk (regex_getter context) (face_getter context)
                 (RegexHighlighter.mk (regex_getter context) (face_getter context))).
      split; [|split; [reflexivity|split; [reflexivity|]]].
      * intros _. reflexivity.
      * cbn [m_last_regex m_last_face m_highlighter]. rewrite Hempty. cbn [negb andb].
        reflexivity.
  - apply orb_false_iff in Hchanged. destruct Hchanged as [H1 H2].
    apply bool_decide_eq_false in H1, H2.
    assert (Hregex : regex_getter context = m_last_regex s).
    { destruct (decide (regex_getter context = m_last_regex s)); tauto. }
    assert (Hface : face_getter context = m_last_face s).
    { destruct (decide (face_getter context = m_last_face s)); tauto. }
    cbn [andb]. exists s. split; [exact Hs|]. split; [congruence|]. split; [congruence|].
    rewrite Hregex, Hface.
    destruct (Regex_empty (m_last_regex s)) eqn:Hempty; cbn [negb andb]; [reflexivity|].
    rewrite (Hs Hempty). reflexivity.
Qed.

End DynamicRegexHighlighterFacts.

Section SearchHighlighterFacts.

Import DynamicRegexHighlighter.

Variable regex_search : Buffer -> Z -> Z -> Regex -> list (list (ByteCoord * ByteCoord)).
Variable get_face : string -> Face.
Variable regex_valid : string -> bool.

(** X19.  The search highlighter never fails on the pattern: when the
    register [/] is empty or holds a pattern that the regex library refuses,
    the highlighter built by [highlight_search_factory] returns the display
    buffer as it is. *)
Theorem search_highlight_invalid s register context flags d cache :
  register = EmptyString \/ regex_valid register = false ->
  exists s',
    highlight regex_search get_face
              (fun _ => search_regex regex_valid register) (fun _ => search_face)
              s context flags d cache
    = Some (d, s', cache).
Proof.
  intros Hreg. unfold highlight.
  assert (Hempty : search_regex regex_valid register = EmptyRegex).
  { unfold search_regex. destruct Hreg as [-> | ->]; [reflexivity|].
    destruct (string_empty register); reflexivity. }
  rewrite Hempty. case_bool_decide; [eauto|].
  destruct (bool_decide (EmptyRegex <> m_last_regex s) || _) eqn:Hchanged;
    cbn [Regex_empty negb m_last_regex andb]; [eauto|].
  apply orb_false_iff in Hchanged. destruct Hchanged as [H1 _].
  apply bool_decide_eq_false in H1.
  assert (Hregex : EmptyRegex = m_last_regex s).
  { destruct (decide (EmptyRegex = m_last_regex s)); tauto. }
  rewrite <- Hregex. cbn [Regex_empty negb andb]. eauto.
Qed.

End SearchHighlighterFacts.

(** The theorem on the highlighter as constructed, when the getters return
    the regex [x] and the face [yellow]. *)
Lemma dynamic_highlight_current_witness :
  exists s',
    DynamicRegexHighlighter.up_to_date s' /\
    DynamicRegexHighlighter.m_last_regex s' = Compiled "x" /\
    DynamicRegexHighlighter.m_last_face s' = ["yellow"] /\
    DynamicRegexHighlighter.highlight Scenes.one_match Samples.faces
      (fun _ => Compiled "x") (fun _ => ["yellow"])
      DynamicRegexHighlighter.ctor (Samples.context_of_lines 12) Highlight
      Samples.viewport_0_5_11 RegexHighlighter.fresh
    = '(d', cache') ← RegexHighlighter.highlight Scenes.one_match Samples.faces
                        Scenes.yellow_x (Samples.context_of_lines 12) Highlight
                        Samples.viewport_0_5_11 RegexHighlighter.fresh;
      Some (d', s', cache').
Proof.
  destruct (dynamic_highlight_current Scenes.one_match Samples.faces
              (fun _ => Compiled "x") (fun _ => ["yellow"])
              DynamicRegexHighlighter.ctor (Samples.context_of_lines 12)
              Samples.viewport_0_5_11 RegexHighlighter.fresh) as [Hctor Hcall].
  apply Hcall. exact Hctor.
Defined.

(** The theorem on a register that holds an opening parenthesis. *)
Lemma search_highlight_invalid_witness :
  exists s',
    DynamicRegexHighlighter.highlight Scenes.one_match Samples.faces
      (fun _ => DynamicRegexHighlighter.search_regex Samples.valid_pattern "(")
      (fun _ => DynamicRegexHighlighter.search_face)
      DynamicRegexHighlighter.ctor (Samples.context_of_lines 12) Highlight
      Samples.viewport_0_5_11 RegexHighlighter.fresh
    = Some (Samples.viewport_0_5_11, s', RegexHighlighter.fresh).
Proof.
  apply (search_highlight_invalid Scenes.one_match Samples.faces Samples.valid_pattern
           DynamicRegexHighlighter.ctor "(").
  right. reflexivity.
Defined.

(** * The factory of the regex highlighter *)

Section RegexFactoryFacts.

Variable face_spec_match : string -> option (string * string).
Variable str_to_int : string -> nat.
Variable face_valid : string -> bool.
Variable face_error_what : string -> string.
Variable regex_valid : string -> bool.
Variable regex_error_what : string -> string.

Lemma set_face_spec_lookup faces capture spec n :
  default EmptyString (set_face_spec faces capture spec !! n)
  = if (capture =? n)%nat then spec else default EmptyString (faces !! n).
Proof.
  unfold set_face_spec.
  set (faces' := if (length faces <=? capture)%nat
                 then faces ++ replicate (S capture - length faces) EmptyString
                 else faces).
  assert (Hlen : (capture < length faces')%nat).
  { unfold faces'. destruct (Nat.leb_spec (length faces) capture); [|lia].
    rewrite length_app, length_replicate. lia. }
  assert (Hsame : forall i, default EmptyString (faces' !! i)
                            = default EmptyString (faces !! i)).
  { intros i. unfold faces'. destruct (Nat.leb_spec (length faces) capture); [|reflexivity].
    destruct (Nat.lt_ge_cases i (length faces)) as [Hi | Hi].
    - rewrite lookup_app_l by exact Hi. reflexivity.
    - rewrite lookup_app_r by exact Hi.
      rewrite (proj2 (lookup_ge_None faces i)) by exact Hi.
      destruct (replicate _ _ !! _) as [x|] eqn:Hx; [|reflexivity].
      apply lookup_replicate in Hx. destruct Hx as [-> _]. reflexivity. }
  destruct (Nat.eqb_spec capture n) as [<- | Hne].
  - rewrite list_lookup_insert_eq by exact Hlen. reflexivity.
  - rewrite list_lookup_insert_ne by exact Hne. apply Hsame.
Qed.

Lemma parse_face_specs_faces params : forall faces faces',
  parse_face_specs face_spec_match str_to_int face_valid face_error_what params faces
  = Ok faces' ->
  exists specs,
    mapM face_spec_match params = Some specs /\
    Forall (fun spec => face_valid (snd spec) = true) specs /\
    forall n,
      default EmptyString (faces' !! n)
      = foldl (fun face '(capture, spec) =>
                 if (str_to_int capture =? n)%nat then spec else face)
              (default EmptyString (faces !! n)) specs.
Proof.
  induction params as [|it params IH]; intros faces faces' H.
  - injection H as <-. exists []. split; [reflexivity|]. split; [constructor|].
    reflexivity.
  - cbn [parse_face_specs] in H.
    destruct (face_spec_match it) as [[capture spec]|] eqn:Hit; [|discriminate].
    destruct (face_valid spec) eqn:Hvalid; [|discriminate].
    destruct (IH _ _ H) as (specs & Hspecs & Hall & Hfaces).
    exists ((capture, spec) :: specs). split; [|split].
    + cbn [mapM]. rewrite Hit. cbn [mbind option_bind]. rewrite Hspecs. reflexivity.
    + constructor; [exact Hvalid | exact Hall].
    + intros n. rewrite Hfaces. cbn [foldl]. rewrite set_face_spec_lookup. reflexivity.
Qed.

Lemma parse_face_specs_fails params : forall faces,
  is_error (parse_face_specs face_spec_match str_to_int face_valid face_error_what
              params faces) = true
  <-> Exists (refused_face_spec face_spec_match face_valid) params.
Proof.
  induction params as [|it params IH]; intros faces.
  - cbn. split; [discriminate | intros H; inversion H].
  - cbn [parse_face_specs]. rewrite Exists_cons. unfold refused_face_spec at 1.
    destruct (face_spec_match it) as [[capture spec]|].
    + destruct (face_valid spec).
      * rewrite IH. split; [auto | intros [H | H]; [discriminate | exact H]].
      * cbn. split; auto.
    + cbn. split; auto.
Qed.

(** X20.  What the factory of the regex highlighter builds when it does not
    throw: the id is the regex between quotes behind [hlregex], the regex is
    the first parameter compiled, every further parameter is a capture
    number and a known face, and the face list holds for every capture the
    face of the last parameter that names it, and no face for a capture
    that no parameter names. *)
Theorem highlight_regex_factory_faces params name h :
  highlight_regex_factory face_spec_match str_to_int face_valid face_error_what
                          regex_valid regex_error_what params = Ok (name, h) ->
  exists pattern specs,
    params !! 0%nat = Some pattern /\
    mapM face_spec_match (drop 1 params) = Some specs /\
    specs <> [] /\
    Forall (fun spec => face_valid (snd spec) = true) specs /\
    name = ("hlregex'" ++ pattern ++ "'")%string /\
    RegexHighlighter.m_regex h = Compiled pattern /\
    forall n,
      default EmptyString (RegexHighlighter.m_faces h !! n)
      = face_of_capture str_to_int specs n.
Proof.
  unfold highlight_regex_factory. intros H.
  destruct (Nat.ltb_spec (length params) 2) as [|Hlen]; [discriminate|].
  destruct (parse_face_specs _ _ _ _ (drop 1 params) []) as [faces|] eqn:Hparse;
    [|discriminate].
  destruct params as [|pattern params]; [cbn in Hlen; lia|].
  change (default EmptyString ((pattern :: params) !! 0%nat)) with pattern in H.
  change ((pattern :: params) !! 0%nat) with (Some pattern).
  destruct (regex_valid pattern); [|discriminate].
  injection H as <- <-.
  destruct (parse_face_specs_faces _ _ _ Hparse) as (specs & Hspecs & Hall & Hfaces).
  exists pattern, specs. repeat split; auto.
  intros ->. cbn [drop] in Hspecs. destruct params as [|it params]; [cbn in Hlen; lia|].
  rewrite drop_0 in Hspecs. cbn [mapM] in Hspecs.
  destruct (face_spec_match it); [|discriminate].
  cbn [mbind option_bind] in Hspecs. destruct (mapM face_spec_match params); discriminate.
Qed.

(** X21.  The factory of the regex highlighter throws exactly when there
    are fewer than two parameters, some parameter behind the first is not a
    capture number, a colon and a known face, or the first parameter is not
    a valid regex. *)
Theorem highlight_regex_factory_fails params :
  is_error (highlight_regex_factory face_spec_match str_to_int face_valid
              face_error_what regex_valid regex_error_what params) = true
  <-> (length params < 2)%nat \/
      Exists (refused_face_spec face_spec_match face_valid) (drop 1 params) \/
      regex_valid (default EmptyString (params !! 0%nat)) = false.
Proof.
  unfold highlight_regex_factory.
  destruct (Nat.ltb_spec (length params) 2) as [Hlen|Hlen]; [cbn; split; auto|].
  pose proof (parse_face_specs_fails (drop 1 params) []) as Hfails.
  destruct (parse_face_specs _ _ _ _ (drop 1 params) []) as [faces|]; cbn in Hfails.
  - destruct (regex_valid (default EmptyString (params !! 0%nat))) eqn:Hvalid; cbn.
    + split; [discriminate|]. intros [H | [H | H]]; [lia | | discriminate].
      apply Hfails in H. discriminate.
    + split; auto.
  - split; [intros _; right; left; apply Hfails; reflexivity | reflexivity].
Qed.

End RegexFactoryFacts.

(** The theorem on the regex [x] with three face specs, of which the last
    names the capture 0 again. *)
Lemma highlight_regex_factory_faces_witness :
  exists pattern specs,
    ["x"; "0:yellow"; "1:red"; "0:blue"] !! 0%nat = Some pattern /\
    mapM Scenes.three_specs (drop 1 ["x"; "0:yellow"; "1:red"; "0:blue"]) = Some specs /\
    specs <> [] /\
    Forall (fun spec => Scenes.any_face (snd spec) = true) specs /\
    "hlregex'x'" = ("hlregex'" ++ pattern ++ "'")%string /\
    RegexHighlighter.m_regex (RegexHighlighter.mk (Compiled "x") ["blue"; "red"])
    = Compiled pattern /\
    forall n,
      default EmptyString
        (RegexHighlighter.m_faces (RegexHighlighter.mk (Compiled "x") ["blue"; "red"])
         !! n)
      = face_of_capture Scenes.digit_value specs n.
Proof.
  apply (highlight_regex_factory_faces Scenes.three_specs Scenes.digit_value
           Scenes.any_face Scenes.face_error_what Samples.valid_pattern
           Samples.regex_error_what ["x"; "0:yellow"; "1:red"; "0:blue"]
           "hlregex'x'" (RegexHighlighter.mk (Compiled "x") ["blue"; "red"])).
  reflexivity.
Defined.

(** The theorem on a call whose second face spec has no capture number. *)
Lemma highlight_regex_factory_fails_witness :
  is_error (highlight_regex_factory Scenes.three_specs Scenes.digit_value
              Scenes.any_face Scenes.face_error_what Samples.valid_pattern
              Samples.regex_error_what ["x"; "0:yellow"; "red"]) = true.
Proof.
  apply (highlight_regex_factory_fails Scenes.three_specs Scenes.digit_value
           Scenes.any_face Scenes.face_error_what Samples.valid_pattern
           Samples.regex_error_what ["x"; "0:yellow"; "red"]).
  right. left. simpl. right. left. reflexivity.
Defined.

(** * The registry of interned strings *)

Section StringRegistryFacts.

Import StringRegistry.

Lemma consistent_slots_differ r str other slot slot' :
  consistent r -> str <> other ->
  m_slot_map r !! str = Some slot -> m_slot_map r !! other = Some slot' ->
  slot <> slot'.
Proof.
  intros (Hmap & _ & _) Hne H1 H2 ->.
  destruct (Hmap _ _ H1) as (c1 & Hs1 & _). destruct (Hmap _ _ H2) as (c2 & Hs2 & _).
  congruence.
Qed.

Lemma consistent_not_free r str slot :
  consistent r -> m_slot_map r !! str = Some slot -> ~ In slot (m_free_slots r).
Proof.
  intros (Hmap & Hfree & _) H Hin.
  destruct (Hmap _ _ H) as (c & Hs & Hc). rewrite (Hfree _ Hin) in Hs.
  injection Hs as _ <-. lia.
Qed.

Lemma ref_count_other map map' storage storage' free free' str other slot :
  str <> other ->
  (forall s, s <> str -> map' !! s = map !! s) ->
  (forall i, i <> slot -> storage' !! i = storage !! i) ->
  (forall slot', map !! other = Some slot' -> slot' <> slot) ->
  ref_count (mk map' free' storage') other = ref_count (mk map free storage) other.
Proof.
  intros Hne Hmap Hstorage Hslot. unfold ref_count. cbn.
  rewrite Hmap by congruence.
  destruct (map !! other) as [slot'|] eqn:Hother; [|reflexivity].
  rewrite Hstorage by (apply Hslot; reflexivity). reflexivity.
Qed.

(** X22.  The empty registry is consistent, and on a consistent registry
    [acquire] returns and leaves a consistent registry in which the
    reference count of the string is one more and that of every other string
    is what it was; the storage does not grow as long as a free slot is
    left. *)
Theorem acquire_counts r str :
  consistent empty /\
  (consistent r ->
   exists r',
     acquire r str = Some r' /\
     consistent r' /\
     ref_count r' str = ref_count r str + 1 /\
     (forall other, other <> str -> ref_count r' other = ref_count r other) /\
     (m_free_slots r <> [] -> length (m_storage r') = length (m_storage r))).
Proof.
  split.
  { split; [|split]; [intros s slot H; cbn in H; rewrite lookup_empty in H; discriminate
                     | intros slot [] | constructor]. }
  intros Hwf. pose proof Hwf as (Hmap & Hfree & Hnodup).
  destruct r as [map free storage]. cbn [m_slot_map m_free_slots m_storage] in *.
  unfold acquire. cbn [m_slot_map m_free_slots m_storage].
  destruct (map !! str) as [slot|] eqn:Hstr.
  - (* the string is interned already *)
    destruct (Hmap _ _ Hstr) as (count & Hslot & Hcount).
    rewrite Hslot. cbn [mbind option_bind].
    assert (Hlt : (slot < length storage)%nat) by (eapply lookup_lt_Some; eauto).
    eexists. split; [reflexivity|]. split; [|split; [|split]].
    + split; [|split]; cbn [m_slot_map m_free_slots m_storage].
      * intros s slot' Hs. destruct (Nat.eq_dec slot' slot) as [-> | Hne].
        -- destruct (Hmap _ _ Hs) as (c & Hc1 & Hc2).
           assert (s = str) as -> by congruence.
           rewrite list_lookup_insert_eq by exact Hlt. eexists. split; [reflexivity | lia].
        -- rewrite list_lookup_insert_ne by congruence. apply Hmap. exact Hs.
      * intros slot' Hin. rewrite list_lookup_insert_ne; [apply Hfree; exact Hin|].
        intros <-. apply (consistent_not_free _ _ _ Hwf Hstr). exact Hin.
      * exact Hnodup.
    + unfold ref_count. cbn. rewrite Hstr, Hslot.
      rewrite list_lookup_insert_eq by exact Hlt. reflexivity.
    + intros other Hne. apply (ref_count_other _ _ _ _ _ _ str other slot); auto.
      * intros i Hi. apply list_lookup_insert_ne. congruence.
      * intros slot' Hother.
        apply not_eq_sym.
        apply (consistent_slots_differ _ str other slot slot' Hwf); auto.
    + intros _. cbn [m_storage]. apply length_insert.
  - destruct (last free) as [slot|] eqn:Hlast.
    + (* a free slot is used again *)
      apply last_Some in Hlast. destruct Hlast as [free' ->].
      rewrite removelast_last.
      assert (Hslot : storage !! slot = Some (EmptyString, 0)).
      { apply Hfree. apply in_or_app. right. left. reflexivity. }
      assert (Hlt : (slot < length storage)%nat) by (eapply lookup_lt_Some; eauto).
      destruct (Nat.ltb_spec slot (length storage)); [|lia].
      cbn [mbind option_bind]. eexists. split; [reflexivity|].
      assert (Hnotin : ~ In slot free').
      { apply NoDup_remove_2 in Hnodup. rewrite app_nil_r in Hnodup. exact Hnodup. }
      split; [|split; [|split]].
      * split; [|split]; cbn [m_slot_map m_free_slots m_storage].
        -- intros s slot' Hs. destruct (decide (s = str)) as [-> | Hne].
           ++ rewrite lookup_insert_eq in Hs. injection Hs as <-.
              rewrite list_lookup_insert_eq by exact Hlt.
              eexists. split; [reflexivity | lia].
           ++ rewrite lookup_insert_ne in Hs by congruence.
              destruct (Hmap _ _ Hs) as (c & Hc1 & Hc2).
              rewrite list_lookup_insert_ne; [eauto|].
              intros <-. rewrite Hslot in Hc1. injection Hc1 as _ <-. lia.
        -- intros slot' Hin. rewrite list_lookup_insert_ne.
           ++ apply Hfree. apply in_or_app. left. exact Hin.
           ++ intros <-. contradiction.
        -- apply NoDup_remove_1 in Hnodup. rewrite app_nil_r in Hnodup. exact Hnodup.
      * unfold ref_count. cbn. rewrite Hstr, lookup_insert_eq.
        rewrite list_lookup_insert_eq by exact Hlt. reflexivity.
      * intros other Hne. apply (ref_count_other _ _ _ _ _ _ str other slot); auto.
        -- intros s Hs. apply lookup_insert_ne. congruence.
        -- intros i Hi. apply list_lookup_insert_ne. congruence.
        -- intros slot' Hother ->. destruct (Hmap _ _ Hother) as (c & Hc1 & Hc2).
           rewrite Hslot in Hc1. injection Hc1 as _ <-. lia.
      * intros _. cbn [m_storage]. apply length_insert.
    + (* the storage grows by one slot *)
      apply last_None in Hlast. subst free.
      cbn [mbind option_bind]. eexists. split; [reflexivity|].
      split; [|split; [|split]].
      * split; [|split]; cbn [m_slot_map m_free_slots m_storage].
        -- intros s slot' Hs. destruct (decide (s = str)) as [-> | Hne].
           ++ rewrite lookup_insert_eq in Hs. injection Hs as <-.
              rewrite lookup_app_r, Nat.sub_diag by lia.
              eexists. split; [reflexivity | lia].
           ++ rewrite lookup_insert_ne in Hs by congruence.
              destruct (Hmap _ _ Hs) as (c & Hc1 & Hc2).
              rewrite lookup_app_l by (eapply lookup_lt_Some; eauto). eauto.
        -- intros slot' [].
        -- constructor.
      * unfold ref_count. cbn. rewrite Hstr, lookup_insert_eq.
        rewrite lookup_app_r, Nat.sub_diag by lia. reflexivity.
      * intros other Hne.
        apply (ref_count_other _ _ _ _ _ _ str other (length storage)); auto.
        -- intros s Hs. apply lookup_insert_ne. congruence.
        -- intros i Hi. destruct (Nat.lt_ge_cases i (length storage)).
           ++ apply lookup_app_l. assumption.
           ++ rewrite (proj2 (lookup_ge_None storage i)) by assumption.
              apply lookup_ge_None. rewrite length_app. cbn. lia.
        -- intros slot' Hother ->. destruct (Hmap _ _ Hother) as (c & Hc1 & _).
           apply lookup_lt_Some in Hc1. lia.
      * intros H. congruence.
Qed.

(** X23.  On a consistent registry [release] fails on its assertion for a
    string that is not interned, whose reference count is zero; for an
    interned string it returns and leaves a consistent registry in which the
    reference count of the string is one less and that of every other string
    is what it was, so that the string whose last reference goes is no
    longer interned. *)
Theorem release_counts r str :
  consistent r ->
  (ref_count r str = 0 -> release r str = None) /\
  (ref_count r str <> 0 ->
   exists r',
     release r str = Some r' /\
     consistent r' /\
     ref_count r' str = ref_count r str - 1 /\
     (forall other, other <> str -> ref_count r' other = ref_count r other) /\
     (ref_count r str = 1 -> m_slot_map r' !! str = None)).
Proof.
  intros Hwf. pose proof Hwf as (Hmap & Hfree & Hnodup).
  destruct r as [map free storage]. cbn [m_slot_map m_free_slots m_storage] in *.
  unfold release. cbn [m_slot_map m_free_slots m_storage].
  destruct (map !! str) as [slot|] eqn:Hstr.
  2:{ split; [reflexivity|]. unfold ref_count. cbn. rewrite Hstr. congruence. }
  destruct (Hmap _ _ Hstr) as (count & Hslot & Hcount).
  assert (Href : ref_count (mk map free storage) str = count).
  { unfold ref_count. cbn. rewrite Hstr, Hslot. reflexivity. }
  rewrite Href, Hslot. cbn [mbind option_bind].
  split; [intros ->; lia|]. intros _.
  assert (Hlt : (slot < length storage)%nat) by (eapply lookup_lt_Some; eauto).
  destruct (Z.eqb_spec (count - 1) 0) as [Hlast | Hmore].
  - eexists. split; [reflexivity|]. split; [|split; [|split]].
    + split; [|split]; cbn [m_slot_map m_free_slots m_storage].
      * intros s slot' Hs. destruct (decide (s = str)) as [-> | Hne].
        -- rewrite lookup_delete_eq in Hs. discriminate.
        -- rewrite lookup_delete_ne in Hs by congruence.
           rewrite list_lookup_insert_ne; [apply Hmap; exact Hs|].
           apply (consistent_slots_differ _ str s slot slot' Hwf); auto.
      * intros slot' Hin. apply in_app_or in Hin. destruct Hin as [Hin | [<- | []]].
        -- rewrite list_lookup_insert_ne; [apply Hfree; exact Hin|].
           intros <-. apply (consistent_not_free _ _ _ Hwf Hstr). exact Hin.
        -- apply list_lookup_insert_eq. exact Hlt.
      * apply NoDup_ListNoDup, NoDup_app. split; [|split].
        -- apply NoDup_ListNoDup. exact Hnodup.
        -- intros x Hx Hx'. apply list_elem_of_In in Hx.
           apply list_elem_of_In in Hx'. destruct Hx' as [<- | []].
           apply (consistent_not_free _ _ _ Hwf Hstr). exact Hx.
        -- apply NoDup_singleton.
    + unfold ref_count. cbn. rewrite lookup_delete_eq. lia.
    + intros other Hne. apply (ref_count_other _ _ _ _ _ _ str other slot); auto.
      * intros s Hs. apply lookup_delete_ne. congruence.
      * intros i Hi. apply list_lookup_insert_ne. congruence.
      * intros slot' Hother. apply not_eq_sym.
        apply (consistent_slots_differ _ str other slot slot' Hwf); auto.
    + intros _. cbn. apply lookup_delete_eq.
  - eexists. split; [reflexivity|]. split; [|split; [|split]].
    + split; [|split]; cbn [m_slot_map m_free_slots m_storage].
      * intros s slot' Hs. destruct (Nat.eq_dec slot' slot) as [-> | Hne].
        -- destruct (Hmap _ _ Hs) as (c & Hc1 & Hc2).
           assert (s = str) as -> by congruence.
           rewrite list_lookup_insert_eq by exact Hlt. eexists. split; [reflexivity | lia].
        -- rewrite list_lookup_insert_ne by congruence. apply Hmap. exact Hs.
      * intros slot' Hin. rewrite list_lookup_insert_ne; [apply Hfree; exact Hin|].
        intros <-. apply (consistent_not_free _ _ _ Hwf Hstr). exact Hin.
      * exact Hnodup.
    + unfold ref_count. cbn. rewrite Hstr.
      rewrite list_lookup_insert_eq by exact Hlt. reflexivity.
    + intros other Hne. apply (ref_count_other _ _ _ _ _ _ str other slot); auto.
      * intros i Hi. apply list_lookup_insert_ne. congruence.
      * intros slot' Hother. apply not_eq_sym.
        apply (consistent_slots_differ _ str other slot slot' Hwf); auto.
    + intros H1. lia.
Qed.

End StringRegistryFacts.

(** The theorem on the empty registry. *)
Lemma acquire_counts_witness :
  exists r',
    StringRegistry.acquire StringRegistry.empty "foo" = Some r' /\
    StringRegistry.consistent r' /\
    StringRegistry.ref_count r' "foo"
    = StringRegistry.ref_count StringRegistry.empty "foo" + 1 /\
    (forall other, other <> "foo" ->
       StringRegistry.ref_count r' other
       = StringRegistry.ref_count StringRegistry.empty other) /\
    (StringRegistry.m_free_slots StringRegistry.empty <> [] ->
     length (StringRegistry.m_storage r')
     = length (StringRegistry.m_storage StringRegistry.empty)).
Proof.
  destruct (acquire_counts StringRegistry.empty "foo") as [Hempty Hacquire].
  apply Hacquire. exact Hempty.
Defined.

Lemma one_string_consistent : StringRegistry.consistent Scenes.one_string.
Proof.
  split; [|split].
  - intros str slot H. cbn in H. apply lookup_singleton_Some in H.
    destruct H as [<- <-]. exists 1. split; [reflexivity | lia].
  - intros slot [].
  - constructor.
Qed.

(** The theorem on the registry that holds [foo] once: [bar] cannot be
    released, and after the release of [foo] the string is not interned. *)
Lemma release_counts_witness :
  StringRegistry.release Scenes.one_string "bar" = None /\
  exists r',
    StringRegistry.release Scenes.one_string "foo" = Some r' /\
    StringRegistry.consistent r' /\
    StringRegistry.ref_count r' "foo"
    = StringRegistry.ref_count Scenes.one_string "foo" - 1 /\
    (forall other, other <> "foo" ->
       StringRegistry.ref_count r' other
       = StringRegistry.ref_count Scenes.one_string other) /\
    (StringRegistry.ref_count Scenes.one_string "foo" = 1 ->
     StringRegistry.m_slot_map r' !! "foo" = None).
Proof.
  split.
  - apply (release_counts Scenes.one_string "bar" one_string_consistent). reflexivity.
  - apply (release_counts Scenes.one_string "foo" one_string_consistent).
    vm_compute. discriminate.
Defined.

(** * The keymap manager *)

Section KeymapManagerFacts.

Import KeymapManager.

Context {Key Mode : Type} `{Countable Key} `{Countable Mode}.

Implicit Types (m : KeymapManager.t Key Mode).

(** X24.  [get_mapping] passes its assertion exactly for the keys that
    [is_mapped] reports, and the mapping it returns is the one of the nearest
    manager, from this one up through the parents, that maps the key. *)
Theorem get_mapping_is_mapped m key mode :
  (is_mapped m key mode = true <-> is_Some (get_mapping m key mode)) /\
  (forall keys, m_mapping m !! (key, mode) = Some keys ->
                get_mapping m key mode = Some keys) /\
  (m_mapping m !! (key, mode) = None ->
   get_mapping m key mode
   = match m_parent m with
     | Some parent => get_mapping parent key mode
     | None => None
     end).
Proof.
  split; [|split].
  - induction m as [mapping | mapping parent IH]; cbn [is_mapped get_mapping m_mapping].
    + destruct (mapping !! (key, mode)) as [keys|] eqn:Hk.
      * rewrite bool_decide_eq_true_2 by eauto. cbn. split; eauto.
      * rewrite bool_decide_eq_false_2 by (intros [? ?]; discriminate). cbn.
        split; [discriminate | intros [? ?]; discriminate].
    + destruct (mapping !! (key, mode)) as [keys|] eqn:Hk.
      * rewrite bool_decide_eq_true_2 by eauto. cbn. split; eauto.
      * rewrite bool_decide_eq_false_2 by (intros [? ?]; discriminate). cbn.
        exact IH.
  - intros keys Hk. destruct m; cbn [get_mapping m_mapping] in *; rewrite Hk; reflexivity.
  - intros Hk. destruct m; cbn [get_mapping m_mapping m_parent] in *; rewrite Hk;
      reflexivity.
Qed.

Lemma set_mapping_mapping mapping m : m_mapping (set_mapping mapping m) = mapping.
Proof. destruct m; reflexivity. Qed.

Lemma set_mapping_parent mapping m : m_parent (set_mapping mapping m) = m_parent m.
Proof. destruct m; reflexivity. Qed.

Lemma get_mapping_step m key mode :
  get_mapping m key mode
  = match m_mapping m !! (key, mode) with
    | Some keys => Some keys
    | None => match m_parent m with
              | Some parent => get_mapping parent key mode
              | None => None
              end
    end.
Proof. destruct m; reflexivity. Qed.

Lemma is_mapped_step m key mode :
  is_mapped m key mode
  = bool_decide (is_Some (m_mapping m !! (key, mode)))
    || match m_parent m with
       | Some parent => is_mapped parent key mode
       | None => false
       end.
Proof. destruct m; reflexivity. Qed.

(** X25.  [map_key] and [unmap_key] act on the manager itself and leave the
    parents alone: a mapped key is reported and returns its new mapping,
    whatever the parents map it to; an unmapped key is answered by the
    parent, so that a mapping of a parent shows again; and every other key,
    or the same key in another mode, is answered as before. *)
Theorem map_unmap_key m key mode mapping :
  get_mapping (map_key m key mode mapping) key mode = Some mapping /\
  is_mapped (map_key m key mode mapping) key mode = true /\
  get_mapping (unmap_key m key mode) key mode
  = match m_parent m with
    | Some parent => get_mapping parent key mode
    | None => None
    end /\
  is_mapped (unmap_key m key mode) key mode
  = match m_parent m with
    | Some parent => is_mapped parent key mode
    | None => false
    end /\
  (forall key' mode',
     (key', mode') <> (key, mode) ->
     get_mapping (map_key m key mode mapping) key' mode' = get_mapping m key' mode' /\
     get_mapping (unmap_key m key mode) key' mode' = get_mapping m key' mode' /\
     is_mapped (map_key m key mode mapping) key' mode' = is_mapped m key' mode' /\
     is_mapped (unmap_key m key mode) key' mode' = is_mapped m key' mode').
Proof.
  unfold map_key, unmap_key.
  repeat split.
  - rewrite get_mapping_step, set_mapping_mapping, lookup_insert_eq. reflexivity.
  - rewrite is_mapped_step, set_mapping_mapping, lookup_insert_eq.
    rewrite bool_decide_eq_true_2 by eauto. reflexivity.
  - rewrite get_mapping_step, set_mapping_mapping, set_mapping_parent, lookup_delete_eq.
    reflexivity.
  - rewrite is_mapped_step, set_mapping_mapping, set_mapping_parent, lookup_delete_eq.
    rewrite bool_decide_eq_false_2 by (intros [? ?]; discriminate). reflexivity.
  - rewrite get_mapping_step, set_mapping_mapping, set_mapping_parent,
      lookup_insert_ne by congruence.
    symmetry. apply get_mapping_step.
  - rewrite get_mapping_step, set_mapping_mapping, set_mapping_parent,
      lookup_delete_ne by congruence.
    symmetry. apply get_mapping_step.
  - rewrite is_mapped_step, set_mapping_mapping, set_mapping_parent,
      lookup_insert_ne by congruence.
    symmetry. apply is_mapped_step.
  - rewrite is_mapped_step, set_mapping_mapping, set_mapping_parent,
      lookup_delete_ne by congruence.
    symmetry. apply is_mapped_step.
Qed.

End KeymapManagerFacts.

(** The theorem on a manager over a parent: the key 1 is answered by the
    manager, the key 3 by its parent. *)
Lemma get_mapping_is_mapped_witness :
  (KeymapManager.is_mapped Scenes.keymap 3 0 = true
   <-> is_Some (KeymapManager.get_mapping Scenes.keymap 3 0)) /\
  KeymapManager.get_mapping Scenes.keymap 1 0 = Some [2] /\
  KeymapManager.get_mapping Scenes.keymap 3 0
  = KeymapManager.get_mapping Scenes.parent_keymap 3 0.
Proof.
  destruct (get_mapping_is_mapped Scenes.keymap 3 0) as (Hmapped & _ & Hparent).
  destruct (get_mapping_is_mapped Scenes.keymap 1 0) as (_ & Hown & _).
  split; [exact Hmapped|]. split.
  - apply Hown. reflexivity.
  - apply Hparent. reflexivity.
Defined.

(** The theorem on the same manager: once the key 1 is unmapped, the
    mapping of the parent shows, and the key 3 is answered as before. *)
Lemma map_unmap_key_witness :
  KeymapManager.get_mapping (KeymapManager.unmap_key Scenes.keymap 1 0) 1 0
  = KeymapManager.get_mapping Scenes.parent_keymap 1 0 /\
  KeymapManager.get_mapping (KeymapManager.map_key Scenes.keymap 1 0 [7]) 3 0
  = KeymapManager.get_mapping Scenes.keymap 3 0.
Proof.
  destruct (map_unmap_key Scenes.keymap 1 0 [7]) as (_ & _ & Hunmap & _ & Hother).
  split; [exact Hunmap|].
  apply (Hother 3 0). discriminate.
Defined.

(** * String views *)

Section StringViewFacts.

Lemma substring_length (s : string) : forall n m,
  (n + m <= String.length s)%nat -> String.length (String.substring n m s) = m.
Proof.
  induction s as [|c s IH]; intros n m H; cbn [String.length] in H.
  - destruct n, m; try reflexivity; lia.
  - destruct n as [|n].
    + destruct m as [|m]; [reflexivity|].
      cbn [String.substring String.length]. rewrite IH by lia. reflexivity.
    + cbn [String.substring]. apply IH. lia.
Qed.

Lemma substring_all (s : string) : String.substring 0 (String.length s) s = s.
Proof.
  induction s as [|c s IH]; [reflexivity|].
  cbn [String.length String.substring]. rewrite IH. reflexivity.
Qed.

(** X26.  [StringView::substr] on a string of at most [INT_MAX] bytes: a
    view of [n] bytes from [from] that stays inside the string has exactly
    [n] bytes, a negative length takes everything up to the end, and the view
    of [n] bytes followed by the rest from [from + n] is the view from [from]
    to the end; from 0 with a negative length the view is the whole string.
    A view that starts behind the end of the string is outside the domain
    whatever its length. *)
Theorem substr_parts (s : string) (from n : Z) :
  Z.of_nat (String.length s) <= INT_MAX ->
  0 <= from -> 0 <= n -> from + n <= Z.of_nat (String.length s) ->
  (exists s1 s2,
     StringView.substr s from n = Some s1 /\
     StringView.substr s (from + n) (-1) = Some s2 /\
     StringView.substr s from (-1) = Some (s1 ++ s2)%string /\
     Z.of_nat (String.length s1) = n) /\
  StringView.substr s 0 (-1) = Some s /\
  (forall from' n', Z.of_nat (String.length s) < from' ->
     StringView.substr s from' n' = None).
Proof.
  intros Hmax Hfrom Hn Hin. unfold INT_MAX in Hmax.
  split; [|split].
  - unfold StringView.substr, INT_MAX.
    change (-1 <? 0) with true. cbv iota.
    destruct (Z.ltb_spec n 0); [lia|].
    rewrite (Z.min_l (Z.of_nat (String.length s) - (from + n)) 2147483647) by lia.
    rewrite (Z.min_l (Z.of_nat (String.length s) - from) 2147483647) by lia.
    replace (Z.min (Z.of_nat (String.length s) - from) n) with n by lia.
    destruct (Z.leb_spec 0 from); [|lia].
    destruct (Z.leb_spec 0 n); [|lia].
    destruct (Z.leb_spec 0 (from + n)); [|lia].
    destruct (Z.leb_spec 0 (Z.of_nat (String.length s) - (from + n))); [|lia].
    destruct (Z.leb_spec 0 (Z.of_nat (String.length s) - from)); [|lia].
    cbn [andb]. do 2 eexists.
    split; [reflexivity|]. split; [reflexivity|]. split.
    + replace (Z.to_nat (Z.of_nat (String.length s) - from))
        with (Z.to_nat n + Z.to_nat (Z.of_nat (String.length s) - (from + n)))%nat
        by lia.
      rewrite substring_split. do 3 f_equal. lia.
    + rewrite substring_length by lia. lia.
  - unfold StringView.substr, INT_MAX.
    change (-1 <? 0) with true. cbv iota.
    rewrite Z.sub_0_r, Z.min_l by lia.
    change (0 <=? 0) with true.
    destruct (Z.leb_spec 0 (Z.of_nat (String.length s))); [|lia].
    cbn [andb]. rewrite Nat2Z.id. change (Z.to_nat 0) with 0%nat.
    rewrite substring_all. reflexivity.
  - intros from' n' Hbehind. unfold StringView.substr.
    destruct (Z.leb_spec 0 from'); [|reflexivity].
    destruct (Z.leb_spec 0 (Z.min (Z.of_nat (String.length s) - from')
                              (if n' <? 0 then INT_MAX else n'))); [lia|].
    reflexivity.
Qed.

Lemma substr_parts_witness :
  (exists s1 s2,
     StringView.substr "hello world" 2 3 = Some s1 /\
     StringView.substr "hello world" (2 + 3) (-1) = Some s2 /\
     StringView.substr "hello world" 2 (-1) = Some (s1 ++ s2)%string /\
     Z.of_nat (String.length s1) = 3) /\
  StringView.substr "hello world" 0 (-1) = Some "hello world"%string /\
  (forall from' n', Z.of_nat (String.length "hello world") < from' ->
     StringView.substr "hello world" from' n' = None).
Proof.
  apply (substr_parts "hello world" 2 3);
    [vm_compute; discriminate | lia | lia | vm_compute; discriminate].
Defined.

End StringViewFacts.

(** * The [fill] highlighter *)

Section FillFacts.

Variable get_face : string -> Face.

(** Inside the range that [fill] hands to [highlight_range] no atom is
    split: an atom between the bounds is kept or goes through the callback
    whole. *)
Lemma highlight_atom_whole b e f a :
  (DisplayAtom.has_buffer_range a = true ->
   Coord.le b (DisplayAtom.m_begin a) /\ Coord.le (DisplayAtom.m_end a) e) ->
  highlight_atom b e true f a
  = [if bool_decide (DisplayAtom.m_type a = DisplayAtom.BufferRange)
        && overlaps b e a
     then f a else a].
Proof.
  intros Hin. unfold highlight_atom, DisplayAtom.has_buffer_range,
    DisplayAtom.is_replaced in *.
  destruct (DisplayAtom.m_type a) eqn:Hty; cbn in *; try reflexivity.
  destruct (Hin eq_refl) as [Hb He].
  destruct (overlaps b e a) eqn:Hov; cbn; [|reflexivity].
  unfold highlight_split.
  assert (Coord.ltb (DisplayAtom.m_begin a) b = false) as -> by coord_lia.
  assert (Coord.ltb e (DisplayAtom.m_end a) = false) as -> by coord_lia.
  reflexivity.
Qed.

(** X27.  On a display buffer whose cached range contains its atoms the
    [fill] highlighter returns, keeps the lines and the atoms in number and
    in place, and never splits an atom: every [BufferRange] atom that is not
    empty comes out with the face laid over it, and every text atom and
    every replaced atom comes out as it was (an empty [BufferRange] atom
    comes out either way). *)
Theorem fill_paints facespec context flags d :
  DisplayBuffer.range_contains_atoms d = true ->
  exists lines,
    fill get_face facespec context flags d
    = Some (DisplayBuffer.mk lines (DisplayBuffer.m_range d)) /\
    Forall2 (Forall2 (fun a a' =>
       (DisplayAtom.m_type a = DisplayAtom.BufferRange ->
        Coord.lt (DisplayAtom.m_begin a) (DisplayAtom.m_end a) ->
        a' = apply_face (get_face facespec) a) /\
       (DisplayAtom.m_type a <> DisplayAtom.BufferRange -> a' = a) /\
       (a' = a \/ a' = apply_face (get_face facespec) a)))
      (DisplayBuffer.m_lines d) lines.
Proof.
  intros Hrange. unfold fill.
  set (b := fst (DisplayBuffer.m_range d)).
  set (e := snd (DisplayBuffer.m_range d)).
  destruct (Coord.ltb b e) eqn:Hlt.
  - coord_prep.
    rewrite (highlight_range_result b e true _ Hlt d).
    fold b e.
    assert (Coord.leb e b = false) as -> by coord_lia.
    assert (Coord.leb e b = false) as Hle by coord_lia.
    cbn [orb]. eexists. split; [reflexivity|].
    apply Forall2_fmap_r, Forall_Forall2_diag, Forall_forall.
    intros line Hline. apply list_elem_of_In in Hline.
    unfold compose. rewrite highlight_line_result_spec.
    assert (Hmap : flat_map (highlight_atom b e true (apply_face (get_face facespec))) line
            = map (fun a =>
                     if bool_decide (DisplayAtom.m_type a = DisplayAtom.BufferRange)
                        && overlaps b e a
                     then apply_face (get_face facespec) a else a) line).
    { assert (Hall : forall a, In a line ->
                DisplayAtom.has_buffer_range a = true ->
                Coord.le b (DisplayAtom.m_begin a) /\ Coord.le (DisplayAtom.m_end a) e).
      { intros a Ha Hr. exact (range_contains_atoms_In d line a Hrange Hline Ha Hr). }
      clear Hline. induction line as [|a line IH]; [reflexivity|].
      cbn [flat_map map]. rewrite highlight_atom_whole
        by (apply Hall; left; reflexivity).
      cbn [app]. f_equal. apply IH. intros a' Ha'. apply Hall. right. exact Ha'. }
    rewrite Hmap.
    apply Forall2_fmap_r, Forall_Forall2_diag, Forall_forall.
    intros a Ha. apply list_elem_of_In in Ha. unfold compose.
    split; [|split].
    + intros Hty Hne. rewrite bool_decide_eq_true_2 by exact Hty.
      assert (Hr : DisplayAtom.has_buffer_range a = true)
        by (unfold DisplayAtom.has_buffer_range; rewrite Hty; reflexivity).
      destruct (range_contains_atoms_In d line a Hrange Hline Ha Hr) as [H1 H2].
      fold b e in H1, H2.
      assert (overlaps b e a = true) as ->; [|reflexivity].
      unfold overlaps. apply andb_true_iff. split; coord_lia.
    + intros Hty. rewrite bool_decide_eq_false_2 by exact Hty. reflexivity.
    + destruct (_ && _); auto.
  - exists (DisplayBuffer.m_lines d). split.
    + unfold highlight_range. fold b e.
      assert (Coord.leb e b = true) as -> by coord_lia.
      rewrite orb_true_r. cbn [orb]. destruct d; reflexivity.
    + apply Forall_Forall2_diag, Forall_forall. intros line Hline.
      apply list_elem_of_In in Hline.
      apply Forall_Forall2_diag, Forall_forall. intros a Ha.
      apply list_elem_of_In in Ha.
      split; [|split]; [|reflexivity|left; reflexivity].
      intros Hty Hne. exfalso.
      assert (Hr : DisplayAtom.has_buffer_range a = true)
        by (unfold DisplayAtom.has_buffer_range; rewrite Hty; reflexivity).
      destruct (range_contains_atoms_In d line a Hrange Hline Ha Hr) as [H1 H2].
      fold b e in H1, H2. coord_lia.
Qed.

End FillFacts.

Lemma fill_paints_witness :
  exists lines,
    fill Samples.faces "yellow" (Samples.context_of_lines 2) Highlight
         Samples.one_atom
    = Some (DisplayBuffer.mk lines (DisplayBuffer.m_range Samples.one_atom)) /\
    Forall2 (Forall2 (fun a a' =>
       (DisplayAtom.m_type a = DisplayAtom.BufferRange ->
        Coord.lt (DisplayAtom.m_begin a) (DisplayAtom.m_end a) ->
        a' = apply_face (Samples.faces "yellow") a) /\
       (DisplayAtom.m_type a <> DisplayAtom.BufferRange -> a' = a) /\
       (a' = a \/ a' = apply_face (Samples.faces "yellow") a)))
      (DisplayBuffer.m_lines Samples.one_atom) lines.
Proof.
  apply (fill_paints Samples.faces "yellow" (Samples.context_of_lines 2) Highlight
           Samples.one_atom).
  reflexivity.
Defined.

(** * [apply_highlighter] *)

Lemma coord_le_neq_lt (x y : ByteCoord) :
  Coord.le x y -> x <> y -> Coord.lt x y.
Proof.
  destruct x as [xl xc], y as [yl yc]. unfold Coord.le, Coord.lt. cbn.
  intros H Hne.
  assert (~ (xl = yl /\ xc = yc)) by (intros [-> ->]; apply Hne; reflexivity).
  lia.
Qed.

Section CarveFacts.

Variables (b e : ByteCoord).
Hypothesis b_lt_e : Coord.lt b e.

(** The loop over the atoms, started at any position of a line, cuts the
    atoms from that position on one by one and finds the bounds of
    [carve_bounds]; it needs no more fuel than there are atoms left. *)
Lemma carve_atoms_spec rest : forall pre fuel beg_idx end_idx,
  (length rest <= fuel)%nat ->
  carve_atoms b e fuel (pre ++ rest) (length pre) beg_idx end_idx
  = Some (pre ++ flat_map (cut b e) rest,
          fst (carve_bounds b e rest (length pre) beg_idx end_idx),
          snd (carve_bounds b e rest (length pre) beg_idx end_idx)).
Proof.
  induction rest as [|a rest IH]; intros pre fuel beg_idx end_idx Hfuel.
  - destruct fuel; simpl; rewrite app_nil_r, lookup_ge_None_2 by lia; reflexivity.
  - destruct fuel as [|fuel]; [simpl in Hfuel; lia|].
    simpl in Hfuel. cbn [carve_atoms carve_bounds].
    rewrite list_lookup_middle by reflexivity.
    assert (Hnext1 : forall x bi ei,
      carve_atoms b e fuel (pre ++ x :: rest) (S (length pre)) bi ei
      = Some (pre ++ x :: flat_map (cut b e) rest,
              fst (carve_bounds b e rest (S (length pre)) bi ei),
              snd (carve_bounds b e rest (S (length pre)) bi ei))).
    { intros x bi ei. specialize (IH (pre ++ [x]) fuel bi ei ltac:(lia)).
      rewrite <- !app_assoc, length_app in IH. cbn [length app] in IH.
      rewrite Nat.add_1_r in IH. exact IH. }
    assert (Hnext2 : forall x y bi ei,
      carve_atoms b e fuel (pre ++ x :: y :: rest) (S (S (length pre))) bi ei
      = Some (pre ++ x :: y :: flat_map (cut b e) rest,
              fst (carve_bounds b e rest (S (S (length pre))) bi ei),
              snd (carve_bounds b e rest (S (S (length pre))) bi ei))).
    { intros x y bi ei. specialize (IH (pre ++ [x; y]) fuel bi ei ltac:(lia)).
      rewrite <- !app_assoc, length_app in IH. cbn [length app] in IH.
      replace (length pre + 2)%nat with (S (S (length pre))) in IH by lia.
      exact IH. }
    assert (Hnext3 : forall x y z bi ei,
      carve_atoms b e fuel (pre ++ x :: y :: z :: rest) (S (S (S (length pre)))) bi ei
      = Some (pre ++ x :: y :: z :: flat_map (cut b e) rest,
              fst (carve_bounds b e rest (S (S (S (length pre)))) bi ei),
              snd (carve_bounds b e rest (S (S (S (length pre)))) bi ei))).
    { intros x y z bi ei. specialize (IH (pre ++ [x; y; z]) fuel bi ei ltac:(lia)).
      rewrite <- !app_assoc, length_app in IH. cbn [length app] in IH.
      replace (length pre + 3)%nat with (S (S (S (length pre)))) in IH by lia.
      exact IH. }
    assert (Hsnd : forall x tl, (pre ++ x :: tl) !! S (length pre) = tl !! 0%nat).
    { intros x tl. rewrite lookup_app_r by lia.
      replace (S (length pre) - length pre)%nat with 1%nat by lia. reflexivity. }
    assert (Hsplit2 : forall x y tl pos,
      DisplayAtom.m_type y = DisplayAtom.BufferRange ->
      Coord.lt (DisplayAtom.m_begin y) pos -> Coord.lt pos (DisplayAtom.m_end y) ->
      DisplayLine.split (pre ++ x :: y :: tl) (S (length pre)) pos
      = Some (pre ++ x :: DisplayAtom.set_end pos y :: DisplayAtom.set_begin pos y :: tl)).
    { intros x y tl pos Hy1 Hy2 Hy3.
      pose proof (split_middle (pre ++ [x]) y tl pos Hy1 Hy2 Hy3) as Hs.
      rewrite <- !app_assoc, length_app in Hs. cbn [length app] in Hs.
      rewrite Nat.add_1_r in Hs. exact Hs. }
    cbn [flat_map]. unfold cut at 1. unfold highlight_atom.
    destruct (DisplayAtom.has_buffer_range a) eqn:Hr; cbn [negb orb andb].
    2:{ rewrite Hnext1. reflexivity. }
    unfold overlaps.
    destruct (Coord.leb e (DisplayAtom.m_begin a)) eqn:H1; cbn [orb].
    { assert (Coord.ltb (DisplayAtom.m_begin a) e = false) as -> by coord_lia.
      cbn [andb negb]. rewrite Hnext1. reflexivity. }
    assert (Coord.ltb (DisplayAtom.m_begin a) e = true) as -> by coord_lia.
    destruct (Coord.leb (DisplayAtom.m_end a) b) eqn:H2; cbn [andb negb].
    { assert (Coord.ltb b (DisplayAtom.m_end a) = false) as -> by coord_lia.
      cbn [andb negb]. rewrite Hnext1. reflexivity. }
    assert (Coord.ltb b (DisplayAtom.m_end a) = true) as -> by coord_lia.
    cbn [negb].
    destruct (DisplayAtom.is_replaced a) eqn:Hrep; cbn [negb andb orb].
    { (* a replaced atom is never split *)
      destruct (Coord.leb (DisplayAtom.m_begin a) b) eqn:Hb;
        cbn [mbind option_bind]; rewrite list_lookup_middle by reflexivity;
        cbn [mbind option_bind];
        destruct (Coord.leb e (DisplayAtom.m_end a)) eqn:He;
        cbn [mbind option_bind]; rewrite Hnext1; reflexivity. }
    pose proof (type_of_unreplaced a Hr Hrep) as Hty.
    unfold highlight_split.
    destruct (Coord.ltb (DisplayAtom.m_begin a) b) eqn:Hb.
    + (* the atom straddles [begin] *)
      assert (Coord.leb (DisplayAtom.m_begin a) b = true) as -> by coord_lia.
      assert (Coord.eqb (DisplayAtom.m_begin a) b = false) as ->.
      { apply CoordFacts.eqb_neq. intros Heq. rewrite Heq in Hb. coord_lia. }
      rewrite split_middle by (assumption || coord_lia).
      cbn [mbind option_bind].
      rewrite Hsnd. cbn [lookup list_lookup mbind option_bind].
      cbn [DisplayAtom.set_begin DisplayAtom.m_end].
      destruct (Coord.leb e (DisplayAtom.m_end a)) eqn:He.
      * destruct (Coord.eqb (DisplayAtom.m_end a) e) eqn:Heq.
        -- assert (Coord.ltb e (DisplayAtom.m_end a) = false) as ->.
           { apply CoordFacts.eqb_eq in Heq. rewrite Heq. coord_lia. }
           cbn [mbind option_bind]. rewrite Hnext2. reflexivity.
        -- assert (Coord.ltb e (DisplayAtom.m_end a) = true) as Hlt.
           { apply CoordFacts.eqb_neq in Heq. coord_prep.
             apply coord_le_neq_lt; [exact He | congruence]. }
           rewrite Hlt.
           rewrite Hsplit2 by (cbn; assumption || coord_lia).
           cbn [mbind option_bind]. rewrite Hnext3. reflexivity.
      * assert (Coord.ltb e (DisplayAtom.m_end a) = false) as -> by coord_lia.
        cbn [mbind option_bind]. rewrite Hnext2. reflexivity.
    + (* the atom begins at [begin] or behind it *)
      assert (Hfirst :
        (if Coord.leb (DisplayAtom.m_begin a) b
         then if Coord.eqb (DisplayAtom.m_begin a) b
              then Some (pre ++ a :: rest, length pre, length pre, end_idx)
              else line' ← DisplayLine.split (pre ++ a :: rest) (length pre) b;
                   Some (line', S (length pre), S (length pre), S end_idx)
         else Some (pre ++ a :: rest, length pre, beg_idx, end_idx))
        = Some (pre ++ a :: rest, length pre,
                if Coord.leb (DisplayAtom.m_begin a) b then length pre else beg_idx,
                end_idx)).
      { destruct (Coord.leb (DisplayAtom.m_begin a) b) eqn:Hle; [|reflexivity].
        assert (Coord.eqb (DisplayAtom.m_begin a) b = true) as ->; [|reflexivity].
        apply CoordFacts.eqb_eq. coord_prep.
        apply coord_le_antisym; assumption. }
      rewrite Hfirst. cbn [mbind option_bind].
      rewrite list_lookup_middle by reflexivity. cbn [mbind option_bind].
      destruct (Coord.leb e (DisplayAtom.m_end a)) eqn:He.
      * destruct (Coord.eqb (DisplayAtom.m_end a) e) eqn:Heq.
        -- assert (Coord.ltb e (DisplayAtom.m_end a) = false) as ->.
           { apply CoordFacts.eqb_eq in Heq. rewrite Heq. coord_lia. }
           cbn [mbind option_bind]. rewrite Hnext1. reflexivity.
        -- assert (Coord.ltb e (DisplayAtom.m_end a) = true) as Hlt.
           { apply CoordFacts.eqb_neq in Heq. coord_prep.
             apply coord_le_neq_lt; [exact He | congruence]. }
           rewrite Hlt.
           rewrite split_middle by (assumption || coord_lia).
           cbn [mbind option_bind]. rewrite Hnext2. reflexivity.
      * assert (Coord.ltb e (DisplayAtom.m_end a) = false) as -> by coord_lia.
        cbn [mbind option_bind]. rewrite Hnext1. reflexivity.
Qed.

(** An atom that the loop passes over stays as it is. *)
Lemma cut_skip a :
  negb (DisplayAtom.has_buffer_range a)
  || Coord.leb e (DisplayAtom.m_begin a)
  || Coord.leb (DisplayAtom.m_end a) b = true ->
  cut b e a = [a].
Proof.
  intros H. unfold cut. apply highlight_atom_outside. intros Hr.
  rewrite Hr in H. cbn [negb orb] in H. unfold overlaps.
  apply orb_true_iff in H. destruct H as [H | H].
  - assert (Coord.ltb (DisplayAtom.m_begin a) e = false) as -> by coord_lia.
    reflexivity.
  - assert (Coord.ltb b (DisplayAtom.m_end a) = false) as -> by coord_lia.
    apply andb_false_r.
Qed.

(** The pieces of an atom that reaches into [begin, end): the part in front
    of [begin], if the atom is cut there, the part inside, and the part from
    [end] on, if the atom is cut there. *)
Lemma cut_pieces a :
  negb (DisplayAtom.has_buffer_range a)
  || Coord.leb e (DisplayAtom.m_begin a)
  || Coord.leb (DisplayAtom.m_end a) b = false ->
  let cut_begin :=
    negb (DisplayAtom.is_replaced a) && Coord.ltb (DisplayAtom.m_begin a) b in
  let cut_end :=
    negb (DisplayAtom.is_replaced a) && Coord.ltb e (DisplayAtom.m_end a) in
  let a1 := if cut_begin then DisplayAtom.set_begin b a else a in
  cut b e a
  = (if cut_begin then [DisplayAtom.set_end b a] else [])
    ++ [if cut_end then DisplayAtom.set_end e a1 else a1]
    ++ (if cut_end then [DisplayAtom.set_begin e a1] else []).
Proof.
  intros H. apply orb_false_iff in H. destruct H as [H H2].
  apply orb_false_iff in H. destruct H as [Hr H1].
  apply negb_false_iff in Hr.
  unfold cut, highlight_atom, overlaps. rewrite Hr. cbn [negb andb].
  assert (Coord.ltb (DisplayAtom.m_begin a) e = true) as -> by coord_lia.
  assert (Coord.ltb b (DisplayAtom.m_end a) = true) as -> by coord_lia.
  cbn [negb andb].
  destruct (DisplayAtom.is_replaced a); cbn [negb andb]; [reflexivity|].
  unfold highlight_split.
  destruct (Coord.ltb (DisplayAtom.m_begin a) b);
    cbn [DisplayAtom.set_begin DisplayAtom.m_end];
    destruct (Coord.ltb e (DisplayAtom.m_end a)); reflexivity.
Qed.

Lemma in_order_begins_after rest : forall p,
  atoms_in_order (Some p) rest = true -> Forall (begins_after p) rest.
Proof.
  induction rest as [|a rest IH]; intros p H; [constructor|].
  cbn [atoms_in_order] in H.
  destruct (DisplayAtom.has_buffer_range a) eqn:Hr.
  - apply andb_true_iff in H. destruct H as [H H3].
    apply andb_true_iff in H. destruct H as [H1 H2]. coord_prep.
    constructor; [intros _; exact H1|].
    eapply Forall_impl; [apply IH; exact H3|].
    intros x Hx Hrx. specialize (Hx Hrx).
    eapply CoordOrder.le_trans; [|exact Hx].
    eapply CoordOrder.le_trans; eassumption.
  - constructor; [intros Hr'; congruence | apply IH; exact H].
Qed.

(** Once the loop has come to [end], it passes over the atoms that are
    left. *)
Lemma carve_bounds_closed rest : forall pos beg_idx end_idx,
  Forall (begins_after e) rest ->
  carve_bounds b e rest pos beg_idx end_idx = (beg_idx, end_idx)
  /\ flat_map (cut b e) rest = rest.
Proof.
  induction rest as [|a rest IH]; intros pos beg_idx end_idx H; [split; reflexivity|].
  inversion H as [|? ? Ha Hrest]; subst.
  assert (Hskip : negb (DisplayAtom.has_buffer_range a)
                  || Coord.leb e (DisplayAtom.m_begin a)
                  || Coord.leb (DisplayAtom.m_end a) b = true).
  { destruct (DisplayAtom.has_buffer_range a) eqn:Hr; [|reflexivity].
    specialize (Ha Hr). unfold begins_after in *.
    assert (Coord.leb e (DisplayAtom.m_begin a) = true) as -> by coord_lia.
    reflexivity. }
  cbn [carve_bounds flat_map]. rewrite Hskip, (cut_skip a Hskip).
  destruct (IH (S pos) beg_idx end_idx Hrest) as [-> ->]. split; reflexivity.
Qed.

(** The bounds that the loop finds on a line whose atoms are in order are
    a range of the line. *)
Lemma carve_bounds_range rest : forall pos beg_idx last,
  atoms_in_order last rest = true ->
  (beg_idx <= pos)%nat ->
  (fst (carve_bounds b e rest pos beg_idx (pos + length rest))
   <= snd (carve_bounds b e rest pos beg_idx (pos + length rest)))%nat /\
  (snd (carve_bounds b e rest pos beg_idx (pos + length rest))
   <= pos + length (flat_map (cut b e) rest))%nat.
Proof.
  induction rest as [|a rest IH]; intros pos beg_idx last Hord Hbeg.
  - cbn. lia.
  - cbn [carve_bounds flat_map atoms_in_order length] in *.
    rewrite length_app.
    destruct (negb (DisplayAtom.has_buffer_range a)
              || Coord.leb e (DisplayAtom.m_begin a)
              || Coord.leb (DisplayAtom.m_end a) b) eqn:Hskip.
    + rewrite (cut_skip a Hskip). cbn [length].
      assert (Hord' : exists last', atoms_in_order last' rest = true).
      { destruct (DisplayAtom.has_buffer_range a).
        - apply andb_true_iff in Hord. destruct Hord as [_ H3]. eauto.
        - eauto. }
      destruct Hord' as [last' Hord'].
      specialize (IH (S pos) beg_idx last' Hord' ltac:(lia)).
      replace (pos + S (length rest))%nat with (S pos + length rest)%nat by lia.
      lia.
    + rewrite (cut_pieces a Hskip). cbv zeta.
      apply orb_false_iff in Hskip. destruct Hskip as [Hskip H2].
      apply orb_false_iff in Hskip. destruct Hskip as [Hr H1].
      apply negb_false_iff in Hr. rewrite Hr in Hord.
      apply andb_true_iff in Hord. destruct Hord as [Hord H3].
      apply andb_true_iff in Hord. destruct Hord as [_ Hwf].
      set (cb := negb (DisplayAtom.is_replaced a)
                 && Coord.ltb (DisplayAtom.m_begin a) b).
      set (ce := negb (DisplayAtom.is_replaced a)
                 && Coord.ltb e (DisplayAtom.m_end a)).
      destruct (Coord.leb e (DisplayAtom.m_end a)) eqn:He.
      * (* the atom reaches [end]: the rest is passed over *)
        assert (Hafter : Forall (begins_after e) rest).
        { eapply Forall_impl; [apply in_order_begins_after; exact H3|].
          intros x Hx Hrx. specialize (Hx Hrx).
          eapply CoordOrder.le_trans; [|exact Hx]. coord_lia. }
        match goal with
        | |- context [carve_bounds b e rest ?p ?bi ?ei] =>
            destruct (carve_bounds_closed rest p bi ei Hafter) as [-> ->]
        end.
        cbn [fst snd]. rewrite !length_app.
        destruct cb, ce, (Coord.leb (DisplayAtom.m_begin a) b); cbn [length]; lia.
      * assert (Hce : ce = false).
        { unfold ce. assert (Coord.ltb e (DisplayAtom.m_end a) = false) as ->
            by coord_lia. apply andb_false_r. }
        rewrite Hce.
        set (pos1 := if cb then S pos else pos).
        set (beg1 := if Coord.leb (DisplayAtom.m_begin a) b then pos1 else beg_idx).
        specialize (IH (S pos1) beg1 (Some (DisplayAtom.m_end a)) H3).
        assert (Hb1 : (beg1 <= S pos1)%nat).
        { unfold beg1, pos1. destruct cb, (Coord.leb _ b); lia. }
        specialize (IH Hb1).
        replace (if cb then S (pos + S (length rest)) else (pos + S (length rest))%nat)
          with (S pos1 + length rest)%nat
          by (unfold pos1; destruct cb; lia).
        rewrite !length_app. cbn [length app].
        assert (Hlen : (pos + (length (if cb then [DisplayAtom.set_end b a] else [])
                               + (1 + 0) + length (flat_map (cut b e) rest))
                        = S pos1 + length (flat_map (cut b e) rest))%nat)
          by (unfold pos1; destruct cb; cbn [length]; lia).
        rewrite Hlen. exact IH.
Qed.

(** An atom between [begin] and [end] is not cut. *)
Lemma cut_inside a :
  (DisplayAtom.has_buffer_range a = true ->
   Coord.le b (DisplayAtom.m_begin a) /\ Coord.le (DisplayAtom.m_end a) e) ->
  cut b e a = [a].
Proof.
  intros Hin. unfold cut, highlight_atom.
  destruct (DisplayAtom.has_buffer_range a) eqn:Hr; [|reflexivity].
  destruct (Hin eq_refl) as [Hb He]. cbn [negb andb].
  destruct (overlaps b e a); cbn [negb]; [|reflexivity].
  destruct (DisplayAtom.is_replaced a); [reflexivity|].
  unfold highlight_split.
  assert (Coord.ltb (DisplayAtom.m_begin a) b = false) as -> by coord_lia.
  assert (Coord.ltb e (DisplayAtom.m_end a) = false) as -> by coord_lia.
  reflexivity.
Qed.

(** A line whose range misses [begin, end) has no atom to cut. *)
Lemma cut_misses line :
  misses b e line = true -> flat_map (cut b e) line = line.
Proof.
  intros Hmiss. apply flat_map_singletons. intros a Ha.
  unfold cut. apply highlight_atom_outside. intros Hr.
  destruct (range_contains line a Ha Hr) as [H1 H2].
  unfold misses in Hmiss. unfold overlaps.
  apply orb_true_iff in Hmiss. destruct Hmiss as [Hs | Hs]; coord_prep.
  - assert (Coord.ltb b (DisplayAtom.m_end a) = false) as -> by coord_lia.
    apply andb_false_r.
  - assert (Coord.ltb (DisplayAtom.m_begin a) e = false) as -> by coord_lia.
    reflexivity.
Qed.

(** A line whose range lies between [begin] and [end] has no atom to cut
    either. *)
Lemma cut_whole line :
  Coord.ltb (fst (DisplayLine.range line)) b
  || Coord.ltb e (snd (DisplayLine.range line)) = false ->
  flat_map (cut b e) line = line.
Proof.
  intros H. apply orb_false_iff in H. destruct H as [H1 H2].
  apply flat_map_singletons. intros a Ha. apply cut_inside. intros Hr.
  destruct (range_contains line a Ha Hr) as [H3 H4]. split; coord_lia.
Qed.

(** The step of the first loop on a line that it takes: when the bounds are
    a range of the line, the atoms between them go to the region display,
    the others stay and the insert position is the first bound. *)
Lemma extract_lines_hit line lines line_it st :
  misses b e line = false ->
  (fst (region_bounds b e line) <= snd (region_bounds b e line))%nat ->
  (snd (region_bounds b e line) <= length (flat_map (cut b e) line))%nat ->
  extract_lines b e (line :: lines) line_it st
  = extract_lines b e lines (S line_it)
      (RegionDisplay.mk
         (RegionDisplay.display_lines st ++ [remainder_of b e line])
         (RegionDisplay.region_lines st ++ [region_of b e line])
         (RegionDisplay.insert_pos st ++ [(line_it, fst (region_bounds b e line))])
         (match RegionDisplay.region_lines st with
          | [] => Some line_it
          | _ => RegionDisplay.first_line st
          end)).
Proof.
  intros Hhit Hle1 Hle2. cbn [extract_lines].
  unfold misses in Hhit. rewrite Hhit.
  unfold remainder_of, region_of, region_bounds in *.
  destruct (Coord.ltb (fst (DisplayLine.range line)) b
            || Coord.ltb e (snd (DisplayLine.range line))) eqn:Hout.
  - pose proof (carve_atoms_spec line [] (length line) 0 (length line)
                  ltac:(lia)) as Hc.
    cbn [app length] in Hc. rewrite Hc. cbn [mbind option_bind].
    destruct (carve_bounds b e line 0 0 (length line)) as [bi ei].
    cbn [fst snd] in *.
    destruct (Nat.leb_spec bi ei); [|lia].
    destruct (Nat.leb_spec ei (length (flat_map (cut b e) line))); [|lia].
    reflexivity.
  - rewrite (cut_whole line Hout). cbn [fst snd].
    rewrite Nat.sub_0_r, drop_0, firstn_all, drop_all. reflexivity.
Qed.

Lemma extract_lines_miss line lines line_it st :
  misses b e line = true ->
  extract_lines b e (line :: lines) line_it st
  = extract_lines b e lines (S line_it)
      (RegionDisplay.mk
         (RegionDisplay.display_lines st ++ [line])
         (RegionDisplay.region_lines st)
         (RegionDisplay.insert_pos st)
         (RegionDisplay.first_line st)).
Proof.
  intros Hmiss. cbn [extract_lines]. unfold misses in Hmiss. rewrite Hmiss.
  reflexivity.
Qed.


Lemma extract_lines_misses skipped : forall lines line_it st,
  Forall (fun line => misses b e line = true) skipped ->
  extract_lines b e (skipped ++ lines) line_it st
  = extract_lines b e lines (line_it + length skipped)
      (RegionDisplay.mk
         (RegionDisplay.display_lines st ++ skipped)
         (RegionDisplay.region_lines st)
         (RegionDisplay.insert_pos st)
         (RegionDisplay.first_line st)).
Proof.
  induction skipped as [|line skipped IH]; intros lines line_it st H.
  - cbn [app length]. rewrite Nat.add_0_r, app_nil_r. destruct st; reflexivity.
  - inversion H as [|? ? Hline Hrest]; subst.
    cbn [app]. rewrite (extract_lines_miss _ _ _ _ Hline), (IH _ _ _ Hrest).
    cbn [RegionDisplay.display_lines RegionDisplay.region_lines
         RegionDisplay.insert_pos RegionDisplay.first_line length].
    rewrite <- app_assoc. cbn [app].
    replace (S line_it + length skipped)%nat
      with (line_it + S (length skipped))%nat by lia.
    reflexivity.
Qed.

Lemma extract_lines_hits taken : forall lines line_it st,
  Forall (fun line => misses b e line = false /\ bounds_fit b e line) taken ->
  extract_lines b e (taken ++ lines) line_it st
  = extract_lines b e lines (line_it + length taken)
      (RegionDisplay.mk
         (RegionDisplay.display_lines st ++ map (remainder_of b e) taken)
         (RegionDisplay.region_lines st ++ map (region_of b e) taken)
         (RegionDisplay.insert_pos st
          ++ imap (fun i line => ((line_it + i)%nat, fst (region_bounds b e line)))
                  taken)
         (match RegionDisplay.region_lines st, taken with
          | [], _ :: _ => Some line_it
          | _, _ => RegionDisplay.first_line st
          end)).
Proof.
  induction taken as [|line taken IH]; intros lines line_it st H.
  - cbn [app length map imap]. rewrite Nat.add_0_r, !app_nil_r.
    destruct st as [dl [|] ip fl]; reflexivity.
  - inversion H as [|? ? [Hline [Hfit1 Hfit2]] Hrest]; subst.
    cbn [app]. rewrite (extract_lines_hit _ _ _ _ Hline Hfit1 Hfit2).
    rewrite (IH _ _ _ Hrest).
    cbn [RegionDisplay.display_lines RegionDisplay.region_lines
         RegionDisplay.insert_pos RegionDisplay.first_line length map].
    rewrite <- !app_assoc. cbn [app imap].
    replace (S line_it + length taken)%nat
      with (line_it + S (length taken))%nat by lia.
    rewrite Nat.add_0_r.
    assert (Himap :
      imap (fun i line0 => ((S line_it + i)%nat, fst (region_bounds b e line0))) taken
      = imap ((fun i line0 => ((line_it + i)%nat, fst (region_bounds b e line0))) ∘ S)
             taken).
    { apply imap_ext. intros i x _. unfold compose. f_equal. lia. }
    rewrite Himap.
    f_equal. f_equal.
    destruct (RegionDisplay.region_lines st) as [|r rl]; cbn [app].
    + destruct taken; reflexivity.
    + destruct taken; reflexivity.
Qed.

Lemma insert_atoms_spec atoms : forall line pos,
  (pos <= length line)%nat ->
  insert_atoms line pos atoms
  = (take pos line ++ atoms ++ drop pos line, (pos + length atoms)%nat).
Proof.
  unfold insert_atoms.
  induction atoms as [|a atoms IH]; intros line pos Hpos.
  - cbn. rewrite take_drop, Nat.add_0_r. reflexivity.
  - cbn [fold_left length]. rewrite IH.
    + unfold DisplayLine.insert.
      assert (Hlen : length (take pos line) = pos) by (rewrite length_take; lia).
      assert (Ht : take (S pos) (take pos line ++ a :: drop pos line)
                   = take pos line ++ [a]).
      { rewrite (cons_middle a), app_assoc. apply take_app_length'.
        rewrite length_app, Hlen. cbn. lia. }
      assert (Hd : drop (S pos) (take pos line ++ a :: drop pos line)
                   = drop pos line).
      { rewrite (cons_middle a), app_assoc. apply drop_app_length'.
        rewrite length_app, Hlen. cbn. lia. }
      rewrite Ht, Hd. rewrite <- !app_assoc. cbn [app]. f_equal. lia.
    + unfold DisplayLine.insert. rewrite length_app, length_take. cbn [length].
      rewrite length_drop. lia.
Qed.

(** Putting a region line back into what stayed of its line. *)
Lemma insert_atoms_remainder line region :
  bounds_fit b e line ->
  fst (insert_atoms (remainder_of b e line) (fst (region_bounds b e line)) region)
  = splice b e line region.
Proof.
  intros [Hfit1 Hfit2]. unfold remainder_of, splice.
  destruct (region_bounds b e line) as [bi ei]. cbn [fst snd] in *.
  assert (Hlen : length (take bi (flat_map (cut b e) line)) = bi)
    by (rewrite length_take; lia).
  rewrite insert_atoms_spec by (rewrite length_app, Hlen; lia).
  cbn [fst].
  rewrite <- Hlen at 1. rewrite take_app_length.
  rewrite <- Hlen at 2. rewrite drop_app_length. reflexivity.
Qed.

(** The second loop puts the region lines back, each into the line it was
    taken from. *)
Lemma restore_lines_spec front back taken : forall regions done positions,
  length regions = length taken ->
  length positions = length done ->
  Forall (bounds_fit b e) taken ->
  restore_lines regions (length done) (Some (length front))
    (positions
     ++ imap (fun i line => ((length front + length done + i)%nat,
                             fst (region_bounds b e line))) taken)
    (front ++ done ++ map (remainder_of b e) taken ++ back)
  = Some (front ++ done ++ zip_with (splice b e) taken regions ++ back).
Proof.
  induction taken as [|line taken IH]; intros regions done positions Hlen Hpos Hfit.
  - destruct regions; [|discriminate]. reflexivity.
  - destruct regions as [|region regions]; [discriminate|].
    inversion Hfit as [|? ? Hline Hrest]; subst.
    cbn [restore_lines imap map zip_with].
    assert (Hip : forall tl x, (positions ++ x :: tl) !! length done
                               = Some (x : nat * nat)).
    { intros tl x. rewrite <- Hpos. apply list_lookup_middle. reflexivity. }
    rewrite Hip. cbn [mbind option_bind].
    assert (Hline_at : forall (x : DisplayLine) tl,
              (front ++ done ++ (x :: tl) ++ back) !! (length front + length done)%nat
              = Some x).
    { intros x tl. rewrite app_assoc.
      replace (length front + length done)%nat with (length (front ++ done))
        by (rewrite length_app; reflexivity).
      apply list_lookup_middle. reflexivity. }
    rewrite Hline_at. cbn [mbind option_bind].
    rewrite bool_decide_eq_true_2 by lia.
    rewrite (insert_atoms_remainder line region Hline).
    assert (Hins : forall (x y : DisplayLine) tl,
              <[(length front + length done)%nat := y]>
                (front ++ done ++ (x :: tl) ++ back)
              = front ++ done ++ (y :: tl) ++ back).
    { intros x y tl. rewrite !(app_assoc front done).
      replace (length front + length done)%nat with (length (front ++ done) + 0)%nat
        by (rewrite length_app; lia).
      rewrite insert_app_r. reflexivity. }
    rewrite Hins.
    specialize (IH regions (done ++ [splice b e line region])
                  (positions ++ [((length front + length done + 0)%nat,
                                  fst (region_bounds b e line))])).
    rewrite !length_app in IH. cbn [length] in IH.
    specialize (IH ltac:(cbn in Hlen; lia) ltac:(lia) Hrest).
    rewrite <- !app_assoc in IH. cbn [app] in IH.
    replace (S (length done)) with (length done + 1)%nat by lia.
    cbn [app].
    assert (Himap :
      imap ((fun i line0 => ((length front + length done + i)%nat,
                             fst (region_bounds b e line0))) ∘ S) taken
      = imap (fun i line0 => ((length front + (length done + 1) + i)%nat,
                              fst (region_bounds b e line0))) taken).
    { apply imap_ext. intros i x _. unfold compose. f_equal. lia. }
    rewrite Himap. exact IH.
Qed.

End CarveFacts.

Section CarveParts.

Variables (b e : ByteCoord).
Hypothesis b_lt_e : Coord.lt b e.

Lemma contiguous_in_order line : forall last,
  atoms_contiguous last line = true -> atoms_in_order last line = true.
Proof.
  induction line as [|a line IH]; intros last H; [reflexivity|].
  cbn [atoms_contiguous atoms_in_order] in *.
  destruct (DisplayAtom.has_buffer_range a); [|apply IH; exact H].
  apply andb_true_iff in H. destruct H as [H H3].
  apply andb_true_iff in H. destruct H as [H1 H2].
  rewrite H2, (IH _ H3), !andb_true_r.
  destruct last as [p|]; [|reflexivity].
  apply CoordFacts.eqb_eq in H1. subst p. coord_prep. apply CoordOrder.le_refl.
Qed.

Lemma text_ends_before p a :
  DisplayAtom.has_buffer_range a = false -> ends_before p a.
Proof. intros H Hr. congruence. Qed.

Lemma text_lies_inside a :
  DisplayAtom.has_buffer_range a = false -> lies_inside b e a.
Proof.
  intros H Hty. unfold DisplayAtom.has_buffer_range in H. rewrite Hty in H.
  discriminate.
Qed.

(** The piece of an atom in front of [end] lies inside [begin, end] when
    the atom begins at [begin] or later; an atom that is not cut although it
    reaches behind [end] is a replaced atom. *)
Lemma piece_lies_inside a (cut_end : bool) :
  (DisplayAtom.is_replaced a = true \/ cut_end = true
   \/ (cut_end = false /\ Coord.le (DisplayAtom.m_end a) e)) ->
  Coord.le b (DisplayAtom.m_begin a) ->
  lies_inside b e (if cut_end then DisplayAtom.set_end e a else a).
Proof.
  intros H Hb Hty. destruct cut_end.
  - cbn in *. split; [exact Hb | apply CoordOrder.le_refl].
  - destruct H as [H | [H | [_ H]]].
    + unfold DisplayAtom.is_replaced in H. rewrite Hty in H. discriminate.
    + discriminate.
    + split; assumption.
Qed.

(** Behind [begin]: the atoms that follow an atom that ends inside
    [begin, end) go to the region up to the one that reaches [end]. *)
Lemma carve_bounds_inside rest : forall front region p pos,
  atoms_contiguous (Some p) rest = true ->
  Coord.lt b p -> Coord.lt p e ->
  Forall (ends_before b) front ->
  Forall (lies_inside b e) region ->
  pos = length (front ++ region) ->
  carved b e (front ++ region ++ flat_map (cut b e) rest)
         (carve_bounds b e rest pos (length front) (pos + length rest)).
Proof.
  induction rest as [|a rest IH]; intros front region p pos Hcont Hbp Hpe HF HR ->.
  - cbn. exists front, region, []. rewrite !app_nil_r, Nat.add_0_r. auto.
  - cbn [atoms_contiguous] in Hcont. cbn [carve_bounds flat_map length].
    destruct (DisplayAtom.has_buffer_range a) eqn:Hr.
    + apply andb_true_iff in Hcont. destruct Hcont as [Hcont H3].
      apply andb_true_iff in Hcont. destruct Hcont as [Heq Hwf].
      apply CoordFacts.eqb_eq in Heq. subst p. coord_prep.
      assert (Hskip : negb (DisplayAtom.has_buffer_range a)
                      || Coord.leb e (DisplayAtom.m_begin a)
                      || Coord.leb (DisplayAtom.m_end a) b = false).
      { rewrite Hr. cbn [negb orb].
        assert (Coord.leb e (DisplayAtom.m_begin a) = false) as -> by coord_lia.
        assert (Coord.leb (DisplayAtom.m_end a) b = false) as -> by coord_lia.
        reflexivity. }
      rewrite (cut_pieces b e a Hskip). rewrite Hr in Hskip.
      cbn [negb orb] in Hskip |- *. rewrite Hskip. cbv zeta.
      assert (Coord.ltb (DisplayAtom.m_begin a) b = false) as -> by coord_lia.
      assert (Coord.leb (DisplayAtom.m_begin a) b = false) as -> by coord_lia.
      rewrite andb_false_r. cbn [app].
      destruct (Coord.leb e (DisplayAtom.m_end a)) eqn:He.
      * (* the atom reaches [end] *)
        assert (Hafter : Forall (begins_after e) rest).
        { eapply Forall_impl;
            [apply in_order_begins_after, contiguous_in_order; exact H3|].
          intros x Hx Hrx. specialize (Hx Hrx).
          eapply CoordOrder.le_trans; [|exact Hx]. coord_lia. }
        match goal with
        | |- context [carve_bounds b e rest ?p ?bi ?ei] =>
            destruct (carve_bounds_closed b e rest p bi ei Hafter) as [-> ->]
        end.
        set (ce := negb (DisplayAtom.is_replaced a)
                   && Coord.ltb e (DisplayAtom.m_end a)).
        exists front,
          (region ++ [if ce then DisplayAtom.set_end e a else a]),
          ((if ce then [DisplayAtom.set_begin e a] else []) ++ rest).
        split; [rewrite <- !app_assoc; reflexivity|].
        split; [rewrite !length_app; cbn [length]; f_equal; lia|].
        split; [exact HF|]. split.
        -- apply Forall_app. split; [exact HR|]. constructor; [|constructor].
           apply (piece_lies_inside a ce); [|coord_lia].
           unfold ce. destruct (DisplayAtom.is_replaced a); [left; reflexivity|].
           destruct (Coord.ltb e (DisplayAtom.m_end a)) eqn:Hlt;
             [right; left; reflexivity
             | right; right; split; [reflexivity | coord_lia]].
        -- apply Forall_app. split; [|exact Hafter].
           destruct ce; constructor; [|constructor].
           intros _. cbn. coord_lia.
      * assert (Coord.ltb e (DisplayAtom.m_end a) = false) as -> by coord_lia.
        rewrite andb_false_r. cbn [app].
        specialize (IH front (region ++ [a]) (DisplayAtom.m_end a)
                      (S (length (front ++ region))) H3).
        rewrite <- !app_assoc in IH. cbn [app] in IH.
        replace (length (front ++ region) + S (length rest))%nat
          with (S (length (front ++ region)) + length rest)%nat by lia.
        apply IH.
        -- coord_lia.
        -- coord_lia.
        -- exact HF.
        -- apply Forall_app. split; [exact HR|]. constructor; [|constructor].
           intros _. split; coord_lia.
        -- rewrite !length_app. cbn [length]. lia.
    + assert (Hskip : negb (DisplayAtom.has_buffer_range a)
                      || Coord.leb e (DisplayAtom.m_begin a)
                      || Coord.leb (DisplayAtom.m_end a) b = true)
        by (rewrite Hr; reflexivity).
      rewrite (cut_skip b e a Hskip). cbn [negb orb app].
      specialize (IH front (region ++ [a]) p (S (length (front ++ region))) Hcont).
      rewrite <- !app_assoc in IH. cbn [app] in IH.
      replace (length (front ++ region) + S (length rest))%nat
        with (S (length (front ++ region)) + length rest)%nat by lia.
      apply IH; try assumption.
      * apply Forall_app. split; [exact HR|]. constructor; [|constructor].
        apply text_lies_inside. exact Hr.
      * rewrite !length_app. cbn [length]. lia.
Qed.

(** In front of [begin]: the loop passes over the atoms that end before
    [begin], and the atom that reaches behind [begin] is the first atom of the
    region, or its piece from [begin] on. *)
Lemma carve_bounds_before rest : forall seen p pos beg_idx,
  atoms_contiguous (Some p) rest = true ->
  Coord.le p b ->
  Forall (ends_before b) seen ->
  Exists (fun a => DisplayAtom.has_buffer_range a = true
                   /\ Coord.lt b (DisplayAtom.m_end a)) rest ->
  pos = length seen ->
  carved b e (seen ++ flat_map (cut b e) rest)
         (carve_bounds b e rest pos beg_idx (pos + length rest)).
Proof.
  induction rest as [|a rest IH]; intros seen p pos beg_idx Hcont Hp HS Hreach ->.
  - inversion Hreach.
  - cbn [atoms_contiguous] in Hcont. cbn [carve_bounds flat_map length].
    destruct (DisplayAtom.has_buffer_range a) eqn:Hr.
    + apply andb_true_iff in Hcont. destruct Hcont as [Hcont H3].
      apply andb_true_iff in Hcont. destruct Hcont as [Heq Hwf].
      apply CoordFacts.eqb_eq in Heq. subst p. coord_prep.
      cbn [negb orb].
      assert (Coord.leb e (DisplayAtom.m_begin a) = false) as H1 by coord_lia.
      rewrite H1. cbn [orb].
      destruct (Coord.leb (DisplayAtom.m_end a) b) eqn:H2.
      * (* the atom ends before [begin] *)
        rewrite (cut_skip b e a) by (rewrite Hr, H1, H2; reflexivity).
        cbn [app].
        specialize (IH (seen ++ [a]) (DisplayAtom.m_end a) (S (length seen))
                      beg_idx H3).
        rewrite <- !app_assoc in IH. cbn [app] in IH.
        replace (length seen + S (length rest))%nat
          with (S (length seen) + length rest)%nat by lia.
        apply IH.
        -- coord_lia.
        -- apply Forall_app. split; [exact HS|]. constructor; [|constructor].
           intros _. coord_lia.
        -- inversion Hreach as [? ? [_ Hlt] | ? ? Htl]; subst;
             [coord_lia | exact Htl].
        -- rewrite length_app. cbn [length]. lia.
      * (* the atom reaches behind [begin] *)
        rewrite (cut_pieces b e a) by (rewrite Hr, H1, H2; reflexivity).
        cbv zeta.
        assert (Coord.leb (DisplayAtom.m_begin a) b = true) as -> by coord_lia.
        set (cb := negb (DisplayAtom.is_replaced a)
                   && Coord.ltb (DisplayAtom.m_begin a) b).
        set (ce := negb (DisplayAtom.is_replaced a)
                   && Coord.ltb e (DisplayAtom.m_end a)).
        set (a1 := if cb then DisplayAtom.set_begin b a else a).
        set (pos1 := if cb then S (length seen) else length seen).
        set (front := seen ++ (if cb then [DisplayAtom.set_end b a] else [])).
        assert (Hfront : Forall (ends_before b) front).
        { apply Forall_app. split; [exact HS|].
          destruct cb; constructor; [|constructor].
          intros _. cbn. apply CoordOrder.le_refl. }
        assert (Hlenf : length front = pos1).
        { unfold front, pos1. rewrite length_app. destruct cb; cbn [length]; lia. }
        assert (Hend1 : DisplayAtom.m_end a1 = DisplayAtom.m_end a)
          by (unfold a1; destruct cb; reflexivity).
        assert (Hrep1 : DisplayAtom.is_replaced a1 = DisplayAtom.is_replaced a)
          by (unfold a1; destruct cb; reflexivity).
        assert (Hbeg1 : DisplayAtom.is_replaced a = false ->
                        Coord.le b (DisplayAtom.m_begin a1)).
        { intros Hrep. unfold a1, cb. rewrite Hrep. cbn [negb andb].
          destruct (Coord.ltb (DisplayAtom.m_begin a) b) eqn:Hlt;
            [cbn; apply CoordOrder.le_refl | coord_lia]. }
        destruct (Coord.leb e (DisplayAtom.m_end a)) eqn:He.
        -- (* and reaches [end] as well *)
           assert (Hafter : Forall (begins_after e) rest).
           { eapply Forall_impl;
               [apply in_order_begins_after, contiguous_in_order; exact H3|].
             intros x Hx Hrx. specialize (Hx Hrx).
             eapply CoordOrder.le_trans; [|exact Hx]. coord_lia. }
           match goal with
           | |- context [carve_bounds b e rest ?p ?bi ?ei] =>
               destruct (carve_bounds_closed b e rest p bi ei Hafter) as [-> ->]
           end.
           exists front, [if ce then DisplayAtom.set_end e a1 else a1],
             ((if ce then [DisplayAtom.set_begin e a1] else []) ++ rest).
           split; [unfold front; rewrite <- !app_assoc; reflexivity|].
           split; [rewrite length_app, Hlenf; cbn [length]; f_equal; lia|].
           split; [exact Hfront|]. split.
           ++ constructor; [|constructor].
              destruct (DisplayAtom.is_replaced a) eqn:Hrep.
              ** intros Hty. exfalso.
                 assert (Hty1 : DisplayAtom.m_type a1 = DisplayAtom.BufferRange)
                   by (destruct ce; exact Hty).
                 unfold DisplayAtom.is_replaced in Hrep1. rewrite Hty1 in Hrep1.
                 discriminate.
              ** apply (piece_lies_inside a1 ce); [|apply Hbeg1; reflexivity].
                 unfold ce. cbn [negb andb].
                 destruct (Coord.ltb e (DisplayAtom.m_end a)) eqn:Hlt;
                   [right; left; reflexivity
                   | right; right; split; [reflexivity | rewrite Hend1; coord_lia]].
           ++ apply Forall_app. split; [|exact Hafter].
              destruct ce; constructor; [|constructor].
              intros _. cbn. apply CoordOrder.le_refl.
        -- (* and ends inside *)
           assert (Hce : ce = false).
           { unfold ce. assert (Coord.ltb e (DisplayAtom.m_end a) = false) as ->
               by coord_lia. apply andb_false_r. }
           rewrite Hce. cbn [app].
           pose proof (carve_bounds_inside rest front [a1] (DisplayAtom.m_end a)
                         (S pos1) H3) as Hin.
           rewrite Hlenf in Hin.
           assert (Hlist : seen ++ ((if cb then [DisplayAtom.set_end b a] else [])
                                    ++ [a1]) ++ flat_map (cut b e) rest
                           = front ++ [a1] ++ flat_map (cut b e) rest)
             by (unfold front; rewrite <- !app_assoc; reflexivity).
           rewrite Hlist.
           replace (if cb then S (length seen + S (length rest))
                    else (length seen + S (length rest))%nat)
             with (S pos1 + length rest)%nat
             by (unfold pos1; destruct cb; lia).
           apply Hin.
           ++ coord_lia.
           ++ coord_lia.
           ++ exact Hfront.
           ++ constructor; [|constructor]. intros Hty.
              assert (Hrep : DisplayAtom.is_replaced a = false).
              { rewrite <- Hrep1. unfold DisplayAtom.is_replaced. rewrite Hty.
                reflexivity. }
              split; [apply Hbeg1; exact Hrep | rewrite Hend1; coord_lia].
           ++ rewrite length_app, Hlenf. cbn [length]. lia.
    + assert (Hskip : negb (DisplayAtom.has_buffer_range a)
                      || Coord.leb e (DisplayAtom.m_begin a)
                      || Coord.leb (DisplayAtom.m_end a) b = true)
        by (rewrite Hr; reflexivity).
      rewrite (cut_skip b e a Hskip). cbn [negb orb app].
      specialize (IH (seen ++ [a]) p (S (length seen)) beg_idx Hcont Hp).
      rewrite <- !app_assoc in IH. cbn [app] in IH.
      replace (length seen + S (length rest))%nat
        with (S (length seen) + length rest)%nat by lia.
      apply IH.
      * apply Forall_app. split; [exact HS|]. constructor; [|constructor].
        apply text_ends_before. exact Hr.
      * inversion Hreach as [? ? [Hra _] | ? ? Htl]; subst;
          [congruence | exact Htl].
      * rewrite length_app. cbn [length]. lia.
Qed.

(** From the begin of a line that the range reaches: the atoms without a
    buffer range in front of the first atom that has one stay with it. *)
Lemma carve_bounds_start rest : forall seen pos,
  atoms_contiguous None rest = true ->
  Forall (fun a => DisplayAtom.has_buffer_range a = false) seen ->
  Exists (fun a => DisplayAtom.has_buffer_range a = true
                   /\ Coord.lt b (DisplayAtom.m_end a)) rest ->
  Exists (fun a => DisplayAtom.has_buffer_range a = true
                   /\ Coord.lt (DisplayAtom.m_begin a) e) rest ->
  pos = length seen ->
  carved b e (seen ++ flat_map (cut b e) rest)
         (carve_bounds b e rest pos 0 (pos + length rest)).
Proof.
  induction rest as [|a rest IH]; intros seen pos Hcont HS Hreach Hstart ->.
  - inversion Hreach.
  - destruct (DisplayAtom.has_buffer_range a) eqn:Hr.
    + pose proof Hcont as Hcont0.
      cbn [atoms_contiguous] in Hcont. rewrite Hr in Hcont.
      apply andb_true_iff in Hcont. destruct Hcont as [Hcont H3].
      apply andb_true_iff in Hcont. destruct Hcont as [_ Hwf].
      coord_prep.
      assert (Hbe : Coord.lt (DisplayAtom.m_begin a) e).
      { inversion Hstart as [? ? [_ Hlt] | ? ? Htl]; subst; [exact Hlt|].
        apply Exists_exists in Htl. destruct Htl as (x & Hx & Hrx & Hlt).
        pose proof (in_order_begins_after rest _ (contiguous_in_order _ _ H3))
          as Hafter.
        rewrite Forall_forall in Hafter. specialize (Hafter x Hx Hrx).
        coord_lia. }
      assert (Hcont1 : atoms_contiguous (Some (DisplayAtom.m_begin a)) (a :: rest)
                       = true).
      { cbn [atoms_contiguous]. rewrite Hr, H3.
        assert (Coord.eqb (DisplayAtom.m_begin a) (DisplayAtom.m_begin a) = true)
          as -> by (apply CoordFacts.eqb_eq; reflexivity).
        assert (Coord.leb (DisplayAtom.m_begin a) (DisplayAtom.m_end a) = true)
          as -> by coord_lia.
        reflexivity. }
      destruct (Coord.leb (DisplayAtom.m_begin a) b) eqn:Hb.
      * apply (carve_bounds_before (a :: rest) seen (DisplayAtom.m_begin a));
          [exact Hcont1 | coord_lia | | exact Hreach | reflexivity].
        eapply Forall_impl; [exact HS|]. intros x Hx. apply text_ends_before.
        exact Hx.
      * pose proof (carve_bounds_inside (a :: rest) [] seen (DisplayAtom.m_begin a)
                      (length seen) Hcont1) as Hin.
        cbn [app length] in Hin. apply Hin.
        -- coord_lia.
        -- exact Hbe.
        -- constructor.
        -- eapply Forall_impl; [exact HS|]. intros x Hx.
           apply text_lies_inside. exact Hx.
        -- reflexivity.
    + cbn [atoms_contiguous] in Hcont. rewrite Hr in Hcont.
      cbn [carve_bounds flat_map length].
      assert (Hskip : negb (DisplayAtom.has_buffer_range a)
                      || Coord.leb e (DisplayAtom.m_begin a)
                      || Coord.leb (DisplayAtom.m_end a) b = true)
        by (rewrite Hr; reflexivity).
      rewrite (cut_skip b e a Hskip), Hskip. cbn [app].
      specialize (IH (seen ++ [a]) (S (length seen)) Hcont).
      rewrite <- !app_assoc in IH. cbn [app] in IH.
      replace (length seen + S (length rest))%nat
        with (S (length seen) + length rest)%nat by lia.
      apply IH.
      * apply Forall_app. split; [exact HS|]. constructor; [exact Hr|constructor].
      * inversion Hreach as [? ? [Hra _] | ? ? Htl]; subst;
          [congruence | exact Htl].
      * inversion Hstart as [? ? [Hra _] | ? ? Htl]; subst;
          [congruence | exact Htl].
      * rewrite length_app. cbn [length]. lia.
Qed.

(** The range of a line is the sentinel of the header or is reached by
    an atom of the line. *)
Lemma range_fold_attained l : forall r0,
  let r := fold_left
    (fun r a =>
       if DisplayAtom.has_buffer_range a
       then (Coord.min (fst r) (DisplayAtom.m_begin a),
             Coord.max (snd r) (DisplayAtom.m_end a))
       else r) l r0 in
  (fst r = fst r0 \/
   exists a, In a l /\ DisplayAtom.has_buffer_range a = true
             /\ fst r = DisplayAtom.m_begin a) /\
  (snd r = snd r0 \/
   exists a, In a l /\ DisplayAtom.has_buffer_range a = true
             /\ snd r = DisplayAtom.m_end a).
Proof.
  induction l as [|x l IH]; intros r0; cbn [fold_left].
  - cbv zeta. auto.
  - cbv zeta.
    specialize (IH (if DisplayAtom.has_buffer_range x
                    then (Coord.min (fst r0) (DisplayAtom.m_begin x),
                          Coord.max (snd r0) (DisplayAtom.m_end x))
                    else r0)).
    cbv zeta in IH. destruct IH as [IH1 IH2].
    destruct (DisplayAtom.has_buffer_range x) eqn:Hx; cbn [fst snd] in *.
    + split.
      * destruct IH1 as [-> | (a & Ha & Hr & ->)].
        -- unfold Coord.min. destruct (Coord.ltb _ _); [right | left; reflexivity].
           exists x. split; [left; reflexivity | auto].
        -- right. exists a. split; [right; exact Ha | auto].
      * destruct IH2 as [-> | (a & Ha & Hr & ->)].
        -- unfold Coord.max. destruct (Coord.ltb _ _); [right | left; reflexivity].
           exists x. split; [left; reflexivity | auto].
        -- right. exists a. split; [right; exact Ha | auto].
    + split.
      * destruct IH1 as [-> | (a & Ha & Hr & ->)]; [left; reflexivity|].
        right. exists a. split; [right; exact Ha | auto].
      * destruct IH2 as [-> | (a & Ha & Hr & ->)]; [left; reflexivity|].
        right. exists a. split; [right; exact Ha | auto].
Qed.

(** A line that the range reaches has an atom that ends behind [begin] and
    an atom that begins in front of [end]. *)
Lemma hit_reaches line :
  Coord.le (mkCoord INT_MIN INT_MIN) b ->
  Coord.le e (mkCoord INT_MAX INT_MAX) ->
  misses b e line = false ->
  Exists (fun a => DisplayAtom.has_buffer_range a = true
                   /\ Coord.lt b (DisplayAtom.m_end a)) line /\
  Exists (fun a => DisplayAtom.has_buffer_range a = true
                   /\ Coord.lt (DisplayAtom.m_begin a) e) line.
Proof.
  intros Hmin Hmax Hhit. unfold misses in Hhit.
  apply orb_false_iff in Hhit. destruct Hhit as [H1 H2]. coord_prep.
  destruct (range_fold_attained line (mkCoord INT_MAX INT_MAX, mkCoord INT_MIN INT_MIN))
    as [Hfst Hsnd].
  fold (DisplayLine.range line) in Hfst, Hsnd. cbn [fst snd] in Hfst, Hsnd.
  split.
  - destruct Hsnd as [Hs | (a & Ha & Hr & Hs)].
    + rewrite Hs in H1. exfalso. coord_lia.
    + apply Exists_exists. exists a.
      split; [apply list_elem_of_In; exact Ha|]. split; [exact Hr|].
      rewrite <- Hs. exact H1.
  - destruct Hfst as [Hs | (a & Ha & Hr & Hs)].
    + rewrite Hs in H2. exfalso. coord_lia.
    + apply Exists_exists. exists a.
      split; [apply list_elem_of_In; exact Ha|]. split; [exact Hr|].
      rewrite <- Hs. exact H2.
Qed.

(** The bounds of a line that the range reaches part its atoms in those in
    front of [begin], those inside [begin, end] and those behind [end]. *)
Lemma region_bounds_carved line :
  Coord.le (mkCoord INT_MIN INT_MIN) b ->
  Coord.le e (mkCoord INT_MAX INT_MAX) ->
  misses b e line = false ->
  atoms_contiguous None line = true ->
  carved b e (flat_map (cut b e) line) (region_bounds b e line).
Proof.
  intros Hmin Hmax Hhit Hcont. unfold region_bounds.
  destruct (_ || _) eqn:Hout.
  - destruct (hit_reaches line Hmin Hmax Hhit) as [Hreach Hstart].
    exact (carve_bounds_start line [] 0 Hcont (Forall_nil_2 _) Hreach Hstart eq_refl).
  - rewrite (cut_whole b e line Hout).
    exists [], line, []. rewrite app_nil_r. cbn [app length].
    split; [reflexivity|]. split; [reflexivity|]. split; [constructor|].
    split; [|constructor].
    apply orb_false_iff in Hout. destruct Hout as [H1 H2].
    apply Forall_forall. intros a Ha Hty. apply list_elem_of_In in Ha.
    assert (Hr : DisplayAtom.has_buffer_range a = true)
      by (unfold DisplayAtom.has_buffer_range; rewrite Hty; reflexivity).
    destruct (range_contains line a Ha Hr) as [H3 H4]. split; coord_lia.
Qed.

End CarveParts.

Section ApplyHighlighterFacts.

Variable compute_range : list DisplayLine -> BufferRange.
Variables (b e : ByteCoord).
Hypothesis b_lt_e : Coord.lt b e.

Lemma in_order_bounds_fit line :
  atoms_in_order None line = true -> bounds_fit b e line.
Proof.
  intros Hord. unfold bounds_fit, region_bounds.
  destruct (_ || _) eqn:Hout.
  - pose proof (carve_bounds_range b e line 0 0 None Hord ltac:(lia)) as H.
    cbn [Nat.add] in H. exact H.
  - rewrite (cut_whole b e line Hout). cbn [fst snd]. lia.
Qed.

(** The atoms that went to the region display, put back unchanged, give the
    line after the cuts. *)
Lemma splice_region line :
  bounds_fit b e line -> splice b e line (region_of b e line) = flat_map (cut b e) line.
Proof.
  intros [Hfit1 Hfit2]. unfold splice, region_of.
  destruct (region_bounds b e line) as [bi ei]. cbn [fst snd] in *.
  replace (drop ei (flat_map (cut b e) line))
    with (drop (ei - bi) (drop bi (flat_map (cut b e) line)))
    by (rewrite drop_drop; f_equal; lia).
  rewrite take_drop, take_drop. reflexivity.
Qed.

(** What the first loop leaves on a display buffer whose lines in reach of
    the range follow one another. *)
Lemma extract_lines_phases front taken back :
  Forall (fun line => misses b e line = true) front ->
  Forall (fun line => misses b e line = false /\ bounds_fit b e line) taken ->
  Forall (fun line => misses b e line = true) back ->
  extract_lines b e (front ++ taken ++ back) 0 RegionDisplay.empty
  = Some (RegionDisplay.mk
            (front ++ map (remainder_of b e) taken ++ back)
            (map (region_of b e) taken)
            (imap (fun i line => ((length front + length (@nil DisplayLine) + i)%nat,
                                  fst (region_bounds b e line))) taken)
            (match taken with [] => None | _ => Some (length front) end)).
Proof.
  intros Hfront Htaken Hback.
  rewrite (extract_lines_misses b e front _ _ _ Hfront).
  rewrite (extract_lines_hits b e b_lt_e taken _ _ _ Htaken).
  rewrite <- (app_nil_r back) at 1.
  rewrite (extract_lines_misses b e back _ _ _ Hback).
  cbn [extract_lines RegionDisplay.display_lines RegionDisplay.region_lines
       RegionDisplay.insert_pos RegionDisplay.first_line RegionDisplay.empty
       app length].
  rewrite <- app_assoc.
  assert (Himap :
    imap (fun i line => ((0 + length front + i)%nat, fst (region_bounds b e line))) taken
    = imap (fun i line => ((length front + 0 + i)%nat, fst (region_bounds b e line)))
           taken).
  { apply imap_ext. intros i x _. f_equal. lia. }
  rewrite Himap. destruct taken; reflexivity.
Qed.

(** Region lines, as many as were taken, are put where the taken atoms
    were. *)
Lemma restore_regions_any front taken back regions :
  length regions = length taken ->
  Forall (bounds_fit b e) taken ->
  restore_lines regions 0
    (match taken with [] => None | _ => Some (length front) end)
    (imap (fun i line => ((length front + length (@nil DisplayLine) + i)%nat,
                          fst (region_bounds b e line))) taken)
    (front ++ map (remainder_of b e) taken ++ back)
  = Some (front ++ zip_with (splice b e) taken regions ++ back).
Proof.
  intros Hlen Hfit.
  pose proof (restore_lines_spec b e front back taken regions [] []
                Hlen eq_refl Hfit) as Hrestore.
  cbn [app] in Hrestore.
  destruct taken; [|exact Hrestore].
  destruct regions; [reflexivity | discriminate].
Qed.

(** Regions that come back as they went are put back where they were. *)
Lemma restore_regions front taken back :
  Forall (bounds_fit b e) taken ->
  restore_lines (map (region_of b e) taken) 0
    (match taken with [] => None | _ => Some (length front) end)
    (imap (fun i line => ((length front + length (@nil DisplayLine) + i)%nat,
                          fst (region_bounds b e line))) taken)
    (front ++ map (remainder_of b e) taken ++ back)
  = Some (front ++ map (flat_map (cut b e)) taken ++ back).
Proof.
  intros Hfit.
  assert (Hzip : zip_with (splice b e) taken (map (region_of b e) taken)
                 = map (flat_map (cut b e)) taken).
  { clear -Hfit. induction taken as [|l tl IH]; [reflexivity|].
    inversion Hfit; subst. cbn [map zip_with].
    rewrite splice_region by assumption. f_equal. apply IH. assumption. }
  rewrite restore_regions_any by (rewrite ?length_map; auto).
  rewrite Hzip. reflexivity.
Qed.

(** X28.  [apply_highlighter] with a highlighter that leaves the region
    display as it is: when [begin < end], the lines that the range reaches
    follow one another in the display buffer and the atoms of each of them
    are in order, [apply_highlighter] returns, and every atom that went to
    the region display is back in its place.  The display buffer has the
    same lines, each with its atoms cut at [begin] and at [end] as
    [highlight_range] cuts them: no atom is lost, doubled or moved. *)
Theorem apply_highlighter_cuts context flags d front taken back :
  DisplayBuffer.m_lines d = front ++ taken ++ back ->
  Forall (fun line => misses b e line = true) front ->
  Forall (fun line => misses b e line = false) taken ->
  Forall (fun line => misses b e line = true) back ->
  Forall (fun line => atoms_in_order None line = true) taken ->
  apply_highlighter compute_range b e context flags d
    (fun _ _ region_display => Some region_display)
  = Some (DisplayBuffer.mk
            (map (flat_map (highlight_atom b e false (fun a => a)))
                 (DisplayBuffer.m_lines d))
            (compute_range
               (map (flat_map (highlight_atom b e false (fun a => a)))
                    (DisplayBuffer.m_lines d)))).
Proof.
  intros Hlines Hfront Htaken Hback Hord.
  assert (Hfit : Forall (bounds_fit b e) taken).
  { eapply Forall_impl; [exact Hord|]. intros line. apply in_order_bounds_fit. }
  assert (Htaken' : Forall (fun line => misses b e line = false /\ bounds_fit b e line)
                      taken).
  { apply Forall_and. split; assumption. }
  unfold apply_highlighter. rewrite Hlines.
  rewrite (extract_lines_phases front taken back Hfront Htaken' Hback).
  cbn [mbind option_bind RegionDisplay.display_lines RegionDisplay.region_lines
       RegionDisplay.insert_pos RegionDisplay.first_line DisplayBuffer.m_lines].
  assert (Hresult : front ++ map (flat_map (cut b e)) taken ++ back
                    = map (flat_map (highlight_atom b e false (fun a => a)))
                          (front ++ taken ++ back)).
  { rewrite !map_app. f_equal; [|f_equal].
    - rewrite <- (map_id front) at 1. apply map_ext_in. intros line Hin.
      symmetry. apply (cut_misses b e). rewrite Forall_forall in Hfront.
      apply Hfront. apply list_elem_of_In. exact Hin.
    - rewrite <- (map_id back) at 1. apply map_ext_in. intros line Hin.
      symmetry. apply (cut_misses b e). rewrite Forall_forall in Hback.
      apply Hback. apply list_elem_of_In. exact Hin. }
  rewrite (restore_regions front taken back Hfit). cbn [mbind option_bind].
  rewrite Hresult. reflexivity.
Qed.

(** The three parts of a line that the range reaches. *)
Lemma carved_parts line :
  carved b e (flat_map (cut b e) line) (region_bounds b e line) ->
  flat_map (cut b e) line
  = take (fst (region_bounds b e line)) (flat_map (cut b e) line)
    ++ region_of b e line
    ++ drop (snd (region_bounds b e line)) (flat_map (cut b e) line)
  /\ Forall (ends_before b)
            (take (fst (region_bounds b e line)) (flat_map (cut b e) line))
  /\ Forall (lies_inside b e) (region_of b e line)
  /\ Forall (begins_after e)
            (drop (snd (region_bounds b e line)) (flat_map (cut b e) line)).
Proof.
  intros (P & R & A & HC & Hb & HP & HR & HA).
  unfold region_of. rewrite Hb, HC. cbn [fst snd].
  rewrite take_app_length.
  replace (length (P ++ R) - length P)%nat with (length R)
    by (rewrite length_app; lia).
  rewrite drop_app_length, take_app_length.
  rewrite app_assoc, drop_app_length. rewrite <- app_assoc. auto.
Qed.

(** X29.  What [apply_highlighter] gives to the highlighter and what it
    keeps from it, for [begin < end] within the coordinates of an [int],
    when the lines that the range reaches follow one another and the atoms of
    each of them are contiguous.  Each of these lines, cut at [begin] and at
    [end], is parted in the atoms that end before [begin], the atoms of the
    region and the atoms that begin after [end]; every [BufferRange] atom of
    the region lies inside [begin, end].  The highlighter is called on the
    regions alone, and when it returns as many lines as it was given,
    [apply_highlighter] returns the display buffer in which its lines stand
    between the atoms in front and the atoms behind, which are as they were,
    as are the lines that the range does not reach. *)
Theorem apply_highlighter_frame context flags d front taken back :
  Coord.le (mkCoord INT_MIN INT_MIN) b ->
  Coord.le e (mkCoord INT_MAX INT_MAX) ->
  DisplayBuffer.m_lines d = front ++ taken ++ back ->
  Forall (fun line => misses b e line = true) front ->
  Forall (fun line => misses b e line = false) taken ->
  Forall (fun line => misses b e line = true) back ->
  Forall (fun line => atoms_contiguous None line = true) taken ->
  exists parts : list (DisplayLine * DisplayLine * DisplayLine),
    Forall2 (fun line '(before, region, after) =>
               flat_map (highlight_atom b e false (fun a => a)) line
               = before ++ region ++ after
               /\ Forall (ends_before b) before
               /\ Forall (lies_inside b e) region
               /\ Forall (begins_after e) after)
            taken parts /\
    forall highlighter region_display,
      highlighter context flags
        (DisplayBuffer.mk
           (map (fun '(_, region, _) => region) parts)
           (compute_range (map (fun '(_, region, _) => region) parts)))
      = Some region_display ->
      length (DisplayBuffer.m_lines region_display) = length taken ->
      apply_highlighter compute_range b e context flags d highlighter
      = Some (DisplayBuffer.mk
                (front
                 ++ zip_with (fun '(before, _, after) region =>
                                before ++ region ++ after)
                             parts (DisplayBuffer.m_lines region_display)
                 ++ back)
                (compute_range
                   (front
                    ++ zip_with (fun '(before, _, after) region =>
                                   before ++ region ++ after)
                                parts (DisplayBuffer.m_lines region_display)
                    ++ back))).
Proof.
  intros Hmin Hmax Hlines Hfront Htaken Hback Hcont.
  assert (Hfit : Forall (bounds_fit b e) taken).
  { eapply Forall_impl; [exact Hcont|]. intros line Hl.
    apply in_order_bounds_fit, contiguous_in_order. exact Hl. }
  assert (Htaken' : Forall (fun line => misses b e line = false /\ bounds_fit b e line)
                      taken).
  { apply Forall_and. split; assumption. }
  set (part := fun line : DisplayLine =>
         (take (fst (region_bounds b e line)) (flat_map (cut b e) line),
          region_of b e line,
          drop (snd (region_bounds b e line)) (flat_map (cut b e) line))).
  exists (map part taken). split.
  - apply Forall2_fmap_r, Forall_Forall2_diag, Forall_forall.
    intros line Hin. unfold part.
    rewrite Forall_forall in Htaken, Hcont.
    apply (carved_parts line).
    apply (region_bounds_carved b e b_lt_e line Hmin Hmax);
      [apply Htaken | apply Hcont]; exact Hin.
  - intros highlighter region_display Hcall Hlen.
    unfold apply_highlighter. rewrite Hlines.
    rewrite (extract_lines_phases front taken back Hfront Htaken' Hback).
    cbn [mbind option_bind RegionDisplay.display_lines RegionDisplay.region_lines
         RegionDisplay.insert_pos RegionDisplay.first_line DisplayBuffer.m_lines].
    assert (Hregions : map (fun '(_, region, _) => region) (map part taken)
                       = map (region_of b e) taken).
    { rewrite map_map. apply map_ext. intros line. reflexivity. }
    rewrite Hregions in Hcall. rewrite Hcall. cbn [mbind option_bind].
    rewrite (restore_regions_any front taken back _ Hlen Hfit).
    cbn [mbind option_bind].
    assert (Hzip : forall regions,
              zip_with (fun '(before, _, after) region => before ++ region ++ after)
                       (map part taken) regions
              = zip_with (splice b e) taken regions).
    { intros regions. clear. revert regions.
      induction taken as [|line tl IH]; intros [|r regions]; try reflexivity.
      cbn [map zip_with]. rewrite IH. f_equal.
      unfold part, splice. destruct (region_bounds b e line). reflexivity. }
    rewrite Hzip. reflexivity.
Qed.

End ApplyHighlighterFacts.

Lemma apply_highlighter_cuts_witness :
  apply_highlighter Scenes.lines_range (mkCoord 5 2) (mkCoord 5 6)
    (Samples.context_of_lines 12) Highlight Samples.viewport_0_5_11
    (fun _ _ region_display => Some region_display)
  = Some (DisplayBuffer.mk
            (map (flat_map (highlight_atom (mkCoord 5 2) (mkCoord 5 6) false
                                           (fun a => a)))
                 (DisplayBuffer.m_lines Samples.viewport_0_5_11))
            (Scenes.lines_range
               (map (flat_map (highlight_atom (mkCoord 5 2) (mkCoord 5 6) false
                                              (fun a => a)))
                    (DisplayBuffer.m_lines Samples.viewport_0_5_11)))).
Proof.
  apply (apply_highlighter_cuts Scenes.lines_range (mkCoord 5 2) (mkCoord 5 6)
           ltac:(unfold Coord.lt; simpl; lia)
           (Samples.context_of_lines 12) Highlight Samples.viewport_0_5_11
           [[Samples.whole_line 0]] [[Samples.whole_line 5]]
           [[Samples.whole_line 11]]).
  - reflexivity.
  - constructor; [reflexivity | constructor].
  - constructor; [reflexivity | constructor].
  - constructor; [reflexivity | constructor].
  - constructor; [reflexivity | constructor].
Defined.

Lemma apply_highlighter_frame_witness :
  exists parts : list (DisplayLine * DisplayLine * DisplayLine),
    Forall2 (fun line '(before, region, after) =>
               flat_map (highlight_atom (mkCoord 5 2) (mkCoord 5 6) false
                                        (fun a => a)) line
               = before ++ region ++ after
               /\ Forall (ends_before (mkCoord 5 2)) before
               /\ Forall (lies_inside (mkCoord 5 2) (mkCoord 5 6)) region
               /\ Forall (begins_after (mkCoord 5 6)) after)
            [[Samples.whole_line 5]] parts /\
    forall highlighter region_display,
      highlighter (Samples.context_of_lines 12) Highlight
        (DisplayBuffer.mk
           (map (fun '(_, region, _) => region) parts)
           (Scenes.lines_range (map (fun '(_, region, _) => region) parts)))
      = Some region_display ->
      length (DisplayBuffer.m_lines region_display)
      = length [[Samples.whole_line 5]] ->
      apply_highlighter Scenes.lines_range (mkCoord 5 2) (mkCoord 5 6)
        (Samples.context_of_lines 12) Highlight Samples.viewport_0_5_11
        highlighter
      = Some (DisplayBuffer.mk
                ([[Samples.whole_line 0]]
                 ++ zip_with (fun '(before, _, after) region =>
                                before ++ region ++ after)
                             parts (DisplayBuffer.m_lines region_display)
                 ++ [[Samples.whole_line 11]])
                (Scenes.lines_range
                   ([[Samples.whole_line 0]]
                    ++ zip_with (fun '(before, _, after) region =>
                                   before ++ region ++ after)
                                parts (DisplayBuffer.m_lines region_display)
                    ++ [[Samples.whole_line 11]]))).
Proof.
  apply (apply_highlighter_frame Scenes.lines_range (mkCoord 5 2) (mkCoord 5 6)
           ltac:(unfold Coord.lt; simpl; lia)
           (Samples.context_of_lines 12) Highlight Samples.viewport_0_5_11
           [[Samples.whole_line 0]] [[Samples.whole_line 5]]
           [[Samples.whole_line 11]]).
  - unfold Coord.le, INT_MIN. simpl. lia.
  - unfold Coord.le, INT_MAX. simpl. lia.
  - reflexivity.
  - constructor; [reflexivity | constructor].
  - constructor; [reflexivity | constructor].
  - constructor; [reflexivity | constructor].
  - constructor; [reflexivity | constructor].
Defined.

(** An example: the atoms of buffer line 5 between the columns 2 and 6 are
    painted, and the atoms in front of them and behind them are not. *)
Example apply_highlighter_paints :
  apply_highlighter Scenes.lines_range (mkCoord 5 2) (mkCoord 5 6)
    (Samples.context_of_lines 12) Highlight Samples.viewport_0_5_11
    Scenes.paint_yellow
  = Some (DisplayBuffer.mk
            [[Samples.whole_line 0];
             [DisplayAtom.range (mkCoord 5 0) (mkCoord 5 2);
              DisplayAtom.set_face Samples.yellow
                (DisplayAtom.range (mkCoord 5 2) (mkCoord 5 6));
              DisplayAtom.range (mkCoord 5 6) (mkCoord 6 0)];
             [Samples.whole_line 11]]
            (mkCoord 0 0, mkCoord 12 0)).
Proof. reflexivity. Qed.

(** * [RegionsHighlighter::operator()] *)

Section RegionsHighlightFacts.

Variable regex_iterator : Regex -> string -> list (Z * Z).
Variable compute_range : list DisplayLine -> BufferRange.

(** When every region ends before a range or begins behind it, the two
    binary searches find the same position. *)
Lemma lower_bound_outside (first second : ByteCoord) regions :
  Forall (fun r => Coord.lt (Region.end_ r) first
                   \/ Coord.le second (Region.begin r)) regions ->
  lower_bound (fun r => Coord.ltb (Region.begin r) second)
    (drop (lower_bound (fun r => Coord.ltb (Region.end_ r) first) regions) regions)
  = 0%nat.
Proof.
  induction regions as [|r regions IH]; intros H; [reflexivity|].
  inversion H as [|? ? Hr Hrest]; subst. cbn [lower_bound].
  destruct (Coord.ltb (Region.end_ r) first) eqn:Hend.
  - cbn [drop]. apply IH. exact Hrest.
  - cbn [drop lower_bound]. destruct Hr as [Hr | Hr]; [coord_lia|].
    assert (Coord.ltb (Region.begin r) second = false) as -> by coord_lia.
    reflexivity.
Qed.

(** X30.  A display buffer whose range no region reaches: when
    [update_cache_ifn] returns the cache and every region in it ends before
    the range of the display buffer or begins behind it, the highlighter
    calls no group of a region.  Without a default group, or when the range
    is empty, the display buffer stays as it is; with a default group, the
    group is applied once, from the range's begin, corrected to the next
    line when it is the end of a line, to the range's end.  The cache that
    [update_cache_ifn] returns is the cache afterwards. *)
Theorem regions_highlight_outside groups context h d buffer_end modifs cache cache' :
  update_cache_ifn regex_iterator h (buffer context) buffer_end modifs cache
  = Some cache' ->
  Forall (fun r => Coord.lt (Region.end_ r) (fst (DisplayBuffer.m_range d))
                   \/ Coord.le (snd (DisplayBuffer.m_range d)) (Region.begin r))
         (RegionsHighlighter.regions cache') ->
  regions_highlight regex_iterator compute_range groups context Highlight
                    h d buffer_end modifs cache
  = match groups (RegionsHighlighter.m_default_group h) with
    | Some highlighter =>
        if Coord.ltb (fst (DisplayBuffer.m_range d)) (snd (DisplayBuffer.m_range d))
        then
          begin ← correct context (fst (DisplayBuffer.m_range d));
          d' ← apply_highlighter compute_range begin
                 (snd (DisplayBuffer.m_range d)) context Highlight d highlighter;
          Some (d', cache')
        else Some (d, cache')
    | None => Some (d, cache')
    end.
Proof.
  intros Hcache Hout. unfold regions_highlight.
  rewrite bool_decide_eq_true_2 by reflexivity. cbn [negb].
  rewrite Hcache. cbn [mbind option_bind]. cbv zeta.
  rewrite (lower_bound_outside _ _ _ Hout), take_0. cbn [highlight_regions].
  cbn [mbind option_bind]. unfold apply_default.
  destruct (groups (RegionsHighlighter.m_default_group h)) as [highlighter|];
    [|reflexivity].
  destruct (Coord.ltb _ _); [|reflexivity].
  destruct (correct context (fst (DisplayBuffer.m_range d))) as [begin|];
    [|reflexivity].
  cbn [mbind option_bind].
  destruct (apply_highlighter _ _ _ _ _ _ _); reflexivity.
Qed.

End RegionsHighlightFacts.

Lemma regions_highlight_outside_witness :
  exists cache',
    update_cache_ifn Samples.literal_iterator Scenes.x_regions Samples.old_buffer
                     (mkCoord 12 0) [] (RegionsHighlighter.mkCache 0 [] [])
    = Some cache' /\
    RegionsHighlighter.regions cache' <> [] /\
    regions_highlight Samples.literal_iterator Scenes.lines_range
      Scenes.default_only (mkContext Samples.old_buffer [] 0 (fun _ => []))
      Highlight Scenes.x_regions Scenes.viewport_6_7_8 (mkCoord 12 0) []
      (RegionsHighlighter.mkCache 0 [] [])
    = Some (DisplayBuffer.mk
              (map (map (DisplayAtom.set_face Samples.yellow))
                   (DisplayBuffer.m_lines Scenes.viewport_6_7_8))
              (mkCoord 6 0, mkCoord 9 0),
            cache').
Proof.
  eexists. split; [reflexivity|]. split; [discriminate|].
  rewrite (regions_highlight_outside Samples.literal_iterator Scenes.lines_range
             Scenes.default_only (mkContext Samples.old_buffer [] 0 (fun _ => []))
             Scenes.x_regions Scenes.viewport_6_7_8 (mkCoord 12 0) []
             (RegionsHighlighter.mkCache 0 [] []) _ eq_refl).
  - reflexivity.
  - cbn. repeat (constructor; [unfold Coord.lt, Coord.le; simpl; lia|]).
    constructor.
Defined.
